(** * SSA construction pass of the graph-compiler IR (ssa_transform.cpp)

    A shallow embedding of [ssa_transform_impl_t].  The input IR is a tree
    (read only), the output IR lives in a store of freshly built nodes, because
    the pass relies on node identity ([ptr_same]) and mutates nodes after they
    have been emitted (renaming of temporaries, patching of phi operands). *)

From Stdlib Require Import ZArith NArith String Ascii List Bool Lia.
From Stdlib Require Import DecimalString OrderedTypeEx Permutation.
From stdpp Require Import base list.

Set Warnings "-register-all".

Open Scope string_scope.
Open Scope list_scope.

(** ** Input IR *)

(** Modelled from the spec: the node kinds that may key a scope map, and the
    integer values [var_cmper_t] compares them by ("sort by kind then by
    name").  The enum [sc_expr_type] is declared with the IR; [var] is taken
    to precede [tensor], and no property below depends on which kind comes
    first. *)
Inductive sc_expr_type := sc_var | sc_tensor.

Definition sc_expr_type_int (t : sc_expr_type) : Z :=
  match t with sc_var => 2 | sc_tensor => 26 end.

Definition sc_expr_type_eqb (a b : sc_expr_type) : bool :=
  match a, b with
  | sc_var, sc_var | sc_tensor, sc_tensor => true
  | _, _ => false
  end.

Definition sc_data_type_t := string.
Definition any_map_t := list string.

(** A [var] or [tensor] node of the input: the "old variable". *)
Record leaf := Leaf {
  node_type_ : sc_expr_type;
  name_ : string;
  dtype_ : sc_data_type_t;
  attr_ : option any_map_t
}.

Inductive expr :=
| e_leaf (l : leaf)
| e_constant (value : Z) (dtype : sc_data_type_t)
| e_indexing (ptr : expr) (idx : list expr)
| e_compute (opname : string) (dtype : sc_data_type_t) (args : list expr).

Inductive linkage := linkage_local | linkage_public.

Inductive stmt :=
| s_define (attr : option any_map_t) (var_ : leaf) (linkage_ : linkage)
           (init_ : option expr)
| s_assign (attr : option any_map_t) (var_ : expr) (value_ : expr)
| s_for_loop (attr : option any_map_t) (var_ : leaf)
             (iter_begin_ iter_end_ step_ : expr) (body_ : stmt)
             (incremental_ : bool) (kind_ : nat)
| s_if_else (attr : option any_map_t) (condition_ : expr) (then_case_ : stmt)
            (else_case_ : option stmt)
| s_stmts (attr : option any_map_t) (seq_ : list stmt).

Record func := Func {
  f_name_ : string;
  f_params_ : list leaf;
  f_body_ : stmt;
  f_ret_type_ : sc_data_type_t;
  f_attr_ : option any_map_t
}.

(** ** Output IR: a store of nodes addressed by identity *)

Abbreviation id := nat (only parsing).

(** Modelled from the spec: the SSA metadata record of [ssa_data.hpp]
    ([is_global], [is_param], [is_local()] = not global and not param, and the
    back-pointer to the defining expression read by [get_value_of_var]). *)
Record ssa_data_t := SsaData {
  is_global_ : bool;
  is_param_ : bool;
  value_of_var : option id
}.

Definition is_local (d : ssa_data_t) : bool :=
  negb (is_global_ d) && negb (is_param_ d).

Inductive node_body :=
| var_node (name : string)
| tensor_node (name : string)
| constant_node (value : Z)
| indexing_node (ptr : id) (idx : list id)
| ssa_phi_node (values : list id)
| compute_node (opname : string) (args : list id).

Record node := Node {
  n_body : node_body;
  n_dtype : sc_data_type_t;
  n_attr : option any_map_t;
  ssa_data_ : option ssa_data_t
}.

Inductive ostmt :=
| o_define (attr : option any_map_t) (var : id) (lk : linkage) (init : option id)
| o_assign (attr : option any_map_t) (lhs rhs : id)
| o_for_loop (attr : option any_map_t) (var : id) (b e s : id)
             (body : option ostmt) (incremental : bool) (kind : nat)
| o_if_else (attr : option any_map_t) (cond : id)
            (then_case else_case : option ostmt)
| o_stmts (attr : option any_map_t) (seq : list ostmt).

Record ofunc := OFunc {
  of_name : string;
  of_params : list id;
  of_body : option ostmt;
  of_ret_type : sc_data_type_t;
  of_attr : option any_map_t
}.

(** ** Scope records *)

Record ssa_var_status_t := Status {
  current_value : option id;
  defined_scope_idx : nat;
  for_loop_phi : list id
}.

Inductive scope_kind := k_normal | k_for_loop | k_if_then | k_if_else.

Definition scope_kind_eqb (a b : scope_kind) : bool :=
  match a, b with
  | k_normal, k_normal | k_for_loop, k_for_loop
  | k_if_then, k_if_then | k_if_else, k_if_else => true
  | _, _ => false
  end.

(** [std::map<expr_c, V, var_cmper_t>]: an association list kept in the order
    of [var_cmper_t]; iteration is the list order. *)
Definition omap (V : Type) := list (leaf * V).

(** [for_depth_] is an [int] that counts enclosing loops; the depth of a
    tree stays far from its bound, so it is a [Z] without wrap-around. *)
Record ssa_scope_t := Scope {
  vars_ : omap ssa_var_status_t;
  kind_ : scope_kind;
  for_depth_ : Z
}.

Definition var_cmper_t (l r : leaf) : bool :=
  if negb (sc_expr_type_eqb (node_type_ l) (node_type_ r))
  then (sc_expr_type_int (node_type_ l) <? sc_expr_type_int (node_type_ r))%Z
  else String.ltb (name_ l) (name_ r).

Module OMap.
Section ops.
Context {V : Type}.

(** [find]: walk in key order until the key is met or passed. *)
Fixpoint find (k : leaf) (m : omap V) : option V :=
  match m with
  | [] => None
  | (k', v) :: m' =>
      if var_cmper_t k k' then None
      else if var_cmper_t k' k then find k m'
      else Some v
  end.

(** [insert]: [std::map::insert] keeps an existing entry untouched. *)
Fixpoint insert (k : leaf) (v : V) (m : omap V) : omap V :=
  match m with
  | [] => [(k, v)]
  | (k', v') :: m' =>
      if var_cmper_t k k' then (k, v) :: m
      else if var_cmper_t k' k then (k', v') :: insert k v m'
      else m
  end.

(** A write through a pointer to the mapped value of [k]. *)
Fixpoint alter (f : V -> V) (k : leaf) (m : omap V) : omap V :=
  match m with
  | [] => []
  | (k', v') :: m' =>
      if var_cmper_t k k' then m
      else if var_cmper_t k' k then (k', v') :: alter f k m'
      else (k', f v') :: m'
  end.
(** Keys strictly increasing: what a [std::map] holds. *)
Inductive sorted : omap V -> Prop :=
| sorted_nil : sorted []
| sorted_cons (k : leaf) (v : V) (m : omap V) :
    Forall (fun kv => var_cmper_t k (fst kv) = true) m ->
    sorted m -> sorted ((k, v) :: m).
End ops.
End OMap.

(** ** The pass instance and its monad *)

(** [ssa_transform_impl_t] together with the fields of its base
    [ssa_visitor_t].

    Modelled from the spec: [current_scope_] (the statements of the block
    under construction, to which [add_def] appends before the current
    statement), [stmts_to_insert_after] (filled by
    [add_def_after_current_stmt]) and [var_def_idx_] (numbering of fresh
    temporaries) belong to the visitor base, which is not part of the file. *)
Record impl := Impl {
  heap : list node;
  scopes_ : list ssa_scope_t;
  need_flatten_ : bool;
  var_version_idx : N;
  var_def_idx_ : N;
  current_scope_ : list ostmt;
  stmts_to_insert_after : list ostmt
}.

Definition init_impl : impl :=
  Impl [] [] true 0%N 0%N [] [].

(** The ways the pass can stop: a failed [COMPILE_ASSERT] (the fatal compile
    assertion), a failed [assert], a [checked_as] on a node of another kind,
    the use of an undefined handle or of a missing SSA metadata record, and
    [back()] on an empty scope stack. *)
Inductive error :=
| compile_assert (msg : string)
| assert_failed (what : string)
| bad_cast
| null_deref
| empty_back.

Inductive result (A : Type) :=
| OK (a : A)
| Err (e : error).
Arguments OK {A} a.
Arguments Err {A} e.

Definition M (A : Type) := impl -> result (A * impl).

Definition ret {A} (a : A) : M A := fun st => OK (a, st).
Definition fail {A} (e : error) : M A := fun _ => Err e.
Definition bind {A B} (m : M A) (k : A -> M B) : M B :=
  fun st => match m st with
            | OK (a, st') => k a st'
            | Err e => Err e
            end.
Definition get : M impl := fun st => OK (st, st).
Definition modify (f : impl -> impl) : M unit := fun st => OK (tt, f st).

Declare Scope ssa_scope.
Delimit Scope ssa_scope with ssa.
Notation "x <- c1 ;; c2" := (bind c1 (fun x => c2))
  (at level 100, c1 at next level, right associativity) : ssa_scope.
Notation "c1 ;;; c2" := (bind c1 (fun _ => c2))
  (at level 100, c2 at level 100, right associativity) : ssa_scope.
Open Scope ssa_scope.

Fixpoint for_each {A} (f : A -> M unit) (l : list A) : M unit :=
  match l with
  | [] => ret tt
  | a :: l' => f a ;;; for_each f l'
  end.

(** Field updates. *)
Definition set_heap (h : list node) (st : impl) : impl :=
  Impl h (scopes_ st) (need_flatten_ st) (var_version_idx st)
       (var_def_idx_ st) (current_scope_ st) (stmts_to_insert_after st).
Definition set_scopes (s : list ssa_scope_t) (st : impl) : impl :=
  Impl (heap st) s (need_flatten_ st) (var_version_idx st)
       (var_def_idx_ st) (current_scope_ st) (stmts_to_insert_after st).
Definition set_need_flatten (b : bool) (st : impl) : impl :=
  Impl (heap st) (scopes_ st) b (var_version_idx st)
       (var_def_idx_ st) (current_scope_ st) (stmts_to_insert_after st).
Definition set_var_version_idx (n : N) (st : impl) : impl :=
  Impl (heap st) (scopes_ st) (need_flatten_ st) n
       (var_def_idx_ st) (current_scope_ st) (stmts_to_insert_after st).
Definition set_var_def_idx (n : N) (st : impl) : impl :=
  Impl (heap st) (scopes_ st) (need_flatten_ st) (var_version_idx st)
       n (current_scope_ st) (stmts_to_insert_after st).
Definition set_current_scope (c : list ostmt) (st : impl) : impl :=
  Impl (heap st) (scopes_ st) (need_flatten_ st) (var_version_idx st)
       (var_def_idx_ st) c (stmts_to_insert_after st).
Definition set_insert_after (c : list ostmt) (st : impl) : impl :=
  Impl (heap st) (scopes_ st) (need_flatten_ st) (var_version_idx st)
       (var_def_idx_ st) (current_scope_ st) c.

(** ** Node store *)

Definition alloc (n : node) : M id :=
  fun st => OK (length (heap st), set_heap (heap st ++ [n]) st).

Definition deref (p : id) : M node :=
  fun st => match heap st !! p with
            | Some n => OK (n, st)
            | None => Err null_deref
            end.

Definition is_var_body (b : node_body) : bool :=
  match b with var_node _ => true | _ => false end.
Definition is_tensor_body (b : node_body) : bool :=
  match b with tensor_node _ => true | _ => false end.
Definition is_constant_body (b : node_body) : bool :=
  match b with constant_node _ => true | _ => false end.

(** [e.isa<T>()] on a possibly undefined handle *)
Definition isa (h : list node) (test : node_body -> bool) (e : option id) : bool :=
  match e with
  | Some p => match h !! p with Some n => test (n_body n) | None => false end
  | None => false
  end.

Definition uint64_succ (n : N) : N := ((n + 1) mod 2 ^ 64)%N.

Definition to_string (n : N) : string := NilEmpty.string_of_uint (N.to_uint n).

(** ** Scope stack *)

Definition scopes_back : M ssa_scope_t :=
  fun st => match last (scopes_ st) with
            | Some s => OK (s, st)
            | None => Err empty_back
            end.

Definition push_scope (k : scope_kind) : M unit :=
  fun st =>
    let for_depth := match last (scopes_ st) with
                     | None => 0%Z
                     | Some s => for_depth_ s
                     end in
    let for_depth := if scope_kind_eqb k k_for_loop
                     then (for_depth + 1)%Z else for_depth in
    OK (tt, set_scopes (scopes_ st ++ [Scope [] k for_depth]) st).

Definition pop_scope : M ssa_scope_t :=
  fun st => match last (scopes_ st) with
            | Some s => OK (s, set_scopes (removelast (scopes_ st)) st)
            | None => Err empty_back
            end.

(** A [ssa_var_status_t *]: the scope it lives in and the key it is mapped
    from.  Entries of a [std::map] never move, so the pair stays valid while
    the scope is on the stack. *)
Definition status_ptr := (nat * leaf)%type.

Definition with_vars (f : omap ssa_var_status_t -> omap ssa_var_status_t)
    (s : ssa_scope_t) : ssa_scope_t :=
  Scope (f (vars_ s)) (kind_ s) (for_depth_ s).

Definition read_status (p : status_ptr) : M ssa_var_status_t :=
  fun st => match scopes_ st !! fst p with
            | Some s => match OMap.find (snd p) (vars_ s) with
                        | Some v => OK (v, st)
                        | None => Err null_deref
                        end
            | None => Err null_deref
            end.

Definition write_status (p : status_ptr)
    (f : ssa_var_status_t -> ssa_var_status_t) : M unit :=
  modify (fun st =>
    set_scopes (alter (with_vars (OMap.alter f (snd p))) (fst p) (scopes_ st)) st).

Definition set_current_value (v : option id) (s : ssa_var_status_t) :=
  Status v (defined_scope_idx s) (for_loop_phi s).
Definition add_for_loop_phi (l : list id) (s : ssa_var_status_t) :=
  Status (current_value s) (defined_scope_idx s) (for_loop_phi s ++ l).

Definition insert_local_var (old_var : leaf) (new_val : option id)
    : M status_ptr :=
  fun st =>
    match scopes_ st with
    | [] => Err empty_back
    | _ :: _ =>
        let top := length (scopes_ st) - 1 in
        OK ((top, old_var),
            set_scopes
              (alter (with_vars (OMap.insert old_var (Status new_val top [])))
                     top (scopes_ st)) st)
    end.

(** The scan of [get_local_var_nothrow], from the back of the vector: the
    index of the innermost scope holding [k]; [i] is the index of the head. *)
Fixpoint find_scope (i : nat) (scopes : list ssa_scope_t) (k : leaf)
    : option nat :=
  match scopes with
  | [] => None
  | s :: rest =>
      match find_scope (S i) rest k with
      | Some r => Some r
      | None => match OMap.find k (vars_ s) with
                | Some _ => Some i
                | None => None
                end
      end
  end.

Definition get_local_var_nothrow (old_var : leaf) : M (option status_ptr) :=
  fun st =>
    OK (option_map (fun i => (i, old_var)) (find_scope 0 (scopes_ st) old_var),
        st).

Definition get_local_var (old_var : leaf) : M status_ptr :=
  r <- get_local_var_nothrow old_var ;;
  match r with
  | Some p => ret p
  | None => fail (compile_assert ("Undefined var:" ++ name_ old_var)%string)
  end.

(** Modelled from the spec: the attribute key whose presence marks a global
    ([attr_keys::module_global_offset]). *)
Definition module_global_offset : string := "module_global_offset".

Definition has_key (m : any_map_t) (k : string) : bool :=
  existsb (String.eqb k) m.

Definition is_old_var_global (old_var : leaf) : bool :=
  match node_type_ old_var, attr_ old_var with
  | sc_var, Some m => has_key m module_global_offset
  | _, _ => false
  end.

Definition get_local_var_for_update (old_var : leaf) : M status_ptr :=
  if is_old_var_global old_var then get_local_var old_var
  else
    back <- scopes_back ;;
    st <- get ;;
    match OMap.find old_var (vars_ back) with
    | Some _ => ret (length (scopes_ st) - 1, old_var)
    | None => insert_local_var old_var None
    end.

(** ** Node helpers *)

Definition update_node (p : id) (f : node -> node) : M unit :=
  fun st => match heap st !! p with
            | Some n => OK (tt, set_heap (<[p := f n]> (heap st)) st)
            | None => Err null_deref
            end.

Definition with_ssa_data (d : ssa_data_t) (n : node) : node :=
  Node (n_body n) (n_dtype n) (n_attr n) (Some d).
Definition with_body (b : node_body) (n : node) : node :=
  Node b (n_dtype n) (n_attr n) (ssa_data_ n).

Definition init_ssa_data (ex : id) : M unit :=
  n <- deref ex ;;
  match ssa_data_ n with
  | Some _ => fail (assert_failed "!ex->ssa_data_")
  | None => update_node ex (with_ssa_data (SsaData false false None))
  end.

(** [e->ssa_data_->...] on a handle that may be undefined *)
Definition ssa_data_of (e : option id) : M ssa_data_t :=
  match e with
  | None => fail null_deref
  | Some p => n <- deref p ;;
              match ssa_data_ n with
              | Some d => ret d
              | None => fail null_deref
              end
  end.

(** Modelled from the spec: [remake()] on a var or tensor node, a duplicate
    with fresh identity and no SSA metadata. *)
Definition remake (l : leaf) : M id :=
  alloc (Node (match node_type_ l with
               | sc_var => var_node (name_ l)
               | sc_tensor => tensor_node (name_ l)
               end) (dtype_ l) (attr_ l) None).

(** Modelled from the spec: [make_expr<ssa_phi_node>(operands)].  The node
    takes the dtype of its first operand; an undefined handle among the
    operands is treated as a null dereference. *)
Fixpoint defined_handles (l : list (option id)) : option (list id) :=
  match l with
  | [] => Some []
  | Some p :: l' => option_map (cons p) (defined_handles l')
  | None :: _ => None
  end.

Definition make_ssa_phi (values : list (option id)) : M id :=
  match defined_handles values with
  | None => fail null_deref
  | Some [] => fail (assert_failed "phi without operands")
  | Some (p :: ps) =>
      n <- deref p ;;
      alloc (Node (ssa_phi_node (p :: ps)) (n_dtype n) None None)
  end.

(** Modelled from the spec: [add_def(expr) -> var] appends a temporary
    definition before the current statement and returns a fresh variable
    referencing it; [add_def_after_current_stmt] appends after.  The fresh
    variable carries SSA metadata that is local and points back to the
    defining expression. *)
Definition new_temp_def (v : id) : M (id * ostmt) :=
  n <- deref v ;;
  st <- get ;;
  r <- alloc (Node (var_node ("__tmp" ++ to_string (var_def_idx_ st))%string)
                   (n_dtype n) None (Some (SsaData false false (Some v)))) ;;
  modify (set_var_def_idx (uint64_succ (var_def_idx_ st))) ;;;
  ret (r, o_define None r linkage_local (Some v)).

Definition add_def (v : id) : M id :=
  rd <- new_temp_def v ;;
  modify (fun st => set_current_scope (current_scope_ st ++ [snd rd]) st) ;;;
  ret (fst rd).

Definition add_def_after_current_stmt (v : id) : M id :=
  rd <- new_temp_def v ;;
  modify (fun st =>
            set_insert_after (stmts_to_insert_after st ++ [snd rd]) st) ;;;
  ret (fst rd).

Definition checked_as_var (p : id) : M unit :=
  n <- deref p ;;
  if is_var_body (n_body n) then ret tt else fail bad_cast.

Definition checked_as_var_key (k : leaf) : M leaf :=
  match node_type_ k with
  | sc_var => ret k
  | sc_tensor => fail bad_cast
  end.

Definition rename_temp_var_with_version (newv : id) (old_var : leaf) : M unit :=
  d <- ssa_data_of (Some newv) ;;
  if is_local d then
    st <- get ;;
    update_node newv
      (with_body (var_node (name_ old_var ++ "_"
                            ++ to_string (var_version_idx st))%string)) ;;;
    modify (set_var_version_idx (uint64_succ (var_version_idx st)))
  else ret tt.

(** ** Expressions *)

Definition visit_tensor (v : leaf) : M id :=
  r <- get_local_var v ;;
  status <- read_status r ;;
  match current_value status with
  | Some c => ret c
  | None => fail null_deref
  end.

Definition scope_at (i : nat) : M ssa_scope_t :=
  fun st => match scopes_ st !! i with
            | Some s => OK (s, st)
            | None => Err null_deref
            end.

Definition visit_var (v : leaf) : M id :=
  r <- get_local_var v ;;
  status <- read_status r ;;
  cur_scope <- scopes_back ;;
  d <- ssa_data_of (current_value status) ;;
  if negb (is_global_ d) then
    def_scope <- scope_at (defined_scope_idx status) ;;
    if (for_depth_ def_scope <? for_depth_ cur_scope)%Z then
      (* the variable depends on a value created outside the current loop *)
      node <- make_ssa_phi [current_value status] ;;
      phi <- add_def node ;;
      checked_as_var phi ;;;
      rename_temp_var_with_version phi v ;;;
      p <- insert_local_var v (Some phi) ;;
      write_status p (add_for_loop_phi [phi]) ;;;
      ret phi
    else
      match current_value status with
      | Some c => ret c
      | None => fail null_deref
      end
  else
    (* a global variable: add a "load instance" *)
    match current_value status with
    | Some c => add_def c
    | None => fail null_deref
    end.

(** The overridden [dispatch(expr_c)]: what happens to the value the visitor
    returned, given the flag saved on entry. *)
Definition flatten_result (old_need_flatten : bool) (r : id) : M id :=
  st <- get ;;
  if old_need_flatten
     && negb (isa (heap st) is_var_body (Some r))
     && negb (isa (heap st) is_tensor_body (Some r))
  then add_def r
  else ret r.

(** Modelled from the spec: the visitor base dispatches on the node kind and,
    for a node with children, dispatches every child and rebuilds the node
    ([e_constant] has no children and comes back as a node of its own).
    [dispatch] is [ssa_transform_impl_t::dispatch(expr_c)]. *)
Fixpoint dispatch (f : expr) : M id :=
  fun st =>
    let old_need_flatten := need_flatten_ st in
    bind
      (match f with
       | e_leaf l =>
           match node_type_ l with
           | sc_var => visit_var l
           | sc_tensor => visit_tensor l
           end
       | e_constant value dtype =>
           alloc (Node (constant_node value) dtype None None)
       | e_indexing ptr idx =>
           p <- dispatch ptr ;;
           ids <- (fix dispatch_vec (l : list expr) : M (list id) :=
                    match l with
                    | [] => ret []
                    | e :: l' => x <- dispatch e ;;
                                 xs <- dispatch_vec l' ;;
                                 ret (x :: xs)
                    end) idx ;;
           n <- deref p ;;
           alloc (Node (indexing_node p ids) (n_dtype n) None None)
       | e_compute opname dtype args =>
           xs <- (fix dispatch_vec (l : list expr) : M (list id) :=
                    match l with
                    | [] => ret []
                    | e :: l' => x <- dispatch e ;;
                                 xs <- dispatch_vec l' ;;
                                 ret (x :: xs)
                    end) args ;;
           alloc (Node (compute_node opname xs) dtype None None)
       end)
      (flatten_result old_need_flatten)
      (set_need_flatten true st).

(** ** Statements *)

Definition set_is_global (p : id) : M unit :=
  n <- deref p ;;
  match ssa_data_ n with
  | Some d => update_node p
                (with_ssa_data (SsaData true (is_param_ d) (value_of_var d)))
  | None => fail null_deref
  end.

Definition set_is_param (p : id) : M unit :=
  n <- deref p ;;
  match ssa_data_ n with
  | Some d => update_node p
                (with_ssa_data (SsaData (is_global_ d) true (value_of_var d)))
  | None => fail null_deref
  end.

Inductive define_type := LOCAL_VAR | GLOBAL_VAR | TENSOR.

Definition classify_define (var_ : leaf) : define_type :=
  match node_type_ var_ with
  | sc_var => if is_old_var_global var_ then GLOBAL_VAR else LOCAL_VAR
  | sc_tensor => TENSOR
  end.

Definition visit_define (attr : option any_map_t) (var_ : leaf)
    (lk : linkage) (init_ : option expr) : M (option ostmt) :=
  match lk with
  | linkage_public => fail (assert_failed "v->linkage_ == linkage::local")
  | linkage_local =>
      info <- insert_local_var var_ None ;;
      match classify_define var_, init_ with
      | LOCAL_VAR, None =>
          (* pure local var-def without init value, simply remove it *)
          c <- alloc (Node (constant_node 0) (dtype_ var_) None None) ;;
          write_status info (set_current_value (Some c)) ;;;
          init_ssa_data c ;;;
          ret None
      | type, _ =>
          newvar <- remake var_ ;;
          init_ssa_data newvar ;;;
          write_status info (set_current_value (Some newvar)) ;;;
          (match type with
           | GLOBAL_VAR => set_is_global newvar
           | _ => ret tt
           end) ;;;
          init <- match init_ with
                  | Some e => modify (set_need_flatten false) ;;;
                              r <- dispatch e ;;
                              ret (Some r)
                  | None => ret None
                  end ;;
          ret (Some (o_define attr newvar lk init))
      end
  end.

Definition visit_assign (attr : option any_map_t) (var_ value_ : expr)
    : M (option ostmt) :=
  match var_ with
  | e_leaf (Leaf sc_var _ _ _ as v) =>
      rhs <- dispatch value_ ;;
      var_info <- get_local_var_for_update v ;;
      status <- read_status var_info ;;
      is_global <- match current_value status with
                   | None => ret false
                   | Some c => d <- ssa_data_of (Some c) ;; ret (is_global_ d)
                   end ;;
      if negb is_global then
        write_status var_info (set_current_value (Some rhs)) ;;;
        st <- get ;;
        if isa (heap st) is_var_body (Some rhs)
           || isa (heap st) is_constant_body (Some rhs)
        then
          (if isa (heap st) is_var_body (Some rhs)
           then rename_temp_var_with_version rhs v
           else ret tt) ;;;
          ret None  (* no extra instruction needs to be inserted *)
        else fail (assert_failed "current_value is a var or a constant")
      else
        match current_value status with
        | Some c => ret (Some (o_assign attr c rhs))
        | None => fail null_deref
        end
  | e_indexing _ _ =>
      modify (set_need_flatten false) ;;;
      lhs <- dispatch var_ ;;
      rhs <- dispatch value_ ;;
      ret (Some (o_assign attr lhs rhs))
  | _ => fail (assert_failed "v->var_.isa<indexing>()")
  end.

Definition ptr_same (a : id) (b : option id) : bool :=
  match b with
  | Some p => Nat.eqb a p
  | None => false
  end.

(** [phi->ssa_data_->get_value_of_var().checked_as<ssa_phi>()
       ->values_.emplace_back(value)] *)
Definition patch_phi (phi : id) (value : option id) : M unit :=
  d <- ssa_data_of (Some phi) ;;
  match value_of_var d, value with
  | Some def, Some v =>
      n <- deref def ;;
      match n_body n with
      | ssa_phi_node values =>
          update_node def (with_body (ssa_phi_node (values ++ [v])))
      | _ => fail bad_cast
      end
  | _, _ => fail null_deref
  end.

(** The body of the loop over [scope.vars_] that closes a for-loop. *)
Definition for_loop_merge_entry (kv : leaf * ssa_var_status_t) : M unit :=
  parent_var <- get_local_var_nothrow (fst kv) ;;
  match parent_var with
  | None => ret tt
  | Some pv =>
      for_each
        (fun phi =>
           if ptr_same phi (current_value (snd kv))
           then ret tt  (* the variable is unchanged in the loop *)
           else patch_phi phi (current_value (snd kv)))
        (for_loop_phi (snd kv)) ;;;
      parent <- read_status pv ;;
      new_var <- make_ssa_phi [current_value parent;
                               current_value (snd kv)] ;;
      cur_v <- add_def_after_current_stmt new_var ;;
      p <- get_local_var_for_update (fst kv) ;;
      write_status p (set_current_value (Some cur_v)) ;;;
      checked_as_var cur_v ;;;
      k <- checked_as_var_key (fst kv) ;;
      rename_temp_var_with_version cur_v k
  end.

(** The first two loops of the two-armed merge: collect the arm's values
    into [updated_vars] and hand the arm's loop phis to the parent. *)
Fixpoint collect_arm (vars : omap ssa_var_status_t)
    (updated_vars : omap (list (option id))) : M (omap (list (option id))) :=
  match vars with
  | [] => ret updated_vars
  | kv :: rest =>
      let updated_vars :=
        OMap.alter (fun l => l ++ [current_value (snd kv)]) (fst kv)
                   (OMap.insert (fst kv) [] updated_vars) in
      p <- get_local_var_for_update (fst kv) ;;
      write_status p (add_for_loop_phi (for_loop_phi (snd kv))) ;;;
      collect_arm rest updated_vars
  end.

Definition merge_updated_var (kv : leaf * list (option id)) : M unit :=
  new_phi <- make_ssa_phi (snd kv) ;;
  new_var <- add_def_after_current_stmt new_phi ;;
  p <- get_local_var_for_update (fst kv) ;;
  write_status p (set_current_value (Some new_var)) ;;;
  checked_as_var new_var ;;;
  k <- checked_as_var_key (fst kv) ;;
  rename_temp_var_with_version new_var k.

Definition if_else_merge (then_vars else_vars : omap ssa_var_status_t)
    : M unit :=
  updated_vars <- collect_arm then_vars [] ;;
  updated_vars <- collect_arm else_vars updated_vars ;;
  for_each merge_updated_var updated_vars.

(** The body of the loop over [then_scope.vars_] when there is no else. *)
Definition if_then_merge_entry (kv : leaf * ssa_var_status_t) : M unit :=
  parent_var <- get_local_var_nothrow (fst kv) ;;
  match parent_var with
  | None => ret tt
  | Some pv =>
      status <- get_local_var_for_update (fst kv) ;;
      write_status status (add_for_loop_phi (for_loop_phi (snd kv))) ;;;
      parent <- read_status pv ;;
      new_phi <- make_ssa_phi [current_value parent;
                               current_value (snd kv)] ;;
      new_var <- add_def_after_current_stmt new_phi ;;
      write_status status (set_current_value (Some new_var)) ;;;
      checked_as_var new_var ;;;
      k <- checked_as_var_key (fst kv) ;;
      rename_temp_var_with_version new_var k
  end.

(** Modelled from the spec: the visitor base rebuilds a block statement by
    statement; the definitions added by [add_def] while a statement is
    dispatched precede it, the statement follows if it is still defined, and
    the definitions of [add_def_after_current_stmt] come immediately after. *)
Definition emit_stmt (news : option ostmt) : M unit :=
  modify (fun st =>
    set_insert_after []
      (set_current_scope
         (current_scope_ st
          ++ match news with Some s => [s] | None => [] end
          ++ stmts_to_insert_after st) st)).

Fixpoint dispatch_stmt (s : stmt) : M (option ostmt) :=
  match s with
  | s_define attr var_ lk init_ => visit_define attr var_ lk init_
  | s_assign attr var_ value_ => visit_assign attr var_ value_
  | s_for_loop attr var_ iter_begin_ iter_end_ step_ body_ incremental_ kind_ =>
      begin_ <- dispatch iter_begin_ ;;
      end_ <- dispatch iter_end_ ;;
      step <- dispatch step_ ;;
      push_scope k_for_loop ;;;
      thevar <- remake var_ ;;
      insert_local_var var_ (Some thevar) ;;;
      init_ssa_data thevar ;;;
      body <- dispatch_stmt body_ ;;
      scope <- pop_scope ;;
      for_each for_loop_merge_entry (vars_ scope) ;;;
      ret (Some (o_for_loop attr thevar begin_ end_ step body
                            incremental_ kind_))
  | s_if_else attr condition_ then_case_ else_case_ =>
      cond <- dispatch condition_ ;;
      push_scope k_if_then ;;;
      then_block <- dispatch_stmt then_case_ ;;
      then_scope <- pop_scope ;;
      match else_case_ with
      | Some else_case =>
          push_scope k_if_else ;;;
          else_block <- dispatch_stmt else_case ;;
          else_scope <- pop_scope ;;
          (* merge the diverged variables with phi *)
          if_else_merge (vars_ then_scope) (vars_ else_scope) ;;;
          ret (Some (o_if_else attr cond then_block else_block))
      | None =>
          for_each if_then_merge_entry (vars_ then_scope) ;;;
          ret (Some (o_if_else attr cond then_block None))
      end
  | s_stmts attr seq_ =>
      outer <- get ;;
      modify (set_current_scope []) ;;;
      (fix visit_seq (l : list stmt) : M unit :=
         match l with
         | [] => ret tt
         | s' :: l' => news <- dispatch_stmt s' ;;
                       emit_stmt news ;;;
                       visit_seq l'
         end) seq_ ;;;
      inner <- get ;;
      modify (set_current_scope (current_scope_ outer)) ;;;
      ret (Some (o_stmts attr (current_scope_ inner)))
  end.

(** [ssa_transform_impl_t::dispatch(func_c)] *)
Fixpoint bind_params (params : list leaf) : M (list id) :=
  match params with
  | [] => ret []
  | p :: rest =>
      newp <- remake p ;;
      init_ssa_data newp ;;;
      set_is_param newp ;;;
      insert_local_var p (Some newp) ;;;
      new_params <- bind_params rest ;;
      ret (newp :: new_params)
  end.

Definition dispatch_func (f : func) : M ofunc :=
  push_scope k_normal ;;;
  new_params <- bind_params (f_params_ f) ;;
  body <- dispatch_stmt (f_body_ f) ;;
  pop_scope ;;;
  ret (OFunc (f_name_ f) new_params body (f_ret_type_ f) (f_attr_ f)).

(** [ssa_transform_t::operator()]: a new pass instance for every call.

    Modelled from the spec: [top_level_dispatch] of the visitor base hands
    the function or statement to [dispatch]. *)
Definition ssa_transform_func (f : func) : result (ofunc * impl) :=
  dispatch_func f init_impl.

Definition ssa_transform_stmt (s : stmt) : result (option ostmt * impl) :=
  dispatch_stmt s init_impl.

(** * Vocabulary of the properties *)

(** ** Keys, nodes and states *)

(** Two keys are the same variable when neither precedes the other. *)
Definition same_key (a b : leaf) : Prop :=
  var_cmper_t a b = false /\ var_cmper_t b a = false.

(** The var that [add_def] makes for the expression [def]. *)
Definition temp_var_node (name : string) (dtype : sc_data_type_t) (def : id)
    : node :=
  Node (var_node name) dtype None (Some (SsaData false false (Some def))).

(** The renaming decision of [rename_temp_var_with_version]: the name changes
    exactly when the SSA metadata of the new variable is local. *)
Definition renamed (newv : id) (old_var : leaf) (st : impl) : impl :=
  match heap st !! newv with
  | Some n =>
      set_var_version_idx (uint64_succ (var_version_idx st))
        (set_heap
           (<[newv := with_body
                        (var_node (name_ old_var ++ "_"
                                   ++ to_string (var_version_idx st))%string) n]>
              (heap st)) st)
  | None => st
  end.

(** The state in which the body of a function with parameters [params] is
    dispatched. *)
Definition at_function_body (params : list leaf) : impl :=
  match (push_scope k_normal ;;; bind_params params) init_impl with
  | OK (_, st) => st
  | Err _ => init_impl
  end.

(** The wording "if that result is a var it is renamed": whenever the
    dispatched right-hand side is a var, the
    assignment leaves it named [<lhs-name>_<version>]. *)
Definition assign_renames_every_var : Prop :=
  forall (attr : option any_map_t) (v : leaf) (value : expr)
         (st st1 st' : impl) (rhs : id) (rn : node),
    node_type_ v = sc_var ->
    dispatch value st = OK (rhs, st1) ->
    heap st1 !! rhs = Some rn ->
    is_var_body (n_body rn) = true ->
    visit_assign attr (e_leaf v) value st = OK (None, st') ->
    n_body <$> heap st' !! rhs
    = Some (var_node (name_ v ++ "_" ++ to_string (var_version_idx st1))%string).

(** ** Phi nodes *)

(** The defining expression a temporary points back to, and the operand list
    of a phi node. *)
Definition phi_def (h : list node) (phi : id) : option id :=
  match h !! phi with
  | Some n => match ssa_data_ n with
              | Some d => value_of_var d
              | None => None
              end
  | None => None
  end.

Definition phi_values (h : list node) (def : id) : option (list id) :=
  match h !! def with
  | Some n => match n_body n with
              | ssa_phi_node vs => Some vs
              | _ => None
              end
  | None => None
  end.

(** How many of the recorded loop phis are not the value [cv] itself and are
    defined by the node [def]. *)
Fixpoint patch_count (h : list node) (phis : list id) (cv def : id) : nat :=
  match phis with
  | [] => 0
  | phi :: rest =>
      (if negb (Nat.eqb phi cv)
          && match phi_def h phi with
             | Some d => Nat.eqb d def
             | None => false
             end
       then 1 else 0) + patch_count h rest cv def
  end.

(** Updates that keep the SSA metadata and the dtype of every node. *)
Definition same_meta (h h' : list node) : Prop :=
  length h' = length h
  /\ forall p, (ssa_data_ <$> h' !! p) = (ssa_data_ <$> h !! p)
               /\ (n_dtype <$> h' !! p) = (n_dtype <$> h !! p).

(** ** Bindings seen through the stack *)

(** The status of [k] in the scope of index [j], if any. *)
Definition status_at (scopes : list ssa_scope_t) (j : nat) (k : leaf)
    : option ssa_var_status_t :=
  match scopes !! j with
  | Some s => OMap.find k (vars_ s)
  | None => None
  end.

(** What a lookup for update or a write to the status of [k] may change:
    nothing for another variable, and [k] stays bound wherever it was. *)
Definition grows (k : leaf) (scopes scopes' : list ssa_scope_t) : Prop :=
  length scopes' = length scopes
  /\ (forall k' j, ~ same_key k k' -> status_at scopes' j k' = status_at scopes j k')
  /\ (forall j, status_at scopes j k <> None -> status_at scopes' j k <> None).

(** ** The two-armed merge *)

(** The values [collect_arm] gathers, apart from its effect on the stack. *)
Fixpoint collect_values (vars : omap ssa_var_status_t)
    (updated_vars : omap (list (option id))) : omap (list (option id)) :=
  match vars with
  | [] => updated_vars
  | kv :: rest =>
      collect_values rest
        (OMap.alter (fun l => l ++ [current_value (snd kv)]) (fst kv)
                    (OMap.insert (fst kv) [] updated_vars))
  end.

(** An entry of [updated_vars] that the third loop can process. *)
Definition entry_ok (st : impl) (kv : leaf * list (option id)) : Prop :=
  node_type_ (fst kv) = sc_var
  /\ (is_old_var_global (fst kv) = true ->
      find_scope 0 (scopes_ st) (fst kv) <> None)
  /\ exists p ps n, defined_handles (snd kv) = Some (p :: ps)
                    /\ heap st !! p = Some n.

(** An entry of an arm that the merge can process: a var that is visible if
    it is global, with a current value that exists. *)
Definition arm_ok (st : impl) (kv : leaf * ssa_var_status_t) : Prop :=
  node_type_ (fst kv) = sc_var
  /\ (is_old_var_global (fst kv) = true ->
      find_scope 0 (scopes_ st) (fst kv) <> None)
  /\ exists cv n, current_value (snd kv) = Some cv /\ heap st !! cv = Some n.

(** What the entries of [updated_vars] inherit from the arms. *)
Definition entry_pre (st : impl) (kv : leaf * list (option id)) : Prop :=
  node_type_ (fst kv) = sc_var
  /\ (is_old_var_global (fst kv) = true ->
      find_scope 0 (scopes_ st) (fst kv) <> None)
  /\ snd kv <> []
  /\ Forall (fun v => exists c n, v = Some c /\ heap st !! c = Some n) (snd kv).

(** ** What holds whenever a computation returns *)

Definition wlp {A} (m : M A) (Q : A -> impl -> Prop) (st : impl) : Prop :=
  forall a st', m st = OK (a, st') -> Q a st'.

(** ** Programs and what is read off their output *)

(** [func f(A) { define k = 7; for i in 0..n { A[i] = k } }]: the loop reads
    [k] and never assigns it. *)
Definition read_only_loop (n : Z) : func :=
  let k := Leaf sc_var "k" "s32" None in
  let i := Leaf sc_var "i" "s32" None in
  let A := Leaf sc_tensor "A" "f32" None in
  Func "f" [A]
    (s_stmts None
       [s_define None k linkage_local (Some (e_constant 7 "s32"));
        s_for_loop None i (e_constant 0 "s32") (e_constant n "s32")
          (e_constant 1 "s32")
          (s_stmts None
             [s_assign None (e_indexing (e_leaf A) [e_leaf i]) (e_leaf k)])
          true 0])
    "void" None.

(** The phi definitions of a block: the defined var, its name and the
    operands of the phi. *)
Definition phi_definitions (h : list node) (seq : list ostmt)
    : list (id * option node_body * list id) :=
  flat_map
    (fun s => match s with
              | o_define _ v _ (Some init) =>
                  match phi_values h init with
                  | Some vs => [(v, n_body <$> h !! v, vs)]
                  | None => []
                  end
              | _ => []
              end) seq.

Fixpoint first_loop_body (seq : list ostmt) : list ostmt :=
  match seq with
  | [] => []
  | o_for_loop _ _ _ _ _ (Some (o_stmts _ body)) _ _ :: _ => body
  | _ :: rest => first_loop_body rest
  end.

Fixpoint after_first_loop (seq : list ostmt) : list ostmt :=
  match seq with
  | [] => []
  | o_for_loop _ _ _ _ _ _ _ _ :: rest => rest
  | _ :: rest => after_first_loop rest
  end.

Definition body_seq (f : ofunc) : list ostmt :=
  match of_body f with
  | Some (o_stmts _ seq) => seq
  | _ => []
  end.

(** The wording "emits no post-loop phi": no phi follows the loop. *)
Definition no_post_loop_phi (n : Z) : Prop :=
  forall out st,
    ssa_transform_func (read_only_loop n) = OK (out, st) ->
    phi_definitions (heap st) (after_first_loop (body_seq out)) = [].

(** ** Iteration order *)

(** The identity [var_cmper_t] compares: node kind, then name. *)
Definition key_id (k : leaf) : sc_expr_type * string := (node_type_ k, name_ k).

(** A scope map filled by a sequence of insertions. *)
Definition map_of_inserts {V} (l : list (leaf * V)) : omap V :=
  fold_left (fun m kv => OMap.insert (fst kv) (snd kv) m) l [].

(** The keys of a map in iteration order. *)
Definition keys {V} (m : omap V) : list (sc_expr_type * string) :=
  map (fun kv => key_id (fst kv)) m.

(** ** Flat stores *)

(** The operands of a node: the pointer and indices of an indexing, the
    values of a phi, the arguments of any other operation. *)
Definition operands (b : node_body) : list id :=
  match b with
  | indexing_node ptr idx => ptr :: idx
  | ssa_phi_node values => values
  | compute_node _ args => args
  | var_node _ | tensor_node _ | constant_node _ => []
  end.

Definition leaf_body (b : node_body) : bool :=
  is_var_body b || is_tensor_body b || is_constant_body b.

(** [q] is a var, a tensor or a constant of the store. *)
Definition is_leaf (h : list node) (q : id) : Prop :=
  exists n, h !! q = Some n /\ leaf_body (n_body n) = true.

(** Every operand of every node of the store is a leaf. *)
Definition flat (h : list node) : Prop :=
  forall p n, h !! p = Some n -> Forall (is_leaf h) (operands (n_body n)).

(** A handle that, when defined, is a leaf; the current values of all
    scopes are such handles. *)
Definition leaf_value (h : list node) (v : option id) : Prop :=
  forall c, v = Some c -> is_leaf h c.

Definition values_ok (h : list node) (scopes : list ssa_scope_t) : Prop :=
  Forall (fun sc => Forall (fun kv => leaf_value h (current_value (snd kv)))
                           (vars_ sc)) scopes.

(** The invariant of the pass. *)
Definition inv (h : list node) (scopes : list ssa_scope_t) : Prop :=
  flat h /\ values_ok h scopes.

(** Leaves stay leaves. *)
Definition hle (h h' : list node) : Prop := forall q, is_leaf h q -> is_leaf h' q.

(** From a state that satisfies the invariant, [m] can only return in a
    state that satisfies it, where the leaves of before are still leaves and
    [Q] holds. *)
Definition wlpi {A} (m : M A) (Q : A -> impl -> Prop) (st : impl) : Prop :=
  inv (heap st) (scopes_ st) ->
  wlp m (fun a st' => inv (heap st') (scopes_ st')
                      /\ hle (heap st) (heap st') /\ Q a st') st.

(** The dispatch of the children of a node, as the visitor base does it
    (the local recursion of [dispatch], by name). *)
Fixpoint dispatch_vec (l : list expr) : M (list id) :=
  match l with
  | [] => ret []
  | e :: l' => x <- dispatch e ;; xs <- dispatch_vec l' ;; ret (x :: xs)
  end.

(** What the visitor does with a node, before the result is flattened. *)
Definition visit_expr (f : expr) : M id :=
  match f with
  | e_leaf l =>
      match node_type_ l with
      | sc_var => visit_var l
      | sc_tensor => visit_tensor l
      end
  | e_constant value dtype => alloc (Node (constant_node value) dtype None None)
  | e_indexing ptr idx =>
      p <- dispatch ptr ;;
      ids <- dispatch_vec idx ;;
      n <- deref p ;;
      alloc (Node (indexing_node p ids) (n_dtype n) None None)
  | e_compute opname dtype args =>
      xs <- dispatch_vec args ;;
      alloc (Node (compute_node opname xs) dtype None None)
  end.

(** What a dispatch returns: a node of the store, a var or a tensor when
    [need_flatten_] was set on entry. *)
Definition node_at (h : list node) (r : id) : Prop := exists n, h !! r = Some n.

Definition var_or_tensor (h : list node) (r : id) : bool :=
  isa h is_var_body (Some r) || isa h is_tensor_body (Some r).

Definition dispatch_post (old : bool) (r : id) (st' : impl) : Prop :=
  need_flatten_ st' = true /\ node_at (heap st') r
  /\ (old = true -> var_or_tensor (heap st') r = true).

Definition any_result {A} (_ : A) (_ : impl) : Prop := True.

(** The loop of the visitor base over the statements of a block (the local
    recursion of [dispatch_stmt], by name). *)
Fixpoint visit_seq (l : list stmt) : M unit :=
  match l with
  | [] => ret tt
  | s' :: l' => news <- dispatch_stmt s' ;; emit_stmt news ;;; visit_seq l'
  end.

(** [func f(b, c, d) { define a = (b + c) * d }] *)
Definition nested_product : func :=
  let v := fun name => Leaf sc_var name "s32" None in
  Func "f" [v "b"; v "c"; v "d"]
    (s_stmts None
       [s_define None (v "a") linkage_local
          (Some (e_compute "mul" "s32"
                   [e_compute "add" "s32" [e_leaf (v "b"); e_leaf (v "c")];
                    e_leaf (v "d")]))])
    "void" None.

(** ** The shape of the stack and the life of a node *)

(** The kind and the loop depth of a scope: what [push_scope] fixes once and
    for all. *)
Definition shape (s : ssa_scope_t) : scope_kind * Z := (kind_ s, for_depth_ s).

(** The depth [push_scope] gives to a scope of kind [k] pushed on [scopes]. *)
Definition pushed_depth (scopes : list ssa_scope_t) (k : scope_kind) : Z :=
  let for_depth := match last scopes with
                   | None => 0%Z
                   | Some s => for_depth_ s
                   end in
  if scope_kind_eqb k k_for_loop then (for_depth + 1)%Z else for_depth.

(** A well-formed stack: every map is in key order, every status is stamped
    with the index of the scope that holds it, and every scope has the
    depth it was pushed with. *)
Definition stack_ok (scopes : list ssa_scope_t) : Prop :=
  forall j sc, scopes !! j = Some sc ->
    OMap.sorted (vars_ sc)
    /\ Forall (fun kv => defined_scope_idx (snd kv) = j) (vars_ sc)
    /\ for_depth_ sc = pushed_depth (take j scopes) (kind_ sc).

(** The number of for-loop scopes of a stack, and among its scopes of index
    at most [j]. *)
Fixpoint count_loops (scopes : list ssa_scope_t) : Z :=
  match scopes with
  | [] => 0
  | s :: rest =>
      ((if scope_kind_eqb (kind_ s) k_for_loop then 1 else 0) + count_loops rest)%Z
  end.

Definition loops_upto (scopes : list ssa_scope_t) (j : nat) : Z :=
  count_loops (take (S j) scopes).

(** What may become of the body of a node: a var stays a var (under a new
    name, perhaps), a phi gets operands appended, anything else stays as it
    is. *)
Definition body_le (b b' : node_body) : Prop :=
  match b, b' with
  | var_node _, var_node _ => True
  | ssa_phi_node vs, ssa_phi_node vs' => exists more, vs' = vs ++ more
  | _, _ => b' = b
  end.

(** What may become of the SSA metadata: once attached it stays attached,
    it keeps pointing to the same definition, and a flag that is set stays
    set. *)
Definition data_le (d d' : option ssa_data_t) : Prop :=
  match d with
  | None => True
  | Some x =>
      exists x', d' = Some x'
                 /\ value_of_var x' = value_of_var x
                 /\ (is_global_ x = true -> is_global_ x' = true)
                 /\ (is_param_ x = true -> is_param_ x' = true)
  end.

Definition node_le (n n' : node) : Prop :=
  n_dtype n' = n_dtype n
  /\ n_attr n' = n_attr n
  /\ body_le (n_body n) (n_body n')
  /\ data_le (ssa_data_ n) (ssa_data_ n')
  /\ (forall name d, n_body n = var_node name -> ssa_data_ n = Some d ->
                     is_local d = false -> n_body n' = var_node name).

(** Every node of [h] is still in [h'], at the same place. *)
Definition heap_le (h h' : list node) : Prop :=
  forall p n, h !! p = Some n -> exists n', h' !! p = Some n' /\ node_le n n'.

(** No scope below the top of [scopes] has got a key it did not hold. *)
Definition keeps_keys_below (scopes scopes' : list ssa_scope_t) : Prop :=
  forall j k, S j < length scopes ->
              status_at scopes j k = None -> status_at scopes' j k = None.

(** How a piece of the pass that pushes as much as it pops leaves the pass
    instance. *)
Definition post (st st' : impl) : Prop :=
  map shape (scopes_ st') = map shape (scopes_ st)
  /\ (stack_ok (scopes_ st) -> stack_ok (scopes_ st'))
  /\ heap_le (heap st) (heap st')
  /\ keeps_keys_below (scopes_ st) (scopes_ st')
  /\ (need_flatten_ st = true -> need_flatten_ st' = true).

(** The same with one more scope on the stack. *)
Definition post_push (st st' : impl) : Prop :=
  (exists below top, scopes_ st' = below ++ [top]
                     /\ map shape below = map shape (scopes_ st))
  /\ (stack_ok (scopes_ st) -> stack_ok (scopes_ st'))
  /\ heap_le (heap st) (heap st')
  /\ keeps_keys_below (scopes_ st) (scopes_ st')
  /\ (need_flatten_ st = true -> need_flatten_ st' = true).

Definition respects {A} (m : M A) : Prop :=
  forall st, wlp m (fun _ st' => post st st') st.

(** A definition of a temporary, as [add_def] emits it. *)
Definition is_temp_def (s : ostmt) : Prop :=
  exists v init, s = o_define None v linkage_local (Some init).

(** What the dispatch of an expression may do to the pass instance: add
    nodes to the store, add entries to the scopes, add definitions of
    temporaries before the current statement; nothing that exists changes. *)
Definition only_adds (st st' : impl) : Prop :=
  (exists news, heap st' = heap st ++ news)
  /\ map shape (scopes_ st') = map shape (scopes_ st)
  /\ (forall j k s, status_at (scopes_ st) j k = Some s ->
                    status_at (scopes_ st') j k = Some s)
  /\ (forall j, S j < length (scopes_ st) -> scopes_ st' !! j = scopes_ st !! j)
  /\ (exists defs, current_scope_ st' = current_scope_ st ++ defs
                   /\ Forall is_temp_def defs)
  /\ stmts_to_insert_after st' = stmts_to_insert_after st.

Definition adds {A} (m : M A) : Prop :=
  forall st, stack_ok (scopes_ st) -> wlp m (fun _ st' => only_adds st st') st.

(** The vars and tensors an expression reads. *)
Fixpoint leaves (e : expr) : list leaf :=
  match e with
  | e_leaf l => [l]
  | e_constant _ _ => []
  | e_indexing ptr idx => leaves ptr ++ flat_map leaves idx
  | e_compute _ _ args => flat_map leaves args
  end.

(** A key that can be read: it is bound, and the current value of its
    innermost binding is a node of the store, with SSA metadata when the key
    is a var. *)
Definition usable (st : impl) (k : leaf) : Prop :=
  exists j s c n,
    find_scope 0 (scopes_ st) k = Some j
    /\ status_at (scopes_ st) j k = Some s
    /\ current_value s = Some c
    /\ heap st !! c = Some n
    /\ (node_type_ k = sc_var -> ssa_data_ n <> None).

(** [m] returns from [st], with a result and a state that satisfy [Q]. *)
Definition returns {A} (m : M A) (Q : A -> impl -> Prop) (st : impl) : Prop :=
  exists a st', m st = OK (a, st') /\ Q a st'.

(** What a dispatch that returns guarantees for what follows. *)
Definition dispatched (st : impl) (r : id) (st' : impl) : Prop :=
  stack_ok (scopes_ st')
  /\ node_at (heap st') r
  /\ forall k, usable st k -> usable st' k.

(** The node [remake] makes for the var or tensor [l], with SSA metadata
    [d] attached. *)
Definition remade (l : leaf) (d : option ssa_data_t) : node :=
  Node (match node_type_ l with
        | sc_var => var_node (name_ l)
        | sc_tensor => tensor_node (name_ l)
        end) (dtype_ l) (attr_ l) d.

(** The node made for a parameter: the kind, name, dtype and attributes of
    the old one, flagged as a parameter. *)
Definition param_node (p : leaf) : node :=
  Node (match node_type_ p with
        | sc_var => var_node (name_ p)
        | sc_tensor => tensor_node (name_ p)
        end) (dtype_ p) (attr_ p) (Some (SsaData false true None)).

(** The entries [bind_params] adds to the scope of the function, the first
    parameter receiving the node [base]. *)
Fixpoint param_entries (base : nat) (scope_idx : nat) (params : list leaf)
    (m : omap ssa_var_status_t) : omap ssa_var_status_t :=
  match params with
  | [] => m
  | p :: rest =>
      param_entries (S base) scope_idx rest
        (OMap.insert p (Status (Some base) scope_idx []) m)
  end.

(** The test that two keys are the same for [var_cmper_t]. *)
Definition same_keyb (a b : leaf) : bool :=
  negb (var_cmper_t a b) && negb (var_cmper_t b a).

(** The loop phis recorded for [k] in the top scope, none if it has no
    entry there. *)
Definition top_phis (scopes : list ssa_scope_t) (k : leaf) : list id :=
  match last scopes with
  | Some top => match OMap.find k (vars_ top) with
                | Some s => for_loop_phi s
                | None => []
                end
  | None => []
  end.

(** The loop phis the entries of a popped scope record for [k]. *)
Definition handed (k : leaf) (vars : omap ssa_var_status_t) : list id :=
  flat_map (fun kv => if same_keyb (fst kv) k then for_loop_phi (snd kv) else [])
           vars.

(** ** The close of a for-loop inside the pass *)

(** [visit(for_loop_c)] up to the end of the body: the bounds and the step,
    the loop scope, the loop variable, the body. *)
Definition loop_body_run (v : leaf) (b e s : expr) (body : stmt)
    : M (id * id * id * id * option ostmt) :=
  begin_ <- dispatch b ;;
  end_ <- dispatch e ;;
  step <- dispatch s ;;
  push_scope k_for_loop ;;;
  thevar <- remake v ;;
  insert_local_var v (Some thevar) ;;;
  init_ssa_data thevar ;;;
  body' <- dispatch_stmt body ;;
  ret (begin_, end_, step, thevar, body').

(** The state in which the then-branch of [func f(params) { if (c) ... }]
    is dispatched, [c] being a parameter. *)
Definition in_then_branch (params : list leaf) : impl :=
  match push_scope k_if_then (at_function_body params) with
  | OK (_, st) => st
  | Err _ => init_impl
  end.

(** The wording "the parent scope's current_value is overwritten with the
    new renamed temporary": when a for-loop has changed the value that the
    lookup of [k] yields, the entry that the lookup found before the loop
    (the parent) holds the new value. *)
Definition loop_overwrites_parent : Prop :=
  forall (a : option any_map_t) (v : leaf) (b e s : expr) (body : stmt)
         (inc : bool) (kd : nat) (st st' : impl) (r : option ostmt)
         (k : leaf) (i j : nat) (parent now : ssa_var_status_t),
    dispatch_stmt (s_for_loop a v b e s body inc kd) st = OK (r, st') ->
    find_scope 0 (scopes_ st) k = Some i ->
    status_at (scopes_ st) i k = Some parent ->
    find_scope 0 (scopes_ st') k = Some j ->
    status_at (scopes_ st') j k = Some now ->
    current_value now <> current_value parent ->
    exists parent',
      status_at (scopes_ st') i k = Some parent'
      /\ current_value parent' = current_value now.

(** ** The order and the numbering of the merge phis *)

(** [k] is bound in some scope of the stack. *)
Definition is_visible (st : impl) (k : leaf) : bool :=
  match find_scope 0 (scopes_ st) k with
  | Some _ => true
  | None => false
  end.

(** The name of the var a definition defines. *)
Definition defined_name (h : list node) (s : ostmt) : option string :=
  match s with
  | o_define _ v _ _ =>
      match n_body <$> h !! v with
      | Some (var_node name) => Some name
      | _ => None
      end
  | _ => None
  end.

(** The names [rename_temp_var_with_version] gives when it is called for
    the keys [ks] in turn from the version counter [v], and the counter it
    leaves. *)
Fixpoint merge_names (v : N) (ks : list leaf) : list string :=
  match ks with
  | [] => []
  | k :: rest =>
      (name_ k ++ "_" ++ to_string v)%string :: merge_names (uint64_succ v) rest
  end.

Fixpoint version_after (v : N) (ks : list leaf) : N :=
  match ks with
  | [] => v
  | _ :: rest => version_after (uint64_succ v) rest
  end.

(** From [st] to [st'] one definition has been queued to follow the current
    statement for each key of [ks], in the order of [ks], and the defined
    vars carry the names of [merge_names]. *)
Definition emits_for (ks : list leaf) (st st' : impl) : Prop :=
  exists defs,
    stmts_to_insert_after st' = stmts_to_insert_after st ++ defs
    /\ map (defined_name (heap st')) defs
       = map Some (merge_names (var_version_idx st) ks)
    /\ var_version_idx st' = version_after (var_version_idx st) ks.

(** The vars of [st] are in [st'] under the same names. *)
Definition names_kept (st st' : impl) : Prop :=
  forall p name, n_body <$> heap st !! p = Some (var_node name) ->
                 n_body <$> heap st' !! p = Some (var_node name).

(** The keys other than [k] are bound where they were. *)
Definition others_kept (k : leaf) (st st' : impl) : Prop :=
  forall k', ~ same_key k k' ->
             find_scope 0 (scopes_ st') k' = find_scope 0 (scopes_ st) k'.

(** One step of a merge for the key [k]: when it merges, one definition is
    queued, named after [k] and the version counter. *)
Definition step_emits (k : leaf) (merged : bool) (st st' : impl) : Prop :=
  names_kept st st'
  /\ others_kept k st st'
  /\ emits_for (if merged then [k] else []) st st'.

(** The keys for which a merge over [vars] emits a phi: all of them in the
    two-armed merge, those still visible otherwise. *)
Definition merged_keys {V} (always : bool) (st : impl) (vars : omap V)
    : list leaf :=
  map fst (List.filter (fun kv => always || is_visible st (fst kv)) vars).

(** The wording "for a function or a standalone statement tree": a
    statement tree that the pass transforms as the body of a function is
    transformed alike when it stands alone. *)
Definition standalone_tree_as_function_body : Prop :=
  forall (s : stmt) (out : ofunc) (st : impl),
    ssa_transform_func (Func "f" [] s "void" None) = OK (out, st) ->
    exists st', ssa_transform_stmt s = OK (of_body out, st').

(** [m] does not read the top of an empty stack when it starts with at
    least [n] scopes. *)
Definition guarded (n : nat) {A} (m : M A) : Prop :=
  forall st, n <= length (scopes_ st) -> m st <> Err empty_back.

(** [m] returns with as many scopes as it found. *)
Definition keeps_depth {A} (m : M A) : Prop :=
  forall st, wlp m (fun _ st' => length (scopes_ st') = length (scopes_ st)) st.

(** Every key of [ks] precedes, for [var_cmper_t], the keys that follow
    it. *)
Definition in_key_order (ks : list leaf) : Prop :=
  OMap.sorted (map (fun k => (k, tt)) ks).

(** [func f(a, b, n) { for i in 0..n { first; second } }] where the two
    statements increment [a] and [b], in the order given. *)
Definition increment (x : leaf) : stmt :=
  s_assign None (e_leaf x) (e_compute "add" "s32" [e_leaf x; e_constant 1 "s32"]).

Definition counting_loop (first second : leaf) : stmt :=
  s_for_loop None (Leaf sc_var "i" "s32" None) (e_constant 0 "s32")
    (e_leaf (Leaf sc_var "n" "s32" None)) (e_constant 1 "s32")
    (s_stmts None [increment first; increment second]) true 0.

(** * Properties *)

(** ** The key order *)

Lemma string_ltb_irrefl (s : string) : String.ltb s s = false.
Proof.
  unfold String.ltb.
  assert (H : String.compare s s = Eq) by (apply String_as_OT.cmp_eq; reflexivity).
  rewrite H. reflexivity.
Qed.

Lemma string_ltb_lt (a b : string) :
  String.ltb a b = true <-> String_as_OT.lt a b.
Proof.
  unfold String.ltb. rewrite <- String_as_OT.cmp_lt.
  unfold String_as_OT.cmp. destruct (String.compare a b); split; congruence.
Qed.

Lemma string_ltb_trans (a b c : string) :
  String.ltb a b = true -> String.ltb b c = true -> String.ltb a c = true.
Proof.
  rewrite !string_ltb_lt. apply String_as_OT.lt_trans.
Qed.

Lemma string_ltb_total (a b : string) :
  String.ltb a b = false -> String.ltb b a = false -> a = b.
Proof.
  unfold String.ltb. intros Hab Hba.
  apply String_as_OT.cmp_eq. unfold String_as_OT.cmp.
  rewrite (String.compare_antisym b a) in Hba.
  destruct (String.compare a b); simpl in *; congruence.
Qed.

Lemma var_cmper_irrefl (k : leaf) : var_cmper_t k k = false.
Proof.
  unfold var_cmper_t. destruct (node_type_ k); simpl; apply string_ltb_irrefl.
Qed.

Lemma var_cmper_trans (a b c : leaf) :
  var_cmper_t a b = true -> var_cmper_t b c = true -> var_cmper_t a c = true.
Proof.
  unfold var_cmper_t.
  destruct (node_type_ a), (node_type_ b), (node_type_ c); simpl;
    try discriminate; try reflexivity; apply string_ltb_trans.
Qed.

Lemma var_cmper_asym (a b : leaf) :
  var_cmper_t a b = true -> var_cmper_t b a = false.
Proof.
  intros Hab. destruct (var_cmper_t b a) eqn:Hba; [|reflexivity].
  rewrite <- (var_cmper_irrefl a). symmetry. eapply var_cmper_trans; eauto.
Qed.

Lemma same_key_iff (a b : leaf) :
  same_key a b <-> node_type_ a = node_type_ b /\ name_ a = name_ b.
Proof.
  unfold same_key, var_cmper_t. split.
  - destruct (node_type_ a), (node_type_ b); simpl; intros [H1 H2];
      try discriminate; split; auto using string_ltb_total.
  - intros [Ht Hn]. rewrite Ht, Hn.
    destruct (node_type_ b); simpl; rewrite string_ltb_irrefl; auto.
Qed.

Lemma same_key_refl (a : leaf) : same_key a a.
Proof. split; apply var_cmper_irrefl. Qed.

Lemma same_key_sym (a b : leaf) : same_key a b -> same_key b a.
Proof. intros [H1 H2]; split; assumption. Qed.

Lemma var_cmper_same_l (a b c : leaf) :
  same_key a b -> var_cmper_t a c = var_cmper_t b c.
Proof.
  rewrite same_key_iff. intros [Ht Hn]. unfold var_cmper_t. rewrite Ht, Hn.
  reflexivity.
Qed.

Lemma var_cmper_same_r (a b c : leaf) :
  same_key a b -> var_cmper_t c a = var_cmper_t c b.
Proof.
  rewrite same_key_iff. intros [Ht Hn]. unfold var_cmper_t. rewrite Ht, Hn.
  reflexivity.
Qed.

(** ** The ordered map *)

Module OMapFacts.
Section facts.
Context {V : Type}.
Implicit Types (m : omap V) (k : leaf) (v : V).

Lemma find_insert_eq k v m :
  OMap.find k (OMap.insert k v m)
  = Some (match OMap.find k m with Some v' => v' | None => v end).
Proof.
  induction m as [|[k' v'] m IH]; simpl.
  - rewrite var_cmper_irrefl. reflexivity.
  - destruct (var_cmper_t k k') eqn:H1; simpl.
    + rewrite var_cmper_irrefl. reflexivity.
    + destruct (var_cmper_t k' k) eqn:H2; simpl; rewrite H1, H2; auto.
Qed.

Lemma find_insert_ne k j v m :
  ~ same_key k j -> OMap.find j (OMap.insert k v m) = OMap.find j m.
Proof.
  intros Hne. induction m as [|[k' v'] m IH]; simpl.
  - destruct (var_cmper_t j k) eqn:H1; [reflexivity|].
    destruct (var_cmper_t k j) eqn:H2; [reflexivity|].
    exfalso. apply Hne. split; assumption.
  - destruct (var_cmper_t k k') eqn:H1; simpl.
    + destruct (var_cmper_t j k) eqn:H3.
      * rewrite (var_cmper_trans _ _ _ H3 H1). reflexivity.
      * destruct (var_cmper_t k j) eqn:H4; [reflexivity|].
        exfalso. apply Hne. split; assumption.
    + destruct (var_cmper_t k' k) eqn:H2; simpl; [|reflexivity].
      destruct (var_cmper_t j k'); [reflexivity|].
      destruct (var_cmper_t k' j); auto.
Qed.

Lemma find_alter_eq f k m :
  OMap.find k (OMap.alter f k m) = option_map f (OMap.find k m).
Proof.
  induction m as [|[k' v'] m IH]; simpl; [reflexivity|].
  destruct (var_cmper_t k k') eqn:H1; simpl; [rewrite H1; reflexivity|].
  destruct (var_cmper_t k' k) eqn:H2; simpl; rewrite H1, H2; auto.
Qed.

Lemma find_alter_ne f k j m :
  ~ same_key k j -> OMap.find j (OMap.alter f k m) = OMap.find j m.
Proof.
  intros Hne. induction m as [|[k' v'] m IH]; simpl; [reflexivity|].
  destruct (var_cmper_t k k') eqn:H1; simpl; [reflexivity|].
  destruct (var_cmper_t k' k) eqn:H2; simpl.
  - destruct (var_cmper_t j k'); [reflexivity|].
    destruct (var_cmper_t k' j); auto.
  - assert (Hs : same_key k k') by (split; assumption).
    rewrite <- (var_cmper_same_r _ _ j Hs), <- (var_cmper_same_l _ _ j Hs).
    destruct (var_cmper_t j k) eqn:H3; [reflexivity|].
    destruct (var_cmper_t k j) eqn:H4; [reflexivity|].
    exfalso. apply Hne. split; assumption.
Qed.

Lemma find_same_key k j m :
  same_key k j -> OMap.find k m = OMap.find j m.
Proof.
  intros Hs. induction m as [|[k' v'] m IH]; simpl; [reflexivity|].
  rewrite (var_cmper_same_l _ _ k' Hs), (var_cmper_same_r _ _ k' Hs).
  rewrite IH. reflexivity.
Qed.

Lemma alter_same_key f k j m :
  same_key k j -> OMap.alter f k m = OMap.alter f j m.
Proof.
  intros Hs. induction m as [|[k' v'] m IH]; simpl; [reflexivity|].
  rewrite (var_cmper_same_l _ _ k' Hs), (var_cmper_same_r _ _ k' Hs).
  rewrite IH. reflexivity.
Qed.

Lemma sorted_insert k v m : OMap.sorted m -> OMap.sorted (OMap.insert k v m).
Proof.
  induction 1 as [|k' v' m Hall Hs IH]; simpl.
  - constructor; constructor.
  - destruct (var_cmper_t k k') eqn:H1.
    + constructor; [|constructor; assumption].
      constructor; [assumption|].
      eapply Forall_impl; [exact Hall|].
      simpl. intros kv Hkv. eapply var_cmper_trans; eauto.
    + destruct (var_cmper_t k' k) eqn:H2; [|constructor; assumption].
      constructor; [|assumption].
      clear IH Hs. induction m as [|[k2 v2] m IHm]; simpl.
      * constructor; [assumption|constructor].
      * inversion Hall; subst. simpl in *.
        destruct (var_cmper_t k k2); [constructor; [assumption|constructor; assumption]|].
        destruct (var_cmper_t k2 k); constructor; auto.
Qed.

Lemma sorted_alter f k m : OMap.sorted m -> OMap.sorted (OMap.alter f k m).
Proof.
  induction 1 as [|k' v' m Hall Hs IH]; simpl; [constructor|].
  destruct (var_cmper_t k k'); [constructor; assumption|].
  destruct (var_cmper_t k' k); constructor; auto.
  clear IH Hs. induction m as [|[k2 v2] m IHm]; simpl; [constructor|].
  inversion Hall; subst. simpl in *.
  destruct (var_cmper_t k k2); [constructor; assumption|].
  destruct (var_cmper_t k2 k); constructor; auto.
Qed.

(** In a sorted map every listed entry is the one [find] reaches. *)
Lemma sorted_find_in k v m :
  OMap.sorted m -> In (k, v) m -> OMap.find k m = Some v.
Proof.
  induction 1 as [|k' v' m Hall Hs IH]; simpl; [tauto|].
  intros [Heq|Hin].
  - inversion Heq; subst. rewrite var_cmper_irrefl. reflexivity.
  - rewrite List.Forall_forall in Hall. specialize (Hall _ Hin). simpl in Hall.
    rewrite (var_cmper_asym _ _ Hall), Hall. auto.
Qed.

Lemma find_in k v m :
  OMap.find k m = Some v -> exists k', same_key k k' /\ In (k', v) m.
Proof.
  induction m as [|[k' v'] m IH]; simpl; [discriminate|].
  destruct (var_cmper_t k k') eqn:H1; [discriminate|].
  destruct (var_cmper_t k' k) eqn:H2.
  - intros H. destruct (IH H) as (k2 & Hs & Hin). eauto.
  - intros H. inversion H; subst. exists k'. split; [split; assumption|auto].
Qed.
End facts.
End OMapFacts.

(** ** The scope stack *)

Lemma snoc_top_index {A} (below : list A) (top : A) :
  length (below ++ [top]) - 1 = length below.
Proof. rewrite length_app. simpl. lia. Qed.

Lemma lookup_snoc_top {A} (below : list A) (top : A) :
  (below ++ [top]) !! length below = Some top.
Proof. rewrite lookup_app_r by lia. rewrite Nat.sub_diag. reflexivity. Qed.

Lemma alter_snoc_top {A} (f : A -> A) (below : list A) (top : A) :
  alter f (length below) (below ++ [top]) = below ++ [f top].
Proof.
  rewrite <- (Nat.add_0_r (length below)). rewrite alter_app_r. reflexivity.
Qed.

Lemma last_snoc_inv {A} (l : list A) (x : A) :
  last l = Some x -> exists below, l = below ++ [x].
Proof.
  intros H. destruct l as [|a l] using rev_ind; [discriminate|].
  rewrite last_snoc in H. inversion H; subst. eauto.
Qed.

Lemma find_scope_snoc (i : nat) (below : list ssa_scope_t) (top : ssa_scope_t)
    (k : leaf) :
  find_scope i (below ++ [top]) k
  = match OMap.find k (vars_ top) with
    | Some _ => Some (i + length below)
    | None => find_scope i below k
    end.
Proof.
  revert i. induction below as [|s below IH]; intros i; simpl.
  - rewrite Nat.add_0_r. destruct (OMap.find k (vars_ top)); reflexivity.
  - rewrite IH. destruct (OMap.find k (vars_ top)); [f_equal; lia|reflexivity].
Qed.

Lemma find_scope_none (i : nat) (scopes : list ssa_scope_t) (k : leaf) :
  find_scope i scopes k = None
  <-> Forall (fun s => OMap.find k (vars_ s) = None) scopes.
Proof.
  revert i. induction scopes as [|s scopes IH]; intros i; simpl.
  - split; [constructor|reflexivity].
  - split.
    + destruct (find_scope (S i) scopes k) eqn:E; [discriminate|].
      destruct (OMap.find k (vars_ s)) eqn:F; [discriminate|].
      intros _. constructor; [assumption|]. apply (IH (S i)). assumption.
    + intros H. inversion H as [|? ? Hs Hrest]; subst.
      apply (IH (S i)) in Hrest. rewrite Hrest, Hs. reflexivity.
Qed.

(** The scan returns the innermost scope that holds the key. *)
Lemma find_scope_some (i : nat) (scopes : list ssa_scope_t) (k : leaf) (j : nat) :
  find_scope i scopes k = Some j ->
  i <= j /\ (exists s, scopes !! (j - i) = Some s
                       /\ OMap.find k (vars_ s) <> None)
  /\ Forall (fun s => OMap.find k (vars_ s) = None) (drop (S (j - i)) scopes).
Proof.
  revert i. induction scopes as [|s scopes IH]; intros i; simpl; [discriminate|].
  destruct (find_scope (S i) scopes k) eqn:E.
  - intros H; inversion H; subst. destruct (IH _ E) as (Hle & (s' & Hs' & Hf) & Hall).
    split; [lia|]. replace (j - i) with (S (j - S i)) by lia. simpl.
    split; [eauto|assumption].
  - destruct (OMap.find k (vars_ s)) eqn:F; [|discriminate].
    intros H; inversion H; subst. rewrite Nat.sub_diag. simpl.
    split; [lia|]. split; [exists s; split; [reflexivity|congruence]|].
    rewrite drop_0. apply (find_scope_none (S j)). assumption.
Qed.

Lemma find_scope_same_key (i : nat) (scopes : list ssa_scope_t) (k j : leaf) :
  same_key k j -> find_scope i scopes k = find_scope i scopes j.
Proof.
  intros Hs. revert i. induction scopes as [|s scopes IH]; intros i; simpl;
    [reflexivity|].
  rewrite IH, (OMapFacts.find_same_key k j _ Hs). reflexivity.
Qed.

Lemma insert_present {V} (k : leaf) (v v0 : V) (m : omap V) :
  OMap.find k m = Some v0 -> OMap.insert k v m = m.
Proof.
  induction m as [|[k' v'] m IH]; simpl; [discriminate|].
  destruct (var_cmper_t k k'); [discriminate|].
  destruct (var_cmper_t k' k); [|reflexivity].
  intros H. rewrite IH by assumption. reflexivity.
Qed.

(** ** Running the primitives on a stack with a known top *)

Section run.
Variables (st : impl) (below : list ssa_scope_t) (top : ssa_scope_t).
Hypothesis Hstack : scopes_ st = below ++ [top].

Lemma run_scopes_back : scopes_back st = OK (top, st).
Proof. unfold scopes_back. rewrite Hstack, last_snoc. reflexivity. Qed.

Lemma run_pop_scope : pop_scope st = OK (top, set_scopes below st).
Proof.
  unfold pop_scope. rewrite Hstack, last_snoc, removelast_last. reflexivity.
Qed.

Lemma run_insert_local_var (k : leaf) (v : option id) :
  insert_local_var k v st
  = OK ((length below, k),
        set_scopes
          (below ++ [with_vars (OMap.insert k (Status v (length below) [])) top])
          st).
Proof.
  unfold insert_local_var. rewrite Hstack.
  destruct (below ++ [top]) eqn:E; [destruct below; discriminate|].
  rewrite <- E, snoc_top_index, alter_snoc_top. reflexivity.
Qed.

Lemma run_write_status_top (k : leaf) (f : ssa_var_status_t -> ssa_var_status_t) :
  write_status (length below, k) f st
  = OK (tt, set_scopes (below ++ [with_vars (OMap.alter f k) top]) st).
Proof.
  unfold write_status, modify. simpl. rewrite Hstack, alter_snoc_top.
  reflexivity.
Qed.

Lemma run_read_status_top (k : leaf) (s : ssa_var_status_t) :
  OMap.find k (vars_ top) = Some s ->
  read_status (length below, k) st = OK (s, st).
Proof.
  intros H. unfold read_status. simpl.
  rewrite Hstack, lookup_snoc_top, H. reflexivity.
Qed.

Lemma run_get_local_var_for_update_local (k : leaf) :
  is_old_var_global k = false ->
  get_local_var_for_update k st
  = OK ((length below, k),
        set_scopes
          (below ++ [with_vars (OMap.insert k (Status None (length below) [])) top])
          st).
Proof.
  intros Hg. unfold get_local_var_for_update. rewrite Hg.
  unfold bind. rewrite run_scopes_back. unfold get.
  destruct (OMap.find k (vars_ top)) eqn:F.
  - unfold ret. rewrite Hstack, snoc_top_index. unfold with_vars.
    rewrite (insert_present _ _ _ _ F).
    destruct top as [vars kd fd]. simpl.
    rewrite <- Hstack. destruct st; reflexivity.
  - apply run_insert_local_var.
Qed.
End run.

Lemma run_get_local_var_found (st : impl) (k : leaf) (i : nat) :
  find_scope 0 (scopes_ st) k = Some i ->
  get_local_var k st = OK ((i, k), st).
Proof.
  intros H. unfold get_local_var, bind, get_local_var_nothrow. rewrite H.
  reflexivity.
Qed.

Lemma run_get_local_var_undefined (st : impl) (k : leaf) :
  find_scope 0 (scopes_ st) k = None ->
  get_local_var k st = Err (compile_assert ("Undefined var:" ++ name_ k)%string).
Proof.
  intros H. unfold get_local_var, bind, get_local_var_nothrow. rewrite H.
  reflexivity.
Qed.

(** ** Undefined variable use *)

(** C9.  A [var] that is dispatched while no scope of the stack binds it makes
    the pass fail with the compile assertion of [get_local_var]; whatever the
    pass would have done with the value is not run (the failure passes through
    every continuation, nothing is returned for the lookup). *)
Theorem undefined_var_is_fatal (v : leaf) (st : impl) :
  node_type_ v = sc_var ->
  Forall (fun s => OMap.find v (vars_ s) = None) (scopes_ st) ->
  dispatch (e_leaf v) st
    = Err (compile_assert ("Undefined var:" ++ name_ v)%string)
  /\ forall (B : Type) (k : id -> M B),
       bind (dispatch (e_leaf v)) k st
       = Err (compile_assert ("Undefined var:" ++ name_ v)%string).
Proof.
  intros Hv Hall.
  assert (Hd : dispatch (e_leaf v) st
               = Err (compile_assert ("Undefined var:" ++ name_ v)%string)).
  { apply (find_scope_none 0) in Hall. simpl. rewrite Hv.
    unfold bind at 1. unfold visit_var. unfold bind at 1.
    rewrite run_get_local_var_undefined by exact Hall. reflexivity. }
  split; [exact Hd|]. intros B k. unfold bind. rewrite Hd. reflexivity.
Qed.

Lemma undefined_var_is_fatal_witness :
  let v := Leaf sc_var "x" "s32" None in
  let st := Impl [] [Scope [] k_normal 0] true 0 0 [] [] in
  node_type_ v = sc_var
  /\ Forall (fun s => OMap.find v (vars_ s) = None) (scopes_ st)
  /\ dispatch (e_leaf v) st = Err (compile_assert "Undefined var:x").
Proof.
  intros v st.
  assert (H1 : node_type_ v = sc_var) by reflexivity.
  assert (H2 : Forall (fun s => OMap.find v (vars_ s) = None) (scopes_ st))
    by (repeat constructor).
  split; [exact H1|]. split; [exact H2|].
  exact (proj1 (undefined_var_is_fatal v st H1 H2)).
Defined.

Lemma alter_insert_absent {V} (f : V -> V) (k : leaf) (v : V) (m : omap V) :
  OMap.find k m = None ->
  OMap.alter f k (OMap.insert k v m) = OMap.insert k (f v) m.
Proof.
  induction m as [|[k' v'] m IH]; simpl.
  - rewrite var_cmper_irrefl. reflexivity.
  - destruct (var_cmper_t k k') eqn:H1; simpl.
    + rewrite var_cmper_irrefl. reflexivity.
    + destruct (var_cmper_t k' k) eqn:H2; simpl; [|discriminate].
      intros H. rewrite H1, H2, IH by assumption. reflexivity.
Qed.

(** ** Definition without initialiser *)

(** C6.  A [define] of a local scalar without initialiser leaves no statement
    in the output: the visitor returns the undefined statement, emits nothing
    before or after, and binds the variable in the top scope to a new
    [constant] node of value 0 and of the declared dtype that carries SSA
    metadata. *)
Theorem define_without_init_binds_zero
    (attr : option any_map_t) (v : leaf) (st : impl)
    (below : list ssa_scope_t) (top : ssa_scope_t) :
  node_type_ v = sc_var ->
  is_old_var_global v = false ->
  scopes_ st = below ++ [top] ->
  exists st' top' status,
    dispatch_stmt (s_define attr v linkage_local None) st = OK (None, st')
    /\ heap st' = heap st ++ [Node (constant_node 0) (dtype_ v) None
                                   (Some (SsaData false false None))]
    /\ scopes_ st' = below ++ [top']
    /\ OMap.find v (vars_ top') = Some status
    /\ current_value status = Some (length (heap st))
    /\ current_scope_ st' = current_scope_ st
    /\ stmts_to_insert_after st' = stmts_to_insert_after st.
Proof.
  intros Hv Hg Hstack.
  destruct st as [h sc nf vv vd cs ia]. simpl in *. subst sc.
  unfold visit_define, classify_define. rewrite Hv, Hg.
  unfold bind at 1.
  erewrite run_insert_local_var by reflexivity.
  unfold bind at 1. unfold alloc at 1. simpl.
  unfold bind at 1.
  erewrite run_write_status_top by reflexivity. simpl.
  unfold bind at 1. unfold init_ssa_data, bind, deref. simpl.
  rewrite lookup_app_r by lia. rewrite Nat.sub_diag. simpl.
  unfold update_node. simpl.
  rewrite lookup_app_r by lia. rewrite Nat.sub_diag. simpl.
  eexists _, _, _. split; [reflexivity|]. simpl.
  split.
  { rewrite insert_app_r_alt by lia. rewrite Nat.sub_diag. reflexivity. }
  split; [reflexivity|]. simpl.
  rewrite OMapFacts.find_alter_eq, OMapFacts.find_insert_eq. simpl.
  split; [reflexivity|]. simpl. auto.
Qed.

Lemma define_without_init_binds_zero_witness :
  let v := Leaf sc_var "a" "s32" None in
  let st := Impl [] [Scope [] k_normal 0] true 0 0 [] [] in
  node_type_ v = sc_var
  /\ is_old_var_global v = false
  /\ scopes_ st = [] ++ [Scope [] k_normal 0]
  /\ exists st' top' status,
       dispatch_stmt (s_define None v linkage_local None) st = OK (None, st')
       /\ heap st' = heap st ++ [Node (constant_node 0) (dtype_ v) None
                                      (Some (SsaData false false None))]
       /\ scopes_ st' = [] ++ [top']
       /\ OMap.find v (vars_ top') = Some status
       /\ current_value status = Some (length (heap st))
       /\ current_scope_ st' = current_scope_ st
       /\ stmts_to_insert_after st' = stmts_to_insert_after st.
Proof.
  intros v st.
  assert (H1 : node_type_ v = sc_var) by reflexivity.
  assert (H2 : is_old_var_global v = false) by reflexivity.
  assert (H3 : scopes_ st = [] ++ [Scope [] k_normal 0]) by reflexivity.
  split; [exact H1|]. split; [exact H2|]. split; [exact H3|].
  exact (define_without_init_binds_zero None v st [] _ H1 H2 H3).
Defined.

(** ** Variable use *)

(** C3.  The three cases of a [var] use, on a state where the lookup finds a
    status whose current value carries SSA metadata [d]:
    - the value is global: a load definition [define tmp = current_value] is
      appended before the current statement and [tmp] is returned, once for
      every read;
    - the value is local and the for-depth of the top scope is strictly
      greater than the for-depth of the scope recorded in
      [defined_scope_idx]: a phi whose only operand is the outer value is
      emitted as a definition, renamed with the next version, and a new entry
      of the top scope shadows the variable with that phi and records it in
      its [for_loop_phi];
    - otherwise the current value is returned and nothing changes. *)
Theorem visit_var_cases
    (v : leaf) (st : impl) (below : list ssa_scope_t) (top sc : ssa_scope_t)
    (i : nat) (status : ssa_var_status_t) (cur : id) (n : node) (d : ssa_data_t) :
  scopes_ st = below ++ [top] ->
  find_scope 0 (scopes_ st) v = Some i ->
  scopes_ st !! i = Some sc ->
  OMap.find v (vars_ sc) = Some status ->
  defined_scope_idx status = i ->
  current_value status = Some cur ->
  heap st !! cur = Some n ->
  ssa_data_ n = Some d ->
  let fresh := length (heap st) in
  (is_global_ d = true ->
   visit_var v st
   = OK (fresh,
         Impl (heap st ++ [temp_var_node ("__tmp" ++ to_string (var_def_idx_ st))
                                         (n_dtype n) cur])
              (scopes_ st) (need_flatten_ st) (var_version_idx st)
              (uint64_succ (var_def_idx_ st))
              (current_scope_ st ++ [o_define None fresh linkage_local (Some cur)])
              (stmts_to_insert_after st)))
  /\ (is_global_ d = false ->
      (for_depth_ sc < for_depth_ top)%Z ->
      OMap.find v (vars_ top) = None
      /\ visit_var v st
         = OK (S fresh,
               Impl (heap st
                     ++ [Node (ssa_phi_node [cur]) (n_dtype n) None None;
                         temp_var_node
                           (name_ v ++ "_" ++ to_string (var_version_idx st))
                           (n_dtype n) fresh])
                    (below
                     ++ [with_vars
                           (OMap.insert v (Status (Some (S fresh))
                                                  (length below) [S fresh]))
                           top])
                    (need_flatten_ st) (uint64_succ (var_version_idx st))
                    (uint64_succ (var_def_idx_ st))
                    (current_scope_ st
                     ++ [o_define None (S fresh) linkage_local (Some fresh)])
                    (stmts_to_insert_after st)))
  /\ (is_global_ d = false ->
      (for_depth_ top <= for_depth_ sc)%Z ->
      visit_var v st = OK (cur, st)).
Proof.
  intros Hstack Hfind Hsc Hstatus Hidx Hcur Hn Hd fresh.
  assert (Hrun : visit_var v st
    = (if negb (is_global_ d) then
         def_scope <- scope_at (defined_scope_idx status) ;;
         if (for_depth_ def_scope <? for_depth_ top)%Z then
           node <- make_ssa_phi [current_value status] ;;
           phi <- add_def node ;;
           checked_as_var phi ;;;
           rename_temp_var_with_version phi v ;;;
           p <- insert_local_var v (Some phi) ;;
           write_status p (add_for_loop_phi [phi]) ;;;
           ret phi
         else match current_value status with
              | Some c => ret c
              | None => fail null_deref
              end
       else match current_value status with
            | Some c => add_def c
            | None => fail null_deref
            end) st).
  { unfold visit_var. unfold bind at 1.
    rewrite (run_get_local_var_found _ _ _ Hfind).
    unfold bind at 1. unfold read_status. simpl. rewrite Hsc, Hstatus.
    unfold bind at 1. rewrite (run_scopes_back _ _ _ Hstack).
    unfold bind at 1. rewrite Hcur. unfold ssa_data_of, bind, deref.
    rewrite Hn, Hd. reflexivity. }
  rewrite Hrun. clear Hrun.
  destruct st as [h scs nf vv vd cs ia]. simpl in *. subst scs.
  split; [|split].
  - intros Hg. rewrite Hg, Hcur. simpl.
    unfold add_def, new_temp_def, bind, deref, get, alloc, modify, ret. simpl.
    rewrite Hn. reflexivity.
  - intros Hg Hlt. rewrite Hg. simpl.
    assert (Hne : i <> length below).
    { intros ->. rewrite lookup_snoc_top in Hsc. inversion Hsc; subst. lia. }
    assert (Hnone : OMap.find v (vars_ top) = None).
    { rewrite find_scope_snoc in Hfind.
      destruct (OMap.find v (vars_ top)); [|reflexivity].
      inversion Hfind. lia. }
    split; [exact Hnone|].
    unfold bind at 1. unfold scope_at. simpl. rewrite Hidx, Hsc.
    apply Z.ltb_lt in Hlt. rewrite Hlt.
    unfold bind at 1. rewrite Hcur. unfold make_ssa_phi. simpl.
    unfold bind at 1. unfold deref at 1. simpl. rewrite Hn.
    unfold alloc at 1. simpl.
    unfold bind at 1.
    unfold add_def, new_temp_def, bind, deref, get, alloc, modify, ret. simpl.
    rewrite lookup_app_r by lia. rewrite Nat.sub_diag. simpl.
    unfold checked_as_var, bind, deref, ret. simpl.
    rewrite length_app. simpl. rewrite Nat.add_1_r.
    replace ((h ++ [_]) ++ [_] : list node)
      with (h ++ [Node (ssa_phi_node [cur]) (n_dtype n) None None;
                  Node (var_node ("__tmp" ++ to_string vd)) (n_dtype n) None
                       (Some (SsaData false false (Some (length h))))])
      by (rewrite <- app_assoc; reflexivity).
    assert (Hl : forall x y : node,
               (h ++ [x; y]) !! S (length h) = Some y).
    { intros x y. rewrite lookup_app_r by lia.
      replace (S (length h) - length h) with 1 by lia. reflexivity. }
    rewrite Hl. simpl.
    unfold rename_temp_var_with_version, ssa_data_of, bind, deref. simpl.
    rewrite Hl. simpl.
    unfold get, update_node, modify. simpl. rewrite Hl. simpl.
    erewrite run_insert_local_var by reflexivity. simpl.
    rewrite alter_snoc_top. unfold with_vars at 1. simpl.
    rewrite alter_insert_absent by exact Hnone.
    unfold set_scopes, set_var_version_idx, set_heap. simpl.
    rewrite insert_app_r_alt by lia.
    replace (S (length h) - length h) with 1 by lia. reflexivity.
  - intros Hg Hle. rewrite Hg. simpl.
    unfold bind at 1. unfold scope_at. simpl. rewrite Hidx, Hsc.
    apply Z.ltb_ge in Hle. rewrite Hle, Hcur. reflexivity.
Qed.

Lemma visit_var_cases_witness :
  let k := Leaf sc_var "k" "s32" None in
  let g := Leaf sc_var "g" "s32" (Some [module_global_offset]) in
  let outer := Scope [(k, Status (Some 0) 0 [])] k_normal 0 in
  let in_loop := Impl [Node (var_node "k") "s32" None
                            (Some (SsaData false false None))]
                      [outer; Scope [] k_for_loop 1] true 0 0 [] [] in
  let globals := Scope [(g, Status (Some 0) 0 [])] k_normal 0 in
  let with_global := Impl [Node (var_node "g") "s32" None
                                (Some (SsaData true false None))]
                          [globals] true 0 0 [] [] in
  (* a read of a global adds a load definition *)
  visit_var g with_global
  = OK (1, Impl [Node (var_node "g") "s32" None (Some (SsaData true false None));
                 temp_var_node "__tmp0" "s32" 0]
                [globals] true 0 1 [o_define None 1 linkage_local (Some 0)] [])
  (* a read inside a loop of a value made outside of it adds a phi *)
  /\ visit_var k in_loop
     = OK (2, Impl [Node (var_node "k") "s32" None
                         (Some (SsaData false false None));
                    Node (ssa_phi_node [0]) "s32" None None;
                    temp_var_node "k_0" "s32" 1]
                   [outer; Scope [(k, Status (Some 2) 1 [2])] k_for_loop 1]
                   true 1 1 [o_define None 2 linkage_local (Some 1)] [])
  (* a read at the depth of the definition returns the value *)
  /\ visit_var k (set_scopes [outer] in_loop) = OK (0, set_scopes [outer] in_loop).
Proof.
  intros k g outer in_loop globals with_global.
  split; [|split].
  - refine (proj1 (visit_var_cases g with_global [] globals globals 0
                     (Status (Some 0) 0 []) 0 _ (SsaData true false None)
                     eq_refl eq_refl eq_refl eq_refl eq_refl eq_refl eq_refl
                     eq_refl) eq_refl).
  - refine (proj2 (proj1 (proj2 (visit_var_cases k in_loop [outer]
                     (Scope [] k_for_loop 1) outer 0
                     (Status (Some 0) 0 []) 0 _ (SsaData false false None)
                     eq_refl eq_refl eq_refl eq_refl eq_refl eq_refl eq_refl
                     eq_refl)) eq_refl eq_refl)).
  - refine (proj2 (proj2 (visit_var_cases k (set_scopes [outer] in_loop) []
                     outer outer 0
                     (Status (Some 0) 0 []) 0 _ (SsaData false false None)
                     eq_refl eq_refl eq_refl eq_refl eq_refl eq_refl eq_refl
                     eq_refl)) eq_refl _).
    simpl. lia.
Defined.

(** ** Assignment to a variable *)

Lemma read_after_write (p : status_ptr) (f : ssa_var_status_t -> ssa_var_status_t)
    (st : impl) (s : ssa_var_status_t) :
  read_status p st = OK (s, st) ->
  exists st', write_status p f st = OK (tt, st')
              /\ read_status p st' = OK (f s, st')
              /\ st' = set_scopes (scopes_ st') st.
Proof.
  intros H. eexists. split; [reflexivity|].
  unfold read_status in *. destruct st as [h scs nf vv vd cs ia]. simpl in *.
  rewrite list_lookup_alter_eq.
  destruct (scs !! fst p) as [sc|]; [|discriminate]. simpl.
  rewrite OMapFacts.find_alter_eq.
  destruct (OMap.find (snd p) (vars_ sc)); [|discriminate].
  inversion H; subst. simpl. split; reflexivity.
Qed.

Lemma read_status_scopes (p : status_ptr) (s : ssa_var_status_t) (st1 st2 : impl) :
  scopes_ st1 = scopes_ st2 ->
  read_status p st1 = OK (s, st1) -> read_status p st2 = OK (s, st2).
Proof.
  unfold read_status. intros ->.
  destruct (scopes_ st2 !! fst p) as [sc|]; [|discriminate].
  destruct (OMap.find (snd p) (vars_ sc)); [|discriminate].
  intros H; inversion H; reflexivity.
Qed.

Lemma run_rename (newv : id) (old_var : leaf) (st : impl) (n : node)
    (d : ssa_data_t) :
  heap st !! newv = Some n ->
  ssa_data_ n = Some d ->
  rename_temp_var_with_version newv old_var st
  = OK (tt, if is_local d then renamed newv old_var st else st).
Proof.
  intros Hn Hd.
  unfold rename_temp_var_with_version, ssa_data_of, bind, deref, renamed, ret.
  rewrite Hn, Hd. destruct (is_local d); [|reflexivity].
  unfold get, update_node, modify. rewrite Hn. reflexivity.
Qed.

(** The run of [visit_assign] on a var left-hand side, written out on the
    state [st2] that the status lookup leaves and the state [st3] that the
    status write leaves. *)
Lemma run_visit_assign
    (attr : option any_map_t) (v : leaf) (value : expr) (st st1 st2 : impl)
    (rhs : id) (p : status_ptr) (status : ssa_var_status_t) (rn : node) :
  node_type_ v = sc_var ->
  dispatch value st = OK (rhs, st1) ->
  get_local_var_for_update v st1 = OK (p, st2) ->
  read_status p st2 = OK (status, st2) ->
  heap st2 !! rhs = Some rn ->
  let st3 :=
    set_scopes (alter (with_vars (OMap.alter (set_current_value (Some rhs)) (snd p)))
                      (fst p) (scopes_ st2)) st2 in
  let is_global_value :=
    match current_value status with
    | None => Some false
    | Some c => match heap st2 !! c with
                | Some n => option_map is_global_ (ssa_data_ n)
                | None => None
                end
    end in
  (is_global_value = Some false ->
   read_status p st3 = OK (set_current_value (Some rhs) status, st3)
   /\ current_scope_ st3 = current_scope_ st2
   /\ stmts_to_insert_after st3 = stmts_to_insert_after st2
   /\ (is_var_body (n_body rn) = true ->
       forall rd, ssa_data_ rn = Some rd ->
       visit_assign attr (e_leaf v) value st
       = OK (None, if is_local rd then renamed rhs v st3 else st3))
   /\ (is_constant_body (n_body rn) = true ->
       visit_assign attr (e_leaf v) value st = OK (None, st3)))
  /\ (is_global_value = Some true ->
      exists c, current_value status = Some c
                /\ visit_assign attr (e_leaf v) value st
                   = OK (Some (o_assign attr c rhs), st2)).
Proof.
  intros Hv Hd Hup Hread Hrn st3 isg.
  destruct v as [ty nm dt at_]. simpl in Hv. subst ty.
  assert (Hrun : forall k : id -> status_ptr -> ssa_var_status_t -> bool
                             -> M (option ostmt),
    forall b, isg = Some b ->
    (rhs <- dispatch value ;;
     var_info <- get_local_var_for_update (Leaf sc_var nm dt at_) ;;
     status <- read_status var_info ;;
     is_global <- match current_value status with
                  | None => ret false
                  | Some c => d <- ssa_data_of (Some c) ;; ret (is_global_ d)
                  end ;;
     k rhs var_info status is_global) st = k rhs p status b st2).
  { intros k b Hb. unfold bind at 1. rewrite Hd. unfold bind at 1. rewrite Hup.
    unfold bind at 1. rewrite Hread. unfold bind at 1. subst isg.
    destruct (current_value status) as [c|].
    - unfold bind, ssa_data_of, deref, ret, bind.
      destruct (heap st2 !! c) as [n|]; [|discriminate].
      destruct (ssa_data_ n); inversion Hb; reflexivity.
    - inversion Hb. reflexivity. }
  split.
  - intros Hloc.
    destruct (read_after_write p (set_current_value (Some rhs)) st2 status Hread)
      as (st3' & Hw & Hr & Hframe).
    assert (st3' = st3) by (unfold write_status, modify in Hw; inversion Hw; reflexivity).
    subst st3'.
    split; [exact Hr|]. split; [reflexivity|]. split; [reflexivity|].
    split.
    + intros Hvar rd Hrd. unfold visit_assign.
      rewrite (Hrun _ false Hloc). cbv beta. change (negb false) with true. cbv iota.
      unfold bind at 1. rewrite Hw. unfold bind at 1. unfold get at 1.
      assert (Hh : heap st3 = heap st2) by reflexivity.
      unfold isa. rewrite Hh, Hrn, Hvar. cbn [orb].
      unfold bind at 1.
      rewrite (run_rename rhs _ st3 rn rd Hrn Hrd). reflexivity.
    + intros Hc. unfold visit_assign.
      rewrite (Hrun _ false Hloc). cbv beta. change (negb false) with true. cbv iota.
      unfold bind at 1. rewrite Hw. unfold bind at 1. unfold get at 1.
      assert (Hh : heap st3 = heap st2) by reflexivity.
      unfold isa. rewrite Hh, Hrn, Hc.
      destruct (n_body rn); try discriminate. reflexivity.
  - intros Hglob. subst isg.
    destruct (current_value status) as [c|] eqn:Hc; [|discriminate].
    exists c. split; [reflexivity|]. unfold visit_assign.
    rewrite (Hrun _ true Hglob). cbv beta.
    simpl. rewrite Hc. reflexivity.
Qed.

(** Looking a status up for update touches the scope stack only. *)
Lemma get_local_var_for_update_frame (old_var : leaf) (st st' : impl)
    (p : status_ptr) :
  get_local_var_for_update old_var st = OK (p, st') ->
  st' = set_scopes (scopes_ st') st.
Proof.
  assert (Hid : forall s : impl, s = set_scopes (scopes_ s) s)
    by (intros s; destruct s; reflexivity).
  unfold get_local_var_for_update.
  destruct (is_old_var_global old_var).
  - unfold get_local_var, bind, get_local_var_nothrow.
    destruct (find_scope 0 (scopes_ st) old_var) as [i|]; simpl; [|discriminate].
    intros H. inversion H. apply Hid.
  - unfold bind at 1. unfold scopes_back.
    destruct (last (scopes_ st)) as [top|] eqn:Hl; [|discriminate].
    unfold bind, get.
    destruct (OMap.find old_var (vars_ top)) as [s|].
    + unfold ret. intros H. inversion H. apply Hid.
    + unfold insert_local_var.
      destruct (scopes_ st) eqn:Hs; [discriminate|].
      intros H. inversion H. destruct st; simpl in *. rewrite Hs. reflexivity.
Qed.

(** C5, as the code has it.  For an assignment whose left-hand side is the
    var [v], once the right-hand side has been dispatched to [rhs] and the
    status of [v] has been looked up for update:
    - when the status has no current value yet, or its current value is not
      global, and [rhs] is a var or a constant, no statement is returned, the
      enclosing block and the deferred statements are as the dispatch left
      them, and the status of [v] has [rhs] as current value; [rhs] is
      renamed to [<name of v>_<version>], and the version counter advances,
      exactly when it is a var whose SSA metadata is local; a var that is a
      parameter keeps its name and the counter stays;
    - when the current value is global, the statement
      [assign(current value, rhs)] is returned, the status is untouched and
      nothing is renamed. *)
Theorem visit_assign_var
    (attr : option any_map_t) (v : leaf) (value : expr) (st st1 st2 : impl)
    (rhs : id) (p : status_ptr) (status : ssa_var_status_t) (rn : node)
    (rd : ssa_data_t) :
  node_type_ v = sc_var ->
  dispatch value st = OK (rhs, st1) ->
  get_local_var_for_update v st1 = OK (p, st2) ->
  read_status p st2 = OK (status, st2) ->
  heap st1 !! rhs = Some rn ->
  (is_var_body (n_body rn) = true -> ssa_data_ rn = Some rd) ->
  let is_global_value :=
    match current_value status with
    | None => Some false
    | Some c => match heap st1 !! c with
                | Some n => option_map is_global_ (ssa_data_ n)
                | None => None
                end
    end in
  let renames := is_var_body (n_body rn) && is_local rd in
  (is_global_value = Some false ->
   is_var_body (n_body rn) || is_constant_body (n_body rn) = true ->
   exists st',
     visit_assign attr (e_leaf v) value st = OK (None, st')
     /\ current_scope_ st' = current_scope_ st1
     /\ stmts_to_insert_after st' = stmts_to_insert_after st1
     /\ read_status p st' = OK (set_current_value (Some rhs) status, st')
     /\ heap st' !! rhs
        = Some (if renames
                then with_body (var_node (name_ v ++ "_"
                                          ++ to_string (var_version_idx st1))%string) rn
                else rn)
     /\ (forall q, q <> rhs -> heap st' !! q = heap st1 !! q)
     /\ var_version_idx st'
        = (if renames then uint64_succ (var_version_idx st1)
           else var_version_idx st1))
  /\ (is_global_value = Some true ->
      exists c, current_value status = Some c
                /\ visit_assign attr (e_leaf v) value st
                   = OK (Some (o_assign attr c rhs), st2)
                /\ heap st2 = heap st1
                /\ current_scope_ st2 = current_scope_ st1
                /\ var_version_idx st2 = var_version_idx st1).
Proof.
  intros Hv Hd Hup Hread Hrn Hdata isg renames.
  pose proof (get_local_var_for_update_frame _ _ _ _ Hup) as Hframe.
  assert (Hh : heap st2 = heap st1) by (rewrite Hframe; reflexivity).
  assert (Hcs : current_scope_ st2 = current_scope_ st1)
    by (rewrite Hframe; reflexivity).
  assert (Hia : stmts_to_insert_after st2 = stmts_to_insert_after st1)
    by (rewrite Hframe; reflexivity).
  assert (Hvv : var_version_idx st2 = var_version_idx st1)
    by (rewrite Hframe; reflexivity).
  assert (Hrn2 : heap st2 !! rhs = Some rn) by (rewrite Hh; exact Hrn).
  pose proof (run_visit_assign attr v value st st1 st2 rhs p status rn
                Hv Hd Hup Hread Hrn2) as Hrun.
  cbv zeta in Hrun. rewrite Hh in Hrun. fold isg in Hrun.
  destruct Hrun as [Hlocal Hglobal].
  split.
  - intros Hloc Hkind.
    destruct (Hlocal Hloc) as (Hr & Hc3 & Hi3 & Hvar & Hconst).
    set (st3 := set_scopes _ st2) in *.
    destruct (is_var_body (n_body rn)) eqn:Hisvar.
    + specialize (Hvar eq_refl rd (Hdata eq_refl)).
      subst renames. cbn [andb].
      destruct (is_local rd).
      * exists (renamed rhs v st3). split; [exact Hvar|].
        unfold renamed.
        assert (H3 : heap st3 !! rhs = Some rn) by exact Hrn2.
        rewrite H3.
        split; [rewrite <- Hcs; reflexivity|].
        split; [rewrite <- Hia; reflexivity|].
        split; [eapply read_status_scopes; [|exact Hr]; reflexivity|].
        split.
        { cbn. change (heap st3) with (heap st2). rewrite <- Hvv.
          apply list_lookup_insert_eq. eapply lookup_lt_Some; exact Hrn2. }
        split.
        { intros q Hq. cbn. change (heap st3) with (heap st2).
          rewrite list_lookup_insert_ne by congruence. rewrite Hh. reflexivity. }
        cbn. rewrite <- Hvv. reflexivity.
      * exists st3. split; [exact Hvar|].
        split; [rewrite <- Hcs; reflexivity|].
        split; [rewrite <- Hia; reflexivity|].
        split; [exact Hr|].
        split; [exact Hrn2|].
        split; [intros q _; change (heap st3) with (heap st2); rewrite Hh; reflexivity|].
        exact Hvv.
    + simpl in Hkind. specialize (Hconst Hkind).
      subst renames. cbn [andb].
      exists st3. split; [exact Hconst|].
      split; [rewrite <- Hcs; reflexivity|].
      split; [rewrite <- Hia; reflexivity|].
      split; [exact Hr|].
      split; [exact Hrn2|].
      split; [intros q _; change (heap st3) with (heap st2); rewrite Hh; reflexivity|].
      exact Hvv.
  - intros Hglob. destruct (Hglobal Hglob) as (c & Hc & Hrun).
    exists c. repeat split; assumption.
Qed.

Lemma visit_assign_var_witness :
  let a := Leaf sc_var "a" "s32" None in
  let st := at_function_body [] in
  exists st',
    visit_assign None (e_leaf a) (e_constant 1 "s32") st = OK (None, st')
    /\ heap st' !! 1 = Some (temp_var_node "a_0" "s32" 0)
    /\ var_version_idx st' = 1%N
    /\ read_status (0, a) st' = OK (Status (Some 1) 0 [], st').
Proof.
  intros a st.
  pose (st1 := Impl [Node (constant_node 1) "s32" None None;
                     temp_var_node "__tmp0" "s32" 0]
                    [Scope [] k_normal 0] true 0 1
                    [o_define None 1 linkage_local (Some 0)] []).
  pose (st2 := set_scopes [Scope [(a, Status None 0 [])] k_normal 0] st1).
  destruct (visit_assign_var None a (e_constant 1 "s32") st st1 st2 1 (0, a)
              (Status None 0 []) (temp_var_node "__tmp0" "s32" 0)
              (SsaData false false (Some 0))
              eq_refl eq_refl eq_refl eq_refl eq_refl (fun _ => eq_refl))
    as [H _].
  destruct (H eq_refl eq_refl) as (st' & Hrun & _ & _ & Hr & Hn & _ & Hvv).
  exists st'. split; [exact Hrun|]. split; [exact Hn|]. split; [exact Hvv|].
  exact Hr.
Defined.

(** In [func f(p) { b = p }] the right-hand side is dispatched to the var
    made for the parameter; the assignment binds [b] to it and the node is
    still called [p]. *)
Lemma assign_of_parameter_keeps_name : ~ assign_renames_every_var.
Proof.
  intros H.
  pose (p := Leaf sc_var "p" "s32" None).
  pose (b := Leaf sc_var "b" "s32" None).
  pose (st := at_function_body [p]).
  specialize (H None b (e_leaf p) st st
                (set_scopes [Scope [(b, Status (Some 0) 0 []);
                                    (p, Status (Some 0) 0 [])] k_normal 0] st)
                0 (Node (var_node "p") "s32" None (Some (SsaData false true None)))
                eq_refl eq_refl eq_refl eq_refl eq_refl).
  vm_compute in H. discriminate H.
Qed.

(** ** Closing a for-loop *)

Lemma same_meta_refl h : same_meta h h.
Proof. split; auto. Qed.

Lemma same_meta_trans h1 h2 h3 :
  same_meta h1 h2 -> same_meta h2 h3 -> same_meta h1 h3.
Proof.
  intros [L1 H1] [L2 H2]. split; [congruence|].
  intros p. destruct (H1 p), (H2 p). split; congruence.
Qed.

Lemma same_meta_with_body h p n b :
  h !! p = Some n -> same_meta h (<[p := with_body b n]> h).
Proof.
  intros Hp. split; [apply length_insert|].
  intros q. destruct (decide (p = q)) as [->|Hne].
  - rewrite list_lookup_insert_eq by (eapply lookup_lt_Some; eauto).
    rewrite Hp. split; reflexivity.
  - rewrite list_lookup_insert_ne by assumption. split; reflexivity.
Qed.

Lemma same_meta_phi_def h h' phi :
  same_meta h h' -> phi_def h' phi = phi_def h phi.
Proof.
  intros [_ H]. destruct (H phi) as [Hs _]. unfold phi_def.
  destruct (h' !! phi) as [n'|], (h !! phi) as [n|]; simpl in Hs;
    try discriminate; [|reflexivity].
  assert (E : ssa_data_ n' = ssa_data_ n) by congruence.
  rewrite E. reflexivity.
Qed.

Lemma same_meta_patch_count h h' phis cv def :
  same_meta h h' -> patch_count h' phis cv def = patch_count h phis cv def.
Proof.
  intros Hm. induction phis as [|phi phis IH]; simpl; [reflexivity|].
  rewrite (same_meta_phi_def _ _ _ Hm), IH. reflexivity.
Qed.

Lemma set_heap_id st : set_heap (heap st) st = st.
Proof. destruct st; reflexivity. Qed.

Lemma set_heap_set_heap h1 h2 st : set_heap h2 (set_heap h1 st) = set_heap h2 st.
Proof. reflexivity. Qed.

Lemma run_patch_phi (phi cv def : id) (vs : list id) (st : impl) :
  phi_def (heap st) phi = Some def ->
  phi_values (heap st) def = Some vs ->
  exists n, heap st !! def = Some n
    /\ patch_phi phi (Some cv) st
       = OK (tt, set_heap (<[def := with_body (ssa_phi_node (vs ++ [cv])) n]>
                             (heap st)) st).
Proof.
  unfold phi_def, phi_values, patch_phi, ssa_data_of, bind, deref, ret.
  intros Hd Hv.
  destruct (heap st !! phi) as [pn|]; [|discriminate].
  destruct (ssa_data_ pn) as [d|]; [|discriminate].
  rewrite Hd.
  destruct (heap st !! def) as [n|] eqn:Hn; [|discriminate].
  exists n. split; [reflexivity|].
  destruct (n_body n); try discriminate. inversion Hv; subst.
  unfold update_node. rewrite Hn. reflexivity.
Qed.

Lemma phi_values_patched h def n vs cv def0 vs0 :
  h !! def = Some n ->
  phi_values h def = Some vs ->
  phi_values h def0 = Some vs0 ->
  phi_values (<[def := with_body (ssa_phi_node (vs ++ [cv])) n]> h) def0
  = Some (vs0 ++ if Nat.eqb def def0 then [cv] else []).
Proof.
  intros Hn Hv Hv0. unfold phi_values.
  destruct (Nat.eqb_spec def def0) as [->|Hne].
  - rewrite list_lookup_insert_eq by (eapply lookup_lt_Some; eauto). simpl.
    congruence.
  - rewrite list_lookup_insert_ne by assumption. rewrite app_nil_r. exact Hv0.
Qed.

Lemma run_patch_loop (cv : id) (phis : list id) :
  forall st : impl,
  (forall phi, In phi phis -> phi <> cv ->
     exists def vs, phi_def (heap st) phi = Some def
                    /\ phi_values (heap st) def = Some vs) ->
  exists h',
    for_each (fun phi => if ptr_same phi (Some cv) then ret tt
                         else patch_phi phi (Some cv)) phis st
    = OK (tt, set_heap h' st)
    /\ same_meta (heap st) h'
    /\ forall def vs, phi_values (heap st) def = Some vs ->
         phi_values h' def
         = Some (vs ++ repeat cv (patch_count (heap st) phis cv def)).
Proof.
  induction phis as [|phi phis IH]; intros st Hwf.
  - exists (heap st). simpl. rewrite set_heap_id.
    split; [reflexivity|]. split; [apply same_meta_refl|].
    intros def vs Hv. rewrite app_nil_r. exact Hv.
  - simpl. unfold bind at 1.
    destruct (Nat.eqb_spec phi cv) as [->|Hne].
    + (* the recorded phi is the current value: left alone *)
      destruct (IH st) as (h' & Hrun & Hm & Hvals).
      { intros phi Hin. apply Hwf. right; exact Hin. }
      exists h'. unfold ret at 1. split; [exact Hrun|]. split; [exact Hm|].
      intros def vs Hv. simpl. apply Hvals. exact Hv.
    + destruct (Hwf phi (or_introl eq_refl) Hne) as (def & vs & Hd & Hv).
      destruct (run_patch_phi phi cv def vs st Hd Hv) as (n & Hn & Hpatch).
      rewrite Hpatch.
      set (h1 := <[def := with_body (ssa_phi_node (vs ++ [cv])) n]> (heap st)).
      assert (Hm1 : same_meta (heap st) h1)
        by (apply same_meta_with_body; exact Hn).
      destruct (IH (set_heap h1 st)) as (h' & Hrun & Hm & Hvals).
      { intros phi' Hin Hne'. simpl.
        destruct (Hwf phi' (or_intror Hin) Hne') as (def' & vs' & Hd' & Hv').
        exists def'. eexists. split.
        - rewrite (same_meta_phi_def _ _ _ Hm1). exact Hd'.
        - apply (phi_values_patched _ _ _ _ cv _ _ Hn Hv Hv'). }
      exists h'. split; [exact Hrun|].
      split; [eapply same_meta_trans; [exact Hm1|exact Hm]|].
      intros def0 vs0 Hv0. simpl in Hvals.
      rewrite (Hvals def0 _ (phi_values_patched _ _ _ _ cv _ _ Hn Hv Hv0)).
      rewrite (same_meta_patch_count _ _ _ _ _ Hm1).
      simpl. rewrite Hd. f_equal. rewrite <- app_assoc. f_equal.
      destruct (Nat.eqb def def0); reflexivity.
Qed.

Lemma find_alter_none {V} (f : V -> V) (k j : leaf) (m : omap V) :
  OMap.find j (OMap.alter f k m) = None <-> OMap.find j m = None.
Proof.
  induction m as [|[k' v'] m IH]; simpl; [tauto|].
  destruct (var_cmper_t k k') eqn:H1; simpl; [tauto|].
  destruct (var_cmper_t k' k) eqn:H2; simpl.
  - destruct (var_cmper_t j k'); [tauto|].
    destruct (var_cmper_t k' j); [exact IH|]. split; discriminate.
  - destruct (var_cmper_t j k'); [tauto|].
    destruct (var_cmper_t k' j); [tauto|]. split; discriminate.
Qed.

Lemma find_scope_alter_status (f : ssa_var_status_t -> ssa_var_status_t)
    (k j : leaf) (i : nat) (scopes : list ssa_scope_t) (b : nat) :
  find_scope b (alter (with_vars (OMap.alter f k)) i scopes) j
  = find_scope b scopes j.
Proof.
  revert i b. induction scopes as [|s scopes IH]; intros i b; [reflexivity|].
  destruct i as [|i]; simpl.
  - destruct (find_scope (S b) scopes j); [reflexivity|].
    destruct (OMap.find j (vars_ s)) eqn:F.
    + destruct (OMap.find j (OMap.alter f k (vars_ s))) eqn:F'; [reflexivity|].
      apply find_alter_none in F'. congruence.
    + apply (find_alter_none f k) in F. rewrite F. reflexivity.
  - change (list_alter (with_vars (OMap.alter f k)) i scopes)
      with (alter (with_vars (OMap.alter f k)) i scopes).
    rewrite IH. reflexivity.
Qed.

Lemma set_scopes_id st : set_scopes (scopes_ st) st = st.
Proof. destruct st; reflexivity. Qed.

(** Looking up for update a variable that is visible: the pointer returned
    is where the scan will find the variable from now on; for a variable that
    is not global it lies in the top scope. *)
Lemma run_get_local_var_for_update_visible (st : impl) (k : leaf) (i : nat) :
  find_scope 0 (scopes_ st) k = Some i ->
  exists (j : nat) (scopes2 : list ssa_scope_t) (s : ssa_var_status_t),
    get_local_var_for_update k st = OK ((j, k), set_scopes scopes2 st)
    /\ read_status (j, k) (set_scopes scopes2 st) = OK (s, set_scopes scopes2 st)
    /\ find_scope 0 scopes2 k = Some j
    /\ length scopes2 = length (scopes_ st)
    /\ (is_old_var_global k = false -> j = length (scopes_ st) - 1).
Proof.
  intros Hfind. destruct (is_old_var_global k) eqn:Hg.
  - destruct (find_scope_some _ _ _ _ Hfind) as (_ & (s & Hs & Hf) & _).
    rewrite Nat.sub_0_r in Hs.
    destruct (OMap.find k (vars_ s)) as [status|] eqn:F; [|congruence].
    exists i, (scopes_ st), status. rewrite set_scopes_id.
    unfold get_local_var_for_update. rewrite Hg.
    split; [apply run_get_local_var_found; exact Hfind|].
    split; [unfold read_status; simpl; rewrite Hs, F; reflexivity|].
    split; [exact Hfind|]. split; [reflexivity|discriminate].
  - destruct (last (scopes_ st)) as [top|] eqn:Hlast.
    2:{ apply last_None in Hlast. rewrite Hlast in Hfind. discriminate. }
    destruct (last_snoc_inv _ _ Hlast) as (below & Hstack).
    pose (top' := with_vars (OMap.insert k (Status None (length below) [])) top).
    assert (F : exists status, OMap.find k (vars_ top') = Some status).
    { unfold top'. simpl. rewrite OMapFacts.find_insert_eq. eauto. }
    destruct F as (status & F).
    exists (length below), (below ++ [top']), status.
    split; [apply run_get_local_var_for_update_local; assumption|].
    split.
    { unfold read_status. simpl. rewrite lookup_snoc_top, F. reflexivity. }
    split; [rewrite find_scope_snoc, F; reflexivity|].
    rewrite Hstack. split; [rewrite !length_app; reflexivity|].
    intros _. rewrite snoc_top_index. reflexivity.
Qed.

Lemma run_make_ssa_phi (st : impl) (values : list (option id)) (p : id)
    (ps : list id) (n : node) :
  defined_handles values = Some (p :: ps) ->
  heap st !! p = Some n ->
  make_ssa_phi values st
  = OK (length (heap st),
        set_heap (heap st ++ [Node (ssa_phi_node (p :: ps)) (n_dtype n) None None])
                 st).
Proof.
  intros Hv Hn. unfold make_ssa_phi. rewrite Hv.
  unfold bind, deref. rewrite Hn. reflexivity.
Qed.

Lemma run_add_def_after_current_stmt (st : impl) (v : id) (n : node) :
  heap st !! v = Some n ->
  add_def_after_current_stmt v st
  = OK (length (heap st),
        set_insert_after
          (stmts_to_insert_after st
           ++ [o_define None (length (heap st)) linkage_local (Some v)])
          (set_var_def_idx (uint64_succ (var_def_idx_ st))
             (set_heap
                (heap st ++ [temp_var_node ("__tmp" ++ to_string (var_def_idx_ st))
                                           (n_dtype n) v]) st))).
Proof.
  intros Hn.
  unfold add_def_after_current_stmt, new_temp_def, bind, deref, get, alloc,
    modify, ret.
  rewrite Hn. reflexivity.
Qed.

Lemma run_checked_as_var (st : impl) (p : id) (n : node) :
  heap st !! p = Some n ->
  is_var_body (n_body n) = true ->
  checked_as_var p st = OK (tt, st).
Proof.
  intros Hn Hv. unfold checked_as_var, bind, deref. rewrite Hn, Hv. reflexivity.
Qed.

Lemma lookup_snoc_fresh {A} (h : list A) (x : A) : (h ++ [x]) !! length h = Some x.
Proof. rewrite lookup_app_r by lia. rewrite Nat.sub_diag. reflexivity. Qed.

(** The run of the step that closes a for-loop for one entry [(k, s)] of the
    popped scope, when the var [k] is still visible in an enclosing scope
    with current value [pc] and the final value in the loop is [cv]: the
    phis are patched, the phi [pc; cv] and its temporary are made, the
    definition is queued, the temporary is renamed, and the lookup of [k]
    yields it. *)
Lemma run_for_loop_merge_entry
    (k : leaf) (s parent : ssa_var_status_t) (st : impl) (i : nat)
    (pc cv : id) (pn : node) :
  node_type_ k = sc_var ->
  find_scope 0 (scopes_ st) k = Some i ->
  read_status (i, k) st = OK (parent, st) ->
  current_value parent = Some pc ->
  heap st !! pc = Some pn ->
  current_value s = Some cv ->
  (forall phi, In phi (for_loop_phi s) -> phi <> cv ->
     exists def vs, phi_def (heap st) phi = Some def
                    /\ phi_values (heap st) def = Some vs) ->
  let node := length (heap st) in
  let cur_v := S node in
  exists st',
    for_loop_merge_entry (k, s) st = OK (tt, st')
    /\ (forall def vs, phi_values (heap st) def = Some vs ->
          phi_values (heap st') def
          = Some (vs ++ repeat cv (patch_count (heap st) (for_loop_phi s) cv def)))
    /\ heap st' !! node
       = Some (Node (ssa_phi_node [pc; cv]) (n_dtype pn) None None)
    /\ heap st' !! cur_v
       = Some (temp_var_node (name_ k ++ "_" ++ to_string (var_version_idx st))
                             (n_dtype pn) node)
    /\ stmts_to_insert_after st'
       = stmts_to_insert_after st ++ [o_define None cur_v linkage_local (Some node)]
    /\ current_scope_ st' = current_scope_ st
    /\ var_version_idx st' = uint64_succ (var_version_idx st)
    /\ exists j status',
         find_scope 0 (scopes_ st') k = Some j
         /\ read_status (j, k) st' = OK (status', st')
         /\ current_value status' = Some cur_v
         /\ (is_old_var_global k = false -> j = length (scopes_ st) - 1).
Proof.
  intros Hk Hfind Hparent Hpc Hpn Hcv Hwf node cur_v.
  destruct (run_patch_loop cv (for_loop_phi s) st Hwf) as (h' & Hloop & Hm & Hvals).
  destruct Hm as [Hlen Hmeta].
  assert (Hpn' : exists pn', h' !! pc = Some pn' /\ n_dtype pn' = n_dtype pn).
  { destruct (Hmeta pc) as [_ Hdt]. rewrite Hpn in Hdt.
    destruct (h' !! pc) as [pn'|]; [|discriminate].
    exists pn'. split; [reflexivity|]. simpl in Hdt. congruence. }
  destruct Hpn' as (pn' & Hpn' & Hdt).
  pose (phi_n := Node (ssa_phi_node [pc; cv]) (n_dtype pn) None None).
  pose (tmp := temp_var_node ("__tmp" ++ to_string (var_def_idx_ st))
                             (n_dtype pn) node).
  pose (st1 := set_insert_after
                 (stmts_to_insert_after st
                  ++ [o_define None cur_v linkage_local (Some node)])
                 (set_var_def_idx (uint64_succ (var_def_idx_ st))
                    (set_heap (h' ++ [phi_n; tmp]) st))).
  destruct (run_get_local_var_for_update_visible st1 k i Hfind)
    as (j & scopes2 & s2 & Hup & Hread2 & Hfind2 & Hlen2 & Htop).
  destruct (read_after_write (j, k) (set_current_value (Some cur_v)) _ _ Hread2)
    as (st3 & Hw & Hread3 & Hframe3).
  assert (Hst3 : st3 = set_scopes (scopes_ st3) st1).
  { rewrite Hframe3. reflexivity. }
  assert (Hscopes3 : scopes_ st3
            = alter (with_vars (OMap.alter (set_current_value (Some cur_v)) k))
                    j scopes2).
  { unfold write_status, modify in Hw. inversion Hw. reflexivity. }
  assert (Hh3 : heap st3 = h' ++ [phi_n; tmp]) by (rewrite Hst3; reflexivity).
  assert (Hl0 : (h' ++ [phi_n; tmp]) !! node = Some phi_n).
  { unfold node. rewrite <- Hlen. rewrite lookup_app_r by lia.
    rewrite Nat.sub_diag. reflexivity. }
  assert (Hl1 : (h' ++ [phi_n; tmp]) !! cur_v = Some tmp).
  { unfold cur_v, node. rewrite <- Hlen. rewrite lookup_app_r by lia.
    replace (S (length h') - length h') with 1 by lia. reflexivity. }
  exists (renamed cur_v k st3).
  split.
  { unfold for_loop_merge_entry. simpl fst. simpl snd.
    unfold bind at 1. unfold get_local_var_nothrow. rewrite Hfind. cbn [option_map].
    cbv beta iota. unfold bind at 1. rewrite Hcv, Hloop.
    unfold bind at 1.
    rewrite (read_status_scopes (i, k) parent st (set_heap h' st) eq_refl Hparent).
    unfold bind at 1. rewrite Hpc.
    rewrite (run_make_ssa_phi (set_heap h' st) [Some pc; Some cv] pc [cv] pn' eq_refl Hpn').
    rewrite Hdt. fold phi_n. simpl heap.
    unfold bind at 1.
    rewrite (run_add_def_after_current_stmt _ (length h') phi_n)
      by apply lookup_snoc_fresh.
    simpl heap. rewrite length_app, Hlen. simpl length. rewrite Nat.add_1_r.
    fold node. fold cur_v. simpl n_dtype.
    match goal with
    | |- bind _ _ ?x = _ => replace x with st1
    end.
    2:{ unfold st1, tmp. destruct st. simpl. rewrite <- app_assoc. reflexivity. }
    unfold bind at 1. rewrite Hup.
    unfold bind at 1. rewrite Hw.
    unfold bind at 1.
    rewrite (run_checked_as_var st3 cur_v tmp) by (rewrite ?Hh3; auto).
    unfold bind at 1. unfold checked_as_var_key. rewrite Hk. unfold ret at 1.
    rewrite (run_rename cur_v k st3 tmp (SsaData false false (Some node)));
      [reflexivity|rewrite Hh3; exact Hl1|reflexivity]. }
  assert (Hren : renamed cur_v k st3
    = set_var_version_idx (uint64_succ (var_version_idx st))
        (set_heap (<[cur_v := with_body
                       (var_node (name_ k ++ "_"
                                  ++ to_string (var_version_idx st))%string) tmp]>
                     (h' ++ [phi_n; tmp])) st3)).
  { unfold renamed. rewrite Hh3, Hl1. rewrite Hst3. reflexivity. }
  rewrite Hren. simpl.
  assert (Hne : cur_v <> node) by (unfold cur_v; lia).
  split.
  { intros def vs Hv. rewrite <- (Hvals def vs Hv).
    assert (Hlt : def < length h').
    { unfold phi_values in Hv. destruct (heap st !! def) eqn:E; [|discriminate].
      apply lookup_lt_Some in E. lia. }
    unfold phi_values. rewrite list_lookup_insert_ne by (unfold cur_v, node; lia).
    rewrite lookup_app_l by exact Hlt. reflexivity. }
  split.
  { rewrite list_lookup_insert_ne by exact Hne. exact Hl0. }
  split.
  { rewrite list_lookup_insert_eq by (rewrite length_app; simpl; unfold cur_v, node; lia).
    reflexivity. }
  split; [rewrite Hst3; reflexivity|].
  split; [rewrite Hst3; reflexivity|].
  split; [reflexivity|].
  exists j, (set_current_value (Some cur_v) s2).
  split.
  { rewrite Hscopes3, find_scope_alter_status. exact Hfind2. }
  split.
  { eapply read_status_scopes; [|exact Hread3]. reflexivity. }
  split; [reflexivity|]. exact Htop.
Qed.

(** ** Bindings seen through the stack *)

Lemma read_status_at (p : status_ptr) (st : impl) (s : ssa_var_status_t) :
  read_status p st = OK (s, st) <-> status_at (scopes_ st) (fst p) (snd p) = Some s.
Proof.
  unfold read_status, status_at.
  destruct (scopes_ st !! fst p) as [sc|]; [|split; discriminate].
  destruct (OMap.find (snd p) (vars_ sc)); split; intros H; inversion H;
    reflexivity.
Qed.

Lemma status_at_same_key scopes j k k' :
  same_key k k' -> status_at scopes j k = status_at scopes j k'.
Proof.
  intros Hs. unfold status_at. destruct (scopes !! j); [|reflexivity].
  apply OMapFacts.find_same_key. exact Hs.
Qed.

Lemma find_scope_ext (k : leaf) (scopes scopes' : list ssa_scope_t) :
  length scopes' = length scopes ->
  (forall j, status_at scopes' j k = None <-> status_at scopes j k = None) ->
  forall b, find_scope b scopes' k = find_scope b scopes k.
Proof.
  revert scopes'. induction scopes as [|s scopes IH]; intros [|s' scopes'] Hlen Hst b;
    try discriminate; [reflexivity|].
  simpl. rewrite (IH scopes').
  - destruct (find_scope (S b) scopes k); [reflexivity|].
    specialize (Hst 0). unfold status_at in Hst. simpl in Hst.
    destruct (OMap.find k (vars_ s')), (OMap.find k (vars_ s)); try reflexivity.
    + destruct Hst as [_ H]. discriminate (H eq_refl).
    + destruct Hst as [H _]. discriminate (H eq_refl).
  - simpl in Hlen. lia.
  - intros j. apply (Hst (S j)).
Qed.

Lemma find_scope_status_at (scopes : list ssa_scope_t) (k : leaf) (j : nat) :
  find_scope 0 scopes k = Some j -> status_at scopes j k <> None.
Proof.
  intros H. destruct (find_scope_some _ _ _ _ H) as (_ & (s & Hs & Hf) & _).
  rewrite Nat.sub_0_r in Hs. unfold status_at. rewrite Hs. exact Hf.
Qed.

Lemma visible_iff (scopes : list ssa_scope_t) (k : leaf) :
  find_scope 0 scopes k <> None <-> exists j, status_at scopes j k <> None.
Proof.
  split.
  - destruct (find_scope 0 scopes k) as [j|] eqn:E; [|congruence].
    intros _. exists j. apply find_scope_status_at. exact E.
  - intros (j & Hj) Hnone. apply find_scope_none in Hnone.
    unfold status_at in Hj. destruct (scopes !! j) as [s|] eqn:E; [|congruence].
    rewrite List.Forall_forall in Hnone. apply Hj, Hnone.
    apply list_elem_of_In. eapply list_elem_of_lookup_2. exact E.
Qed.

Lemma grows_refl k scopes : grows k scopes scopes.
Proof. repeat split; auto. Qed.

Lemma grows_trans k s1 s2 s3 : grows k s1 s2 -> grows k s2 s3 -> grows k s1 s3.
Proof.
  intros (L1 & F1 & M1) (L2 & F2 & M2). repeat split.
  - congruence.
  - intros k' j Hne. rewrite F2, F1 by assumption. reflexivity.
  - auto.
Qed.

Lemma same_key_dec (a b : leaf) : {same_key a b} + {~ same_key a b}.
Proof.
  unfold same_key.
  destruct (var_cmper_t a b), (var_cmper_t b a); (left; split; reflexivity)
    || (right; intros [H1 H2]; discriminate).
Defined.

Lemma grows_visible k scopes scopes' k' :
  grows k scopes scopes' ->
  find_scope 0 scopes k' <> None -> find_scope 0 scopes' k' <> None.
Proof.
  intros (L & F & Mono). rewrite !visible_iff. intros (j & Hj). exists j.
  destruct (same_key_dec k k') as [Hs|Hne].
  - rewrite <- (status_at_same_key scopes' j k k' Hs). apply Mono.
    rewrite (status_at_same_key scopes j k k' Hs). exact Hj.
  - rewrite F by assumption. exact Hj.
Qed.

Lemma grows_find_scope k scopes scopes' k' :
  grows k scopes scopes' -> ~ same_key k k' ->
  find_scope 0 scopes' k' = find_scope 0 scopes k'.
Proof.
  intros (L & F & _) Hne. apply find_scope_ext; [exact L|].
  intros j. rewrite F by assumption. tauto.
Qed.

Lemma grows_alter_status f k j scopes :
  grows k scopes (alter (with_vars (OMap.alter f k)) j scopes).
Proof.
  repeat split.
  - apply length_alter.
  - intros k' j' Hne. unfold status_at. rewrite list_lookup_alter.
    destruct (decide (j = j')) as [->|]; [|reflexivity].
    destruct (scopes !! j'); [|reflexivity]. simpl.
    apply OMapFacts.find_alter_ne. exact Hne.
  - intros j' H. unfold status_at in *. rewrite list_lookup_alter.
    destruct (decide (j = j')) as [->|]; [|exact H].
    destruct (scopes !! j'); [|exact H]. simpl.
    rewrite find_alter_none. exact H.
Qed.

Lemma grows_insert_top k v below top :
  grows k (below ++ [top]) (below ++ [with_vars (OMap.insert k v) top]).
Proof.
  repeat split.
  - rewrite !length_app. reflexivity.
  - intros k' j Hne. unfold status_at.
    destruct (decide (j < length below)).
    + rewrite !lookup_app_l by assumption. reflexivity.
    + rewrite !lookup_app_r by lia.
      destruct (j - length below); [|reflexivity]. simpl.
      apply OMapFacts.find_insert_ne. exact Hne.
  - intros j. unfold status_at.
    destruct (decide (j < length below)).
    + rewrite !lookup_app_l by assumption. auto.
    + rewrite !lookup_app_r by lia.
      destruct (j - length below); [|auto]. simpl.
      rewrite OMapFacts.find_insert_eq. discriminate.
Qed.

(** [get_local_var_for_update] succeeds on a stack that is not empty when
    the variable is not global or is visible. *)
Lemma run_get_local_var_for_update_ok (st : impl) (k : leaf) :
  scopes_ st <> [] ->
  (is_old_var_global k = true -> find_scope 0 (scopes_ st) k <> None) ->
  exists (j : nat) (scopes2 : list ssa_scope_t) (s : ssa_var_status_t),
    get_local_var_for_update k st = OK ((j, k), set_scopes scopes2 st)
    /\ status_at scopes2 j k = Some s
    /\ find_scope 0 scopes2 k = Some j
    /\ grows k (scopes_ st) scopes2
    /\ (is_old_var_global k = false -> j = length (scopes_ st) - 1).
Proof.
  intros Hne Hvis. destruct (is_old_var_global k) eqn:Hg.
  - destruct (find_scope 0 (scopes_ st) k) as [i|] eqn:Hfind;
      [|exfalso; apply (Hvis eq_refl); reflexivity].
    destruct (run_get_local_var_for_update_visible st k i Hfind)
      as (j & scopes2 & s & Hup & Hread & Hfind2 & _ & _).
    assert (scopes2 = scopes_ st /\ j = i) as [-> ->].
    { unfold get_local_var_for_update in Hup. rewrite Hg in Hup.
      rewrite (run_get_local_var_found _ _ _ Hfind) in Hup.
      inversion Hup as [[Hj Hst]]. split; [|reflexivity].
      rewrite Hst. reflexivity. }
    exists i, (scopes_ st), s. split; [exact Hup|].
    split; [apply (read_status_at (i, k)) in Hread; exact Hread|].
    split; [exact Hfind|]. split; [apply grows_refl|discriminate].
  - destruct (last (scopes_ st)) as [top|] eqn:Hlast;
      [|apply last_None in Hlast; contradiction].
    destruct (last_snoc_inv _ _ Hlast) as (below & Hstack).
    pose (top' := with_vars (OMap.insert k (Status None (length below) [])) top).
    assert (F : exists status, OMap.find k (vars_ top') = Some status).
    { unfold top'. simpl. rewrite OMapFacts.find_insert_eq. eauto. }
    destruct F as (status & F).
    exists (length below), (below ++ [top']), status.
    split; [apply run_get_local_var_for_update_local; assumption|].
    split; [unfold status_at; rewrite lookup_snoc_top; exact F|].
    split; [rewrite find_scope_snoc, F; reflexivity|].
    rewrite Hstack. split; [apply grows_insert_top|].
    intros _. rewrite snoc_top_index. reflexivity.
Qed.

(** ** The two-armed merge *)

Lemma set_scopes_set_scopes s1 s2 st :
  set_scopes s2 (set_scopes s1 st) = set_scopes s2 st.
Proof. reflexivity. Qed.

Lemma run_merge_updated_var (st : impl) (k : leaf) (vals : list (option id))
    (p : id) (ps : list id) (n : node) :
  scopes_ st <> [] ->
  node_type_ k = sc_var ->
  (is_old_var_global k = true -> find_scope 0 (scopes_ st) k <> None) ->
  defined_handles vals = Some (p :: ps) ->
  heap st !! p = Some n ->
  let node := length (heap st) in
  exists scopes' j s',
    merge_updated_var (k, vals) st
    = OK (tt,
          Impl (heap st
                ++ [Node (ssa_phi_node (p :: ps)) (n_dtype n) None None;
                    temp_var_node
                      (name_ k ++ "_" ++ to_string (var_version_idx st))
                      (n_dtype n) node])
               scopes' (need_flatten_ st) (uint64_succ (var_version_idx st))
               (uint64_succ (var_def_idx_ st)) (current_scope_ st)
               (stmts_to_insert_after st
                ++ [o_define None (S node) linkage_local (Some node)]))
    /\ grows k (scopes_ st) scopes'
    /\ find_scope 0 scopes' k = Some j
    /\ status_at scopes' j k = Some s'
    /\ current_value s' = Some (S node)
    /\ (is_old_var_global k = false -> j = length (scopes_ st) - 1).
Proof.
  intros Hne Hk Hvis Hvals Hp node.
  pose (phi_n := Node (ssa_phi_node (p :: ps)) (n_dtype n) None None).
  pose (tmp := temp_var_node ("__tmp" ++ to_string (var_def_idx_ st))
                             (n_dtype n) node).
  pose (st1 := set_insert_after
                 (stmts_to_insert_after st
                  ++ [o_define None (S node) linkage_local (Some node)])
                 (set_var_def_idx (uint64_succ (var_def_idx_ st))
                    (set_heap (heap st ++ [phi_n; tmp]) st))).
  destruct (run_get_local_var_for_update_ok st1 k Hne Hvis)
    as (j & scopes2 & s2 & Hup & Hs2 & Hfind2 & Hgrow & Htop).
  pose (scopes3 := alter (with_vars (OMap.alter (set_current_value (Some (S node))) k))
                         j scopes2).
  assert (Hl1 : (heap st ++ [phi_n; tmp]) !! S node = Some tmp).
  { unfold node. rewrite lookup_app_r by lia.
    replace (S (length (heap st)) - length (heap st)) with 1 by lia. reflexivity. }
  exists scopes3, j, (set_current_value (Some (S node)) s2).
  split.
  { unfold merge_updated_var. simpl fst. simpl snd.
    unfold bind at 1. rewrite (run_make_ssa_phi st vals p ps n Hvals Hp).
    fold phi_n. fold node.
    unfold bind at 1.
    rewrite (run_add_def_after_current_stmt _ node phi_n)
      by apply lookup_snoc_fresh.
    simpl heap. rewrite length_app. simpl length. rewrite Nat.add_1_r.
    fold node. simpl n_dtype.
    match goal with
    | |- bind _ _ ?x = _ => replace x with st1
    end.
    2:{ unfold st1, tmp. destruct st. simpl. rewrite <- app_assoc. reflexivity. }
    unfold bind at 1. rewrite Hup.
    unfold bind at 1. unfold write_status, modify. simpl fst. simpl snd.
    unfold bind at 1.
    rewrite (run_checked_as_var _ (S node) tmp) by (auto; exact Hl1).
    unfold bind at 1. unfold checked_as_var_key. rewrite Hk. unfold ret at 1.
    rewrite (run_rename (S node) k _ tmp (SsaData false false (Some node)));
      [|exact Hl1|reflexivity].
    simpl is_local. cbv iota. unfold renamed. simpl heap. rewrite Hl1.
    do 2 f_equal. unfold set_var_version_idx, set_heap. simpl. f_equal.
    rewrite insert_app_r_alt by (unfold node; lia).
    unfold node.
    replace (S (length (heap st)) - length (heap st)) with 1 by lia.
    reflexivity. }
  split.
  { eapply grows_trans; [exact Hgrow|apply grows_alter_status]. }
  split; [unfold scopes3; rewrite find_scope_alter_status; exact Hfind2|].
  split.
  { unfold scopes3, status_at in *. rewrite list_lookup_alter_eq.
    destruct (scopes2 !! j); [|discriminate]. simpl.
    rewrite OMapFacts.find_alter_eq, Hs2. reflexivity. }
  split; [reflexivity|exact Htop].
Qed.

Lemma run_collect_arm (vars : omap ssa_var_status_t) :
  forall (updated_vars : omap (list (option id))) (st : impl),
  scopes_ st <> [] ->
  Forall (fun kv => is_old_var_global (fst kv) = true ->
                    find_scope 0 (scopes_ st) (fst kv) <> None) vars ->
  exists scopes',
    collect_arm vars updated_vars st
    = OK (collect_values vars updated_vars, set_scopes scopes' st)
    /\ length scopes' = length (scopes_ st)
    /\ forall k, find_scope 0 (scopes_ st) k <> None ->
                 find_scope 0 scopes' k <> None.
Proof.
  induction vars as [|[k s] vars IH]; intros upd st Hne Hall.
  - exists (scopes_ st). simpl. rewrite set_scopes_id. unfold ret. auto.
  - inversion Hall as [|? ? Hk Hrest]; subst. simpl in Hk.
    destruct (run_get_local_var_for_update_ok st k Hne Hk)
      as (j & scopes2 & s2 & Hup & _ & _ & Hgrow & _).
    pose (scopes3 := alter (with_vars (OMap.alter (add_for_loop_phi (for_loop_phi s)) k))
                           j scopes2).
    assert (Hgrow3 : grows k (scopes_ st) scopes3).
    { eapply grows_trans; [exact Hgrow|apply grows_alter_status]. }
    destruct (IH (OMap.alter (fun l => l ++ [current_value s]) k
                             (OMap.insert k [] upd))
                 (set_scopes scopes3 st)) as (scopes' & Hrun & Hlen & Hvis).
    { simpl. destruct Hgrow3 as (L & _). intros ->.
      destruct (scopes_ st); [contradiction|discriminate]. }
    { simpl. eapply Forall_impl; [exact Hrest|]. simpl.
      intros kv H Hg. eapply grows_visible; [exact Hgrow3|auto]. }
    exists scopes'. simpl. unfold bind at 1. rewrite Hup.
    unfold bind at 1. unfold write_status, modify. simpl fst. simpl snd.
    split; [exact Hrun|]. simpl in Hlen, Hvis.
    split; [destruct Hgrow3 as (L & _); congruence|].
    intros k' Hk'. apply Hvis. eapply grows_visible; eauto.
Qed.

Lemma sorted_head_not_same {V} (k : leaf) (v : V) (m : omap V) :
  OMap.sorted ((k, v) :: m) ->
  Forall (fun kv => ~ same_key (fst kv) k) m.
Proof.
  intros H. inversion H as [|? ? ? Hall _]; subst.
  eapply Forall_impl; [exact Hall|]. simpl. intros kv Hlt [_ Hs]. congruence.
Qed.

Lemma run_merge_loop (entries : omap (list (option id))) :
  forall st : impl,
  scopes_ st <> [] ->
  OMap.sorted entries ->
  Forall (entry_ok st) entries ->
  exists st',
    for_each merge_updated_var entries st = OK (tt, st')
    /\ (exists ext, heap st' = heap st ++ ext)
    /\ (exists ext, stmts_to_insert_after st' = stmts_to_insert_after st ++ ext)
    /\ length (scopes_ st') = length (scopes_ st)
    /\ (forall k', Forall (fun kv => ~ same_key (fst kv) k') entries ->
          forall j, status_at (scopes_ st') j k' = status_at (scopes_ st) j k')
    /\ (forall k', find_scope 0 (scopes_ st) k' <> None ->
                   find_scope 0 (scopes_ st') k' <> None)
    /\ current_scope_ st' = current_scope_ st
    /\ forall k vals, In (k, vals) entries ->
         exists node ops j s',
           defined_handles vals = Some ops
           /\ phi_values (heap st') node = Some ops
           /\ length (heap st) <= node
           /\ In (o_define None (S node) linkage_local (Some node))
                 (stmts_to_insert_after st')
           /\ find_scope 0 (scopes_ st') k = Some j
           /\ status_at (scopes_ st') j k = Some s'
           /\ current_value s' = Some (S node)
           /\ (is_old_var_global k = false -> j = length (scopes_ st) - 1).
Proof.
  induction entries as [|[k vals] entries IH]; intros st Hne Hsorted Hall.
  - exists st. simpl. unfold ret. split; [reflexivity|].
    split; [exists []; rewrite app_nil_r; reflexivity|].
    split; [exists []; rewrite app_nil_r; reflexivity|].
    repeat split; auto. intros ? ? [].
  - inversion Hall as [|? ? Hhead Hrest]; subst.
    destruct Hhead as (Hk & Hvis & p & ps & n & Hvals & Hp). simpl in *.
    destruct (run_merge_updated_var st k vals p ps n Hne Hk Hvis Hvals Hp)
      as (scopes1 & j & s1 & Hrun & Hgrow & Hfind & Hstat & Hcur & Htop).
    match type of Hrun with _ = OK (_, ?x) => set (st1 := x) in * end.
    assert (Hne1 : scopes_ st1 <> []).
    { simpl. destruct Hgrow as (L & _). intros ->.
      destruct (scopes_ st); [contradiction|discriminate]. }
    assert (Hsorted1 : OMap.sorted entries) by (inversion Hsorted; assumption).
    assert (Hall1 : Forall (entry_ok st1) entries).
    { eapply Forall_impl; [exact Hrest|]. intros kv (H1 & H2 & p' & ps' & n' & H3 & H4).
      split; [exact H1|]. split.
      - intros Hg. simpl. eapply grows_visible; [exact Hgrow|auto].
      - exists p', ps', n'. split; [exact H3|]. simpl.
        rewrite lookup_app_l by (eapply lookup_lt_Some; eauto). exact H4. }
    destruct (IH st1 Hne1 Hsorted1 Hall1)
      as (st' & Hloop & (ext & Hheap) & (ext' & Hafter) & Hlen & Hframe & Hmono
          & Hcs & Hent).
    exists st'. unfold bind at 1. rewrite Hrun.
    split; [exact Hloop|].
    split; [eexists; rewrite Hheap; simpl; rewrite <- app_assoc; reflexivity|].
    split; [eexists; rewrite Hafter; simpl; rewrite <- app_assoc; reflexivity|].
    split; [rewrite Hlen; simpl; apply Hgrow|].
    split.
    { intros k' Hk' j'. inversion Hk' as [|? ? Hkk' Hk'rest]; subst. simpl in Hkk'.
      rewrite (Hframe k' Hk'rest j'). simpl. apply Hgrow. exact Hkk'. }
    split.
    { intros k' Hk'. apply Hmono. simpl. eapply grows_visible; eauto. }
    split; [rewrite Hcs; reflexivity|].
    intros k0 vals0 [Heq|Hin].
    + inversion Heq; subst k0 vals0.
      pose proof (sorted_head_not_same _ _ _ Hsorted) as Hdiff.
      exists (length (heap st)), (p :: ps), j, s1.
      split; [exact Hvals|]. split.
      { unfold phi_values. rewrite Hheap. simpl.
        rewrite <- app_assoc. rewrite lookup_app_r by lia.
        rewrite Nat.sub_diag. reflexivity. }
      split; [lia|]. split.
      { rewrite Hafter. simpl. apply in_or_app. left. apply in_or_app. right.
        left. reflexivity. }
      assert (Hsame : forall j', status_at (scopes_ st') j' k = status_at scopes1 j' k).
      { intros j'. apply (Hframe k Hdiff j'). }
      split.
      { rewrite <- Hfind. apply find_scope_ext; [exact Hlen|].
        intros j'. rewrite Hsame. tauto. }
      split; [rewrite Hsame; exact Hstat|].
      split; [exact Hcur|exact Htop].
    + destruct (Hent k0 vals0 Hin)
        as (node & ops & j0 & s0 & H1 & H2 & H3 & H4 & H5 & H6 & H7 & H8).
      exists node, ops, j0, s0. repeat (split; [assumption|]).
      split; [simpl in H3; rewrite length_app in H3; lia|].
      repeat (split; [assumption|]).
      intros Hg. rewrite (H8 Hg). simpl. destruct Hgrow as (L & _).
      rewrite L. reflexivity.
Qed.

Lemma nonempty_same_length {A B} (l : list A) (l' : list B) :
  length l' = length l -> l <> [] -> l' <> [].
Proof. destruct l, l'; simpl; congruence. Qed.

Lemma sorted_collect_values (vars : omap ssa_var_status_t) :
  forall upd, OMap.sorted upd -> OMap.sorted (collect_values vars upd).
Proof.
  induction vars as [|kv vars IH]; intros upd Hs; simpl; [exact Hs|].
  apply IH. apply OMapFacts.sorted_alter, OMapFacts.sorted_insert. exact Hs.
Qed.

Lemma Forall_alter_insert {V} (P : leaf * V -> Prop) (f : V -> V) (k : leaf)
    (v0 : V) (m : omap V) :
  Forall P m -> P (k, f v0) -> (forall k0 v, P (k0, v) -> P (k0, f v)) ->
  Forall P (OMap.alter f k (OMap.insert k v0 m)).
Proof.
  intros Hm Hnew Hupd. induction Hm as [|[k' v'] m Hkv Hm IH]; simpl.
  - rewrite var_cmper_irrefl. constructor; [exact Hnew|constructor].
  - destruct (var_cmper_t k k') eqn:H1; simpl.
    + rewrite var_cmper_irrefl. constructor; [exact Hnew|].
      constructor; assumption.
    + destruct (var_cmper_t k' k) eqn:H2; simpl; rewrite H1, H2.
      * constructor; assumption.
      * constructor; [apply Hupd; exact Hkv|exact Hm].
Qed.

Lemma find_below_all {V} (k : leaf) (m : omap V) :
  Forall (fun kv => var_cmper_t k (fst kv) = true) m -> OMap.find k m = None.
Proof.
  intros H. destruct H as [|[k' v'] m Hlt _]; simpl; [reflexivity|].
  simpl in Hlt. rewrite Hlt. reflexivity.
Qed.

(** What [updated_vars] holds for a key after an arm has been collected: the
    arm's value is appended when the arm mentions the key. *)
Lemma collect_values_find (vars : omap ssa_var_status_t) :
  OMap.sorted vars ->
  forall (upd : omap (list (option id))) (k : leaf),
  OMap.find k (collect_values vars upd)
  = match OMap.find k vars with
    | Some s => Some (match OMap.find k upd with Some l => l | None => [] end
                      ++ [current_value s])
    | None => OMap.find k upd
    end.
Proof.
  induction 1 as [|k1 s1 vars Hall Hsorted IH]; intros upd k; simpl;
    [reflexivity|].
  rewrite IH.
  set (upd' := OMap.alter (fun l => l ++ [current_value s1]) k1
                          (OMap.insert k1 [] upd)).
  destruct (var_cmper_t k k1) eqn:H1.
  - (* k comes before every key of the arm *)
    assert (Hnone : OMap.find k vars = None).
    { apply find_below_all. eapply Forall_impl; [exact Hall|].
      simpl. intros kv Hkv. eapply var_cmper_trans; eauto. }
    rewrite Hnone. unfold upd'.
    assert (Hne : ~ same_key k1 k) by (intros [_ Hs]; congruence).
    rewrite OMapFacts.find_alter_ne, OMapFacts.find_insert_ne by exact Hne.
    reflexivity.
  - destruct (var_cmper_t k1 k) eqn:H2.
    + assert (Hne : ~ same_key k1 k) by (intros [Hs _]; congruence).
      unfold upd'.
      rewrite OMapFacts.find_alter_ne, OMapFacts.find_insert_ne by exact Hne.
      reflexivity.
    + assert (Hs : same_key k k1) by (split; assumption).
      assert (Hnone : OMap.find k vars = None).
      { apply find_below_all. eapply Forall_impl; [exact Hall|].
        simpl. intros kv Hkv. rewrite (var_cmper_same_l _ _ _ Hs). exact Hkv. }
      rewrite Hnone. unfold upd'.
      rewrite (OMapFacts.find_same_key k k1 _ Hs).
      rewrite OMapFacts.find_alter_eq, OMapFacts.find_insert_eq.
      rewrite (OMapFacts.find_same_key k k1 upd Hs).
      destruct (OMap.find k1 upd); reflexivity.
Qed.

Lemma entry_pre_collect (st : impl) (vars : omap ssa_var_status_t) :
  Forall (arm_ok st) vars ->
  forall upd, Forall (entry_pre st) upd ->
              Forall (entry_pre st) (collect_values vars upd).
Proof.
  induction 1 as [|[k s] vars Hkv Hvars IH]; intros upd Hupd; simpl;
    [exact Hupd|].
  apply IH. destruct Hkv as (Hk & Hvis & cv & n & Hcv & Hn). simpl in *.
  apply Forall_alter_insert; [exact Hupd| |].
  - split; [exact Hk|]. split; [exact Hvis|]. simpl.
    split; [discriminate|]. constructor; [eauto|constructor].
  - intros k0 v (H1 & H2 & H3 & H4). split; [exact H1|]. split; [exact H2|].
    simpl in *. split; [destruct v; discriminate|].
    apply Forall_app. split; [exact H4|]. constructor; [eauto|constructor].
Qed.

Lemma defined_handles_all (vals : list (option id)) (P : id -> Prop) :
  Forall (fun v => exists c, v = Some c /\ P c) vals ->
  exists ops, defined_handles vals = Some ops /\ Forall P ops
              /\ length ops = length vals.
Proof.
  induction 1 as [|v vals (c & -> & Hc) _ (ops & Hops & Hall & Hlen)]; simpl.
  - exists []. repeat split; constructor.
  - exists (c :: ops). rewrite Hops. simpl. repeat split; [|lia].
    constructor; assumption.
Qed.

Lemma entry_pre_ok (st : impl) (kv : leaf * list (option id)) :
  entry_pre st kv -> entry_ok st kv.
Proof.
  intros (H1 & H2 & H3 & H4). split; [exact H1|]. split; [exact H2|].
  destruct (defined_handles_all (snd kv) (fun c => exists n, heap st !! c = Some n))
    as (ops & Hops & Hall & Hlen).
  { eapply Forall_impl; [exact H4|]. simpl. intros v (c & n & -> & Hn). eauto. }
  destruct ops as [|p ps].
  - destruct (snd kv); [contradiction|discriminate].
  - inversion Hall as [|? ? (n & Hn) _]; subst. exists p, ps, n. auto.
Qed.

(** The two-armed merge runs to the end on arms it can process, and every
    entry of [updated_vars] gets a phi over exactly the collected values,
    defined after the current statement and bound to the variable. *)
Lemma if_else_merge_spec (then_vars else_vars : omap ssa_var_status_t)
    (st : impl) :
  scopes_ st <> [] ->
  Forall (arm_ok st) then_vars ->
  Forall (arm_ok st) else_vars ->
  exists st',
    if_else_merge then_vars else_vars st = OK (tt, st')
    /\ current_scope_ st' = current_scope_ st
    /\ forall k vals,
         In (k, vals) (collect_values else_vars (collect_values then_vars [])) ->
         exists node ops j s',
           defined_handles vals = Some ops
           /\ phi_values (heap st') node = Some ops
           /\ length (heap st) <= node
           /\ In (o_define None (S node) linkage_local (Some node))
                 (stmts_to_insert_after st')
           /\ find_scope 0 (scopes_ st') k = Some j
           /\ status_at (scopes_ st') j k = Some s'
           /\ current_value s' = Some (S node)
           /\ (is_old_var_global k = false -> j = length (scopes_ st) - 1).
Proof.
  intros Hne Hthen Helse.
  assert (Hvis : forall vars, Forall (arm_ok st) vars ->
            Forall (fun kv => is_old_var_global (fst kv) = true ->
                              find_scope 0 (scopes_ st) (fst kv) <> None) vars).
  { intros vars H. eapply Forall_impl; [exact H|]. intros kv (_ & H2 & _). exact H2. }
  destruct (run_collect_arm then_vars [] st Hne (Hvis _ Hthen))
    as (scopes1 & Hrun1 & Hlen1 & Hmono1).
  destruct (run_collect_arm else_vars (collect_values then_vars [])
              (set_scopes scopes1 st)) as (scopes2 & Hrun2 & Hlen2 & Hmono2).
  { simpl. eapply nonempty_same_length; eauto. }
  { simpl. eapply Forall_impl; [exact (Hvis _ Helse)|]. simpl. auto. }
  simpl in Hlen2, Hmono2. rewrite set_scopes_set_scopes in Hrun2.
  set (entries := collect_values else_vars (collect_values then_vars [])) in *.
  assert (Hpre : Forall (entry_pre st) entries).
  { apply entry_pre_collect; [exact Helse|].
    apply entry_pre_collect; [exact Hthen|constructor]. }
  destruct (run_merge_loop entries (set_scopes scopes2 st))
    as (st' & Hloop & _ & _ & _ & _ & _ & Hcs & Hent).
  { simpl. eapply nonempty_same_length; [|exact Hne]. congruence. }
  { apply sorted_collect_values, sorted_collect_values. constructor. }
  { eapply Forall_impl; [exact Hpre|]. intros kv H.
    destruct (entry_pre_ok st kv H) as (H1 & H2 & H3).
    split; [exact H1|]. split; [|exact H3]. simpl. auto. }
  exists st'. unfold if_else_merge. unfold bind at 1. rewrite Hrun1.
  unfold bind at 1. rewrite Hrun2. split; [exact Hloop|].
  split; [exact Hcs|].
  intros k vals Hin.
  destruct (Hent k vals Hin) as (node & ops & j & s' & H1 & H2 & H3 & H4 & H5 & H6 & H7 & H8).
  exists node, ops, j, s'. repeat (split; [assumption|]).
  intros Hg. rewrite (H8 Hg). simpl. congruence.
Qed.

(** C4.  In the merge of an [if] with both arms, a var that only one arm
    mentions (here with final value [cv] in that arm) gets a new phi whose
    operand list is exactly [[cv]]: the value visible before the [if] is not
    among the operands.  The phi is defined after the current statement and
    becomes the current value of the var. *)
Theorem if_else_merge_one_arm
    (then_vars else_vars : omap ssa_var_status_t) (st : impl)
    (k : leaf) (s : ssa_var_status_t) (cv : id) :
  scopes_ st <> [] ->
  OMap.sorted then_vars ->
  OMap.sorted else_vars ->
  Forall (arm_ok st) then_vars ->
  Forall (arm_ok st) else_vars ->
  (OMap.find k then_vars = Some s /\ OMap.find k else_vars = None)
  \/ (OMap.find k then_vars = None /\ OMap.find k else_vars = Some s) ->
  current_value s = Some cv ->
  exists st' node j s',
    if_else_merge then_vars else_vars st = OK (tt, st')
    /\ phi_values (heap st') node = Some [cv]
    /\ length (heap st) <= node
    /\ In (o_define None (S node) linkage_local (Some node))
          (stmts_to_insert_after st')
    /\ find_scope 0 (scopes_ st') k = Some j
    /\ status_at (scopes_ st') j k = Some s'
    /\ current_value s' = Some (S node).
Proof.
  intros Hne Hst Hse Hthen Helse Harm Hcv.
  destruct (if_else_merge_spec then_vars else_vars st Hne Hthen Helse)
    as (st' & Hrun & _ & Hent).
  assert (Hfind : OMap.find k (collect_values else_vars (collect_values then_vars []))
                  = Some [Some cv]).
  { rewrite (collect_values_find else_vars Hse), (collect_values_find then_vars Hst).
    destruct Harm as [[-> ->]| [-> ->]]; simpl; rewrite Hcv; reflexivity. }
  destruct (OMapFacts.find_in _ _ _ Hfind) as (k0 & Hsame & Hin).
  destruct (Hent k0 _ Hin) as (node & ops & j & s' & H1 & H2 & H3 & H4 & H5 & H6 & H7 & _).
  simpl in H1. inversion H1; subst ops.
  exists st', node, j, s'. repeat (split; [assumption|]).
  split; [rewrite (find_scope_same_key _ _ k k0 Hsame); exact H5|].
  split; [rewrite (status_at_same_key _ _ k k0 Hsame); exact H6|exact H7].
Qed.

Lemma if_else_merge_one_arm_witness :
  let x := Leaf sc_var "x" "s32" None in
  let local := Some (SsaData false false None) in
  let st :=
    Impl [Node (var_node "x") "s32" None local;
          Node (constant_node 1) "s32" None None;
          temp_var_node "x_0" "s32" 1]
         [Scope [(x, Status (Some 0) 0 [])] k_normal 0]
         true 1 1 [] [] in
  exists st' node j s',
    if_else_merge [(x, Status (Some 2) 1 [])] [] st = OK (tt, st')
    /\ phi_values (heap st') node = Some [2]
    /\ length (heap st) <= node
    /\ In (o_define None (S node) linkage_local (Some node))
          (stmts_to_insert_after st')
    /\ find_scope 0 (scopes_ st') x = Some j
    /\ status_at (scopes_ st') j x = Some s'
    /\ current_value s' = Some (S node).
Proof.
  intros x local st.
  apply (if_else_merge_one_arm [(x, Status (Some 2) 1 [])] [] st x
           (Status (Some 2) 1 []) 2).
  - discriminate.
  - constructor; constructor.
  - constructor.
  - constructor; [|constructor].
    split; [reflexivity|]. split; [discriminate|].
    exists 2, (temp_var_node "x_0" "s32" 1). split; reflexivity.
  - constructor.
  - left. split; reflexivity.
  - reflexivity.
Defined.

(** ** What holds whenever a computation returns *)

Lemma wlp_ret {A} (a : A) (Q : A -> impl -> Prop) st : Q a st -> wlp (ret a) Q st.
Proof. intros H b st' E. inversion E; subst. exact H. Qed.

Lemma wlp_fail {A} (e : error) (Q : A -> impl -> Prop) st : wlp (fail e) Q st.
Proof. intros b st' E. discriminate E. Qed.

Lemma wlp_bind {A B} (m : M A) (k : A -> M B) (Q : B -> impl -> Prop) st :
  wlp m (fun a st1 => wlp (k a) Q st1) st -> wlp (bind m k) Q st.
Proof.
  intros H b st' E. unfold bind in E.
  destruct (m st) as [[a st1]|] eqn:Em; [|discriminate].
  exact (H a st1 Em b st' E).
Qed.

Lemma wlp_mono {A} (m : M A) (Q Q' : A -> impl -> Prop) st :
  wlp m Q st -> (forall a st', Q a st' -> Q' a st') -> wlp m Q' st.
Proof. intros H HQ a st' E. apply HQ, H, E. Qed.

Lemma wlp_get (Q : impl -> impl -> Prop) st : Q st st -> wlp get Q st.
Proof. intros H a st' E. inversion E; subst. exact H. Qed.

Lemma wlp_modify (f : impl -> impl) (Q : unit -> impl -> Prop) st :
  Q tt (f st) -> wlp (modify f) Q st.
Proof. intros H a st' E. inversion E; subst. exact H. Qed.

Lemma wlp_alloc (n : node) (Q : id -> impl -> Prop) st :
  Q (length (heap st)) (set_heap (heap st ++ [n]) st) -> wlp (alloc n) Q st.
Proof. intros H a st' E. inversion E; subst. exact H. Qed.

Lemma wlp_deref (p : id) (Q : node -> impl -> Prop) st :
  (forall n, heap st !! p = Some n -> Q n st) -> wlp (deref p) Q st.
Proof.
  intros H a st' E. unfold deref in E.
  destruct (heap st !! p) eqn:Hp; inversion E; subst. auto.
Qed.

Lemma wlp_update_node (p : id) (f : node -> node) (Q : unit -> impl -> Prop) st :
  (forall n, heap st !! p = Some n ->
             Q tt (set_heap (<[p := f n]> (heap st)) st)) ->
  wlp (update_node p f) Q st.
Proof.
  intros H a st' E. unfold update_node in E.
  destruct (heap st !! p) eqn:Hp; inversion E; subst. auto.
Qed.

Lemma wlp_scopes_back (Q : ssa_scope_t -> impl -> Prop) st :
  (forall below top, scopes_ st = below ++ [top] -> Q top st) ->
  wlp scopes_back Q st.
Proof.
  intros H a st' E. unfold scopes_back in E.
  destruct (last (scopes_ st)) eqn:Hl; inversion E; subst.
  destruct (last_snoc_inv _ _ Hl) as (below & Hb). eauto.
Qed.

Lemma wlp_scope_at (i : nat) (Q : ssa_scope_t -> impl -> Prop) st :
  (forall s, scopes_ st !! i = Some s -> Q s st) -> wlp (scope_at i) Q st.
Proof.
  intros H a st' E. unfold scope_at in E.
  destruct (scopes_ st !! i) eqn:Hl; inversion E; subst. auto.
Qed.

Lemma wlp_push_scope (k : scope_kind) (Q : unit -> impl -> Prop) st :
  (forall d, Q tt (set_scopes (scopes_ st ++ [Scope [] k d]) st)) ->
  wlp (push_scope k) Q st.
Proof. intros H a st' E. inversion E; subst. apply H. Qed.

Lemma wlp_pop_scope (Q : ssa_scope_t -> impl -> Prop) st :
  (forall below top, scopes_ st = below ++ [top] -> Q top (set_scopes below st)) ->
  wlp pop_scope Q st.
Proof.
  intros H a st' E. unfold pop_scope in E.
  destruct (last (scopes_ st)) eqn:Hl; inversion E; subst.
  destruct (last_snoc_inv _ _ Hl) as (below & Hb).
  rewrite Hb, removelast_last. eauto.
Qed.

Lemma wlp_read_status (p : status_ptr) (Q : ssa_var_status_t -> impl -> Prop) st :
  (forall s, status_at (scopes_ st) (fst p) (snd p) = Some s -> Q s st) ->
  wlp (read_status p) Q st.
Proof.
  intros H a st' E.
  assert (st' = st).
  { unfold read_status in E. destruct (scopes_ st !! fst p); [|discriminate].
    destruct (OMap.find (snd p) (vars_ s)); inversion E; reflexivity. }
  subst. apply H. apply read_status_at. exact E.
Qed.

Lemma wlp_write_status (p : status_ptr) (f : ssa_var_status_t -> ssa_var_status_t)
    (Q : unit -> impl -> Prop) st :
  Q tt (set_scopes (alter (with_vars (OMap.alter f (snd p))) (fst p) (scopes_ st)) st) ->
  wlp (write_status p f) Q st.
Proof. intros H a st' E. inversion E; subst. exact H. Qed.

Lemma wlp_insert_local_var (k : leaf) (v : option id)
    (Q : status_ptr -> impl -> Prop) st :
  (forall below top, scopes_ st = below ++ [top] ->
     Q (length below, k)
       (set_scopes
          (below ++ [with_vars (OMap.insert k (Status v (length below) [])) top])
          st)) ->
  wlp (insert_local_var k v) Q st.
Proof.
  intros H a st' E.
  destruct (last (scopes_ st)) eqn:Hl.
  - destruct (last_snoc_inv _ _ Hl) as (below & Hb).
    rewrite (run_insert_local_var st below s Hb) in E. inversion E; subst. eauto.
  - apply last_None in Hl. unfold insert_local_var in E. rewrite Hl in E.
    discriminate.
Qed.

Lemma wlp_get_local_var_nothrow (k : leaf) (Q : option status_ptr -> impl -> Prop) st :
  Q (option_map (fun i => (i, k)) (find_scope 0 (scopes_ st) k)) st ->
  wlp (get_local_var_nothrow k) Q st.
Proof. intros H a st' E. inversion E; subst. exact H. Qed.

Lemma wlp_get_local_var (k : leaf) (Q : status_ptr -> impl -> Prop) st :
  (forall i, find_scope 0 (scopes_ st) k = Some i -> Q (i, k) st) ->
  wlp (get_local_var k) Q st.
Proof.
  intros H a st' E. unfold get_local_var, bind, get_local_var_nothrow in E.
  destruct (find_scope 0 (scopes_ st) k) eqn:F; inversion E; subst. auto.
Qed.

(** The lookup for update either finds the entry or adds an empty one to
    the top scope. *)
Lemma wlp_get_local_var_for_update (k : leaf) (Q : status_ptr -> impl -> Prop) st :
  (forall j, status_at (scopes_ st) j k <> None -> Q (j, k) st) ->
  (forall below top,
     scopes_ st = below ++ [top] ->
     OMap.find k (vars_ top) = None ->
     is_old_var_global k = false ->
     Q (length below, k)
       (set_scopes
          (below ++ [with_vars (OMap.insert k (Status None (length below) [])) top])
          st)) ->
  wlp (get_local_var_for_update k) Q st.
Proof.
  intros Hfound Hnew. unfold get_local_var_for_update.
  destruct (is_old_var_global k) eqn:Hg.
  - apply wlp_get_local_var. intros i Hi. apply Hfound.
    apply find_scope_status_at. exact Hi.
  - apply wlp_bind, wlp_scopes_back. intros below top Hstack.
    apply wlp_bind, wlp_get.
    destruct (OMap.find k (vars_ top)) eqn:F.
    + apply wlp_ret. rewrite Hstack, snoc_top_index. apply Hfound.
      unfold status_at. rewrite Hstack, lookup_snoc_top, F. discriminate.
    + apply wlp_insert_local_var. intros below' top' Hstack'.
      rewrite Hstack in Hstack'. apply app_inj_tail in Hstack' as [-> ->].
      apply Hnew; auto.
Qed.

Lemma wlp_ssa_data_of (e : option id) (Q : ssa_data_t -> impl -> Prop) st :
  (forall p n d, e = Some p -> heap st !! p = Some n -> ssa_data_ n = Some d ->
                 Q d st) ->
  wlp (ssa_data_of e) Q st.
Proof.
  intros H. unfold ssa_data_of. destruct e as [p|]; [|apply wlp_fail].
  apply wlp_bind, wlp_deref. intros n Hn.
  destruct (ssa_data_ n) eqn:Hd; [|apply wlp_fail].
  apply wlp_ret. eauto.
Qed.

Lemma wlp_make_ssa_phi (values : list (option id)) (Q : id -> impl -> Prop) st :
  (forall p ps n,
     defined_handles values = Some (p :: ps) ->
     heap st !! p = Some n ->
     Q (length (heap st))
       (set_heap (heap st ++ [Node (ssa_phi_node (p :: ps)) (n_dtype n) None None])
                 st)) ->
  wlp (make_ssa_phi values) Q st.
Proof.
  intros H. unfold make_ssa_phi.
  destruct (defined_handles values) as [[|p ps]|] eqn:Hv; try apply wlp_fail.
  apply wlp_bind, wlp_deref. intros n Hn. apply wlp_alloc. eauto.
Qed.

Lemma wlp_new_temp_def (v : id) (Q : id * ostmt -> impl -> Prop) st :
  (forall n, heap st !! v = Some n ->
     Q (length (heap st), o_define None (length (heap st)) linkage_local (Some v))
       (set_var_def_idx (uint64_succ (var_def_idx_ st))
          (set_heap
             (heap st ++ [temp_var_node ("__tmp" ++ to_string (var_def_idx_ st))
                                        (n_dtype n) v]) st))) ->
  wlp (new_temp_def v) Q st.
Proof.
  intros H. unfold new_temp_def.
  apply wlp_bind, wlp_deref. intros n Hn.
  apply wlp_bind, wlp_get. apply wlp_bind, wlp_alloc.
  apply wlp_bind, wlp_modify. apply wlp_ret. apply H. exact Hn.
Qed.

Lemma wlp_add_def (v : id) (Q : id -> impl -> Prop) st :
  (forall n, heap st !! v = Some n ->
     Q (length (heap st))
       (set_current_scope
          (current_scope_ st
           ++ [o_define None (length (heap st)) linkage_local (Some v)])
          (set_var_def_idx (uint64_succ (var_def_idx_ st))
             (set_heap
                (heap st ++ [temp_var_node ("__tmp" ++ to_string (var_def_idx_ st))
                                           (n_dtype n) v]) st)))) ->
  wlp (add_def v) Q st.
Proof.
  intros H. unfold add_def. apply wlp_bind, wlp_new_temp_def. intros n Hn.
  apply wlp_bind, wlp_modify. apply wlp_ret. apply H. exact Hn.
Qed.

Lemma wlp_add_def_after_current_stmt (v : id) (Q : id -> impl -> Prop) st :
  (forall n, heap st !! v = Some n ->
     Q (length (heap st))
       (set_insert_after
          (stmts_to_insert_after st
           ++ [o_define None (length (heap st)) linkage_local (Some v)])
          (set_var_def_idx (uint64_succ (var_def_idx_ st))
             (set_heap
                (heap st ++ [temp_var_node ("__tmp" ++ to_string (var_def_idx_ st))
                                           (n_dtype n) v]) st)))) ->
  wlp (add_def_after_current_stmt v) Q st.
Proof.
  intros H. unfold add_def_after_current_stmt.
  apply wlp_bind, wlp_new_temp_def. intros n Hn.
  apply wlp_bind, wlp_modify. apply wlp_ret. apply H. exact Hn.
Qed.

Lemma wlp_checked_as_var (p : id) (Q : unit -> impl -> Prop) st :
  (forall n, heap st !! p = Some n -> is_var_body (n_body n) = true -> Q tt st) ->
  wlp (checked_as_var p) Q st.
Proof.
  intros H. unfold checked_as_var. apply wlp_bind, wlp_deref. intros n Hn.
  destruct (is_var_body (n_body n)) eqn:Hv; [|apply wlp_fail].
  apply wlp_ret. eauto.
Qed.

Lemma wlp_checked_as_var_key (k : leaf) (Q : leaf -> impl -> Prop) st :
  (node_type_ k = sc_var -> Q k st) -> wlp (checked_as_var_key k) Q st.
Proof.
  intros H. unfold checked_as_var_key.
  destruct (node_type_ k); [apply wlp_ret; auto|apply wlp_fail].
Qed.

Lemma wlp_rename (newv : id) (old_var : leaf) (Q : unit -> impl -> Prop) st :
  (forall n d, heap st !! newv = Some n -> ssa_data_ n = Some d ->
     Q tt (if is_local d then renamed newv old_var st else st)) ->
  wlp (rename_temp_var_with_version newv old_var) Q st.
Proof.
  intros H a st' E.
  destruct (heap st !! newv) as [n|] eqn:Hn.
  - destruct (ssa_data_ n) as [d|] eqn:Hd.
    + rewrite (run_rename newv old_var st n d Hn Hd) in E.
      inversion E; subst. eauto.
    + unfold rename_temp_var_with_version, ssa_data_of, deref, fail, bind in E.
      cbv beta in E. rewrite Hn, Hd in E. discriminate.
  - unfold rename_temp_var_with_version, ssa_data_of, deref, bind in E.
    cbv beta in E. rewrite Hn in E. discriminate.
Qed.

Lemma wlp_for_each {A} (f : A -> M unit) (I : impl -> Prop) (l : list A) :
  (forall a st, In a l -> I st -> wlp (f a) (fun _ st' => I st') st) ->
  forall st, I st -> wlp (for_each f l) (fun _ st' => I st') st.
Proof.
  induction l as [|a l IH]; intros Hf st HI; simpl.
  - apply wlp_ret. exact HI.
  - apply wlp_bind. eapply wlp_mono; [apply Hf; [left; reflexivity|exact HI]|].
    intros u st1 HI1. apply IH; [|exact HI1].
    intros b st2 Hb. apply Hf. right. exact Hb.
Qed.

(** ** A variable bound in one arm only *)

Lemma if_then_merge_entry_no_leak (kv : leaf * ssa_var_status_t) (k : leaf)
    (st : impl) :
  find_scope 0 (scopes_ st) k = None ->
  wlp (if_then_merge_entry kv)
      (fun _ st' => find_scope 0 (scopes_ st') k = None) st.
Proof.
  intros Hnone. unfold if_then_merge_entry.
  apply wlp_bind, wlp_get_local_var_nothrow.
  destruct (find_scope 0 (scopes_ st) (fst kv)) as [i|] eqn:Hfind; simpl;
    [|apply wlp_ret; exact Hnone].
  assert (Hne : ~ same_key (fst kv) k).
  { intros Hs. rewrite (find_scope_same_key _ _ _ _ Hs) in Hfind. congruence. }
  assert (Htail : forall (p : status_ptr) (st2 : impl),
    snd p = fst kv ->
    find_scope 0 (scopes_ st2) k = None ->
    wlp (write_status p (add_for_loop_phi (for_loop_phi (snd kv))) ;;;
         parent <- read_status (i, fst kv) ;;
         new_phi <- make_ssa_phi [current_value parent; current_value (snd kv)] ;;
         new_var <- add_def_after_current_stmt new_phi ;;
         write_status p (set_current_value (Some new_var)) ;;;
         checked_as_var new_var ;;;
         k0 <- checked_as_var_key (fst kv) ;;
         rename_temp_var_with_version new_var k0)
        (fun _ st' => find_scope 0 (scopes_ st') k = None) st2).
  { intros p st2 Hp Hnone2.
    apply wlp_bind, wlp_write_status.
    apply wlp_bind, wlp_read_status. intros parent _.
    apply wlp_bind, wlp_make_ssa_phi. intros p0 ps n _ _.
    apply wlp_bind, wlp_add_def_after_current_stmt. intros n0 _.
    apply wlp_bind, wlp_write_status.
    apply wlp_bind, wlp_checked_as_var. intros n1 _ _.
    apply wlp_bind, wlp_checked_as_var_key. intros _.
    apply wlp_rename. intros n2 d _ _.
    match goal with
    | |- find_scope 0 (scopes_ (if _ then renamed ?v ?o ?s else ?s)) k = None =>
        assert (E : scopes_ (if is_local d then renamed v o s else s) = scopes_ s)
    end.
    { destruct (is_local d); [|reflexivity]. unfold renamed.
      match goal with |- context [heap ?s !! ?v] => destruct (heap s !! v) end;
        reflexivity. }
    rewrite E. simpl. rewrite Hp, !find_scope_alter_status. exact Hnone2. }
  apply wlp_bind, wlp_get_local_var_for_update.
  - intros j _. apply Htail; [reflexivity|exact Hnone].
  - intros below top Hstack Hfresh Hg. apply Htail; [reflexivity|]. simpl.
    rewrite find_scope_snoc. simpl.
    rewrite OMapFacts.find_insert_ne by exact Hne.
    rewrite Hstack, find_scope_snoc in Hnone. exact Hnone.
Qed.

(** C10.  The two merges treat a var that is not global, that only one arm
    binds and that no enclosing scope binds, differently.
    - With both arms ([if_else_merge]): the var still gets a phi, over the
      one value [cv] of the arm that binds it, defined after the [if], and
      the lookup for update creates a binding for it in the top scope of the
      enclosing stack, whose current value is the new temporary.
    - Without else ([if_then_merge_entry]): the entry is skipped, the state
      is left as it was (nothing is emitted), and after the whole loop over
      the then-scope the var is still not bound. *)
Theorem if_merge_asymmetry :
  (forall (then_vars else_vars : omap ssa_var_status_t) (st : impl)
          (k : leaf) (s : ssa_var_status_t) (cv : id),
     scopes_ st <> [] ->
     OMap.sorted then_vars ->
     OMap.sorted else_vars ->
     Forall (arm_ok st) then_vars ->
     Forall (arm_ok st) else_vars ->
     (OMap.find k then_vars = Some s /\ OMap.find k else_vars = None)
     \/ (OMap.find k then_vars = None /\ OMap.find k else_vars = Some s) ->
     current_value s = Some cv ->
     is_old_var_global k = false ->
     find_scope 0 (scopes_ st) k = None ->
     exists st' node s',
       if_else_merge then_vars else_vars st = OK (tt, st')
       /\ phi_values (heap st') node = Some [cv]
       /\ In (o_define None (S node) linkage_local (Some node))
             (stmts_to_insert_after st')
       /\ find_scope 0 (scopes_ st') k = Some (length (scopes_ st) - 1)
       /\ status_at (scopes_ st') (length (scopes_ st) - 1) k = Some s'
       /\ current_value s' = Some (S node))
  /\ (forall (then_vars : omap ssa_var_status_t) (st : impl)
             (k : leaf) (s : ssa_var_status_t),
        find_scope 0 (scopes_ st) k = None ->
        if_then_merge_entry (k, s) st = OK (tt, st)
        /\ forall st', for_each if_then_merge_entry then_vars st = OK (tt, st') ->
                       find_scope 0 (scopes_ st') k = None).
Proof.
  split.
  - intros then_vars else_vars st k s cv Hne Hst Hse Hthen Helse Harm Hcv Hg Hnone.
    destruct (if_else_merge_spec then_vars else_vars st Hne Hthen Helse)
      as (st' & Hrun & _ & Hent).
    assert (Hfind : OMap.find k (collect_values else_vars (collect_values then_vars []))
                    = Some [Some cv]).
    { rewrite (collect_values_find else_vars Hse), (collect_values_find then_vars Hst).
      destruct Harm as [[-> ->]| [-> ->]]; simpl; rewrite Hcv; reflexivity. }
    destruct (OMapFacts.find_in _ _ _ Hfind) as (k0 & Hsame & Hin).
    destruct (Hent k0 _ Hin)
      as (node & ops & j & s' & H1 & H2 & H3 & H4 & H5 & H6 & H7 & H8).
    simpl in H1. inversion H1; subst ops.
    assert (Hg0 : is_old_var_global k0 = false).
    { destruct (is_old_var_global k0) eqn:E; [|reflexivity]. exfalso.
      assert (Hin0 : In k0 (map fst (collect_values else_vars
                                       (collect_values then_vars []))))
        by (apply in_map_iff; exists (k0, [Some cv]); auto).
      assert (Hpre : Forall (entry_pre st)
                       (collect_values else_vars (collect_values then_vars []))).
      { apply entry_pre_collect; [exact Helse|].
        apply entry_pre_collect; [exact Hthen|constructor]. }
      rewrite List.Forall_forall in Hpre. destruct (Hpre _ Hin) as (_ & Hv & _).
      apply (Hv E). simpl. rewrite <- (find_scope_same_key _ _ k k0 Hsame).
      exact Hnone. }
    specialize (H8 Hg0). subst j.
    exists st', node, s'. split; [exact Hrun|]. split; [exact H2|].
    split; [exact H4|].
    split; [rewrite (find_scope_same_key _ _ k k0 Hsame); exact H5|].
    split; [rewrite (status_at_same_key _ _ k k0 Hsame); exact H6|exact H7].
  - intros then_vars st k s Hnone. split.
    + unfold if_then_merge_entry, bind, get_local_var_nothrow. simpl.
      rewrite Hnone. reflexivity.
    + intros st' Hrun.
      refine (wlp_for_each if_then_merge_entry
                (fun st1 => find_scope 0 (scopes_ st1) k = None) then_vars
                _ st Hnone tt st' Hrun).
      intros kv st1 _ H1. apply if_then_merge_entry_no_leak. exact H1.
Qed.

Lemma if_merge_asymmetry_witness :
  let y := Leaf sc_var "y" "s32" None in
  let st :=
    Impl [Node (constant_node 1) "s32" None None; temp_var_node "y_0" "s32" 0]
         [Scope [] k_normal 0] true 1 1 [] [] in
  let arm := [(y, Status (Some 1) 1 [])] in
  (exists st' node s',
     if_else_merge arm [] st = OK (tt, st')
     /\ phi_values (heap st') node = Some [1]
     /\ In (o_define None (S node) linkage_local (Some node))
           (stmts_to_insert_after st')
     /\ find_scope 0 (scopes_ st') y = Some 0
     /\ status_at (scopes_ st') 0 y = Some s'
     /\ current_value s' = Some (S node))
  /\ for_each if_then_merge_entry arm st = OK (tt, st)
  /\ find_scope 0 (scopes_ st) y = None.
Proof.
  intros y st arm.
  destruct if_merge_asymmetry as [Hboth Hthen].
  split.
  - apply (Hboth arm [] st y (Status (Some 1) 1 []) 1).
    + discriminate.
    + constructor; constructor.
    + constructor.
    + constructor; [|constructor].
      split; [reflexivity|]. split; [discriminate|].
      exists 1, (temp_var_node "y_0" "s32" 0). split; reflexivity.
    + constructor.
    + left. split; reflexivity.
    + reflexivity.
    + reflexivity.
    + reflexivity.
  - destruct (Hthen arm st y (Status (Some 1) 1 []) eq_refl) as [Hskip Hloop].
    split; [reflexivity|].
    exact (Hloop st eq_refl).
Defined.

(** ** An outer variable that a loop only reads *)

(** The pass does emit a phi after the loop: [k_1 = phi(k, k_0)], over the
    outer value (node 1) and the loop phi (node 12). *)
Lemma read_only_loop_has_post_loop_phi : ~ no_post_loop_phi 10.
Proof.
  intros H.
  destruct (ssa_transform_func (read_only_loop 10)) as [[out st]|] eqn:E;
    [|vm_compute in E; discriminate E].
  specialize (H out st E).
  vm_compute in E. inversion E; subst. vm_compute in H. discriminate H.
Qed.

(** C2, as the code has it.  On the read-only loop the pass returns; the
    first use of [k] in the loop makes the only phi of the loop body,
    [k_0 = phi(k)], whose operand list still has the outer value alone when
    the pass ends (closing the loop patched nothing); and the loop is
    followed by the phi [k_1 = phi(k, k_0)], which the loop merge emits
    whether or not the variable changed. *)
Theorem read_only_loop_phis (n : Z) :
  exists out st,
    ssa_transform_func (read_only_loop n) = OK (out, st)
    /\ n_body <$> heap st !! 1 = Some (var_node "k")
    /\ phi_definitions (heap st) (first_loop_body (body_seq out))
       = [(12, Some (var_node "k_0"), [1])]
    /\ phi_definitions (heap st) (after_first_loop (body_seq out))
       = [(14, Some (var_node "k_1"), [1; 12])].
Proof.
  eexists _, _. split; [vm_compute; reflexivity|].
  repeat split.
Qed.

(** ** The iteration order of a scope map *)

Lemma same_key_key_id (a b : leaf) : same_key a b <-> key_id a = key_id b.
Proof.
  rewrite same_key_iff. unfold key_id. split.
  - intros [-> ->]. reflexivity.
  - intros H. inversion H. auto.
Qed.

Lemma keys_insert {V} (k : leaf) (v : V) (m : omap V) (x : sc_expr_type * string) :
  In x (keys (OMap.insert k v m)) <-> x = key_id k \/ In x (keys m).
Proof.
  induction m as [|[k' v'] m IH]; simpl.
  - intuition congruence.
  - destruct (var_cmper_t k k') eqn:H1; simpl; [intuition congruence|].
    destruct (var_cmper_t k' k) eqn:H2; simpl.
    + rewrite IH. tauto.
    + assert (Hs : key_id k = key_id k')
        by (apply same_key_key_id; split; assumption).
      rewrite Hs. intuition congruence.
Qed.

Lemma keys_map_of_inserts {V} (l : list (leaf * V)) (x : sc_expr_type * string) :
  In x (keys (map_of_inserts l)) <-> In x (map (fun kv => key_id (fst kv)) l).
Proof.
  unfold map_of_inserts.
  assert (G : forall m, In x (keys (fold_left
                 (fun m kv => OMap.insert (fst kv) (snd kv) m) l m))
              <-> In x (keys m) \/ In x (map (fun kv => key_id (fst kv)) l)).
  { induction l as [|kv l IH]; intros m; simpl; [tauto|].
    rewrite IH, keys_insert. split; intros; intuition (subst; auto). }
  rewrite G. simpl. tauto.
Qed.

Lemma sorted_map_of_inserts {V} (l : list (leaf * V)) :
  OMap.sorted (map_of_inserts l).
Proof.
  unfold map_of_inserts.
  assert (G : forall m, OMap.sorted m ->
            OMap.sorted (fold_left
              (fun m kv => OMap.insert (fst kv) (snd kv) m) l m)).
  { induction l as [|kv l IH]; intros m Hm; simpl; [exact Hm|].
    apply IH, OMapFacts.sorted_insert, Hm. }
  apply G. constructor.
Qed.

Lemma sorted_head_least {V} (k : leaf) (v : V) (m : omap V) (x : leaf) :
  OMap.sorted ((k, v) :: m) ->
  In (key_id x) (keys ((k, v) :: m)) ->
  key_id x = key_id k \/ var_cmper_t k x = true.
Proof.
  intros Hs [H|H]; [left; symmetry; exact H|right].
  inversion Hs as [|? ? ? Hall _]; subst.
  unfold keys in H. apply in_map_iff in H as ([k2 v2] & Hk2 & Hin).
  rewrite List.Forall_forall in Hall. specialize (Hall _ Hin). simpl in *.
  rewrite <- (var_cmper_same_r k2 x k); [exact Hall|].
  apply same_key_key_id. exact Hk2.
Qed.

(** Two sorted maps over the same set of keys list them in the same order. *)
Lemma sorted_keys_unique {V W} (m1 : omap V) (m2 : omap W) :
  OMap.sorted m1 -> OMap.sorted m2 ->
  (forall x, In x (keys m1) <-> In x (keys m2)) ->
  keys m1 = keys m2.
Proof.
  intros H1. revert m2. induction H1 as [|k1 v1 m1 Hall1 Hs1 IH]; intros m2 H2 Hsame.
  - destruct m2 as [|[k2 v2] m2]; [reflexivity|].
    exfalso. apply (Hsame (key_id k2)). left. reflexivity.
  - destruct H2 as [|k2 v2 m2 Hall2 Hs2].
    { exfalso. apply (Hsame (key_id k1)). left. reflexivity. }
    assert (S1 : OMap.sorted ((k1, v1) :: m1)) by (constructor; assumption).
    assert (S2 : OMap.sorted ((k2, v2) :: m2)) by (constructor; assumption).
    assert (Hhead : key_id k1 = key_id k2).
    { assert (In1 : In (key_id k2) (keys ((k1, v1) :: m1)))
        by (apply Hsame; left; reflexivity).
      assert (In2 : In (key_id k1) (keys ((k2, v2) :: m2)))
        by (apply Hsame; left; reflexivity).
      destruct (sorted_head_least k1 v1 m1 k2 S1 In1) as [E|L1]; [auto|].
      destruct (sorted_head_least k2 v2 m2 k1 S2 In2) as [E|L2]; [auto|].
      rewrite (var_cmper_asym _ _ L1) in L2. discriminate. }
    simpl. f_equal; [exact Hhead|]. apply IH; [exact Hs2|].
    assert (Hnot1 : ~ In (key_id k1) (keys m1)).
    { intros Hin. unfold keys in Hin. apply in_map_iff in Hin as ([k v] & Hk & Hin).
      rewrite List.Forall_forall in Hall1. specialize (Hall1 _ Hin). simpl in *.
      apply same_key_key_id in Hk. destruct Hk as [_ Hk]. congruence. }
    assert (Hnot2 : ~ In (key_id k2) (keys m2)).
    { intros Hin. unfold keys in Hin. apply in_map_iff in Hin as ([k v] & Hk & Hin).
      rewrite List.Forall_forall in Hall2. specialize (Hall2 _ Hin). simpl in *.
      apply same_key_key_id in Hk. destruct Hk as [_ Hk]. congruence. }
    intros x. split; intros Hin.
    + destruct (proj1 (Hsame x) (or_intror Hin)) as [E|H]; [|exact H].
      simpl in E. exfalso. apply Hnot1. rewrite Hhead, E. exact Hin.
    + destruct (proj2 (Hsame x) (or_intror Hin)) as [E|H]; [|exact H].
      simpl in E. exfalso. apply Hnot2. rewrite <- Hhead, E. exact Hin.
Qed.

(** ** Flattened output *)

Lemma hle_refl h : hle h h.
Proof. intros q H; exact H. Qed.

Lemma hle_trans h1 h2 h3 : hle h1 h2 -> hle h2 h3 -> hle h1 h3.
Proof. intros H1 H2 q H. apply H2, H1, H. Qed.

Lemma leaf_value_hle h h' v : hle h h' -> leaf_value h v -> leaf_value h' v.
Proof. intros Hle H c Hc. apply Hle, H, Hc. Qed.

Lemma values_ok_hle h h' scopes :
  hle h h' -> values_ok h scopes -> values_ok h' scopes.
Proof.
  intros Hle H. eapply Forall_impl; [exact H|]. intros sc Hsc.
  eapply Forall_impl; [exact Hsc|]. intros kv Hkv. simpl in *.
  eapply leaf_value_hle; eauto.
Qed.

Lemma Forall_is_leaf_hle h h' l :
  hle h h' -> Forall (is_leaf h) l -> Forall (is_leaf h') l.
Proof. intros Hle H. eapply Forall_impl; [exact H|]. exact Hle. Qed.

(** *** Changes of the store *)

Lemma hle_alloc h n : hle h (h ++ [n]).
Proof.
  intros q (m & Hq & Hm). exists m. split; [|exact Hm].
  rewrite lookup_app_l by (eapply lookup_lt_Some; eauto). exact Hq.
Qed.

Lemma flat_alloc h n :
  flat h -> Forall (is_leaf h) (operands (n_body n)) -> flat (h ++ [n]).
Proof.
  intros Hf Hn p m Hp.
  apply (Forall_is_leaf_hle h); [apply hle_alloc|].
  destruct (decide (p < length h)) as [Hlt|Hge].
  - rewrite lookup_app_l in Hp by exact Hlt. eapply Hf; eauto.
  - rewrite lookup_app_r in Hp by lia.
    destruct (p - length h); simpl in Hp; [|discriminate].
    inversion Hp; subst. exact Hn.
Qed.

Lemma is_leaf_alloc h n :
  leaf_body (n_body n) = true -> is_leaf (h ++ [n]) (length h).
Proof. intros H. exists n. split; [apply lookup_snoc_fresh|exact H]. Qed.

(** Replacing a node by one that is a leaf if the old one was, with leaf
    operands. *)
Lemma hle_update h p n n' :
  h !! p = Some n ->
  (leaf_body (n_body n) = true -> leaf_body (n_body n') = true) ->
  hle h (<[p := n']> h).
Proof.
  intros Hp Hl q (m & Hq & Hm).
  destruct (decide (p = q)) as [->|Hne].
  - exists n'. split; [apply list_lookup_insert_eq; eapply lookup_lt_Some; eauto|].
    apply Hl. congruence.
  - exists m. split; [|exact Hm]. rewrite list_lookup_insert_ne by exact Hne.
    exact Hq.
Qed.

Lemma flat_update h p n n' :
  flat h ->
  h !! p = Some n ->
  (leaf_body (n_body n) = true -> leaf_body (n_body n') = true) ->
  Forall (is_leaf h) (operands (n_body n')) ->
  flat (<[p := n']> h).
Proof.
  intros Hf Hp Hl Hops q m Hq.
  apply (Forall_is_leaf_hle h); [eapply hle_update; eauto|].
  destruct (decide (p = q)) as [->|Hne].
  - rewrite list_lookup_insert_eq in Hq by (eapply lookup_lt_Some; eauto).
    inversion Hq; subst. exact Hops.
  - rewrite list_lookup_insert_ne in Hq by exact Hne. eapply Hf; eauto.
Qed.

(** *** Changes of the stack *)

Lemma in_omap_insert {V} (k : leaf) (v : V) (m : omap V) (kv : leaf * V) :
  In kv (OMap.insert k v m) -> kv = (k, v) \/ In kv m.
Proof.
  induction m as [|[k' v'] m IH]; simpl.
  - intros [<-|[]]. auto.
  - destruct (var_cmper_t k k'); [simpl; intuition auto|].
    destruct (var_cmper_t k' k); simpl; [|auto].
    intros [<-|H]; [auto|]. destruct (IH H); auto.
Qed.

Lemma in_omap_alter {V} (f : V -> V) (k : leaf) (m : omap V) (kv : leaf * V) :
  In kv (OMap.alter f k m) ->
  In kv m \/ exists v, kv = (fst kv, f v) /\ In (fst kv, v) m.
Proof.
  induction m as [|[k' v'] m IH]; simpl; [tauto|].
  destruct (var_cmper_t k k'); [simpl; intuition auto|].
  destruct (var_cmper_t k' k); simpl.
  - intros [<-|H]; [auto|]. destruct (IH H) as [H'|(v & E & H')]; eauto.
  - intros [<-|H]; [|auto]. right. exists v'. simpl. auto.
Qed.

Lemma values_ok_snoc h below top :
  values_ok h (below ++ [top])
  <-> values_ok h below
      /\ Forall (fun kv => leaf_value h (current_value (snd kv))) (vars_ top).
Proof.
  unfold values_ok. rewrite Forall_app, Forall_singleton. tauto.
Qed.

Lemma scope_ok_insert h k v (m : omap ssa_var_status_t) :
  Forall (fun kv => leaf_value h (current_value (snd kv))) m ->
  leaf_value h (current_value v) ->
  Forall (fun kv => leaf_value h (current_value (snd kv))) (OMap.insert k v m).
Proof.
  intros Hm Hv. apply List.Forall_forall. intros kv Hin.
  apply in_omap_insert in Hin as [->|Hin]; [exact Hv|].
  rewrite List.Forall_forall in Hm. apply Hm, Hin.
Qed.

Lemma scope_ok_alter h k f (m : omap ssa_var_status_t) :
  Forall (fun kv => leaf_value h (current_value (snd kv))) m ->
  (forall s, leaf_value h (current_value s) -> leaf_value h (current_value (f s))) ->
  Forall (fun kv => leaf_value h (current_value (snd kv))) (OMap.alter f k m).
Proof.
  intros Hm Hf. rewrite List.Forall_forall in Hm.
  apply List.Forall_forall. intros kv Hin.
  apply in_omap_alter in Hin as [Hin|(v & E & Hin)]; [apply Hm, Hin|].
  rewrite E. simpl. apply Hf. apply (Hm _ Hin).
Qed.

Lemma values_ok_alter h f k j scopes :
  values_ok h scopes ->
  (forall s, leaf_value h (current_value s) -> leaf_value h (current_value (f s))) ->
  values_ok h (alter (with_vars (OMap.alter f k)) j scopes).
Proof.
  intros Hok Hf. unfold values_ok in *.
  apply Forall_lookup. intros i sc Hi.
  rewrite Forall_lookup in Hok.
  rewrite list_lookup_alter in Hi.
  destruct (decide (j = i)) as [->|Hne]; [|eapply Hok; eauto].
  destruct (scopes !! i) as [sc0|] eqn:E; [|discriminate].
  simpl in Hi. inversion Hi; subst. simpl.
  apply scope_ok_alter; [eapply Hok; eauto|exact Hf].
Qed.

Lemma values_ok_status_at h scopes j k s :
  values_ok h scopes -> status_at scopes j k = Some s ->
  leaf_value h (current_value s).
Proof.
  intros Hok Hs. unfold status_at in Hs.
  destruct (scopes !! j) as [sc|] eqn:E; [|discriminate].
  unfold values_ok in Hok. rewrite Forall_lookup in Hok.
  specialize (Hok _ _ E). rewrite List.Forall_forall in Hok.
  destruct (OMapFacts.find_in _ _ _ Hs) as (k' & _ & Hin).
  apply (Hok _ Hin).
Qed.

Lemma leaf_value_set_add_phi h l s :
  leaf_value h (current_value s) ->
  leaf_value h (current_value (add_for_loop_phi l s)).
Proof. auto. Qed.

Lemma leaf_value_set_current h c s :
  is_leaf h c -> leaf_value h (current_value (set_current_value (Some c) s)).
Proof. intros H c' E. simpl in E. inversion E; subst. exact H. Qed.

Lemma leaf_value_none h : leaf_value h None.
Proof. intros c E. discriminate. Qed.

Lemma leaf_value_some h c : is_leaf h c -> leaf_value h (Some c).
Proof. intros H c' E. inversion E; subst. exact H. Qed.

Lemma is_leaf_isa h r :
  isa h is_var_body (Some r) || isa h is_tensor_body (Some r)
  || isa h is_constant_body (Some r) = true ->
  is_leaf h r.
Proof.
  unfold isa, is_leaf, leaf_body. destruct (h !! r) as [n|]; [|discriminate].
  intros H. exists n. split; [reflexivity|exact H].
Qed.

(** *** Computations that keep the invariant *)

Lemma wlpi_bind {A B} (m : M A) (k : A -> M B) (Q : A -> impl -> Prop)
    (Q' : B -> impl -> Prop) st :
  wlpi m Q st ->
  (forall a st1, hle (heap st) (heap st1) -> Q a st1 -> wlpi (k a) Q' st1) ->
  wlpi (bind m k) Q' st.
Proof.
  intros Hm Hk HI. apply wlp_bind. eapply wlp_mono; [apply Hm, HI|].
  intros a st1 (HI1 & Hle & HQ). simpl.
  eapply wlp_mono; [apply (Hk a st1 Hle HQ HI1)|].
  intros b st2 (HI2 & Hle2 & HQ2). split; [exact HI2|].
  split; [eapply hle_trans; eauto|exact HQ2].
Qed.

Lemma wlpi_ret {A} (a : A) (Q : A -> impl -> Prop) st : Q a st -> wlpi (ret a) Q st.
Proof. intros H HI. apply wlp_ret. split; [exact HI|]. split; [apply hle_refl|exact H]. Qed.

Lemma wlpi_fail {A} (e : error) (Q : A -> impl -> Prop) st : wlpi (fail e) Q st.
Proof. intros HI. apply wlp_fail. Qed.

Lemma wlpi_mono {A} (m : M A) (Q Q' : A -> impl -> Prop) st :
  wlpi m Q st ->
  (forall a st', hle (heap st) (heap st') -> Q a st' -> Q' a st') ->
  wlpi m Q' st.
Proof.
  intros H HQ HI. eapply wlp_mono; [apply H, HI|].
  intros a st' (H1 & H2 & H3). auto.
Qed.

(** A computation that does not touch the state. *)
Lemma wlpi_read {A} (m : M A) (Q : A -> impl -> Prop) st :
  wlp m (fun a st' => st' = st /\ Q a st) st -> wlpi m Q st.
Proof.
  intros H HI. eapply wlp_mono; [exact H|]. intros a st' [-> HQ].
  split; [exact HI|]. split; [apply hle_refl|exact HQ].
Qed.

Lemma wlpi_get (Q : impl -> impl -> Prop) st : Q st st -> wlpi get Q st.
Proof. intros H. apply wlpi_read, wlp_get. auto. Qed.

Lemma wlpi_deref (p : id) (Q : node -> impl -> Prop) st :
  (forall n, heap st !! p = Some n -> Q n st) -> wlpi (deref p) Q st.
Proof. intros H. apply wlpi_read, wlp_deref. auto. Qed.

Lemma wlpi_scopes_back (Q : ssa_scope_t -> impl -> Prop) st :
  (forall below top, scopes_ st = below ++ [top] -> Q top st) ->
  wlpi scopes_back Q st.
Proof. intros H. apply wlpi_read, wlp_scopes_back. eauto. Qed.

Lemma wlpi_scope_at (i : nat) (Q : ssa_scope_t -> impl -> Prop) st :
  (forall s, scopes_ st !! i = Some s -> Q s st) -> wlpi (scope_at i) Q st.
Proof. intros H. apply wlpi_read, wlp_scope_at. auto. Qed.

Lemma wlpi_get_local_var (k : leaf) (Q : status_ptr -> impl -> Prop) st :
  (forall i, find_scope 0 (scopes_ st) k = Some i -> Q (i, k) st) ->
  wlpi (get_local_var k) Q st.
Proof. intros H. apply wlpi_read, wlp_get_local_var. auto. Qed.

Lemma wlpi_get_local_var_nothrow (k : leaf) (Q : option status_ptr -> impl -> Prop) st :
  Q (option_map (fun i => (i, k)) (find_scope 0 (scopes_ st) k)) st ->
  wlpi (get_local_var_nothrow k) Q st.
Proof. intros H. apply wlpi_read, wlp_get_local_var_nothrow. auto. Qed.

Lemma wlpi_ssa_data_of (e : option id) (Q : ssa_data_t -> impl -> Prop) st :
  (forall p n d, e = Some p -> heap st !! p = Some n -> ssa_data_ n = Some d ->
                 Q d st) ->
  wlpi (ssa_data_of e) Q st.
Proof. intros H. apply wlpi_read, wlp_ssa_data_of. eauto. Qed.

Lemma wlpi_checked_as_var (p : id) (Q : unit -> impl -> Prop) st :
  (forall n, heap st !! p = Some n -> is_var_body (n_body n) = true -> Q tt st) ->
  wlpi (checked_as_var p) Q st.
Proof. intros H. apply wlpi_read, wlp_checked_as_var. eauto. Qed.

Lemma wlpi_checked_as_var_key (k : leaf) (Q : leaf -> impl -> Prop) st :
  (node_type_ k = sc_var -> Q k st) -> wlpi (checked_as_var_key k) Q st.
Proof. intros H. apply wlpi_read, wlp_checked_as_var_key. auto. Qed.

(** Reading a status also tells that its current value is a leaf. *)
Lemma wlpi_read_status (p : status_ptr) (Q : ssa_var_status_t -> impl -> Prop) st :
  (forall s, status_at (scopes_ st) (fst p) (snd p) = Some s ->
             leaf_value (heap st) (current_value s) -> Q s st) ->
  wlpi (read_status p) Q st.
Proof.
  intros H HI. apply wlp_read_status. intros s Hs.
  split; [exact HI|]. split; [apply hle_refl|].
  apply H; [exact Hs|]. eapply values_ok_status_at; [apply HI|exact Hs].
Qed.

Lemma wlpi_bind_step {A B} (m : M A) (k : A -> M B) (Q : B -> impl -> Prop) st :
  wlpi m (fun a st1 => wlpi (k a) Q st1) st -> wlpi (bind m k) Q st.
Proof.
  intros H. eapply wlpi_bind; [exact H|]. intros a st1 _ Hk. exact Hk.
Qed.

(** The leaves of the state a computation starts from may be used to
    establish what holds when it returns. *)
Lemma wlpi_hle {A} (m : M A) (Q : A -> impl -> Prop) st :
  wlpi m (fun a st' => hle (heap st) (heap st') -> Q a st') st -> wlpi m Q st.
Proof. intros H. eapply wlpi_mono; [exact H|]. simpl. auto. Qed.

Lemma wlpi_modify (f : impl -> impl) (Q : unit -> impl -> Prop) st :
  heap (f st) = heap st -> scopes_ (f st) = scopes_ st -> Q tt (f st) ->
  wlpi (modify f) Q st.
Proof.
  intros Hh Hs HQ HI. apply wlp_modify. rewrite Hh, Hs.
  split; [exact HI|]. split; [apply hle_refl|exact HQ].
Qed.

Lemma wlpi_alloc (n : node) (Q : id -> impl -> Prop) st :
  Forall (is_leaf (heap st)) (operands (n_body n)) ->
  Q (length (heap st)) (set_heap (heap st ++ [n]) st) ->
  wlpi (alloc n) Q st.
Proof.
  intros Hops HQ [Hf Hv]. apply wlp_alloc. simpl.
  split; [split; [apply flat_alloc; assumption|]|].
  - eapply values_ok_hle; [apply hle_alloc|exact Hv].
  - split; [apply hle_alloc|exact HQ].
Qed.

Lemma wlpi_update_node (p : id) (f : node -> node) (Q : unit -> impl -> Prop) st :
  (forall n, heap st !! p = Some n ->
     (leaf_body (n_body n) = true -> leaf_body (n_body (f n)) = true)
     /\ Forall (is_leaf (heap st)) (operands (n_body (f n)))
     /\ Q tt (set_heap (<[p := f n]> (heap st)) st)) ->
  wlpi (update_node p f) Q st.
Proof.
  intros H [Hf Hv]. apply wlp_update_node. intros n Hn.
  destruct (H n Hn) as (Hl & Hops & HQ). simpl.
  assert (Hle : hle (heap st) (<[p := f n]> (heap st)))
    by (eapply hle_update; eauto).
  split; [split|].
  - eapply flat_update; eauto.
  - eapply values_ok_hle; eauto.
  - split; assumption.
Qed.

(** Changing only the SSA metadata of a node. *)
Lemma wlpi_update_ssa (p : id) (d : node -> ssa_data_t) (Q : unit -> impl -> Prop) st :
  (forall n, heap st !! p = Some n ->
     Q tt (set_heap (<[p := with_ssa_data (d n) n]> (heap st)) st)) ->
  wlpi (update_node p (fun n => with_ssa_data (d n) n)) Q st.
Proof.
  intros H HI. apply wlpi_update_node; [|exact HI]. intros n Hn.
  split; [auto|]. split; [|apply H; exact Hn].
  destruct HI as [Hf _]. apply (Hf p n Hn).
Qed.

Lemma wlpi_init_ssa_data (ex : id) (Q : unit -> impl -> Prop) st :
  (forall n, heap st !! ex = Some n ->
     Q tt (set_heap (<[ex := with_ssa_data (SsaData false false None) n]>
                       (heap st)) st)) ->
  wlpi (init_ssa_data ex) Q st.
Proof.
  intros H. unfold init_ssa_data. apply wlpi_bind_step, wlpi_deref.
  intros n Hn. destruct (ssa_data_ n); [apply wlpi_fail|].
  apply (wlpi_update_ssa ex (fun _ => SsaData false false None)). exact H.
Qed.

Lemma wlpi_set_is_global (p : id) (Q : unit -> impl -> Prop) st :
  (forall n d, heap st !! p = Some n ->
     Q tt (set_heap (<[p := with_ssa_data d n]> (heap st)) st)) ->
  wlpi (set_is_global p) Q st.
Proof.
  intros H. unfold set_is_global. apply wlpi_bind_step, wlpi_deref.
  intros n Hn. destruct (ssa_data_ n) as [d|]; [|apply wlpi_fail].
  apply (wlpi_update_ssa p (fun _ => SsaData true (is_param_ d) (value_of_var d))).
  intros n' Hn'. apply H. exact Hn'.
Qed.

Lemma wlpi_set_is_param (p : id) (Q : unit -> impl -> Prop) st :
  (forall n d, heap st !! p = Some n ->
     Q tt (set_heap (<[p := with_ssa_data d n]> (heap st)) st)) ->
  wlpi (set_is_param p) Q st.
Proof.
  intros H. unfold set_is_param. apply wlpi_bind_step, wlpi_deref.
  intros n Hn. destruct (ssa_data_ n) as [d|]; [|apply wlpi_fail].
  apply (wlpi_update_ssa p (fun _ => SsaData (is_global_ d) true (value_of_var d))).
  intros n' Hn'. apply H. exact Hn'.
Qed.

Lemma wlpi_remake (l : leaf) (Q : id -> impl -> Prop) st :
  (forall n, leaf_body (n_body n) = true ->
     Q (length (heap st)) (set_heap (heap st ++ [n]) st)) ->
  wlpi (remake l) Q st.
Proof.
  intros H. unfold remake. apply wlpi_alloc.
  - destruct (node_type_ l); constructor.
  - apply H. destruct (node_type_ l); reflexivity.
Qed.

Lemma wlpi_push_scope (k : scope_kind) (Q : unit -> impl -> Prop) st :
  (forall d, Q tt (set_scopes (scopes_ st ++ [Scope [] k d]) st)) ->
  wlpi (push_scope k) Q st.
Proof.
  intros H [Hf Hv]. apply wlp_push_scope. intros d. simpl.
  split; [split; [exact Hf|]|split; [apply hle_refl|apply H]].
  apply values_ok_snoc. split; [exact Hv|constructor].
Qed.

Lemma wlpi_pop_scope (Q : ssa_scope_t -> impl -> Prop) st :
  (forall below top,
     scopes_ st = below ++ [top] ->
     Forall (fun kv => leaf_value (heap st) (current_value (snd kv))) (vars_ top) ->
     Q top (set_scopes below st)) ->
  wlpi pop_scope Q st.
Proof.
  intros H [Hf Hv]. apply wlp_pop_scope. intros below top Hstack. simpl.
  rewrite Hstack in Hv. apply values_ok_snoc in Hv as [Hb Ht].
  split; [split; assumption|]. split; [apply hle_refl|]. apply H; assumption.
Qed.

Lemma wlpi_write_status (p : status_ptr) (f : ssa_var_status_t -> ssa_var_status_t)
    (Q : unit -> impl -> Prop) st :
  (forall s, leaf_value (heap st) (current_value s) ->
             leaf_value (heap st) (current_value (f s))) ->
  Q tt (set_scopes (alter (with_vars (OMap.alter f (snd p))) (fst p) (scopes_ st)) st) ->
  wlpi (write_status p f) Q st.
Proof.
  intros Hfl HQ [Hf Hv]. apply wlp_write_status. simpl.
  split; [split; [exact Hf|apply values_ok_alter; assumption]|].
  split; [apply hle_refl|exact HQ].
Qed.

Lemma wlpi_insert_local_var (k : leaf) (v : option id)
    (Q : status_ptr -> impl -> Prop) st :
  leaf_value (heap st) v ->
  (forall below top, scopes_ st = below ++ [top] ->
     Q (length below, k)
       (set_scopes
          (below ++ [with_vars (OMap.insert k (Status v (length below) [])) top])
          st)) ->
  wlpi (insert_local_var k v) Q st.
Proof.
  intros Hl HQ [Hf Hv]. apply wlp_insert_local_var. intros below top Hstack.
  simpl. rewrite Hstack in Hv. apply values_ok_snoc in Hv as [Hb Ht].
  split; [split; [exact Hf|]|split; [apply hle_refl|apply HQ; exact Hstack]].
  apply values_ok_snoc. split; [exact Hb|]. simpl.
  apply scope_ok_insert; assumption.
Qed.

Lemma wlpi_get_local_var_for_update (k : leaf) (Q : status_ptr -> impl -> Prop) st :
  (forall j st', heap st' = heap st -> need_flatten_ st' = need_flatten_ st ->
                 Q (j, k) st') ->
  wlpi (get_local_var_for_update k) Q st.
Proof.
  intros HQ [Hf Hv]. apply wlp_get_local_var_for_update.
  - intros j _. split; [split; assumption|].
    split; [apply hle_refl|apply HQ; reflexivity].
  - intros below top Hstack _ _. simpl.
    rewrite Hstack in Hv. apply values_ok_snoc in Hv as [Hb Ht].
    split; [split; [exact Hf|]|split; [apply hle_refl|apply HQ; reflexivity]].
    apply values_ok_snoc. split; [exact Hb|]. simpl.
    apply scope_ok_insert; [exact Ht|apply leaf_value_none].
Qed.

Lemma defined_handles_leaves h values ops :
  defined_handles values = Some ops ->
  Forall (leaf_value h) values -> Forall (is_leaf h) ops.
Proof.
  revert ops. induction values as [|[c|] values IH]; simpl; intros ops E Hall.
  - inversion E. constructor.
  - destruct (defined_handles values) as [ops'|]; [|discriminate].
    inversion E; subst. inversion Hall; subst. constructor; [auto|].
    apply IH; auto.
  - discriminate.
Qed.

Lemma wlpi_make_ssa_phi (values : list (option id)) (Q : id -> impl -> Prop) st :
  Forall (leaf_value (heap st)) values ->
  (forall n, Q (length (heap st)) (set_heap (heap st ++ [n]) st)) ->
  wlpi (make_ssa_phi values) Q st.
Proof.
  intros Hl HQ. unfold make_ssa_phi.
  destruct (defined_handles values) as [[|p ps]|] eqn:Hv; try apply wlpi_fail.
  apply wlpi_bind_step, wlpi_deref. intros n Hn.
  apply wlpi_alloc; [|apply HQ]. simpl.
  eapply defined_handles_leaves; eauto.
Qed.

(** [add_def] and [add_def_after_current_stmt] add a var, which has no
    operands. *)
Lemma wlpi_add_def (v : id) (Q : id -> impl -> Prop) st :
  (forall n, heap st !! v = Some n ->
     Q (length (heap st))
       (set_current_scope
          (current_scope_ st
           ++ [o_define None (length (heap st)) linkage_local (Some v)])
          (set_var_def_idx (uint64_succ (var_def_idx_ st))
             (set_heap
                (heap st ++ [temp_var_node ("__tmp" ++ to_string (var_def_idx_ st))
                                           (n_dtype n) v]) st)))) ->
  wlpi (add_def v) Q st.
Proof.
  intros H [Hf Hv]. apply wlp_add_def. intros n Hn. simpl.
  split; [split; [apply flat_alloc; [exact Hf|constructor]|]|].
  - eapply values_ok_hle; [apply hle_alloc|exact Hv].
  - split; [apply hle_alloc|apply H; exact Hn].
Qed.

Lemma wlpi_add_def_after_current_stmt (v : id) (Q : id -> impl -> Prop) st :
  (forall n, heap st !! v = Some n ->
     Q (length (heap st))
       (set_insert_after
          (stmts_to_insert_after st
           ++ [o_define None (length (heap st)) linkage_local (Some v)])
          (set_var_def_idx (uint64_succ (var_def_idx_ st))
             (set_heap
                (heap st ++ [temp_var_node ("__tmp" ++ to_string (var_def_idx_ st))
                                           (n_dtype n) v]) st)))) ->
  wlpi (add_def_after_current_stmt v) Q st.
Proof.
  intros H [Hf Hv]. apply wlp_add_def_after_current_stmt. intros n Hn. simpl.
  split; [split; [apply flat_alloc; [exact Hf|constructor]|]|].
  - eapply values_ok_hle; [apply hle_alloc|exact Hv].
  - split; [apply hle_alloc|apply H; exact Hn].
Qed.

Lemma hle_renamed newv old_var st : hle (heap st) (heap (renamed newv old_var st)).
Proof.
  unfold renamed. destruct (heap st !! newv) as [n|] eqn:Hn; [|apply hle_refl].
  simpl. eapply hle_update; [exact Hn|reflexivity].
Qed.

Lemma flat_renamed newv old_var st :
  flat (heap st) -> flat (heap (renamed newv old_var st)).
Proof.
  intros Hf. unfold renamed. destruct (heap st !! newv) as [n|] eqn:Hn; [|exact Hf].
  simpl. eapply flat_update; [exact Hf|exact Hn|reflexivity|constructor].
Qed.

Lemma scopes_renamed newv old_var st : scopes_ (renamed newv old_var st) = scopes_ st.
Proof. unfold renamed. destruct (heap st !! newv); reflexivity. Qed.

Lemma need_flatten_renamed newv old_var st :
  need_flatten_ (renamed newv old_var st) = need_flatten_ st.
Proof. unfold renamed. destruct (heap st !! newv); reflexivity. Qed.

Lemma wlpi_rename (newv : id) (old_var : leaf) (Q : unit -> impl -> Prop) st :
  Q tt st -> Q tt (renamed newv old_var st) ->
  wlpi (rename_temp_var_with_version newv old_var) Q st.
Proof.
  intros H1 H2 [Hf Hv]. apply wlp_rename. intros n d Hn Hd.
  destruct (is_local d).
  - split; [split; [apply flat_renamed; exact Hf|]|].
    + rewrite scopes_renamed. eapply values_ok_hle; [apply hle_renamed|exact Hv].
    + split; [apply hle_renamed|exact H2].
  - split; [split; assumption|]. split; [apply hle_refl|exact H1].
Qed.

Lemma wlpi_patch_phi (phi : id) (value : option id) (Q : unit -> impl -> Prop) st :
  leaf_value (heap st) value ->
  (forall def n vs v,
     value = Some v -> heap st !! def = Some n -> n_body n = ssa_phi_node vs ->
     Q tt (set_heap (<[def := with_body (ssa_phi_node (vs ++ [v])) n]> (heap st)) st)) ->
  wlpi (patch_phi phi value) Q st.
Proof.
  intros Hl HQ HI. pose proof HI as [Hf _]. revert HI.
  unfold patch_phi. apply wlpi_bind_step, wlpi_ssa_data_of. intros p n d _ _ _.
  destruct (value_of_var d) as [def|]; [|destruct value; apply wlpi_fail].
  destruct value as [v|]; [|apply wlpi_fail].
  apply wlpi_bind_step, wlpi_deref. intros n' Hn'.
  destruct (n_body n') as [| | | |vs|] eqn:Eb; try apply wlpi_fail.
  apply wlpi_update_node. intros n2 Hn2.
  assert (n2 = n') by congruence. subst n2.
  split; [unfold leaf_body; rewrite Eb; discriminate|].
  split; [|eapply HQ; eauto]. simpl.
  apply Forall_app. split.
  - pose proof (Hf def n' Hn') as Hops. rewrite Eb in Hops. exact Hops.
  - constructor; [apply Hl; reflexivity|constructor].
Qed.

Lemma wlpi_for_each {A} (f : A -> M unit) (J : impl -> Prop) (l : list A) :
  (forall a st, In a l -> J st -> wlpi (f a) (fun _ st' => J st') st) ->
  forall st, J st -> wlpi (for_each f l) (fun _ st' => J st') st.
Proof.
  induction l as [|a l IH]; intros Hf st HJ; simpl.
  - apply wlpi_ret. exact HJ.
  - apply wlpi_bind_step. eapply wlpi_mono; [apply Hf; [left; reflexivity|exact HJ]|].
    intros u st1 _ HJ1. apply IH; [|exact HJ1].
    intros b st2 Hb. apply Hf. right. exact Hb.
Qed.

(** *** Expressions keep the invariant *)

Lemma dispatch_unfold (e : expr) (st : impl) :
  dispatch e st
  = bind (visit_expr e) (flatten_result (need_flatten_ st))
         (set_need_flatten true st).
Proof.
  destruct e as [l|v d|ptr idx|o d args]; reflexivity.
Qed.

Lemma expr_ind2 (P : expr -> Prop) :
  (forall l, P (e_leaf l)) ->
  (forall v d, P (e_constant v d)) ->
  (forall ptr idx, P ptr -> Forall P idx -> P (e_indexing ptr idx)) ->
  (forall o d args, Forall P args -> P (e_compute o d args)) ->
  forall e, P e.
Proof.
  intros Hl Hc Hi Ho.
  fix IH 1. intros [l|v d|ptr idx|o d args].
  - apply Hl.
  - apply Hc.
  - apply Hi; [apply IH|].
    induction idx as [|e idx IHidx]; constructor; [apply IH|exact IHidx].
  - apply Ho.
    induction args as [|e args IHargs]; constructor; [apply IH|exact IHargs].
Qed.

Lemma var_or_tensor_leaf h r : var_or_tensor h r = true -> is_leaf h r.
Proof.
  unfold var_or_tensor. intros H. apply is_leaf_isa. rewrite H. reflexivity.
Qed.

Lemma is_leaf_node_at h r : is_leaf h r -> node_at h r.
Proof. intros (n & Hn & _). exists n. exact Hn. Qed.

Lemma visit_tensor_keeps (v : leaf) (st : impl) :
  wlpi (visit_tensor v)
       (fun r st' => need_flatten_ st' = need_flatten_ st /\ node_at (heap st') r) st.
Proof.
  unfold visit_tensor.
  apply wlpi_bind_step, wlpi_get_local_var. intros i Hi.
  apply wlpi_bind_step, wlpi_read_status. intros s Hs Hl.
  destruct (current_value s) as [c|]; [|apply wlpi_fail].
  apply wlpi_ret. split; [reflexivity|].
  apply is_leaf_node_at, Hl. reflexivity.
Qed.

Lemma visit_var_keeps (v : leaf) (st : impl) :
  wlpi (visit_var v)
       (fun r st' => need_flatten_ st' = need_flatten_ st /\ node_at (heap st') r) st.
Proof.
  unfold visit_var.
  apply wlpi_bind_step, wlpi_get_local_var. intros i Hi.
  apply wlpi_bind_step, wlpi_read_status. intros s Hs Hl.
  apply wlpi_bind_step, wlpi_scopes_back. intros below top Hstack.
  apply wlpi_bind_step, wlpi_ssa_data_of. intros c n d Hc Hn Hd.
  rewrite Hc in *.
  destruct (negb (is_global_ d)).
  - apply wlpi_bind_step, wlpi_scope_at. intros def_scope Hdef.
    destruct (for_depth_ def_scope <? for_depth_ top)%Z.
    + apply wlpi_bind_step, wlpi_make_ssa_phi; [constructor; [exact Hl|constructor]|].
      intros pn.
      apply wlpi_bind_step, wlpi_add_def. intros pn' Hpn'. simpl.
      set (phi := length (heap st ++ [pn])).
      apply wlpi_bind_step, wlpi_checked_as_var. intros n1 Hn1 Hv1.
      assert (Hleaf : is_leaf ((heap st ++ [pn]) ++ [temp_var_node
                 ("__tmp" ++ to_string (var_def_idx_ st)) (n_dtype pn') (length (heap st))])
                 phi) by (apply is_leaf_alloc; reflexivity).
      assert (Hrest : forall st1,
        is_leaf (heap st1) phi -> need_flatten_ st1 = need_flatten_ st ->
        wlpi (p <- insert_local_var v (Some phi) ;;
              write_status p (add_for_loop_phi [phi]) ;;; ret phi)
             (fun r st' => need_flatten_ st' = need_flatten_ st
                           /\ node_at (heap st') r) st1).
      { intros st1 Hphi Hnf.
        apply wlpi_bind_step, wlpi_insert_local_var;
          [apply leaf_value_some; exact Hphi|].
        intros below1 top1 Hstack1.
        apply wlpi_bind_step, wlpi_write_status; [auto|].
        apply wlpi_ret. simpl. split; [exact Hnf|].
        apply is_leaf_node_at. exact Hphi. }
      apply wlpi_bind_step, wlpi_rename.
      * apply Hrest; [exact Hleaf|reflexivity].
      * apply Hrest; [apply hle_renamed; exact Hleaf|].
        rewrite need_flatten_renamed. reflexivity.
    + apply wlpi_ret. split; [reflexivity|]. exists n. exact Hn.
  - apply wlpi_add_def. intros n' Hn'. simpl. split; [reflexivity|].
    exists (temp_var_node ("__tmp" ++ to_string (var_def_idx_ st)) (n_dtype n') c).
    apply lookup_snoc_fresh.
Qed.

Lemma flatten_result_keeps (old : bool) (r : id) (st : impl) :
  need_flatten_ st = true -> node_at (heap st) r ->
  wlpi (flatten_result old r)
       (fun r' st' => need_flatten_ st' = true /\ node_at (heap st') r'
                      /\ (old = true -> var_or_tensor (heap st') r' = true)) st.
Proof.
  intros Hnf Hr. unfold flatten_result.
  apply wlpi_bind_step, wlpi_get.
  destruct (old && negb (isa (heap st) is_var_body (Some r))
            && negb (isa (heap st) is_tensor_body (Some r))) eqn:E.
  - apply wlpi_add_def. intros n Hn. simpl. split; [exact Hnf|].
    split; [eexists; apply lookup_snoc_fresh|]. intros _.
    unfold var_or_tensor, isa. rewrite lookup_snoc_fresh. reflexivity.
  - apply wlpi_ret. split; [exact Hnf|]. split; [exact Hr|].
    intros ->. unfold var_or_tensor.
    destruct (isa (heap st) is_var_body (Some r)); [reflexivity|].
    destruct (isa (heap st) is_tensor_body (Some r)); [reflexivity|].
    simpl in E. discriminate E.
Qed.

Lemma dispatch_vec_keeps (l : list expr) :
  Forall (fun e => forall st, wlpi (dispatch e) (dispatch_post (need_flatten_ st)) st) l ->
  forall st, need_flatten_ st = true ->
  wlpi (dispatch_vec l)
       (fun xs st' => need_flatten_ st' = true /\ Forall (is_leaf (heap st')) xs) st.
Proof.
  induction 1 as [|e l He _ IH]; intros st Hnf; simpl.
  - apply wlpi_ret. split; [exact Hnf|constructor].
  - apply wlpi_bind_step. eapply wlpi_mono; [apply He|].
    intros x st1 _ (Hnf1 & _ & Hx). rewrite Hnf in Hx. specialize (Hx eq_refl).
    apply wlpi_bind_step. apply wlpi_hle.
    eapply wlpi_mono; [apply IH; exact Hnf1|].
    intros xs st2 _ (Hnf2 & Hxs) Hle.
    apply wlpi_ret. split; [exact Hnf2|].
    constructor; [apply Hle, var_or_tensor_leaf, Hx|exact Hxs].
Qed.

Lemma wlpi_dispatch (e : expr) (Q : id -> impl -> Prop) (st : impl) :
  wlpi (bind (visit_expr e) (flatten_result (need_flatten_ st))) Q
       (set_need_flatten true st) ->
  wlpi (dispatch e) Q st.
Proof.
  intros H HI a st' Hrun. rewrite dispatch_unfold in Hrun.
  exact (H HI a st' Hrun).
Qed.

(** Every dispatch keeps the invariant, leaves [need_flatten_] set, and
    returns a var or a tensor when it was entered with [need_flatten_] set. *)
Lemma dispatch_keeps (e : expr) :
  forall st, wlpi (dispatch e) (dispatch_post (need_flatten_ st)) st.
Proof.
  induction e as [l|v d|ptr idx IHptr IHidx|o d args IHargs] using expr_ind2;
    intros st; apply wlpi_dispatch;
    (eapply (wlpi_bind _ _ (fun r st1 => need_flatten_ st1 = true
                                         /\ node_at (heap st1) r));
     [|intros r st1 _ [Hnf1 Hr1]; apply flatten_result_keeps; assumption]).
  - simpl. destruct (node_type_ l).
    + eapply wlpi_mono; [apply visit_var_keeps|]. intros r st1 _ [H1 H2]. auto.
    + eapply wlpi_mono; [apply visit_tensor_keeps|]. intros r st1 _ [H1 H2]. auto.
  - simpl. apply wlpi_alloc; [constructor|]. simpl. split; [reflexivity|].
    eexists. apply lookup_snoc_fresh.
  - simpl. apply wlpi_bind_step. eapply wlpi_mono; [apply IHptr|].
    intros p st1 _ (Hnf1 & _ & Hp). specialize (Hp eq_refl).
    apply wlpi_bind_step. apply wlpi_hle.
    eapply wlpi_mono; [apply (dispatch_vec_keeps idx IHidx); exact Hnf1|].
    intros ids st2 _ (Hnf2 & Hids) Hle.
    apply wlpi_bind_step, wlpi_deref. intros n Hn.
    apply wlpi_alloc.
    + simpl. constructor; [apply Hle, var_or_tensor_leaf, Hp|exact Hids].
    + simpl. split; [exact Hnf2|]. eexists. apply lookup_snoc_fresh.
  - simpl. apply wlpi_bind_step.
    eapply wlpi_mono; [apply (dispatch_vec_keeps args IHargs); reflexivity|].
    intros xs st1 _ (Hnf1 & Hxs).
    apply wlpi_alloc; [exact Hxs|].
    simpl. split; [exact Hnf1|]. eexists. apply lookup_snoc_fresh.
Qed.

(** *** Statements keep the invariant *)

Lemma wlpi_any {A} (m : M A) (Q : A -> impl -> Prop) st :
  wlpi m Q st -> wlpi m any_result st.
Proof. intros H. eapply wlpi_mono; [exact H|]. intros; exact I. Qed.

Lemma is_leaf_update_ssa h p n d q :
  h !! p = Some n -> is_leaf h q -> is_leaf (<[p := with_ssa_data d n]> h) q.
Proof. intros Hp. apply (hle_update h p n); [exact Hp|auto]. Qed.

Lemma visit_define_keeps attr (var_ : leaf) lk init_ st :
  wlpi (visit_define attr var_ lk init_) any_result st.
Proof.
  unfold visit_define. destruct lk; [|apply wlpi_fail].
  apply wlpi_bind_step, wlpi_insert_local_var; [apply leaf_value_none|].
  intros below top Hstack.
  assert (Hinit : forall st1 (newvar : id),
    wlpi (init <- match init_ with
                  | Some e => modify (set_need_flatten false) ;;;
                              r <- dispatch e ;; ret (Some r)
                  | None => ret None
                  end ;;
          ret (Some (o_define attr newvar linkage_local init))) any_result st1).
  { intros st1 newvar. apply wlpi_bind_step. destruct init_ as [e|].
    - apply wlpi_bind_step, wlpi_modify; try reflexivity.
      apply wlpi_bind_step. eapply wlpi_mono; [apply dispatch_keeps|].
      intros r st2 _ _. apply wlpi_ret, wlpi_ret. exact I.
    - apply wlpi_ret, wlpi_ret. exact I. }
  assert (Hremake : forall (fin : id -> M unit),
    (forall p st1, wlpi (fin p) (fun _ st' => True) st1) ->
    wlpi (newvar <- remake var_ ;;
          init_ssa_data newvar ;;;
          write_status (length below, var_) (set_current_value (Some newvar)) ;;;
          fin newvar ;;;
          init <- match init_ with
                  | Some e => modify (set_need_flatten false) ;;;
                              r <- dispatch e ;; ret (Some r)
                  | None => ret None
                  end ;;
          ret (Some (o_define attr newvar linkage_local init)))
         any_result
         (set_scopes
            (below ++ [with_vars (OMap.insert var_ (Status None (length below) [])) top])
            st)).
  { intros fin Hfin.
    apply wlpi_bind_step, wlpi_remake. intros n Hn. simpl.
    apply wlpi_bind_step, wlpi_init_ssa_data. intros n' Hn'. simpl.
    apply wlpi_bind_step, wlpi_write_status.
    { intros s _. apply leaf_value_some. simpl.
      apply is_leaf_update_ssa; [exact Hn'|]. apply is_leaf_alloc.
      simpl in Hn'. rewrite lookup_snoc_fresh in Hn'. inversion Hn'; subst.
      exact Hn. }
    apply wlpi_bind_step. eapply wlpi_mono; [apply Hfin|].
    intros u st1 _ _. apply Hinit. }
  destruct (classify_define var_); [destruct init_ as [e|]| |].
  - apply (Hremake (fun _ => ret tt)). intros. apply wlpi_ret. exact I.
  - apply wlpi_bind_step, wlpi_alloc; [constructor|]. simpl.
    apply wlpi_bind_step, wlpi_write_status.
    { intros s _. apply leaf_value_some. simpl. apply is_leaf_alloc. reflexivity. }
    apply wlpi_bind_step, wlpi_init_ssa_data. intros n Hn.
    apply wlpi_ret. exact I.
  - apply (Hremake set_is_global). intros.
    apply wlpi_set_is_global. intros; exact I.
  - apply (Hremake (fun _ => ret tt)). intros. apply wlpi_ret. exact I.
Qed.

Lemma visit_assign_keeps attr (var_ value_ : expr) st :
  wlpi (visit_assign attr var_ value_) any_result st.
Proof.
  unfold visit_assign. destruct var_ as [[ty nm dt at_]|v d|ptr idx|o d args];
    try apply wlpi_fail.
  - destruct ty; [|apply wlpi_fail].
    apply wlpi_bind_step. eapply wlpi_mono; [apply dispatch_keeps|].
    intros rhs st1 _ _.
    apply wlpi_bind_step, wlpi_get_local_var_for_update. intros j st2 Hh2 _.
    apply wlpi_bind_step, wlpi_read_status. intros s Hs Hl.
    apply wlpi_bind_step.
    eapply (wlpi_mono _ (fun _ st' => st' = st2)).
    { destruct (current_value s) as [c|]; [|apply wlpi_ret; reflexivity].
      apply wlpi_bind_step, wlpi_ssa_data_of. intros p n d0 _ _ _.
      apply wlpi_ret. reflexivity. }
    intros is_global st3 _ ->.
    destruct (negb is_global).
    + (* the write comes before the check that the value is a var or a constant *)
      intros HI. apply wlp_bind, wlp_write_status. apply wlp_bind, wlp_get.
      match goal with
      | |- wlp (if ?c then _ else _) _ ?s =>
          destruct c eqn:Hc; [|apply wlp_fail];
          assert (HI' : inv (heap s) (scopes_ s))
      end.
      { destruct HI as [Hf Hv]. split; [exact Hf|]. simpl.
        apply values_ok_alter; [exact Hv|]. intros s0 _.
        apply leaf_value_some. apply is_leaf_isa.
        apply orb_true_iff in Hc as [Hc|Hc]; simpl in Hc |- *; rewrite Hc;
          [reflexivity|rewrite !orb_true_r; reflexivity]. }
      revert HI'.
      match goal with
      | |- inv (heap ?s) _ -> wlp ?m _ _ => change (wlpi m any_result s)
      end.
      apply wlpi_bind_step.
      match goal with
      | |- wlpi (if ?c then _ else _) _ _ => destruct c
      end.
      * apply wlpi_rename; apply wlpi_ret; exact I.
      * apply wlpi_ret, wlpi_ret. exact I.
    + destruct (current_value s); [apply wlpi_ret; exact I|apply wlpi_fail].
  - apply wlpi_bind_step, wlpi_modify; try reflexivity.
    apply wlpi_bind_step. eapply wlpi_mono; [apply dispatch_keeps|].
    intros lhs st1 _ _.
    apply wlpi_bind_step. eapply wlpi_mono; [apply dispatch_keeps|].
    intros rhs st2 _ _. apply wlpi_ret. exact I.
Qed.

Lemma wlpi_for_each_leaves {A} (f : A -> M unit) (P : list node -> Prop) (l : list A) :
  (forall h h', hle h h' -> P h -> P h') ->
  (forall a st, In a l -> P (heap st) -> wlpi (f a) any_result st) ->
  forall st, P (heap st) -> wlpi (for_each f l) any_result st.
Proof.
  intros Hmono Hf st HP.
  apply (wlpi_any _ (fun _ st' => P (heap st'))).
  apply (wlpi_for_each f (fun st1 => P (heap st1))); [|exact HP].
  intros a st1 Hin HP1. apply wlpi_hle.
  eapply wlpi_mono; [apply Hf; assumption|].
  intros u st2 _ _ Hle. eapply Hmono; eauto.
Qed.

(** The tail the three merges share: bind the variable to the new phi. *)
Lemma bind_new_phi_keeps (k : leaf) (new_phi : id) st :
  wlpi (new_var <- add_def_after_current_stmt new_phi ;;
        p <- get_local_var_for_update k ;;
        write_status p (set_current_value (Some new_var)) ;;;
        checked_as_var new_var ;;;
        k0 <- checked_as_var_key k ;;
        rename_temp_var_with_version new_var k0) any_result st.
Proof.
  apply wlpi_bind_step, wlpi_add_def_after_current_stmt. intros n Hn.
  apply wlpi_bind_step, wlpi_get_local_var_for_update. intros j st1 Hh1 _.
  apply wlpi_bind_step, wlpi_write_status.
  { intros s _. apply leaf_value_some. rewrite Hh1. simpl.
    apply is_leaf_alloc. reflexivity. }
  apply wlpi_bind_step, wlpi_checked_as_var. intros n1 _ _.
  apply wlpi_bind_step, wlpi_checked_as_var_key. intros _.
  apply wlpi_rename; exact I.
Qed.

Lemma for_loop_merge_entry_keeps (kv : leaf * ssa_var_status_t) st :
  leaf_value (heap st) (current_value (snd kv)) ->
  wlpi (for_loop_merge_entry kv) any_result st.
Proof.
  intros Hcv. unfold for_loop_merge_entry.
  apply wlpi_bind_step, wlpi_get_local_var_nothrow.
  destruct (find_scope 0 (scopes_ st) (fst kv)) as [i|]; simpl;
    [|apply wlpi_ret; exact I].
  apply wlpi_bind_step. apply wlpi_hle.
  eapply wlpi_mono.
  { apply (wlpi_for_each_leaves _
             (fun h => leaf_value h (current_value (snd kv)))).
    - intros h h' Hle H. eapply leaf_value_hle; eauto.
    - intros phi st1 _ Hl.
      destruct (ptr_same phi (current_value (snd kv))); [apply wlpi_ret; exact I|].
      apply wlpi_patch_phi; [exact Hl|]. intros; exact I.
    - exact Hcv. }
  intros u st1 _ _ Hle.
  apply wlpi_bind_step, wlpi_read_status. intros parent _ Hparent.
  apply wlpi_bind_step, wlpi_make_ssa_phi.
  { constructor; [exact Hparent|].
    constructor; [eapply leaf_value_hle; eauto|constructor]. }
  intros n. apply bind_new_phi_keeps.
Qed.

Lemma if_then_merge_entry_keeps (kv : leaf * ssa_var_status_t) st :
  leaf_value (heap st) (current_value (snd kv)) ->
  wlpi (if_then_merge_entry kv) any_result st.
Proof.
  intros Hcv. unfold if_then_merge_entry.
  apply wlpi_bind_step, wlpi_get_local_var_nothrow.
  destruct (find_scope 0 (scopes_ st) (fst kv)) as [i|]; simpl;
    [|apply wlpi_ret; exact I].
  apply wlpi_bind_step, wlpi_get_local_var_for_update. intros j st1 Hh1 _.
  apply wlpi_bind_step, wlpi_write_status; [auto|].
  apply wlpi_bind_step, wlpi_read_status. intros parent _ Hparent.
  apply wlpi_bind_step, wlpi_make_ssa_phi.
  { constructor; [exact Hparent|].
    constructor; [simpl; rewrite Hh1; exact Hcv|constructor]. }
  intros n.
  apply wlpi_bind_step, wlpi_add_def_after_current_stmt. intros n0 Hn0.
  apply wlpi_bind_step, wlpi_write_status.
  { intros s _. apply leaf_value_some. simpl. apply is_leaf_alloc. reflexivity. }
  apply wlpi_bind_step, wlpi_checked_as_var. intros n1 _ _.
  apply wlpi_bind_step, wlpi_checked_as_var_key. intros _.
  apply wlpi_rename; exact I.
Qed.

Lemma merge_updated_var_keeps (kv : leaf * list (option id)) st :
  Forall (leaf_value (heap st)) (snd kv) ->
  wlpi (merge_updated_var kv) any_result st.
Proof.
  intros Hvals. unfold merge_updated_var.
  apply wlpi_bind_step, wlpi_make_ssa_phi; [exact Hvals|].
  intros n. apply bind_new_phi_keeps.
Qed.

Lemma collect_arm_keeps (vars : omap ssa_var_status_t) :
  forall (upd : omap (list (option id))) st,
  wlpi (collect_arm vars upd)
       (fun r st' => r = collect_values vars upd /\ heap st' = heap st) st.
Proof.
  induction vars as [|kv vars IH]; intros upd st; simpl.
  - apply wlpi_ret. auto.
  - apply wlpi_bind_step, wlpi_get_local_var_for_update. intros j st1 Hh1 _.
    apply wlpi_bind_step, wlpi_write_status; [auto|].
    eapply wlpi_mono; [apply IH|]. simpl. intros r st2 _ [-> Hh2].
    split; [reflexivity|congruence].
Qed.

Lemma collect_values_leaves h (vars : omap ssa_var_status_t) :
  Forall (fun kv => leaf_value h (current_value (snd kv))) vars ->
  forall upd,
  Forall (fun kv : leaf * list (option id) => Forall (leaf_value h) (snd kv)) upd ->
  Forall (fun kv : leaf * list (option id) => Forall (leaf_value h) (snd kv))
         (collect_values vars upd).
Proof.
  induction 1 as [|kv vars Hkv _ IH]; intros upd Hupd; simpl; [exact Hupd|].
  apply IH. apply Forall_alter_insert; [exact Hupd| |].
  - simpl. constructor; [exact Hkv|constructor].
  - intros k0 v Hv. simpl in *. apply Forall_app. split; [exact Hv|].
    constructor; [exact Hkv|constructor].
Qed.

Lemma if_else_merge_keeps (then_vars else_vars : omap ssa_var_status_t) st :
  Forall (fun kv => leaf_value (heap st) (current_value (snd kv))) then_vars ->
  Forall (fun kv => leaf_value (heap st) (current_value (snd kv))) else_vars ->
  wlpi (if_else_merge then_vars else_vars) any_result st.
Proof.
  intros Hthen Helse. unfold if_else_merge.
  apply wlpi_bind_step. eapply wlpi_mono; [apply collect_arm_keeps|].
  intros upd1 st1 _ [-> Hh1].
  apply wlpi_bind_step. eapply wlpi_mono; [apply collect_arm_keeps|].
  intros upd2 st2 _ [-> Hh2].
  assert (Hall : Forall (fun kv : leaf * list (option id) =>
                           Forall (leaf_value (heap st2)) (snd kv))
                        (collect_values else_vars (collect_values then_vars []))).
  { rewrite Hh2, Hh1. apply collect_values_leaves; [exact Helse|].
    apply collect_values_leaves; [exact Hthen|constructor]. }
  revert Hall. generalize (collect_values else_vars (collect_values then_vars [])).
  intros entries Hall.
  apply (wlpi_for_each_leaves _
           (fun h => Forall (fun kv : leaf * list (option id) =>
                               Forall (leaf_value h) (snd kv)) entries)).
  - intros h h' Hle H. eapply Forall_impl; [exact H|]. simpl. intros kv Hkv.
    eapply Forall_impl; [exact Hkv|]. intros v. apply leaf_value_hle. exact Hle.
  - intros kv st3 Hin H. apply merge_updated_var_keeps.
    rewrite List.Forall_forall in H. apply H. exact Hin.
  - exact Hall.
Qed.

Lemma stmt_ind2 (P : stmt -> Prop) :
  (forall a v lk i, P (s_define a v lk i)) ->
  (forall a v e, P (s_assign a v e)) ->
  (forall a v b e s body inc k, P body -> P (s_for_loop a v b e s body inc k)) ->
  (forall a c t e, P t -> (forall e', e = Some e' -> P e') -> P (s_if_else a c t e)) ->
  (forall a seq, Forall P seq -> P (s_stmts a seq)) ->
  forall s, P s.
Proof.
  intros Hd Ha Hf Hi Hs.
  fix IH 1. intros [a v lk i|a v e|a v b e s body inc k|a c t e|a seq].
  - apply Hd.
  - apply Ha.
  - apply Hf. apply IH.
  - destruct e as [e0|].
    + apply Hi; [apply IH|]. intros e' He'.
      replace e' with e0 by congruence. apply IH.
    + apply Hi; [apply IH|]. intros e' He'. discriminate He'.
  - apply Hs. induction seq as [|s seq IHseq]; constructor; [apply IH|exact IHseq].
Qed.

Lemma visit_seq_keeps (l : list stmt) :
  Forall (fun s => forall st, wlpi (dispatch_stmt s) any_result st) l ->
  forall st, wlpi (visit_seq l) any_result st.
Proof.
  induction 1 as [|s l Hs _ IH]; intros st; simpl.
  - apply wlpi_ret. exact I.
  - apply wlpi_bind_step. eapply wlpi_mono; [apply Hs|].
    intros news st1 _ _.
    apply wlpi_bind_step, wlpi_modify; try reflexivity. apply IH.
Qed.

Lemma dispatch_stmt_keeps (s : stmt) :
  forall st, wlpi (dispatch_stmt s) any_result st.
Proof.
  induction s as [a v lk i|a v e|a v b e s body inc k IHbody|a c t e IHt IHe
                  |a seq IHseq] using stmt_ind2; intros st.
  - apply visit_define_keeps.
  - apply visit_assign_keeps.
  - simpl.
    apply wlpi_bind_step. eapply wlpi_mono; [apply dispatch_keeps|].
    intros begin_ st1 _ _.
    apply wlpi_bind_step. eapply wlpi_mono; [apply dispatch_keeps|].
    intros end_ st2 _ _.
    apply wlpi_bind_step. eapply wlpi_mono; [apply dispatch_keeps|].
    intros step st3 _ _.
    apply wlpi_bind_step, wlpi_push_scope. intros d.
    apply wlpi_bind_step, wlpi_remake. intros n Hn. simpl.
    apply wlpi_bind_step, wlpi_insert_local_var.
    { apply leaf_value_some. simpl. apply is_leaf_alloc. exact Hn. }
    intros below top Hstack.
    apply wlpi_bind_step, wlpi_init_ssa_data. intros n' Hn'.
    apply wlpi_bind_step. eapply wlpi_mono; [apply IHbody|].
    intros body' st4 _ _.
    apply wlpi_bind_step, wlpi_pop_scope. intros below' top' Hstack' Htop.
    apply wlpi_bind_step.
    eapply (wlpi_mono _ any_result); [|intros; apply wlpi_ret; exact I].
    apply (wlpi_for_each_leaves _
             (fun h => Forall (fun kv : leaf * ssa_var_status_t =>
                                 leaf_value h (current_value (snd kv))) (vars_ top'))).
    + intros h h' Hle H. eapply Forall_impl; [exact H|]. simpl. intros kv.
      apply leaf_value_hle. exact Hle.
    + intros kv st5 Hin H. apply for_loop_merge_entry_keeps.
      rewrite List.Forall_forall in H. apply H. exact Hin.
    + exact Htop.
  - simpl.
    apply wlpi_bind_step. eapply wlpi_mono; [apply dispatch_keeps|].
    intros cond st1 _ _.
    apply wlpi_bind_step, wlpi_push_scope. intros d.
    apply wlpi_bind_step. eapply wlpi_mono; [apply IHt|].
    intros then_block st2 _ _.
    apply wlpi_bind_step, wlpi_pop_scope. intros below top Hstack Htop.
    destruct e as [else_case|].
    + apply wlpi_bind_step, wlpi_push_scope. intros d'.
      apply wlpi_bind_step. apply wlpi_hle.
      eapply wlpi_mono; [apply (IHe else_case eq_refl)|].
      intros else_block st3 _ _ Hle.
      apply wlpi_bind_step, wlpi_pop_scope. intros below' top' Hstack' Htop'.
      apply wlpi_bind_step.
      eapply (wlpi_mono _ any_result); [|intros; apply wlpi_ret; exact I].
      apply if_else_merge_keeps; [|exact Htop'].
      eapply Forall_impl; [exact Htop|]. simpl. intros kv.
      apply leaf_value_hle. exact Hle.
    + apply wlpi_bind_step.
      eapply (wlpi_mono _ any_result); [|intros; apply wlpi_ret; exact I].
      apply (wlpi_for_each_leaves _
               (fun h => Forall (fun kv : leaf * ssa_var_status_t =>
                                   leaf_value h (current_value (snd kv))) (vars_ top))).
      * intros h h' Hle H. eapply Forall_impl; [exact H|]. simpl. intros kv.
        apply leaf_value_hle. exact Hle.
      * intros kv st5 Hin H. apply if_then_merge_entry_keeps.
        rewrite List.Forall_forall in H. apply H. exact Hin.
      * exact Htop.
  - change (wlpi (outer <- get ;;
                  modify (set_current_scope []) ;;;
                  visit_seq seq ;;;
                  inner <- get ;;
                  modify (set_current_scope (current_scope_ outer)) ;;;
                  ret (Some (o_stmts a (current_scope_ inner)))) any_result st).
    apply wlpi_bind_step, wlpi_get.
    apply wlpi_bind_step, wlpi_modify; try reflexivity.
    apply wlpi_bind_step. eapply wlpi_mono; [apply (visit_seq_keeps seq IHseq)|].
    intros u st1 _ _.
    apply wlpi_bind_step, wlpi_get.
    apply wlpi_bind_step, wlpi_modify; try reflexivity.
    apply wlpi_ret. exact I.
Qed.

Lemma bind_params_keeps (params : list leaf) :
  forall st, wlpi (bind_params params) any_result st.
Proof.
  induction params as [|p params IH]; intros st; simpl.
  - apply wlpi_ret. exact I.
  - apply wlpi_bind_step, wlpi_remake. intros n Hn. simpl.
    apply wlpi_bind_step, wlpi_init_ssa_data. intros n1 Hn1. simpl.
    apply wlpi_bind_step, wlpi_set_is_param. intros n2 d Hn2. simpl.
    apply wlpi_bind_step, wlpi_insert_local_var.
    { apply leaf_value_some. simpl.
      apply is_leaf_update_ssa; [exact Hn2|].
      apply is_leaf_update_ssa; [exact Hn1|].
      apply is_leaf_alloc. exact Hn. }
    intros below top Hstack.
    apply wlpi_bind_step. eapply wlpi_mono; [apply IH|].
    intros new_params st1 _ _. apply wlpi_ret. exact I.
Qed.

Lemma dispatch_func_keeps (f : func) :
  forall st, wlpi (dispatch_func f) any_result st.
Proof.
  intros st. unfold dispatch_func.
  apply wlpi_bind_step, wlpi_push_scope. intros d.
  apply wlpi_bind_step. eapply wlpi_mono; [apply bind_params_keeps|].
  intros new_params st1 _ _.
  apply wlpi_bind_step. eapply wlpi_mono; [apply dispatch_stmt_keeps|].
  intros body st2 _ _.
  apply wlpi_bind_step, wlpi_pop_scope. intros below top Hstack Htop.
  apply wlpi_ret. exact I.
Qed.

Lemma inv_init : inv (heap init_impl) (scopes_ init_impl).
Proof.
  split; [intros p n Hp; discriminate Hp|constructor].
Qed.

(** C7.  The output is flat, and that is what the overridden dispatch does:
    - after the pass on a function or on a statement tree, every operand of
      every node of the output (the operands of an indexing, of a phi and of
      any other operation) is a var, a tensor or a constant;
    - a dispatch entered with [need_flatten_] set whose visitor returns
      something that is neither a var nor a tensor wraps it with [add_def]
      (otherwise the result is returned as it is), so that such a dispatch
      always returns a var or a tensor;
    - the visitor, hence every child, runs with [need_flatten_] set again,
      and the flag is set when a dispatch returns. *)
Theorem output_is_flattened :
  (forall f out st, ssa_transform_func f = OK (out, st) -> flat (heap st))
  /\ (forall s out st, ssa_transform_stmt s = OK (out, st) -> flat (heap st))
  /\ (forall e st,
        dispatch e st
        = bind (visit_expr e) (flatten_result (need_flatten_ st))
               (set_need_flatten true st))
  /\ (forall r st,
        var_or_tensor (heap st) r = false ->
        flatten_result true r st = add_def r st)
  /\ (forall old r st,
        old = false \/ var_or_tensor (heap st) r = true ->
        flatten_result old r st = OK (r, st))
  /\ (forall e st r st',
        inv (heap st) (scopes_ st) ->
        dispatch e st = OK (r, st') ->
        need_flatten_ st' = true
        /\ (need_flatten_ st = true -> var_or_tensor (heap st') r = true)).
Proof.
  split; [|split; [|split; [|split; [|split]]]].
  - intros f out st Hrun.
    destruct (dispatch_func_keeps f init_impl inv_init out st Hrun) as [[Hf _] _].
    exact Hf.
  - intros s out st Hrun.
    destruct (dispatch_stmt_keeps s init_impl inv_init out st Hrun) as [[Hf _] _].
    exact Hf.
  - apply dispatch_unfold.
  - intros r st H. unfold flatten_result, bind, get, var_or_tensor in *.
    apply orb_false_iff in H as [H1 H2]. rewrite H1, H2. reflexivity.
  - intros old r st H. unfold flatten_result, bind, get, var_or_tensor in *.
    destruct H as [->|H]; [reflexivity|].
    apply orb_true_iff in H as [H|H]; rewrite H;
      rewrite ?andb_false_r; reflexivity.
  - intros e st r st' HI Hrun.
    destruct (dispatch_keeps e st HI r st' Hrun) as (_ & _ & Hnf & _ & Hvt).
    split; assumption.
Qed.

Lemma output_is_flattened_witness :
  exists out st,
    ssa_transform_func nested_product = OK (out, st)
    /\ flat (heap st)
    /\ of_body out
       = Some (o_stmts None [o_define None 5 linkage_local (Some 4);
                             o_define None 3 linkage_local (Some 6)])
    /\ n_body <$> heap st !! 4 = Some (compute_node "add" [0; 1])
    /\ n_body <$> heap st !! 6 = Some (compute_node "mul" [5; 2]).
Proof.
  destruct (ssa_transform_func nested_product) as [[out st]|] eqn:E;
    [|vm_compute in E; discriminate E].
  exists out, st. split; [reflexivity|].
  split; [exact (proj1 output_is_flattened nested_product out st E)|].
  vm_compute in E. inversion E; subst. repeat split.
Defined.

(** ** The key order is a strict weak order *)

(** X1.  [var_cmper_t] is a strict weak order, as [std::map] requires: it is
    irreflexive and transitive, two keys are ordered one way or the other
    unless they have the same kind and the same name, and in that case
    neither precedes the other; the dtype and the attributes play no part. *)
Theorem var_cmper_t_strict_weak_order :
  (forall a, var_cmper_t a a = false)
  /\ (forall a b c, var_cmper_t a b = true -> var_cmper_t b c = true ->
                    var_cmper_t a c = true)
  /\ (forall a b, var_cmper_t a b = true -> var_cmper_t b a = false)
  /\ (forall a b,
        (var_cmper_t a b = false /\ var_cmper_t b a = false)
        <-> (node_type_ a = node_type_ b /\ name_ a = name_ b))
  /\ (forall a b c,
        var_cmper_t a b = false -> var_cmper_t b a = false ->
        var_cmper_t a c = var_cmper_t b c /\ var_cmper_t c a = var_cmper_t c b).
Proof.
  split; [exact var_cmper_irrefl|].
  split; [exact var_cmper_trans|].
  split; [exact var_cmper_asym|].
  split; [exact same_key_iff|].
  intros a b c H1 H2.
  assert (Hs : same_key a b) by (split; assumption).
  split; [apply var_cmper_same_l|apply var_cmper_same_r]; exact Hs.
Qed.

(** ** Bindings: insertion, lookup, shadowing *)

Lemma status_at_below (below : list ssa_scope_t) (top top' : ssa_scope_t)
    (j : nat) (k : leaf) :
  j < length below ->
  status_at (below ++ [top']) j k = status_at (below ++ [top]) j k.
Proof.
  intros H. unfold status_at. rewrite !lookup_app_l by assumption. reflexivity.
Qed.

Lemma status_at_top (below : list ssa_scope_t) (top : ssa_scope_t) (k : leaf) :
  status_at (below ++ [top]) (length below) k = OMap.find k (vars_ top).
Proof. unfold status_at. rewrite lookup_snoc_top. reflexivity. Qed.

Lemma status_at_above (scopes : list ssa_scope_t) (j : nat) (k : leaf) :
  length scopes <= j -> status_at scopes j k = None.
Proof.
  intros H. unfold status_at. rewrite lookup_ge_None_2 by assumption. reflexivity.
Qed.

(** X2.  [insert_local_var] on a stack that is not empty returns the pointer
    to the entry of the key in the top scope.  When the top scope did not
    hold the key the entry is the new status (the given value, the index of
    the top scope, no loop phi); when it did, the old entry is kept and the
    pass instance is exactly as before ([std::map::insert] does not overwrite).
    From then on the lookup of the key yields that pointer, and the entries
    of all other keys, in every scope, are as before. *)
Theorem insert_local_var_binds
    (k : leaf) (v : option id) (st : impl) (below : list ssa_scope_t)
    (top : ssa_scope_t) :
  scopes_ st = below ++ [top] ->
  exists st',
    insert_local_var k v st = OK ((length below, k), st')
    /\ read_status (length below, k) st'
       = OK (match OMap.find k (vars_ top) with
             | Some s => s
             | None => Status v (length below) []
             end, st')
    /\ get_local_var k st' = OK ((length below, k), st')
    /\ (forall j k', ~ same_key k k' ->
          status_at (scopes_ st') j k' = status_at (scopes_ st) j k')
    /\ (forall j, j <> length below -> scopes_ st' !! j = scopes_ st !! j)
    /\ (OMap.find k (vars_ top) <> None -> st' = st).
Proof.
  intros Hstack. eexists. split; [apply (run_insert_local_var st below top Hstack)|].
  set (top' := with_vars _ top).
  assert (F : OMap.find k (vars_ top')
              = Some (match OMap.find k (vars_ top) with
                      | Some s => s
                      | None => Status v (length below) []
                      end))
    by apply OMapFacts.find_insert_eq.
  split.
  { unfold read_status. simpl. rewrite lookup_snoc_top, F. reflexivity. }
  split.
  { apply run_get_local_var_found. simpl. rewrite find_scope_snoc, F. reflexivity. }
  split.
  { intros j k' Hne. simpl. rewrite Hstack.
    destruct (grows_insert_top k (Status v (length below) []) below top)
      as (_ & Hother & _).
    apply Hother. exact Hne. }
  split.
  { intros j Hj. simpl. rewrite Hstack.
    destruct (decide (j < length below)).
    - rewrite !lookup_app_l by assumption. reflexivity.
    - rewrite !lookup_ge_None_2 by (rewrite length_app; simpl; lia). reflexivity. }
  intros Hold. destruct (OMap.find k (vars_ top)) as [s|] eqn:Hf; [|congruence].
  unfold top', with_vars. rewrite (insert_present _ _ _ _ Hf).
  destruct top as [vars kd fd]. simpl. rewrite <- Hstack. apply set_scopes_id.
Qed.

Lemma insert_local_var_binds_witness :
  let a := Leaf sc_var "a" "s32" None in
  let st := Impl [] [Scope [] k_normal 0; Scope [(a, Status (Some 7) 1 [3])] k_for_loop 1]
                 true 0 0 [] [] in
  insert_local_var a (Some 9) st = OK ((1, a), st)
  /\ read_status (1, a) st = OK (Status (Some 7) 1 [3], st).
Proof.
  intros a st.
  destruct (insert_local_var_binds a (Some 9) st
              [Scope [] k_normal 0] (Scope [(a, Status (Some 7) 1 [3])] k_for_loop 1)
              eq_refl) as (st' & Hrun & Hread & _ & _ & _ & Hsame).
  assert (E : st' = st) by (apply Hsame; discriminate).
  rewrite E in *. split; [exact Hrun|exact Hread].
Defined.

(** X3.  [get_local_var_nothrow] never fails and never changes the pass
    instance.  It returns the entry of the key in the innermost scope that
    holds it: no scope above that one holds the key (an inner binding shadows
    the outer ones), and it returns the null pointer exactly when no scope of
    the stack holds the key. *)
Theorem get_local_var_nothrow_innermost (k : leaf) (st : impl) :
  exists r,
    get_local_var_nothrow k st = OK (r, st)
    /\ match r with
       | Some p =>
           snd p = k
           /\ status_at (scopes_ st) (fst p) k <> None
           /\ forall i, fst p < i -> status_at (scopes_ st) i k = None
       | None => forall i, status_at (scopes_ st) i k = None
       end.
Proof.
  eexists. split; [reflexivity|].
  destruct (find_scope 0 (scopes_ st) k) as [j|] eqn:Hfind; simpl.
  - split; [reflexivity|]. split; [apply find_scope_status_at; exact Hfind|].
    destruct (find_scope_some _ _ _ _ Hfind) as (_ & _ & Hall).
    rewrite Nat.sub_0_r in Hall. intros i Hi. unfold status_at.
    destruct (scopes_ st !! i) as [s|] eqn:Hs; [|reflexivity].
    rewrite Forall_lookup in Hall. apply (Hall (i - S j) s).
    rewrite lookup_drop. replace (S j + (i - S j)) with i by lia. exact Hs.
  - intros i. unfold status_at.
    destruct (scopes_ st !! i) as [s|] eqn:Hs; [|reflexivity].
    apply find_scope_none in Hfind. rewrite Forall_lookup in Hfind.
    apply (Hfind i s Hs).
Qed.

(** X4.  [get_local_var_for_update] of a variable that is not a global
    always answers with an entry of the top scope, whatever the enclosing
    scopes hold: the entry the top scope has, or else a new one without
    value (defined in the top scope, no loop phi).  The enclosing scopes, the
    store and the counters are left as they were, and asking again changes
    nothing more.  For a global nothing is ever inserted: the answer is the
    innermost entry, or the fatal compile assertion when there is none. *)
Theorem get_local_var_for_update_spec (k : leaf) (st : impl) :
  (is_old_var_global k = false ->
   forall below top, scopes_ st = below ++ [top] ->
   exists top',
     let st' := set_scopes (below ++ [top']) st in
     get_local_var_for_update k st = OK ((length below, k), st')
     /\ kind_ top' = kind_ top /\ for_depth_ top' = for_depth_ top
     /\ OMap.find k (vars_ top')
        = Some (match OMap.find k (vars_ top) with
                | Some s => s
                | None => Status None (length below) []
                end)
     /\ (forall k', ~ same_key k k' ->
           OMap.find k' (vars_ top') = OMap.find k' (vars_ top))
     /\ get_local_var_for_update k st' = OK ((length below, k), st'))
  /\ (is_old_var_global k = true ->
      get_local_var_for_update k st
      = match find_scope 0 (scopes_ st) k with
        | Some i => OK ((i, k), st)
        | None => Err (compile_assert ("Undefined var:" ++ name_ k)%string)
        end).
Proof.
  split.
  - intros Hg below top Hstack.
    exists (with_vars (OMap.insert k (Status None (length below) [])) top).
    cbv zeta.
    split; [apply run_get_local_var_for_update_local; assumption|].
    split; [reflexivity|]. split; [reflexivity|].
    split; [apply OMapFacts.find_insert_eq|].
    split; [intros k' Hne; apply OMapFacts.find_insert_ne; exact Hne|].
    erewrite run_get_local_var_for_update_local by (try reflexivity; exact Hg).
    f_equal. f_equal. unfold set_scopes. simpl. f_equal. f_equal. f_equal.
    unfold with_vars. simpl. f_equal.
    destruct (OMap.find k (OMap.insert k (Status None (length below) []) (vars_ top)))
      as [s|] eqn:F.
    + apply (insert_present _ _ _ _ F).
    + rewrite OMapFacts.find_insert_eq in F. discriminate.
  - intros Hg. unfold get_local_var_for_update. rewrite Hg.
    unfold get_local_var, bind, get_local_var_nothrow.
    destruct (find_scope 0 (scopes_ st) k); reflexivity.
Qed.

(** ** Tensors *)

(** X5.  A tensor is never versioned.  Dispatching a tensor that no scope
    binds fails with the compile assertion of [get_local_var]; dispatching
    one that is bound returns the current value of its innermost binding,
    however deep in loops the use is: no phi is made, no binding is added,
    nothing is emitted, and only [need_flatten_] is set. *)
Theorem dispatch_tensor (t : leaf) (st : impl) :
  node_type_ t = sc_tensor ->
  (find_scope 0 (scopes_ st) t = None ->
   dispatch (e_leaf t) st
   = Err (compile_assert ("Undefined var:" ++ name_ t)%string))
  /\ (forall j s c,
        find_scope 0 (scopes_ st) t = Some j ->
        status_at (scopes_ st) j t = Some s ->
        current_value s = Some c ->
        var_or_tensor (heap st) c = true ->
        dispatch (e_leaf t) st = OK (c, set_need_flatten true st)).
Proof.
  intros Ht. split.
  - intros Hnone. simpl. rewrite Ht. unfold bind at 1. unfold visit_tensor.
    unfold bind at 1.
    rewrite run_get_local_var_undefined by exact Hnone. reflexivity.
  - intros j s c Hfind Hs Hc Hvt. simpl. rewrite Ht.
    unfold bind at 1. unfold visit_tensor. unfold bind at 1.
    rewrite (run_get_local_var_found (set_need_flatten true st) t j) by exact Hfind.
    unfold bind at 1.
    assert (Hr : read_status (j, t) (set_need_flatten true st)
                 = OK (s, set_need_flatten true st)).
    { apply read_status_at. exact Hs. }
    rewrite Hr, Hc. unfold ret at 1.
    unfold flatten_result, bind, get.
    change (heap (set_need_flatten true st)) with (heap st).
    unfold var_or_tensor in Hvt.
    apply orb_true_iff in Hvt as [H|H]; rewrite H;
      rewrite ?andb_false_r; reflexivity.
Qed.

Lemma dispatch_tensor_witness :
  let A := Leaf sc_tensor "A" "f32" None in
  let st := Impl [Node (tensor_node "A") "f32" None None]
                 [Scope [(A, Status (Some 0) 0 [])] k_normal 0;
                  Scope [] k_for_loop 1] true 0 0 [] [] in
  dispatch (e_leaf A) st = OK (0, st).
Proof.
  intros A st.
  exact (proj2 (dispatch_tensor A st eq_refl) 0 (Status (Some 0) 0 []) 0
               eq_refl eq_refl eq_refl eq_refl).
Defined.

(** ** Merges and tensors *)

Lemma collect_arm_values (vars : omap ssa_var_status_t) :
  forall (upd : omap (list (option id))) (st : impl),
  wlp (collect_arm vars upd) (fun m _ => m = collect_values vars upd) st.
Proof.
  induction vars as [|kv vars IH]; intros upd st; simpl.
  - apply wlp_ret. reflexivity.
  - apply wlp_bind. intros p st1 _. apply wlp_bind. intros u st2 _. apply IH.
Qed.

Lemma collect_values_keeps_key (vars : omap ssa_var_status_t) :
  forall (upd : omap (list (option id))) (k : leaf),
  In k (map fst vars) \/ OMap.find k upd <> None ->
  OMap.find k (collect_values vars upd) <> None.
Proof.
  induction vars as [|[k1 s1] vars IH]; intros upd k H; simpl.
  - destruct H as [[]|H]; exact H.
  - apply IH. simpl in H.
    destruct H as [[->|Hin]|Hupd]; [right| left; exact Hin |right].
    + rewrite OMapFacts.find_alter_eq, OMapFacts.find_insert_eq. discriminate.
    + rewrite find_alter_none.
      destruct (same_key_dec k1 k) as [Hs|Hne].
      * rewrite <- (OMapFacts.find_same_key k1 k _ Hs).
        rewrite OMapFacts.find_insert_eq. discriminate.
      * rewrite OMapFacts.find_insert_ne by exact Hne. exact Hupd.
Qed.

Lemma for_each_all {A} (f : A -> M unit) (P : A -> Prop) (l : list A) :
  (forall a st, In a l -> wlp (f a) (fun _ _ => P a) st) ->
  forall st, wlp (for_each f l) (fun _ _ => Forall P l) st.
Proof.
  induction l as [|a l IH]; intros Hf st; simpl.
  - apply wlp_ret. constructor.
  - intros u st' E. unfold bind in E.
    destruct (f a st) as [[u1 st1]|] eqn:E1; [|discriminate].
    constructor.
    + exact (Hf a st (or_introl eq_refl) u1 st1 E1).
    + refine (IH _ st1 u st' E). intros b st2 Hb. apply Hf. right. exact Hb.
Qed.

Lemma merge_updated_var_key (kv : leaf * list (option id)) (st : impl) :
  wlp (merge_updated_var kv) (fun _ _ => node_type_ (fst kv) = sc_var) st.
Proof.
  unfold merge_updated_var.
  apply wlp_bind. intros a1 st1 _. apply wlp_bind. intros a2 st2 _.
  apply wlp_bind. intros a3 st3 _. apply wlp_bind. intros a4 st4 _.
  apply wlp_bind. intros a5 st5 _.
  apply wlp_bind, wlp_checked_as_var_key. intros Hk a6 st6 _. exact Hk.
Qed.

Lemma merge_entry_key (kv : leaf * ssa_var_status_t) (st : impl) :
  find_scope 0 (scopes_ st) (fst kv) <> None ->
  wlp (for_loop_merge_entry kv) (fun _ _ => node_type_ (fst kv) = sc_var) st
  /\ wlp (if_then_merge_entry kv) (fun _ _ => node_type_ (fst kv) = sc_var) st.
Proof.
  intros Hvis.
  destruct (find_scope 0 (scopes_ st) (fst kv)) as [i|] eqn:Hfind; [|congruence].
  split.
  - unfold for_loop_merge_entry. apply wlp_bind, wlp_get_local_var_nothrow.
    rewrite Hfind. simpl.
    apply wlp_bind. intros a1 st1 _. apply wlp_bind. intros a2 st2 _.
    apply wlp_bind. intros a3 st3 _. apply wlp_bind. intros a4 st4 _.
    apply wlp_bind. intros a5 st5 _. apply wlp_bind. intros a6 st6 _.
    apply wlp_bind. intros a7 st7 _.
    apply wlp_bind, wlp_checked_as_var_key. intros Hk a8 st8 _. exact Hk.
  - unfold if_then_merge_entry. apply wlp_bind, wlp_get_local_var_nothrow.
    rewrite Hfind. simpl.
    apply wlp_bind. intros a1 st1 _. apply wlp_bind. intros a2 st2 _.
    apply wlp_bind. intros a3 st3 _. apply wlp_bind. intros a4 st4 _.
    apply wlp_bind. intros a5 st5 _. apply wlp_bind. intros a6 st6 _.
    apply wlp_bind. intros a7 st7 _.
    apply wlp_bind, wlp_checked_as_var_key. intros Hk a8 st8 _. exact Hk.
Qed.

Lemma not_ok_is_err {A} (r : result A) : (forall a, r <> OK a) -> exists e, r = Err e.
Proof. destruct r as [a|e]; [intros H; destruct (H a eq_refl)|eauto]. Qed.

(** X6.  The merges work for vars only, because each of them casts the key
    with [checked_as<var>]:
    - the merge of a two-armed [if] fails as soon as one of the two popped
      scopes holds a tensor (a tensor defined in an arm);
    - the merge step of a for-loop, and that of an [if] without else, fails
      for a tensor of the popped scope that an enclosing scope binds too.
    In none of these cases does the merge return. *)
Theorem merges_reject_tensors :
  (forall then_vars else_vars kv st,
     In kv (then_vars ++ else_vars) ->
     node_type_ (fst kv) = sc_tensor ->
     exists e, if_else_merge then_vars else_vars st = Err e)
  /\ (forall kv st,
        node_type_ (fst kv) = sc_tensor ->
        find_scope 0 (scopes_ st) (fst kv) <> None ->
        (exists e, for_loop_merge_entry kv st = Err e)
        /\ (exists e, if_then_merge_entry kv st = Err e)).
Proof.
  split.
  - intros then_vars else_vars kv st Hin Ht. apply not_ok_is_err.
    intros [u st'] E. unfold if_else_merge, bind in E.
    destruct (collect_arm then_vars [] st) as [[m1 st1]|] eqn:E1; [|discriminate].
    destruct (collect_arm else_vars m1 st1) as [[m2 st2]|] eqn:E2; [|discriminate].
    apply collect_arm_values in E1. apply collect_arm_values in E2. subst m1 m2.
    assert (Hall : Forall (fun e => node_type_ (fst e) = sc_var)
                          (collect_values else_vars (collect_values then_vars []))).
    { refine (for_each_all merge_updated_var _ _ _ st2 u st' E).
      intros a s _. apply merge_updated_var_key. }
    assert (Hfind : OMap.find (fst kv)
                      (collect_values else_vars (collect_values then_vars []))
                    <> None).
    { apply collect_values_keeps_key. apply in_app_or in Hin as [Hin|Hin].
      - right. apply collect_values_keeps_key. left. apply in_map. exact Hin.
      - left. apply in_map. exact Hin. }
    destruct (OMap.find (fst kv)
                (collect_values else_vars (collect_values then_vars [])))
      as [l|] eqn:F; [|congruence].
    destruct (OMapFacts.find_in _ _ _ F) as (k' & Hsame & Hin').
    rewrite List.Forall_forall in Hall. specialize (Hall _ Hin'). simpl in Hall.
    apply same_key_iff in Hsame as [Hty _]. congruence.
  - intros kv st Ht Hvis. destruct (merge_entry_key kv st Hvis) as [Hfor Hif].
    split; apply not_ok_is_err; intros [u st'] E.
    + specialize (Hfor u st' E). congruence.
    + specialize (Hif u st' E). congruence.
Qed.

(** [func f(c) { if (c) { define T : tensor } else { } }] *)
Lemma merges_reject_tensors_witness :
  let c := Leaf sc_var "c" "bool" None in
  let T := Leaf sc_tensor "T" "f32" None in
  ssa_transform_func
    (Func "f" [c]
       (s_stmts None
          [s_if_else None (e_leaf c)
             (s_stmts None [s_define None T linkage_local None])
             (Some (s_stmts None []))])
       "void" None)
  = Err bad_cast
  /\ exists e, if_else_merge [(T, Status (Some 1) 1 [])] [] (at_function_body [c])
               = Err e.
Proof.
  intros c T. split; [vm_compute; reflexivity|].
  exact (proj1 merges_reject_tensors [(T, Status (Some 1) 1 [])] []
               (T, Status (Some 1) 1 []) (at_function_body [c])
               (or_introl eq_refl) eq_refl).
Defined.

(** ** Parameters *)

Lemma run_init_ssa_data (st : impl) (p : id) (n : node) :
  heap st !! p = Some n -> ssa_data_ n = None ->
  init_ssa_data p st
  = OK (tt, set_heap (<[p := with_ssa_data (SsaData false false None) n]> (heap st))
                     st).
Proof.
  intros Hn Hd. unfold init_ssa_data, bind, deref. rewrite Hn, Hd.
  unfold update_node. rewrite Hn. reflexivity.
Qed.

Lemma run_set_is_param (st : impl) (p : id) (n : node) (d : ssa_data_t) :
  heap st !! p = Some n -> ssa_data_ n = Some d ->
  set_is_param p st
  = OK (tt, set_heap (<[p := with_ssa_data
                                (SsaData (is_global_ d) true (value_of_var d)) n]>
                        (heap st)) st).
Proof.
  intros Hn Hd. unfold set_is_param, bind, deref. rewrite Hn, Hd.
  unfold update_node. rewrite Hn. reflexivity.
Qed.

Lemma run_set_is_global (st : impl) (p : id) (n : node) (d : ssa_data_t) :
  heap st !! p = Some n -> ssa_data_ n = Some d ->
  set_is_global p st
  = OK (tt, set_heap (<[p := with_ssa_data
                                (SsaData true (is_param_ d) (value_of_var d)) n]>
                        (heap st)) st).
Proof.
  intros Hn Hd. unfold set_is_global, bind, deref. rewrite Hn, Hd.
  unfold update_node. rewrite Hn. reflexivity.
Qed.

Lemma insert_snoc_fresh {A} (h : list A) (x y : A) :
  <[length h := y]> (h ++ [x]) = h ++ [y].
Proof.
  rewrite insert_app_r_alt by lia. rewrite Nat.sub_diag. reflexivity.
Qed.

Lemma run_bind_param (p : leaf) (st : impl) (below : list ssa_scope_t)
    (top : ssa_scope_t) {B} (k : id -> M B) :
  scopes_ st = below ++ [top] ->
  (newp <- remake p ;;
   init_ssa_data newp ;;;
   set_is_param newp ;;;
   insert_local_var p (Some newp) ;;;
   k newp) st
  = k (length (heap st))
      (set_scopes
         (below ++ [with_vars (OMap.insert p (Status (Some (length (heap st)))
                                                     (length below) [])) top])
         (set_heap (heap st ++ [param_node p]) st)).
Proof.
  intros Hstack. unfold bind at 1. unfold remake, alloc.
  unfold bind at 1.
  erewrite run_init_ssa_data
    by (try apply lookup_snoc_fresh; reflexivity).
  unfold bind at 1.
  erewrite run_set_is_param
    by (try (simpl heap; rewrite insert_snoc_fresh; apply lookup_snoc_fresh);
        reflexivity).
  unfold bind at 1.
  erewrite run_insert_local_var by (simpl; exact Hstack).
  f_equal. unfold set_scopes, set_heap. simpl. f_equal.
  rewrite !insert_snoc_fresh. reflexivity.
Qed.

Lemma find_param_entries_old (params : list leaf) :
  forall base idx m k s,
  OMap.find k m = Some s -> OMap.find k (param_entries base idx params m) = Some s.
Proof.
  induction params as [|p rest IH]; intros base idx m k s H; simpl; [exact H|].
  apply IH. destruct (same_key_dec p k) as [Hs|Hne].
  - rewrite <- (OMapFacts.find_same_key p k _ Hs), OMapFacts.find_insert_eq.
    rewrite (OMapFacts.find_same_key p k _ Hs), H. reflexivity.
  - rewrite OMapFacts.find_insert_ne by exact Hne. exact H.
Qed.

Lemma find_param_entries_first (params : list leaf) :
  forall base idx m i p,
  params !! i = Some p ->
  (forall j q, j < i -> params !! j = Some q -> ~ same_key q p) ->
  OMap.find p m = None ->
  OMap.find p (param_entries base idx params m)
  = Some (Status (Some (base + i)) idx []).
Proof.
  induction params as [|p0 rest IH]; intros base idx m i p Hi Hfirst Hm;
    [discriminate|].
  destruct i as [|i]; simpl in *.
  - inversion Hi; subst. rewrite Nat.add_0_r.
    apply find_param_entries_old. rewrite OMapFacts.find_insert_eq, Hm.
    reflexivity.
  - replace (base + S i) with (S base + i) by lia. apply IH.
    + exact Hi.
    + intros j q Hj Hq. apply (Hfirst (S j) q); [lia|exact Hq].
    + rewrite OMapFacts.find_insert_ne; [exact Hm|].
      apply (Hfirst 0 p0); [lia|reflexivity].
Qed.

Lemma run_bind_params (params : list leaf) :
  forall (st : impl) (below : list ssa_scope_t) (top : ssa_scope_t),
  scopes_ st = below ++ [top] ->
  bind_params params st
  = OK (seq (length (heap st)) (length params),
        set_scopes
          (below ++ [with_vars (param_entries (length (heap st)) (length below)
                                              params) top])
          (set_heap (heap st ++ map param_node params) st)).
Proof.
  induction params as [|p rest IH]; intros st below top Hstack.
  - simpl. unfold ret. rewrite app_nil_r. f_equal. f_equal.
    destruct top as [vars kd fd]. unfold with_vars. simpl.
    rewrite <- Hstack. destruct st; reflexivity.
  - cbn [bind_params].
    rewrite (run_bind_param p st below top _ Hstack).
    unfold bind at 1.
    erewrite IH by reflexivity. unfold ret. simpl heap.
    rewrite length_app. simpl length.
    replace (length (heap st) + 1) with (S (length (heap st))) by lia.
    f_equal. f_equal. unfold set_scopes, set_heap. simpl.
    rewrite <- app_assoc. reflexivity.
Qed.

(** X7.  The parameters of a function.  On a stack that is not empty,
    [bind_params] makes for every parameter, in order, one new node with the
    kind, name, dtype and attributes of the parameter and with SSA metadata
    flagged as parameter (so not local: such a node is never renamed), and
    returns these nodes.  The top scope binds each parameter to its node;
    when two parameters have the same kind and name the binding of the first
    one stays.  Nothing else of the pass instance changes. *)
Theorem bind_params_spec
    (params : list leaf) (st : impl) (below : list ssa_scope_t)
    (top : ssa_scope_t) :
  scopes_ st = below ++ [top] ->
  exists st',
    bind_params params st = OK (seq (length (heap st)) (length params), st')
    /\ heap st' = heap st ++ map param_node params
    /\ (forall i p, params !! i = Some p ->
          heap st' !! (length (heap st) + i) = Some (param_node p)
          /\ option_map is_local (ssa_data_ (param_node p)) = Some false)
    /\ (forall i p,
          params !! i = Some p ->
          (forall j q, j < i -> params !! j = Some q -> ~ same_key q p) ->
          OMap.find p (vars_ top) = None ->
          read_status (length below, p) st'
          = OK (Status (Some (length (heap st) + i)) (length below) [], st'))
    /\ (forall k s, OMap.find k (vars_ top) = Some s ->
          read_status (length below, k) st' = OK (s, st'))
    /\ take (length below) (scopes_ st') = below
    /\ length (scopes_ st') = length (scopes_ st)
    /\ st' = set_scopes (scopes_ st') (set_heap (heap st') st).
Proof.
  intros Hstack. eexists. split; [apply (run_bind_params params st below top Hstack)|].
  split; [reflexivity|].
  split.
  { intros i p Hi. split; [|reflexivity]. simpl.
    rewrite lookup_app_r by lia.
    replace (length (heap st) + i - length (heap st)) with i by lia.
    rewrite list_lookup_fmap, Hi. reflexivity. }
  split.
  { intros i p Hi Hfirst Hm. apply read_status_at. simpl.
    rewrite status_at_top. simpl.
    apply find_param_entries_first; assumption. }
  split.
  { intros k s Hk. apply read_status_at. simpl. rewrite status_at_top. simpl.
    apply find_param_entries_old. exact Hk. }
  split; [simpl; rewrite take_app_length; reflexivity|].
  split; [simpl; rewrite Hstack, !length_app; reflexivity|reflexivity].
Qed.

Lemma bind_params_spec_witness :
  let x := Leaf sc_var "x" "s32" None in
  let x' := Leaf sc_var "x" "f32" None in
  let A := Leaf sc_tensor "A" "f32" None in
  let st := Impl [] [Scope [] k_normal 0] true 0 0 [] [] in
  exists st',
    bind_params [x; A; x'] st = OK ([0; 1; 2], st')
    /\ heap st' = [param_node x; param_node A; param_node x']
    /\ read_status (0, x') st' = OK (Status (Some 0) 0 [], st')
    /\ read_status (0, A) st' = OK (Status (Some 1) 0 [], st').
Proof.
  intros x x' A st.
  destruct (bind_params_spec [x; A; x'] st [] (Scope [] k_normal 0) eq_refl)
    as (st' & Hrun & Hheap & _ & Hread & _).
  exists st'. split; [exact Hrun|]. split; [exact Hheap|]. split.
  - assert (E : read_status (0, x) st' = OK (Status (Some 0) 0 [], st')).
    { apply (Hread 0 x eq_refl); [intros j q Hj; lia|reflexivity]. }
    apply read_status_at. apply read_status_at in E. simpl in *.
    rewrite <- (status_at_same_key (scopes_ st') 0 x x'); [exact E|].
    split; reflexivity.
  - apply (Hread 1 A eq_refl); [|reflexivity].
    intros j q Hj Hq. destruct j as [|j]; [|lia]. inversion Hq; subst.
    intros [H _]. discriminate H.
Defined.

(** ** Relations between the states of a run *)

Lemma body_le_refl b : body_le b b.
Proof. destruct b; simpl; auto. exists []. rewrite app_nil_r. reflexivity. Qed.

Lemma body_le_trans b1 b2 b3 : body_le b1 b2 -> body_le b2 b3 -> body_le b1 b3.
Proof.
  destruct b1, b2; simpl; try discriminate; try tauto;
    try (intros E; inversion E; subst; clear E; auto; fail).
  - destruct b3; simpl; try discriminate; try tauto.
  - intros [m1 ->]. destruct b3; simpl; try discriminate.
    intros [m2 ->]. exists (m1 ++ m2). rewrite app_assoc. reflexivity.
Qed.

Lemma data_le_refl d : data_le d d.
Proof. destruct d as [x|]; simpl; [|exact I]. exists x. auto. Qed.

Lemma data_le_trans d1 d2 d3 : data_le d1 d2 -> data_le d2 d3 -> data_le d1 d3.
Proof.
  destruct d1 as [x1|]; simpl; [|auto].
  intros (x2 & -> & Hv & Hg & Hp). simpl.
  intros (x3 & -> & Hv' & Hg' & Hp'). exists x3.
  split; [reflexivity|]. split; [congruence|]. split; auto.
Qed.

Lemma data_le_not_local d d' x :
  data_le d d' -> d = Some x -> is_local x = false ->
  exists x', d' = Some x' /\ is_local x' = false.
Proof.
  intros H -> Hl. simpl in H. destruct H as (x' & -> & _ & Hg & Hp).
  exists x'. split; [reflexivity|]. unfold is_local in *.
  destruct (is_global_ x); [rewrite Hg by reflexivity; reflexivity|].
  destruct (is_param_ x); [|discriminate].
  rewrite Hp by reflexivity. apply andb_false_r.
Qed.

Lemma node_le_refl n : node_le n n.
Proof.
  repeat split; auto using body_le_refl, data_le_refl.
Qed.

Lemma node_le_trans n1 n2 n3 : node_le n1 n2 -> node_le n2 n3 -> node_le n1 n3.
Proof.
  intros (D1 & A1 & B1 & S1 & L1) (D2 & A2 & B2 & S2 & L2).
  split; [congruence|]. split; [congruence|].
  split; [eapply body_le_trans; eauto|].
  split; [eapply data_le_trans; eauto|].
  intros name d Hb Hd Hl.
  destruct (data_le_not_local _ _ _ S1 Hd Hl) as (d2 & Hd2 & Hl2).
  apply (L2 name d2 (L1 name d Hb Hd Hl) Hd2 Hl2).
Qed.

Lemma heap_le_refl h : heap_le h h.
Proof. intros p n Hp. exists n. split; [exact Hp|apply node_le_refl]. Qed.

Lemma heap_le_trans h1 h2 h3 : heap_le h1 h2 -> heap_le h2 h3 -> heap_le h1 h3.
Proof.
  intros H1 H2 p n Hp. destruct (H1 p n Hp) as (n2 & Hp2 & Hle).
  destruct (H2 p n2 Hp2) as (n3 & Hp3 & Hle'). exists n3.
  split; [exact Hp3|eapply node_le_trans; eauto].
Qed.

Lemma heap_le_alloc h n : heap_le h (h ++ [n]).
Proof.
  intros p m Hp. exists m. split; [|apply node_le_refl].
  apply lookup_app_l_Some. exact Hp.
Qed.

Lemma heap_le_update h p n n' :
  h !! p = Some n -> node_le n n' -> heap_le h (<[p := n']> h).
Proof.
  intros Hp Hle q m Hq. destruct (decide (p = q)) as [->|Hne].
  - exists n'. rewrite list_lookup_insert_eq by (eapply lookup_lt_Some; eauto).
    split; [reflexivity|]. congruence.
  - exists m. rewrite list_lookup_insert_ne by assumption.
    split; [exact Hq|apply node_le_refl].
Qed.

Lemma heap_le_length h h' : heap_le h h' -> length h <= length h'.
Proof.
  intros H. destruct h as [|n h0] using rev_ind; [simpl; lia|].
  destruct (H (length h0) n (lookup_snoc_fresh _ _)) as (n' & Hn' & _).
  apply lookup_lt_Some in Hn'. rewrite length_app. simpl. lia.
Qed.

(** ** Well-formed stacks *)

Lemma pushed_depth_shape (l l' : list ssa_scope_t) (k : scope_kind) :
  map shape l = map shape l' -> pushed_depth l k = pushed_depth l' k.
Proof.
  intros H. unfold pushed_depth.
  assert (E : option_map for_depth_ (last l) = option_map for_depth_ (last l')).
  { assert (F : forall x : list ssa_scope_t,
               option_map for_depth_ (last x) = option_map snd (last (map shape x))).
    { intros x. destruct x as [|a x] using rev_ind; [reflexivity|].
      rewrite map_app. simpl. rewrite !last_snoc. reflexivity. }
    rewrite !F, H. reflexivity. }
  destruct (last l), (last l'); simpl in E; inversion E as [E'];
    rewrite ?E'; reflexivity.
Qed.

Lemma stack_ok_nil : stack_ok [].
Proof. intros j sc H. discriminate H. Qed.

Lemma stack_ok_pop (below : list ssa_scope_t) (top : ssa_scope_t) :
  stack_ok (below ++ [top]) -> stack_ok below.
Proof.
  intros H j sc Hj. pose proof (lookup_lt_Some _ _ _ Hj) as Hlt.
  destruct (H j sc) as (Hs & Hi & Hd).
  - apply lookup_app_l_Some. exact Hj.
  - split; [exact Hs|]. split; [exact Hi|].
    rewrite Hd. rewrite take_app_le by lia. reflexivity.
Qed.

Lemma stack_ok_snoc (below : list ssa_scope_t) (top : ssa_scope_t) :
  stack_ok below ->
  OMap.sorted (vars_ top) ->
  Forall (fun kv => defined_scope_idx (snd kv) = length below) (vars_ top) ->
  for_depth_ top = pushed_depth below (kind_ top) ->
  stack_ok (below ++ [top]).
Proof.
  intros H Hs Hi Hd j sc Hj.
  destruct (decide (j < length below)) as [Hlt|Hge].
  - rewrite lookup_app_l in Hj by assumption.
    destruct (H j sc Hj) as (Hs' & Hi' & Hd').
    split; [exact Hs'|]. split; [exact Hi'|].
    rewrite take_app_le by lia. exact Hd'.
  - rewrite lookup_app_r in Hj by lia.
    destruct (j - length below) as [|x] eqn:E; [|destruct x; discriminate].
    inversion Hj; subst sc. assert (j = length below) as -> by lia.
    split; [exact Hs|]. split; [exact Hi|].
    rewrite take_app_length. exact Hd.
Qed.

Lemma stack_ok_top (below : list ssa_scope_t) (top : ssa_scope_t) :
  stack_ok (below ++ [top]) ->
  OMap.sorted (vars_ top)
  /\ Forall (fun kv => defined_scope_idx (snd kv) = length below) (vars_ top)
  /\ for_depth_ top = pushed_depth below (kind_ top).
Proof.
  intros H. destruct (H (length below) top (lookup_snoc_top _ _)) as (Hs & Hi & Hd).
  rewrite take_app_length in Hd. auto.
Qed.

Lemma stack_ok_push (scopes : list ssa_scope_t) (k : scope_kind) :
  stack_ok scopes -> stack_ok (scopes ++ [Scope [] k (pushed_depth scopes k)]).
Proof.
  intros H. apply stack_ok_snoc; [exact H|constructor|constructor|reflexivity].
Qed.

Lemma Forall_omap_insert {V} (P : leaf * V -> Prop) (k : leaf) (v : V) (m : omap V) :
  P (k, v) -> Forall P m -> Forall P (OMap.insert k v m).
Proof.
  intros Hk. induction 1 as [|[k' v'] m Hx Hm IH]; simpl.
  - constructor; [exact Hk|constructor].
  - destruct (var_cmper_t k k'); [constructor; [exact Hk|constructor; assumption]|].
    destruct (var_cmper_t k' k); constructor; assumption.
Qed.

Lemma Forall_omap_alter {V} (P : leaf * V -> Prop) (f : V -> V) (k : leaf)
    (m : omap V) :
  (forall k' v, P (k', v) -> P (k', f v)) -> Forall P m ->
  Forall P (OMap.alter f k m).
Proof.
  intros Hf. induction 1 as [|[k' v'] m Hx Hm IH]; simpl; [constructor|].
  destruct (var_cmper_t k k'); [constructor; assumption|].
  destruct (var_cmper_t k' k); constructor; auto.
Qed.

Lemma stack_ok_insert_top (below : list ssa_scope_t) (top : ssa_scope_t)
    (k : leaf) (v : option id) :
  stack_ok (below ++ [top]) ->
  stack_ok (below ++ [with_vars (OMap.insert k (Status v (length below) [])) top]).
Proof.
  intros H. destruct (stack_ok_top _ _ H) as (Hs & Hi & Hd).
  apply stack_ok_snoc.
  - eapply stack_ok_pop. exact H.
  - apply OMapFacts.sorted_insert. exact Hs.
  - apply Forall_omap_insert; [reflexivity|exact Hi].
  - exact Hd.
Qed.

Lemma map_shape_alter (f : omap ssa_var_status_t -> omap ssa_var_status_t)
    (j : nat) (scopes : list ssa_scope_t) :
  map shape (alter (with_vars f) j scopes) = map shape scopes.
Proof.
  revert j. induction scopes as [|s scopes IH]; intros j; [reflexivity|].
  destruct j as [|j]; simpl; [reflexivity|].
  f_equal. apply IH.
Qed.

Lemma map_shape_take (n : nat) (l l' : list ssa_scope_t) :
  map shape l = map shape l' -> map shape (take n l) = map shape (take n l').
Proof.
  intros H. change (map shape (take n l)) with (shape <$> take n l).
  change (map shape (take n l')) with (shape <$> take n l').
  rewrite !fmap_take. change (take n (map shape l) = take n (map shape l')).
  rewrite H. reflexivity.
Qed.

Lemma stack_ok_alter (f : ssa_var_status_t -> ssa_var_status_t) (k : leaf)
    (i : nat) (scopes : list ssa_scope_t) :
  (forall s, defined_scope_idx (f s) = defined_scope_idx s) ->
  stack_ok scopes ->
  stack_ok (alter (with_vars (OMap.alter f k)) i scopes).
Proof.
  intros Hf H j sc Hj. rewrite list_lookup_alter in Hj.
  assert (Hd : forall sc0, scopes !! j = Some sc0 ->
            pushed_depth (take j (alter (with_vars (OMap.alter f k)) i scopes))
                         (kind_ sc0)
            = pushed_depth (take j scopes) (kind_ sc0)).
  { intros sc0 _. apply pushed_depth_shape, map_shape_take, map_shape_alter. }
  destruct (decide (i = j)) as [->|Hne].
  - destruct (scopes !! j) as [sc0|] eqn:E; [|discriminate].
    simpl in Hj. inversion Hj; subst sc. destruct (H j sc0 E) as (Hs & Hi & Hdep).
    split; [apply OMapFacts.sorted_alter; exact Hs|].
    split.
    + apply Forall_omap_alter; [|exact Hi]. intros k' v Hv. simpl in *.
      rewrite Hf. exact Hv.
    + simpl. rewrite (Hd sc0 eq_refl). exact Hdep.
  - destruct (H j sc Hj) as (Hs & Hi & Hdep).
    split; [exact Hs|]. split; [exact Hi|]. rewrite (Hd sc Hj). exact Hdep.
Qed.

Lemma map_shape_length (l l' : list ssa_scope_t) :
  map shape l' = map shape l -> length l' = length l.
Proof. intros H. rewrite <- (length_map shape l'), H. apply length_map. Qed.

Lemma keeps_keys_below_refl scopes : keeps_keys_below scopes scopes.
Proof. intros j k _ H. exact H. Qed.

Lemma keeps_keys_below_trans s1 s2 s3 :
  length s1 <= length s2 ->
  keeps_keys_below s1 s2 -> keeps_keys_below s2 s3 -> keeps_keys_below s1 s3.
Proof. intros Hlen H1 H2 j k Hj Hn. apply H2; [lia|]. apply H1; assumption. Qed.

Lemma keeps_keys_below_alter (f : ssa_var_status_t -> ssa_var_status_t) (k : leaf)
    (i : nat) (scopes : list ssa_scope_t) :
  keeps_keys_below scopes (alter (with_vars (OMap.alter f k)) i scopes).
Proof.
  intros j k' _ H. unfold status_at in *. rewrite list_lookup_alter.
  destruct (decide (i = j)) as [->|]; [|exact H].
  destruct (scopes !! j); [|exact H]. simpl. rewrite find_alter_none. exact H.
Qed.

Lemma keeps_keys_below_top (below : list ssa_scope_t) (top top' : ssa_scope_t) :
  keeps_keys_below (below ++ [top]) (below ++ [top']).
Proof.
  intros j k Hj H. rewrite length_app in Hj. simpl in Hj.
  unfold status_at in *. rewrite lookup_app_l in * by lia. exact H.
Qed.

Lemma post_refl st : post st st.
Proof.
  split; [reflexivity|]. split; [auto|].
  split; [apply heap_le_refl|]. split; [apply keeps_keys_below_refl|auto].
Qed.

Lemma post_trans st1 st2 st3 : post st1 st2 -> post st2 st3 -> post st1 st3.
Proof.
  intros (S1 & K1 & H1 & B1 & F1) (S2 & K2 & H2 & B2 & F2).
  split; [congruence|]. split; [auto|].
  split; [eapply heap_le_trans; eauto|]. split; [|auto].
  eapply keeps_keys_below_trans; [|exact B1|exact B2].
  rewrite (map_shape_length _ _ S1). lia.
Qed.

Lemma post_push_step st st1 st2 : post_push st st1 -> post st1 st2 -> post_push st st2.
Proof.
  intros ((below & top & Hst & Hsh) & K1 & H1 & B1 & F1) (S2 & K2 & H2 & B2 & F2).
  split; [|split; [auto|split; [eapply heap_le_trans; eauto|split; [|auto]]]].
  - rewrite Hst in S2.
    destruct (scopes_ st2) as [|x l] using rev_ind.
    + rewrite map_app in S2. simpl in S2. destruct (map shape below); discriminate.
    + exists l, x. split; [reflexivity|].
      rewrite !map_app in S2. simpl in S2.
      apply app_inj_tail in S2 as [S2 _]. congruence.
  - eapply keeps_keys_below_trans; [|exact B1|exact B2].
    rewrite Hst, length_app, (map_shape_length _ _ Hsh). lia.
Qed.

Lemma post_then_push st0 st (k : scope_kind) :
  post st0 st ->
  post_push st0 (set_scopes (scopes_ st ++ [Scope [] k (pushed_depth (scopes_ st) k)])
                            st).
Proof.
  intros (S & K & H & B & F). split; [|split; [|split; [|split]]].
  - eexists _, _. split; [reflexivity|exact S].
  - intros Hok. simpl. apply stack_ok_push. auto.
  - exact H.
  - intros j key Hj Hn. simpl. specialize (B j key Hj Hn).
    unfold status_at in *. rewrite lookup_app_l; [exact B|].
    rewrite (map_shape_length _ _ S). lia.
  - exact F.
Qed.

Lemma post_push_pop st0 st (below : list ssa_scope_t) (top : ssa_scope_t) :
  post_push st0 st -> scopes_ st = below ++ [top] ->
  post st0 (set_scopes below st).
Proof.
  intros ((below' & top' & Hst & Hsh) & K & H & B & F) Hstack.
  rewrite Hstack in Hst. apply app_inj_tail in Hst as [-> ->].
  split; [exact Hsh|]. split; [|split; [exact H|split; [|exact F]]].
  - intros Hok. simpl. eapply stack_ok_pop. rewrite <- Hstack. auto.
  - intros j key Hj Hn. simpl. specialize (B j key Hj Hn).
    rewrite Hstack in B. unfold status_at in *.
    rewrite lookup_app_l in B; [exact B|].
    rewrite (map_shape_length _ _ Hsh). lia.
Qed.

(** ** Pieces of the pass that respect the stack and the store *)

Lemma respects_ret {A} (a : A) : respects (ret a).
Proof. intros st. apply wlp_ret, post_refl. Qed.

Lemma respects_fail {A} (e : error) : respects (@fail A e).
Proof. intros st. apply wlp_fail. Qed.

Lemma respects_bind {A B} (m : M A) (k : A -> M B) :
  respects m -> (forall a, respects (k a)) -> respects (bind m k).
Proof.
  intros Hm Hk st b st' E. unfold bind in E.
  destruct (m st) as [[a st1]|] eqn:Em; [|discriminate].
  eapply post_trans; [exact (Hm st a st1 Em)|exact (Hk a st1 b st' E)].
Qed.

(** Threading a fact that steps of the pass carry along. *)
Lemma wlp_acc {A B} (T : impl -> Prop) (m : M A) (k : A -> M B)
    (Q : B -> impl -> Prop) (st : impl) :
  (forall s s', T s -> post s s' -> T s') ->
  T st -> respects m ->
  (forall a st1, T st1 -> wlp (k a) Q st1) ->
  wlp (bind m k) Q st.
Proof.
  intros HT Hst Hm Hk. apply wlp_bind. eapply wlp_mono; [apply Hm|].
  intros a st1 H1. apply Hk. eapply HT; eauto.
Qed.

Lemma respects_pure {A} (m : M A) :
  (forall st a st', m st = OK (a, st') -> st' = st) -> respects m.
Proof.
  intros H st a st' E. rewrite (H st a st' E). apply post_refl.
Qed.

Lemma pure_wlp {A} (m : M A) :
  (forall st, wlp m (fun _ st' => st' = st) st) ->
  forall st a st', m st = OK (a, st') -> st' = st.
Proof. intros H st a st' E. exact (H st a st' E). Qed.

Lemma respects_get : respects get.
Proof. apply respects_pure. intros st a st' E. inversion E; reflexivity. Qed.

Lemma respects_deref (p : id) : respects (deref p).
Proof.
  apply respects_pure, pure_wlp. intros st. apply wlp_deref. reflexivity.
Qed.

Lemma respects_scopes_back : respects scopes_back.
Proof.
  apply respects_pure, pure_wlp. intros st. apply wlp_scopes_back. reflexivity.
Qed.

Lemma respects_scope_at (i : nat) : respects (scope_at i).
Proof.
  apply respects_pure, pure_wlp. intros st. apply wlp_scope_at. reflexivity.
Qed.

Lemma respects_read_status (p : status_ptr) : respects (read_status p).
Proof.
  apply respects_pure, pure_wlp. intros st. apply wlp_read_status. reflexivity.
Qed.

Lemma respects_get_local_var_nothrow (k : leaf) : respects (get_local_var_nothrow k).
Proof.
  apply respects_pure, pure_wlp. intros st. apply wlp_get_local_var_nothrow.
  reflexivity.
Qed.

Lemma respects_get_local_var (k : leaf) : respects (get_local_var k).
Proof.
  apply respects_pure, pure_wlp. intros st. apply wlp_get_local_var. reflexivity.
Qed.

Lemma respects_ssa_data_of (e : option id) : respects (ssa_data_of e).
Proof.
  apply respects_pure, pure_wlp. intros st. apply wlp_ssa_data_of. reflexivity.
Qed.

Lemma respects_checked_as_var (p : id) : respects (checked_as_var p).
Proof.
  apply respects_pure, pure_wlp. intros st. apply wlp_checked_as_var. reflexivity.
Qed.

Lemma respects_checked_as_var_key (k : leaf) : respects (checked_as_var_key k).
Proof.
  apply respects_pure, pure_wlp. intros st. apply wlp_checked_as_var_key.
  reflexivity.
Qed.

Lemma respects_modify (f : impl -> impl) :
  (forall st, heap (f st) = heap st /\ scopes_ (f st) = scopes_ st
              /\ need_flatten_ (f st) = need_flatten_ st) ->
  respects (modify f).
Proof.
  intros H st. apply wlp_modify. destruct (H st) as (Hh & Hs & Hf).
  split; [rewrite Hs; reflexivity|].
  split; [rewrite Hs; auto|].
  split; [rewrite Hh; apply heap_le_refl|].
  split; [rewrite Hs; apply keeps_keys_below_refl|congruence].
Qed.

Lemma post_same_scopes st st' :
  scopes_ st' = scopes_ st -> heap_le (heap st) (heap st') ->
  (need_flatten_ st = true -> need_flatten_ st' = true) ->
  post st st'.
Proof.
  intros Hs Hh Hf. split; [rewrite Hs; reflexivity|].
  split; [rewrite Hs; auto|]. split; [exact Hh|].
  split; [rewrite Hs; apply keeps_keys_below_refl|exact Hf].
Qed.

Lemma post_set_heap st (h : list node) : heap_le (heap st) h -> post st (set_heap h st).
Proof. intros H. apply post_same_scopes; [reflexivity|exact H|auto]. Qed.

Lemma post_set_scopes st (scopes : list ssa_scope_t) :
  map shape scopes = map shape (scopes_ st) ->
  (stack_ok (scopes_ st) -> stack_ok scopes) ->
  keeps_keys_below (scopes_ st) scopes ->
  post st (set_scopes scopes st).
Proof.
  intros H1 H2 H3. split; [exact H1|]. split; [exact H2|].
  split; [apply heap_le_refl|]. split; [exact H3|auto].
Qed.

Lemma respects_alloc (n : node) : respects (alloc n).
Proof. intros st. apply wlp_alloc. apply post_set_heap, heap_le_alloc. Qed.

Lemma respects_update_node (p : id) (f : node -> node) :
  (forall n, node_le n (f n)) -> respects (update_node p f).
Proof.
  intros H st. apply wlp_update_node. intros n Hn.
  apply post_set_heap. eapply heap_le_update; [exact Hn|apply H].
Qed.

Lemma respects_init_ssa_data (ex : id) : respects (init_ssa_data ex).
Proof.
  intros st. unfold init_ssa_data. apply wlp_bind, wlp_deref. intros n Hn.
  destruct (ssa_data_ n) eqn:Hd; [apply wlp_fail|].
  apply wlp_update_node. intros n' Hn'. apply post_set_heap.
  eapply heap_le_update; [exact Hn'|].
  assert (n' = n) as -> by congruence.
  repeat split; simpl; auto using body_le_refl;
    try (rewrite Hd; exact I); intros; congruence.
Qed.

Lemma node_le_flags (n : node) (d : ssa_data_t) (g p : bool) :
  ssa_data_ n = Some d ->
  (is_global_ d = true -> g = true) -> (is_param_ d = true -> p = true) ->
  node_le n (with_ssa_data (SsaData g p (value_of_var d)) n).
Proof.
  intros Hd Hg Hp. repeat split; simpl; auto using body_le_refl.
  rewrite Hd. simpl. eexists. repeat split; auto.
Qed.

Lemma respects_set_is_global (p : id) : respects (set_is_global p).
Proof.
  intros st. unfold set_is_global. apply wlp_bind, wlp_deref. intros n Hn.
  destruct (ssa_data_ n) as [d|] eqn:Hd; [|apply wlp_fail].
  apply wlp_update_node. intros n' Hn'. apply post_set_heap.
  eapply heap_le_update; [exact Hn'|].
  assert (n' = n) as -> by congruence. apply node_le_flags; auto.
Qed.

Lemma respects_set_is_param (p : id) : respects (set_is_param p).
Proof.
  intros st. unfold set_is_param. apply wlp_bind, wlp_deref. intros n Hn.
  destruct (ssa_data_ n) as [d|] eqn:Hd; [|apply wlp_fail].
  apply wlp_update_node. intros n' Hn'. apply post_set_heap.
  eapply heap_le_update; [exact Hn'|].
  assert (n' = n) as -> by congruence. apply node_le_flags; auto.
Qed.

Lemma respects_remake (l : leaf) : respects (remake l).
Proof. apply respects_alloc. Qed.

Lemma respects_insert_local_var (k : leaf) (v : option id) :
  respects (insert_local_var k v).
Proof.
  intros st. apply wlp_insert_local_var. intros below top Hstack.
  apply post_set_scopes.
  - rewrite Hstack, !map_app. reflexivity.
  - rewrite Hstack. apply stack_ok_insert_top.
  - rewrite Hstack. apply keeps_keys_below_top.
Qed.

Lemma respects_write_status (p : status_ptr)
    (f : ssa_var_status_t -> ssa_var_status_t) :
  (forall s, defined_scope_idx (f s) = defined_scope_idx s) ->
  respects (write_status p f).
Proof.
  intros Hf st. apply wlp_write_status. apply post_set_scopes.
  - apply map_shape_alter.
  - apply stack_ok_alter. exact Hf.
  - apply keeps_keys_below_alter.
Qed.

Lemma respects_get_local_var_for_update (k : leaf) :
  respects (get_local_var_for_update k).
Proof.
  intros st. apply wlp_get_local_var_for_update.
  - intros j _. apply post_refl.
  - intros below top Hstack _ _. apply post_set_scopes.
    + rewrite Hstack, !map_app. reflexivity.
    + rewrite Hstack. apply stack_ok_insert_top.
    + rewrite Hstack. apply keeps_keys_below_top.
Qed.

Lemma respects_make_ssa_phi (values : list (option id)) :
  respects (make_ssa_phi values).
Proof.
  intros st. apply wlp_make_ssa_phi. intros p ps n _ _.
  apply post_set_heap, heap_le_alloc.
Qed.

Lemma respects_add_def (v : id) : respects (add_def v).
Proof.
  intros st. apply wlp_add_def. intros n _.
  apply post_same_scopes; [reflexivity|apply heap_le_alloc|auto].
Qed.

Lemma respects_add_def_after_current_stmt (v : id) :
  respects (add_def_after_current_stmt v).
Proof.
  intros st. apply wlp_add_def_after_current_stmt. intros n _.
  apply post_same_scopes; [reflexivity|apply heap_le_alloc|auto].
Qed.

Lemma respects_patch_phi (phi : id) (value : option id) :
  respects (patch_phi phi value).
Proof.
  intros st. unfold patch_phi. apply wlp_bind.
  eapply wlp_mono; [apply respects_ssa_data_of|]. intros d st1 H1.
  destruct (value_of_var d) as [def|]; [|apply wlp_fail].
  destruct value as [v|]; [|apply wlp_fail].
  apply wlp_bind, wlp_deref. intros n Hn.
  destruct (n_body n) as [| | | |values|] eqn:Hb; try apply wlp_fail.
  apply wlp_update_node. intros n' Hn'. assert (n' = n) as -> by congruence.
  eapply post_trans; [exact H1|]. apply post_set_heap.
  eapply heap_le_update; [exact Hn'|].
  repeat split; simpl; auto using data_le_refl.
  - rewrite Hb. simpl. eauto.
  - intros name d' Hname. congruence.
Qed.

(** Renaming respects the store when the node is a var. *)
Lemma rename_post (newv : id) (old_var : leaf) (st : impl) (n : node) :
  heap st !! newv = Some n -> is_var_body (n_body n) = true ->
  wlp (rename_temp_var_with_version newv old_var) (fun _ st' => post st st') st.
Proof.
  intros Hn Hv. apply wlp_rename. intros n' d Hn' Hd.
  assert (n' = n) as -> by congruence.
  destruct (is_local d) eqn:Hl; [|apply post_refl].
  unfold renamed. rewrite Hn.
  apply post_same_scopes; [reflexivity| |auto]. simpl.
  eapply heap_le_update; [exact Hn|].
  repeat split; simpl; auto using data_le_refl.
  - destruct (n_body n); try discriminate. exact I.
  - intros name d' _ Hd' Hl'. congruence.
Qed.

Lemma respects_checked_rename {B} (p : id) (k : leaf) (rest : M B) :
  respects rest ->
  respects (checked_as_var p ;;; rename_temp_var_with_version p k ;;; rest).
Proof.
  intros Hrest st. apply wlp_bind, wlp_checked_as_var. intros n Hn Hv.
  apply wlp_bind. eapply wlp_mono; [eapply rename_post; eauto|].
  intros u st1 H1. eapply wlp_mono; [apply Hrest|].
  intros b st2 H2. exact (post_trans _ _ _ H1 H2).
Qed.

Lemma respects_checked_key_rename (p : id) (k : leaf) :
  respects (checked_as_var p ;;;
            k' <- checked_as_var_key k ;;
            rename_temp_var_with_version p k').
Proof.
  intros st. apply wlp_bind, wlp_checked_as_var. intros n Hn Hv.
  apply wlp_bind, wlp_checked_as_var_key. intros _.
  eapply rename_post; eauto.
Qed.

Lemma respects_for_each {A} (f : A -> M unit) (l : list A) :
  (forall a, respects (f a)) -> respects (for_each f l).
Proof.
  intros Hf. induction l as [|a l IH]; simpl.
  - apply respects_ret.
  - apply respects_bind; [apply Hf|intros _; exact IH].
Qed.

Create HintDb respects.
#[local] Hint Resolve respects_ret respects_fail respects_get respects_deref
  respects_scopes_back respects_scope_at respects_read_status
  respects_get_local_var_nothrow respects_get_local_var respects_ssa_data_of
  respects_checked_as_var respects_checked_as_var_key respects_alloc
  respects_init_ssa_data respects_set_is_global respects_set_is_param
  respects_remake respects_insert_local_var respects_get_local_var_for_update
  respects_make_ssa_phi respects_add_def respects_add_def_after_current_stmt
  respects_patch_phi respects_checked_key_rename
  : respects.

Ltac respects_one :=
  first
    [ solve [auto with respects]
    | apply respects_write_status; reflexivity
    | apply respects_modify; intros ?; repeat split; reflexivity ].

Ltac respects_steps :=
  first [ respects_one
        | apply respects_bind; [respects_steps|intros ?; respects_steps]
        | idtac ].

(** ** Expressions respect the stack and the store *)

Lemma respects_visit_tensor (v : leaf) : respects (visit_tensor v).
Proof.
  unfold visit_tensor. respects_steps.
  destruct (current_value a0); auto with respects.
Qed.

Lemma respects_visit_var (v : leaf) : respects (visit_var v).
Proof.
  unfold visit_var. respects_steps.
  destruct (negb (is_global_ a2)).
  - respects_steps.
    destruct (for_depth_ a3 <? for_depth_ a1)%Z.
    + apply respects_bind; [auto with respects|intros node].
      apply respects_bind; [auto with respects|intros phi].
      apply respects_checked_rename. respects_steps.
    + destruct (current_value a0); auto with respects.
  - destruct (current_value a0); auto with respects.
Qed.

Lemma respects_flatten_result (old : bool) (r : id) : respects (flatten_result old r).
Proof.
  unfold flatten_result. apply respects_bind; [auto with respects|intros st].
  destruct (old && negb (isa (heap st) is_var_body (Some r))
            && negb (isa (heap st) is_tensor_body (Some r)));
    auto with respects.
Qed.

Lemma respects_dispatch_of (e : expr) : respects (visit_expr e) -> respects (dispatch e).
Proof.
  intros H st a st' E. rewrite dispatch_unfold in E.
  assert (Hb : respects (bind (visit_expr e) (flatten_result (need_flatten_ st)))).
  { apply respects_bind; [exact H|intros r; apply respects_flatten_result]. }
  eapply post_trans; [|exact (Hb _ a st' E)].
  apply post_same_scopes; [reflexivity|apply heap_le_refl|reflexivity].
Qed.

Lemma respects_dispatch_vec (l : list expr) :
  Forall (fun e => respects (dispatch e)) l -> respects (dispatch_vec l).
Proof.
  induction 1 as [|e l He _ IH]; simpl.
  - apply respects_ret.
  - apply respects_bind; [exact He|intros x].
    apply respects_bind; [exact IH|intros xs]. apply respects_ret.
Qed.

Lemma respects_visit_expr_of (e : expr) :
  match e with
  | e_indexing ptr idx =>
      respects (dispatch ptr) /\ Forall (fun x => respects (dispatch x)) idx
  | e_compute _ _ args => Forall (fun x => respects (dispatch x)) args
  | _ => True
  end ->
  respects (visit_expr e).
Proof.
  destruct e as [l|v d|ptr idx|o d args]; simpl.
  - intros _.
    destruct (node_type_ l); [apply respects_visit_var|apply respects_visit_tensor].
  - intros _. apply respects_alloc.
  - intros [Hptr Hidx].
    apply respects_bind; [exact Hptr|intros p].
    apply respects_bind; [apply respects_dispatch_vec; exact Hidx|intros ids].
    respects_steps.
  - intros Hargs.
    apply respects_bind; [apply respects_dispatch_vec; exact Hargs|intros xs].
    respects_steps.
Qed.

Lemma respects_dispatch (e : expr) : respects (dispatch e).
Proof.
  induction e as [l|v d|ptr idx IHptr IHidx|o d args IHargs] using expr_ind2;
    apply respects_dispatch_of, respects_visit_expr_of; simpl; auto.
Qed.

Lemma respects_visit_expr (e : expr) : respects (visit_expr e).
Proof.
  apply respects_visit_expr_of. destruct e as [l|v d|ptr idx|o d args]; auto.
  - split; [apply respects_dispatch|].
    apply Forall_forall. intros; apply respects_dispatch.
  - apply Forall_forall. intros; apply respects_dispatch.
Qed.

(** A dispatch returns with [need_flatten_] set, whatever it was. *)
Lemma dispatch_sets_flag (e : expr) (st : impl) :
  wlp (dispatch e) (fun _ st' => need_flatten_ st' = true) st.
Proof.
  intros a st' E. rewrite dispatch_unfold in E.
  assert (Hb : respects (bind (visit_expr e) (flatten_result (need_flatten_ st)))).
  { apply respects_bind; [apply respects_visit_expr|intros r].
    apply respects_flatten_result. }
  destruct (Hb _ a st' E) as (_ & _ & _ & _ & Hf). apply Hf. reflexivity.
Qed.

(** The flag is cleared for one dispatch only. *)
Lemma respects_unflattened {B} (e : expr) (k : id -> M B) :
  (forall r, respects (k r)) ->
  respects (modify (set_need_flatten false) ;;; r <- dispatch e ;; k r).
Proof.
  intros Hk st. apply wlp_bind, wlp_modify. apply wlp_bind.
  intros r st1 E1.
  destruct (respects_dispatch e _ r st1 E1) as (S1 & K1 & H1 & B1 & _).
  pose proof (dispatch_sets_flag e _ r st1 E1) as F1. simpl in F1.
  assert (P1 : post st st1).
  { split; [exact S1|]. split; [exact K1|]. split; [exact H1|].
    split; [exact B1|]. intros _. exact F1. }
  eapply wlp_mono; [apply Hk|]. intros b st2 P2. exact (post_trans _ _ _ P1 P2).
Qed.

Lemma respects_init_some (e : expr) :
  respects (modify (set_need_flatten false) ;;; r <- dispatch e ;; ret (Some r)).
Proof. apply respects_unflattened. intros r. apply respects_ret. Qed.

#[local] Hint Resolve respects_dispatch respects_visit_var respects_visit_tensor
  respects_init_some : respects.

(** ** Statements respect the stack and the store *)

Lemma respects_visit_define attr var_ lk init_ :
  respects (visit_define attr var_ lk init_).
Proof.
  unfold visit_define. destruct lk; [|apply respects_fail].
  apply respects_bind; [auto with respects|intros info].
  destruct (classify_define var_), init_ as [e|]; respects_steps.
Qed.

Lemma respects_guarded_rename (rhs : id) (v : leaf) :
  respects (st <- get ;;
            if isa (heap st) is_var_body (Some rhs)
               || isa (heap st) is_constant_body (Some rhs)
            then
              (if isa (heap st) is_var_body (Some rhs)
               then rename_temp_var_with_version rhs v
               else ret tt) ;;;
              ret (@None ostmt)
            else fail (assert_failed "current_value is a var or a constant")).
Proof.
  intros st. apply wlp_bind, wlp_get.
  destruct (isa (heap st) is_var_body (Some rhs)
            || isa (heap st) is_constant_body (Some rhs)); [|apply wlp_fail].
  destruct (isa (heap st) is_var_body (Some rhs)) eqn:Hv.
  - unfold isa in Hv. destruct (heap st !! rhs) as [n|] eqn:Hn; [|discriminate].
    apply wlp_bind. eapply wlp_mono; [eapply rename_post; eauto|].
    intros u st1 H1. apply wlp_ret. exact H1.
  - apply wlp_bind, wlp_ret, wlp_ret, post_refl.
Qed.

Lemma respects_visit_assign attr var_ value_ :
  respects (visit_assign attr var_ value_).
Proof.
  unfold visit_assign.
  destruct var_ as [[[] nm dt at_]|v d|ptr idx|o d args]; try apply respects_fail.
  - apply respects_bind; [auto with respects|intros rhs].
    apply respects_bind; [auto with respects|intros var_info].
    apply respects_bind; [auto with respects|intros status].
    apply respects_bind.
    { destruct (current_value status); respects_steps. }
    intros is_global. destruct (negb is_global).
    + apply respects_bind; [apply respects_write_status; reflexivity|intros _].
      apply respects_guarded_rename.
    + destruct (current_value status); auto with respects.
  - apply respects_unflattened. intros lhs. respects_steps.
Qed.

Lemma respects_for_loop_merge_entry kv : respects (for_loop_merge_entry kv).
Proof.
  unfold for_loop_merge_entry.
  apply respects_bind; [auto with respects|intros [pv|]]; [|apply respects_ret].
  apply respects_bind.
  { apply respects_for_each. intros phi.
    destruct (ptr_same phi (current_value (snd kv))); auto with respects. }
  intros _. respects_steps.
Qed.

Lemma respects_if_then_merge_entry kv : respects (if_then_merge_entry kv).
Proof.
  unfold if_then_merge_entry.
  apply respects_bind; [auto with respects|intros [pv|]]; [|apply respects_ret].
  respects_steps.
Qed.

Lemma respects_merge_updated_var kv : respects (merge_updated_var kv).
Proof. unfold merge_updated_var. respects_steps. Qed.

Lemma respects_collect_arm (vars : omap ssa_var_status_t) :
  forall upd, respects (collect_arm vars upd).
Proof.
  induction vars as [|kv vars IH]; intros upd; simpl.
  - apply respects_ret.
  - apply respects_bind; [auto with respects|intros p].
    apply respects_bind; [apply respects_write_status; reflexivity|intros _].
    apply IH.
Qed.

Lemma respects_if_else_merge then_vars else_vars :
  respects (if_else_merge then_vars else_vars).
Proof.
  unfold if_else_merge.
  apply respects_bind; [apply respects_collect_arm|intros m1].
  apply respects_bind; [apply respects_collect_arm|intros m2].
  apply respects_for_each, respects_merge_updated_var.
Qed.

Lemma respects_emit_stmt news : respects (emit_stmt news).
Proof. apply respects_modify. intros st. repeat split; reflexivity. Qed.

Lemma respects_visit_seq (l : list stmt) :
  Forall (fun s => respects (dispatch_stmt s)) l -> respects (visit_seq l).
Proof.
  induction 1 as [|s l Hs _ IH]; simpl.
  - apply respects_ret.
  - apply respects_bind; [exact Hs|intros news].
    apply respects_bind; [apply respects_emit_stmt|intros _]. exact IH.
Qed.

Lemma wlp_push_scope_exact (k : scope_kind) (Q : unit -> impl -> Prop) st :
  Q tt (set_scopes (scopes_ st ++ [Scope [] k (pushed_depth (scopes_ st) k)]) st) ->
  wlp (push_scope k) Q st.
Proof. intros H a st' E. inversion E; subst. exact H. Qed.

Ltac acc_post H :=
  match type of H with
  | post ?a _ =>
      apply (wlp_acc (post a));
      [let Ha := fresh in let Hb := fresh in
       intros ? ? Ha Hb; exact (post_trans _ _ _ Ha Hb)
      |exact H| |]
  | post_push ?a _ =>
      apply (wlp_acc (post_push a));
      [let Ha := fresh in let Hb := fresh in
       intros ? ? Ha Hb; exact (post_push_step _ _ _ Ha Hb)
      |exact H| |]
  end.

Lemma respects_dispatch_stmt (s : stmt) : respects (dispatch_stmt s).
Proof.
  induction s as [a v lk i|a v e|a v b e s body inc k IHbody|a c t e IHt IHe
                  |a seq IHseq] using stmt_ind2.
  - apply respects_visit_define.
  - apply respects_visit_assign.
  - intros st. simpl.
    pose proof (post_refl st) as H.
    acc_post H; [auto with respects|clear H; intros begin_ st1 H].
    acc_post H; [auto with respects|clear H; intros end_ st2 H].
    acc_post H; [auto with respects|clear H; intros step st3 H].
    apply wlp_bind, wlp_push_scope_exact.
    apply (post_then_push _ _ k_for_loop) in H.
    acc_post H; [auto with respects|clear H; intros thevar st4 H].
    acc_post H; [auto with respects|clear H; intros p st5 H].
    acc_post H; [auto with respects|clear H; intros u st6 H].
    acc_post H; [exact IHbody|clear H; intros body' st7 H].
    apply wlp_bind, wlp_pop_scope. intros below top Hstack.
    apply (post_push_pop _ _ _ _ H) in Hstack. clear H.
    acc_post Hstack;
      [apply respects_for_each, respects_for_loop_merge_entry
      |clear Hstack; intros u' st8 H].
    apply wlp_ret. exact H.
  - intros st. simpl.
    pose proof (post_refl st) as H.
    acc_post H; [auto with respects|clear H; intros cond st1 H].
    apply wlp_bind, wlp_push_scope_exact.
    apply (post_then_push _ _ k_if_then) in H.
    acc_post H; [exact IHt|clear H; intros then_block st2 H].
    apply wlp_bind, wlp_pop_scope. intros below top Hstack.
    apply (post_push_pop _ _ _ _ H) in Hstack. clear H. rename Hstack into H.
    destruct e as [else_case|].
    + apply wlp_bind, wlp_push_scope_exact.
      apply (post_then_push _ _ k_if_else) in H.
      acc_post H; [exact (IHe else_case eq_refl)|clear H; intros else_block st3 H].
      apply wlp_bind, wlp_pop_scope. intros below' top' Hstack.
      apply (post_push_pop _ _ _ _ H) in Hstack. clear H.
      acc_post Hstack; [apply respects_if_else_merge|clear Hstack; intros u st4 H].
      apply wlp_ret. exact H.
    + acc_post H;
        [apply respects_for_each, respects_if_then_merge_entry
        |clear H; intros u st3 H].
      apply wlp_ret. exact H.
  - change (respects (outer <- get ;;
                      modify (set_current_scope []) ;;;
                      visit_seq seq ;;;
                      inner <- get ;;
                      modify (set_current_scope (current_scope_ outer)) ;;;
                      ret (Some (o_stmts a (current_scope_ inner))))).
    apply respects_bind; [auto with respects|intros outer].
    apply respects_bind; [respects_one|intros _].
    apply respects_bind; [apply respects_visit_seq; exact IHseq|intros _].
    respects_steps.
Qed.

Lemma respects_bind_params (params : list leaf) : respects (bind_params params).
Proof.
  induction params as [|p params IH]; simpl; [apply respects_ret|].
  apply respects_bind; [auto with respects|intros newp].
  apply respects_bind; [auto with respects|intros _].
  apply respects_bind; [auto with respects|intros _].
  apply respects_bind; [auto with respects|intros _].
  apply respects_bind; [exact IH|intros new_params]. apply respects_ret.
Qed.

Lemma respects_dispatch_func (f : func) : respects (dispatch_func f).
Proof.
  intros st. unfold dispatch_func.
  apply wlp_bind, wlp_push_scope_exact.
  pose proof (post_then_push _ _ k_normal (post_refl st)) as H.
  acc_post H; [apply respects_bind_params|clear H; intros new_params st1 H].
  acc_post H; [apply respects_dispatch_stmt|clear H; intros body st2 H].
  apply wlp_bind, wlp_pop_scope. intros below top Hstack.
  apply (post_push_pop _ _ _ _ H) in Hstack.
  apply wlp_ret. exact Hstack.
Qed.

(** ** Every scope that is pushed is popped *)

(** X8.  The pass pushes and pops in pairs.  A dispatch of an expression or
    of a statement that returns leaves as many scopes on the stack as it
    found, each with the kind and the loop depth it had (only the bindings
    inside the scopes may differ), and the pass on a function or on a
    statement tree ends with the empty stack it started from. *)
Theorem scope_stack_is_balanced :
  (forall e st r st',
     dispatch e st = OK (r, st') ->
     map shape (scopes_ st') = map shape (scopes_ st))
  /\ (forall s st r st',
        dispatch_stmt s st = OK (r, st') ->
        map shape (scopes_ st') = map shape (scopes_ st))
  /\ (forall f out st, ssa_transform_func f = OK (out, st) -> scopes_ st = [])
  /\ (forall s out st, ssa_transform_stmt s = OK (out, st) -> scopes_ st = []).
Proof.
  split; [|split; [|split]].
  - intros e st r st' E. exact (proj1 (respects_dispatch e st r st' E)).
  - intros s st r st' E. exact (proj1 (respects_dispatch_stmt s st r st' E)).
  - intros f out st E.
    pose proof (proj1 (respects_dispatch_func f init_impl out st E)) as H.
    destruct (scopes_ st); [reflexivity|discriminate H].
  - intros s out st E.
    pose proof (proj1 (respects_dispatch_stmt s init_impl out st E)) as H.
    destruct (scopes_ st); [reflexivity|discriminate H].
Qed.

(** ** The stack stays well formed *)

Lemma pushed_depth_snoc (l : list ssa_scope_t) (s : ssa_scope_t) (k : scope_kind) :
  pushed_depth (l ++ [s]) k
  = (for_depth_ s + if scope_kind_eqb k k_for_loop then 1 else 0)%Z.
Proof.
  unfold pushed_depth. rewrite last_snoc.
  destruct (scope_kind_eqb k k_for_loop); lia.
Qed.

Lemma scope_kind_eqb_eq (a b : scope_kind) : scope_kind_eqb a b = true <-> a = b.
Proof. destruct a, b; simpl; split; congruence. Qed.

Lemma count_loops_app (l1 l2 : list ssa_scope_t) :
  count_loops (l1 ++ l2) = (count_loops l1 + count_loops l2)%Z.
Proof. induction l1 as [|s l1 IH]; simpl; [reflexivity|]. rewrite IH. lia. Qed.

Lemma loops_upto_S (scopes : list ssa_scope_t) (j : nat) (sc : ssa_scope_t) :
  scopes !! S j = Some sc ->
  loops_upto scopes (S j)
  = (loops_upto scopes j + if scope_kind_eqb (kind_ sc) k_for_loop then 1 else 0)%Z.
Proof.
  intros H. unfold loops_upto.
  rewrite (take_S_r scopes (S j) sc H), count_loops_app. simpl. lia.
Qed.

(** In a well-formed stack the depth of a scope is the number of for-loop
    scopes up to it. *)
Lemma for_depth_counts_loops (scopes : list ssa_scope_t) :
  stack_ok scopes ->
  forall j sc, scopes !! j = Some sc -> for_depth_ sc = loops_upto scopes j.
Proof.
  intros Hok. induction j as [|j IH]; intros sc Hj.
  - destruct (Hok 0 sc Hj) as (_ & _ & Hd). rewrite Hd.
    destruct scopes as [|s0 rest]; [discriminate|]. inversion Hj; subst.
    unfold pushed_depth, loops_upto. simpl.
    destruct (scope_kind_eqb (kind_ sc) k_for_loop); reflexivity.
  - destruct (Hok (S j) sc Hj) as (_ & _ & Hd).
    destruct (scopes !! j) as [prev|] eqn:Hprev.
    2:{ apply lookup_ge_None in Hprev. apply lookup_lt_Some in Hj. lia. }
    rewrite (take_S_r scopes j prev Hprev), pushed_depth_snoc in Hd.
    rewrite Hd, (IH prev eq_refl), (loops_upto_S scopes j sc Hj). reflexivity.
Qed.

Lemma loops_upto_mono (scopes : list ssa_scope_t) (j i : nat) :
  j <= i -> (loops_upto scopes j <= loops_upto scopes i)%Z.
Proof.
  induction 1 as [|i Hle IH]; [lia|].
  destruct (scopes !! S i) as [sc|] eqn:Hi.
  - rewrite (loops_upto_S scopes i sc Hi).
    destruct (scope_kind_eqb (kind_ sc) k_for_loop); lia.
  - unfold loops_upto in *. apply lookup_ge_None in Hi.
    rewrite (take_ge scopes (S (S i))) by lia.
    rewrite (take_ge scopes (S i)) in IH by lia. exact IH.
Qed.

Lemma loops_upto_lt (scopes : list ssa_scope_t) (j t : nat) :
  j <= t -> t < length scopes ->
  (loops_upto scopes j < loops_upto scopes t)%Z
  <-> exists i sc, j < i <= t /\ scopes !! i = Some sc /\ kind_ sc = k_for_loop.
Proof.
  induction 1 as [|t Hle IH]; intros Hlen.
  - split; [lia|]. intros (i & sc & Hi & _). lia.
  - destruct (scopes !! S t) as [sc|] eqn:Ht;
      [|apply lookup_ge_None in Ht; lia].
    rewrite (loops_upto_S scopes t sc Ht).
    destruct (scope_kind_eqb (kind_ sc) k_for_loop) eqn:Hk.
    + split.
      * intros _. exists (S t), sc. split; [lia|]. split; [exact Ht|].
        apply scope_kind_eqb_eq. exact Hk.
      * intros _. pose proof (loops_upto_mono scopes j t Hle). lia.
    + rewrite Z.add_0_r, IH by lia. split.
      * intros (i & sc' & Hi & Hsc & Hkind). exists i, sc'.
        split; [lia|]. split; assumption.
      * intros (i & sc' & Hi & Hsc & Hkind).
        destruct (decide (i = S t)) as [->|Hne].
        -- rewrite Ht in Hsc. inversion Hsc; subst.
           rewrite Hkind in Hk. discriminate.
        -- exists i, sc'. split; [lia|]. split; assumption.
Qed.

(** X9.  The stack of the pass is well formed and stays so: every status is
    stamped with the index of the scope that holds it, and the loop depth
    of a scope is the number of for-loop scopes up to it.  The empty stack is
    well formed, and a dispatch of an expression or of a statement that
    starts from a well-formed stack ends with one.  So for a status found in a
    scope of such a stack, [scopes_[defined_scope_idx]] is that very scope,
    and the test of [visit(var)], the depth of the top scope being greater
    than the depth recorded for the binding, holds exactly when a for-loop
    scope lies above the scope that holds the binding. *)
Theorem scope_stack_stays_well_formed :
  stack_ok (scopes_ init_impl)
  /\ (forall e st r st',
        stack_ok (scopes_ st) -> dispatch e st = OK (r, st') ->
        stack_ok (scopes_ st'))
  /\ (forall s st r st',
        stack_ok (scopes_ st) -> dispatch_stmt s st = OK (r, st') ->
        stack_ok (scopes_ st'))
  /\ (forall st k, stack_ok (scopes_ st) ->
        wlp (push_scope k) (fun _ st' => stack_ok (scopes_ st')) st
        /\ wlp pop_scope (fun _ st' => stack_ok (scopes_ st')) st)
  /\ (forall scopes j sc v s top,
        stack_ok scopes ->
        scopes !! j = Some sc ->
        OMap.find v (vars_ sc) = Some s ->
        last scopes = Some top ->
        defined_scope_idx s = j
        /\ for_depth_ sc = loops_upto scopes j
        /\ ((for_depth_ sc <? for_depth_ top)%Z = true
            <-> exists i sc', j < i /\ scopes !! i = Some sc'
                              /\ kind_ sc' = k_for_loop)).
Proof.
  split; [apply stack_ok_nil|].
  split.
  { intros e st r st' Hok E.
    exact (proj1 (proj2 (respects_dispatch e st r st' E)) Hok). }
  split.
  { intros s st r st' Hok E.
    exact (proj1 (proj2 (respects_dispatch_stmt s st r st' E)) Hok). }
  split.
  { intros st k Hok. split.
    - apply wlp_push_scope_exact. simpl. apply stack_ok_push. exact Hok.
    - apply wlp_pop_scope. intros below top Hstack. simpl.
      eapply stack_ok_pop. rewrite <- Hstack. exact Hok. }
  intros scopes j sc v s top Hok Hj Hfind Hlast.
  destruct (Hok j sc Hj) as (_ & Hidx & _).
  destruct (OMapFacts.find_in _ _ _ Hfind) as (k' & _ & Hin).
  rewrite List.Forall_forall in Hidx.
  split; [exact (Hidx _ Hin)|].
  split; [apply for_depth_counts_loops; assumption|].
  destruct (last_snoc_inv _ _ Hlast) as (below & ->).
  pose proof (lookup_lt_Some _ _ _ Hj) as Hlt.
  rewrite length_app in Hlt. simpl in Hlt.
  rewrite (for_depth_counts_loops _ Hok j sc Hj).
  rewrite (for_depth_counts_loops _ Hok (length below) top (lookup_snoc_top _ _)).
  rewrite Z.ltb_lt, loops_upto_lt by (rewrite ?length_app; simpl; lia).
  split.
  - intros (i & sc' & Hi & Hsc & Hk). exists i, sc'. split; [lia|auto].
  - intros (i & sc' & Hi & Hsc & Hk). exists i, sc'.
    pose proof (lookup_lt_Some _ _ _ Hsc) as Hlt'.
    rewrite length_app in Hlt'. simpl in Hlt'. split; [lia|auto].
Qed.

(** ** Nodes are never removed *)

(** X10.  The store of the pass only grows, and what is in it changes in
    three ways only.  After a dispatch of an expression or of a statement,
    and after the pass on a function, every node that was in the store is
    still there, under the same identity, with its dtype and its attributes;
    a var is still a var, a phi has its operands of before followed by the
    appended ones, any other node has the very same body; SSA metadata that
    was attached is still attached, with the same definition and the flags it
    had; and a var whose metadata is not local (a parameter, a global) has
    kept its name. *)
Theorem store_only_grows :
  (forall e st r st',
     dispatch e st = OK (r, st') ->
     heap_le (heap st) (heap st') /\ length (heap st) <= length (heap st'))
  /\ (forall s st r st',
        dispatch_stmt s st = OK (r, st') ->
        heap_le (heap st) (heap st') /\ length (heap st) <= length (heap st'))
  /\ (forall f st out st',
        dispatch_func f st = OK (out, st') ->
        heap_le (heap st) (heap st') /\ length (heap st) <= length (heap st')).
Proof.
  split; [|split].
  - intros e st r st' E.
    pose proof (proj1 (proj2 (proj2 (respects_dispatch e st r st' E)))) as H.
    split; [exact H|apply heap_le_length; exact H].
  - intros s st r st' E.
    pose proof (proj1 (proj2 (proj2 (respects_dispatch_stmt s st r st' E)))) as H.
    split; [exact H|apply heap_le_length; exact H].
  - intros f st out st' E.
    pose proof (proj1 (proj2 (proj2 (respects_dispatch_func f st out st' E)))) as H.
    split; [exact H|apply heap_le_length; exact H].
Qed.

(** ** The signature of a function *)

Lemma run_push_scope (k : scope_kind) (st : impl) :
  push_scope k st
  = OK (tt, set_scopes (scopes_ st ++ [Scope [] k (pushed_depth (scopes_ st) k)]) st).
Proof. reflexivity. Qed.

(** X11.  The pass keeps the signature of a function.  When it returns, the
    output has the name, the return type and the attributes of the input and
    as many parameters; the [i]-th parameter is the node [i] of the store,
    and at the end of the pass that node still has the kind, the name, the
    dtype and the attributes of the [i]-th parameter of the input, and is
    flagged as a parameter: the pass never renames a parameter. *)
Theorem function_signature_is_kept (f : func) (out : ofunc) (st : impl) :
  ssa_transform_func f = OK (out, st) ->
  of_name out = f_name_ f
  /\ of_ret_type out = f_ret_type_ f
  /\ of_attr out = f_attr_ f
  /\ of_params out = seq 0 (length (f_params_ f))
  /\ forall i p, f_params_ f !! i = Some p ->
       exists n d,
         heap st !! i = Some n
         /\ n_body n = n_body (param_node p)
         /\ n_dtype n = dtype_ p
         /\ n_attr n = attr_ p
         /\ ssa_data_ n = Some d
         /\ is_param_ d = true.
Proof.
  unfold ssa_transform_func, dispatch_func. intros E.
  unfold bind at 1 in E. rewrite run_push_scope in E.
  unfold bind at 1 in E.
  erewrite (run_bind_params (f_params_ f) _ []) in E by reflexivity.
  unfold bind at 1 in E.
  match type of E with
  | match dispatch_stmt _ ?s with _ => _ end = _ => set (st1 := s) in *
  end.
  destruct (dispatch_stmt (f_body_ f) st1) as [[body st2]|] eqn:Ebody;
    [|discriminate].
  unfold bind at 1 in E.
  destruct (pop_scope st2) as [[sc st3]|] eqn:Epop; [|discriminate].
  unfold ret in E. inversion E; subst out st3. clear E. simpl.
  repeat (split; [reflexivity|]).
  intros i p Hi.
  pose proof (proj1 (proj2 (proj2 (respects_dispatch_stmt _ _ _ _ Ebody)))) as Hle.
  assert (H1 : heap st1 !! i = Some (param_node p)).
  { unfold st1. simpl. rewrite list_lookup_fmap, Hi. reflexivity. }
  destruct (Hle i _ H1) as (n & Hn & Hd & Ha & Hb & Hdata & Hname).
  assert (Hst : heap st = heap st2).
  { unfold pop_scope in Epop. destruct (last (scopes_ st2)); inversion Epop.
    reflexivity. }
  simpl in Hdata. destruct Hdata as (d & Hd' & _ & _ & Hp).
  exists n, d. rewrite Hst.
  split; [exact Hn|]. split.
  { unfold param_node in *. simpl in *. destruct (node_type_ p).
    - apply (Hname (name_ p) _ eq_refl eq_refl eq_refl).
    - exact Hb. }
  split; [exact Hd|]. split; [exact Ha|]. split; [exact Hd'|].
  apply Hp. reflexivity.
Qed.

Lemma function_signature_is_kept_witness :
  exists out st,
    ssa_transform_func (read_only_loop 4) = OK (out, st)
    /\ of_params out = [0]
    /\ n_body <$> heap st !! 0 = Some (tensor_node "A").
Proof.
  destruct (ssa_transform_func (read_only_loop 4)) as [[out st]|] eqn:E;
    [|vm_compute in E; discriminate E].
  exists out, st. split; [reflexivity|].
  destruct (function_signature_is_kept _ out st E) as (_ & _ & _ & Hp & Hn).
  split; [exact Hp|].
  destruct (Hn 0 _ eq_refl) as (n & d & Hl & Hb & _).
  rewrite Hl. simpl. rewrite Hb. reflexivity.
Defined.

(** ** Expressions only add *)

Lemma only_adds_refl st : only_adds st st.
Proof.
  split; [exists []; rewrite app_nil_r; reflexivity|].
  split; [reflexivity|]. split; [auto|]. split; [auto|].
  split; [exists []; rewrite app_nil_r; split; [reflexivity|constructor]|].
  reflexivity.
Qed.

Lemma only_adds_trans st1 st2 st3 :
  only_adds st1 st2 -> only_adds st2 st3 -> only_adds st1 st3.
Proof.
  intros ((n1 & H1) & S1 & B1 & O1 & (d1 & C1 & T1) & A1)
         ((n2 & H2) & S2 & B2 & O2 & (d2 & C2 & T2) & A2).
  split; [exists (n1 ++ n2); rewrite H2, H1, app_assoc; reflexivity|].
  split; [congruence|]. split; [auto|].
  split.
  { intros j Hj. rewrite O2, O1; [reflexivity|exact Hj|].
    rewrite (map_shape_length _ _ S1). exact Hj. }
  split; [|congruence].
  exists (d1 ++ d2). split; [rewrite C2, C1, app_assoc; reflexivity|].
  apply Forall_app. split; assumption.
Qed.

Lemma adds_ret {A} (a : A) : adds (ret a).
Proof. intros st _. apply wlp_ret, only_adds_refl. Qed.

Lemma adds_fail {A} (e : error) : adds (@fail A e).
Proof. intros st _. apply wlp_fail. Qed.

Lemma adds_bind {A B} (m : M A) (k : A -> M B) :
  respects m -> adds m -> (forall a, adds (k a)) -> adds (bind m k).
Proof.
  intros Hr Hm Hk st Hok b st' E. unfold bind in E.
  destruct (m st) as [[a st1]|] eqn:Em; [|discriminate].
  eapply only_adds_trans; [exact (Hm st Hok a st1 Em)|].
  exact (Hk a st1 (proj1 (proj2 (Hr st a st1 Em)) Hok) b st' E).
Qed.

Lemma adds_pure {A} (m : M A) :
  (forall st a st', m st = OK (a, st') -> st' = st) -> adds m.
Proof. intros H st _ a st' E. rewrite (H st a st' E). apply only_adds_refl. Qed.

Lemma only_adds_heap st (news : list node) : only_adds st (set_heap (heap st ++ news) st).
Proof.
  split; [exists news; reflexivity|].
  split; [reflexivity|]. split; [auto|]. split; [auto|].
  split; [exists []; rewrite app_nil_r; split; [reflexivity|constructor]|].
  reflexivity.
Qed.

Lemma adds_alloc (n : node) : adds (alloc n).
Proof. intros st _. apply wlp_alloc, only_adds_heap. Qed.

Lemma adds_deref (p : id) : adds (deref p).
Proof. apply adds_pure, pure_wlp. intros st. apply wlp_deref. reflexivity. Qed.

Lemma adds_add_def (v : id) : adds (add_def v).
Proof.
  intros st _. apply wlp_add_def. intros n _.
  split; [eexists; reflexivity|].
  split; [reflexivity|]. split; [auto|]. split; [auto|].
  split; [|reflexivity].
  eexists. split; [reflexivity|]. constructor; [|constructor].
  eexists _, _. reflexivity.
Qed.

Lemma only_adds_same st st' :
  heap st' = heap st -> scopes_ st' = scopes_ st ->
  current_scope_ st' = current_scope_ st ->
  stmts_to_insert_after st' = stmts_to_insert_after st ->
  only_adds st st'.
Proof.
  intros H S C A.
  split; [exists []; rewrite app_nil_r; exact H|]. rewrite S, C.
  split; [reflexivity|]. split; [auto|]. split; [auto|].
  split; [exists []; rewrite app_nil_r; split; [reflexivity|constructor]|].
  exact A.
Qed.

Lemma adds_set_need_flatten (b : bool) : adds (modify (set_need_flatten b)).
Proof. intros st _. apply wlp_modify. apply only_adds_same; reflexivity. Qed.

Lemma adds_visit_tensor (v : leaf) : adds (visit_tensor v).
Proof.
  apply adds_pure, pure_wlp. intros st. unfold visit_tensor.
  apply wlp_bind, wlp_get_local_var. intros i _.
  apply wlp_bind, wlp_read_status. intros s _.
  destruct (current_value s); [apply wlp_ret; reflexivity|apply wlp_fail].
Qed.

Lemma only_adds_renamed st st2 (newv : id) (v : leaf) :
  only_adds st st2 -> length (heap st) <= newv ->
  only_adds st (renamed newv v st2).
Proof.
  intros ((news & H) & S & B & O & C & A) Hle. unfold renamed.
  destruct (heap st2 !! newv) as [n|]; [|repeat split; eauto].
  split; [|repeat split; assumption].
  simpl. rewrite H. rewrite insert_app_r_alt by exact Hle. eauto.
Qed.

(** A read that makes a loop phi finds no entry of the variable in the top
    scope. *)
Lemma loop_phi_not_in_top (scopes below : list ssa_scope_t) (top def : ssa_scope_t)
    (v : leaf) (i : nat) (status : ssa_var_status_t) :
  stack_ok scopes ->
  scopes = below ++ [top] ->
  find_scope 0 scopes v = Some i ->
  status_at scopes i v = Some status ->
  scopes !! defined_scope_idx status = Some def ->
  (for_depth_ def <? for_depth_ top)%Z = true ->
  OMap.find v (vars_ top) = None.
Proof.
  intros Hok -> Hfind Hstatus Hdef Hlt.
  destruct (OMap.find v (vars_ top)) as [s|] eqn:F; [|reflexivity].
  rewrite find_scope_snoc, F in Hfind. inversion Hfind; subst i. simpl in *.
  rewrite status_at_top in Hstatus.
  destruct (stack_ok_top _ _ Hok) as (_ & Hidx & _).
  destruct (OMapFacts.find_in _ _ _ Hstatus) as (k' & _ & Hin).
  rewrite List.Forall_forall in Hidx. specialize (Hidx _ Hin). simpl in Hidx.
  rewrite Hidx, lookup_snoc_top in Hdef. inversion Hdef; subst def.
  apply Z.ltb_lt in Hlt. lia.
Qed.

Lemma only_adds_shadow st (below : list ssa_scope_t) (top : ssa_scope_t)
    (v : leaf) (s0 : ssa_var_status_t)
    (f : ssa_var_status_t -> ssa_var_status_t) :
  scopes_ st = below ++ [top] ->
  OMap.find v (vars_ top) = None ->
  only_adds st
    (set_scopes
       (alter (with_vars (OMap.alter f v)) (length below)
              (below ++ [with_vars (OMap.insert v s0) top])) st).
Proof.
  intros Hstack Hnone.
  split; [exists []; simpl; rewrite app_nil_r; reflexivity|].
  simpl. rewrite alter_snoc_top, Hstack.
  split; [rewrite !map_app; reflexivity|].
  split.
  { intros j k s Hs.
    destruct (decide (j < length below)) as [Hlt|Hge].
    - rewrite (status_at_below below top) by exact Hlt. exact Hs.
    - destruct (decide (j = length below)) as [->|Hne].
      + rewrite status_at_top in *. simpl.
        assert (Hk : ~ same_key v k).
        { intros Hsame. rewrite (OMapFacts.find_same_key v k _ Hsame) in Hnone.
          congruence. }
        rewrite OMapFacts.find_alter_ne, OMapFacts.find_insert_ne by exact Hk.
        exact Hs.
      + rewrite status_at_above in Hs; [discriminate|].
        rewrite length_app. simpl. lia. }
  split.
  { intros j Hj. rewrite length_app in Hj. simpl in Hj.
    rewrite !lookup_app_l by lia. reflexivity. }
  split; [exists []; rewrite app_nil_r; split; [reflexivity|constructor]|].
  reflexivity.
Qed.

Lemma adds_visit_var (v : leaf) : adds (visit_var v).
Proof.
  intros st Hok. unfold visit_var.
  apply wlp_bind, wlp_get_local_var. intros i Hfind.
  apply wlp_bind, wlp_read_status. intros status Hstatus. simpl in Hstatus.
  apply wlp_bind, wlp_scopes_back. intros below top Hstack.
  apply wlp_bind, wlp_ssa_data_of. intros c n d Hc Hn Hd.
  destruct (negb (is_global_ d)).
  - apply wlp_bind, wlp_scope_at. intros def Hdef.
    destruct (for_depth_ def <? for_depth_ top)%Z eqn:Hlt.
    + assert (Hnone : OMap.find v (vars_ top) = None).
      { eapply (loop_phi_not_in_top (scopes_ st)); eauto. }
      apply wlp_bind, wlp_make_ssa_phi. intros p ps pn _ _.
      apply wlp_bind, wlp_add_def. intros pn' _. simpl heap.
      match goal with
      | |- wlp _ _ ?s => set (st2 := s)
      end.
      assert (H2 : only_adds st st2).
      { split; [eexists [_; _]; unfold st2; simpl; rewrite <- app_assoc;
                reflexivity|].
        split; [reflexivity|]. split; [auto|]. split; [auto|].
        split; [|reflexivity].
        eexists. split; [reflexivity|]. constructor; [|constructor].
        eexists _, _. reflexivity. }
      apply wlp_bind, wlp_checked_as_var. intros n1 _ _.
      apply wlp_bind, wlp_rename. intros n2 d2 _ _.
      assert (H3 : only_adds st (if is_local d2
                                 then renamed (length (heap st ++ [Node (ssa_phi_node (p :: ps)) (n_dtype pn) None None])) v st2
                                 else st2)).
      { destruct (is_local d2); [|exact H2].
        apply only_adds_renamed; [exact H2|]. rewrite length_app. lia. }
      match goal with
      | |- wlp _ _ ?s => set (st3 := s) in *
      end.
      assert (Hsc3 : scopes_ st3 = below ++ [top]).
      { unfold st3. destruct (is_local d2); [|exact Hstack].
        unfold renamed. destruct (heap st2 !! _); exact Hstack. }
      apply wlp_bind, wlp_insert_local_var. intros below' top' Hstack'.
      rewrite Hsc3 in Hstack'. apply app_inj_tail in Hstack' as [<- <-].
      apply wlp_bind, wlp_write_status. apply wlp_ret. simpl fst. simpl snd.
      eapply only_adds_trans; [exact H3|].
      simpl scopes_.
      apply (only_adds_shadow st3 below top v _ _ Hsc3 Hnone).
    + destruct (current_value status); [apply wlp_ret, only_adds_refl|apply wlp_fail].
  - destruct (current_value status) as [c'|]; [|apply wlp_fail].
    apply adds_add_def. exact Hok.
Qed.

Lemma adds_flatten_result (old : bool) (r : id) : adds (flatten_result old r).
Proof.
  unfold flatten_result.
  apply adds_bind; [apply respects_get|apply adds_pure|intros st].
  { intros s a s' E. inversion E; reflexivity. }
  destruct (old && negb (isa (heap st) is_var_body (Some r))
            && negb (isa (heap st) is_tensor_body (Some r)));
    [apply adds_add_def|apply adds_ret].
Qed.

Lemma adds_dispatch_of (e : expr) :
  respects (visit_expr e) -> adds (visit_expr e) -> adds (dispatch e).
Proof.
  intros Hr H st Hok a st' E. rewrite dispatch_unfold in E.
  assert (Hb : adds (bind (visit_expr e) (flatten_result (need_flatten_ st)))).
  { apply adds_bind; [exact Hr|exact H|intros r; apply adds_flatten_result]. }
  eapply only_adds_trans; [|exact (Hb (set_need_flatten true st) Hok a st' E)].
  apply only_adds_same; reflexivity.
Qed.

Lemma adds_dispatch_vec (l : list expr) :
  Forall (fun e => adds (dispatch e)) l -> adds (dispatch_vec l).
Proof.
  induction 1 as [|e l He _ IH]; simpl.
  - apply adds_ret.
  - apply adds_bind; [apply respects_dispatch|exact He|intros x].
    apply adds_bind; [|exact IH|intros xs; apply adds_ret].
    apply respects_dispatch_vec. apply Forall_forall. intros; apply respects_dispatch.
Qed.

Lemma respects_dispatch_vec_all (l : list expr) : respects (dispatch_vec l).
Proof.
  apply respects_dispatch_vec. apply Forall_forall. intros; apply respects_dispatch.
Qed.

Lemma adds_dispatch (e : expr) : adds (dispatch e).
Proof.
  induction e as [l|v d|ptr idx IHptr IHidx|o d args IHargs] using expr_ind2.
  - apply adds_dispatch_of; simpl; destruct (node_type_ l);
      auto using respects_visit_var, respects_visit_tensor, adds_visit_var,
                 adds_visit_tensor.
  - apply adds_dispatch_of; simpl; [apply respects_alloc|apply adds_alloc].
  - apply adds_dispatch_of; simpl.
    + apply respects_bind; [apply respects_dispatch|intros p].
      apply respects_bind; [apply respects_dispatch_vec_all|intros ids].
      respects_steps.
    + apply adds_bind; [apply respects_dispatch|exact IHptr|intros p].
      apply adds_bind;
        [apply respects_dispatch_vec_all|apply adds_dispatch_vec; exact IHidx
        |intros ids].
      apply adds_bind; [apply respects_deref|apply adds_deref|intros n].
      apply adds_alloc.
  - apply adds_dispatch_of; simpl.
    + apply respects_bind; [apply respects_dispatch_vec_all|intros xs].
      respects_steps.
    + apply adds_bind;
        [apply respects_dispatch_vec_all|apply adds_dispatch_vec; exact IHargs
        |intros xs].
      apply adds_alloc.
Qed.

(** X12.  The dispatch of an expression only adds.  From a well-formed
    stack, when it returns: the store is the old store followed by new
    nodes (no existing node is renamed, patched or flagged); every binding
    of every scope is what it was, and only the top scope may have got
    entries (the loop phis that shadow the variables read); the statements
    emitted before the current one are definitions of temporaries, appended
    to the block, and nothing is queued to follow the current statement. *)
Theorem expressions_only_add (e : expr) (st : impl) (r : id) (st' : impl) :
  stack_ok (scopes_ st) ->
  dispatch e st = OK (r, st') ->
  (exists news, heap st' = heap st ++ news)
  /\ (forall j k s, status_at (scopes_ st) j k = Some s ->
                    status_at (scopes_ st') j k = Some s)
  /\ (forall j, S j < length (scopes_ st) -> scopes_ st' !! j = scopes_ st !! j)
  /\ length (scopes_ st') = length (scopes_ st)
  /\ (exists defs, current_scope_ st' = current_scope_ st ++ defs
                   /\ Forall is_temp_def defs)
  /\ stmts_to_insert_after st' = stmts_to_insert_after st.
Proof.
  intros Hok E.
  destruct (adds_dispatch e st Hok r st' E) as (H & S & B & O & C & A).
  split; [exact H|]. split; [exact B|]. split; [exact O|].
  split; [apply map_shape_length; exact S|]. split; [exact C|exact A].
Qed.

Lemma expressions_only_add_witness :
  let k := Leaf sc_var "k" "s32" None in
  let outer := Scope [(k, Status (Some 0) 0 [])] k_normal 0 in
  let st := Impl [Node (var_node "k") "s32" None (Some (SsaData false false None))]
                 [outer; Scope [] k_for_loop 1] false 0 0 [] [] in
  exists r st',
    dispatch (e_compute "add" "s32" [e_leaf k; e_constant 1 "s32"]) st = OK (r, st')
    /\ (forall j, S j < 2 -> scopes_ st' !! j = scopes_ st !! j)
    /\ status_at (scopes_ st') 0 k = Some (Status (Some 0) 0 []).
Proof.
  intros k outer st.
  destruct (dispatch (e_compute "add" "s32" [e_leaf k; e_constant 1 "s32"]) st)
    as [[r st']|] eqn:E; [|vm_compute in E; discriminate E].
  exists r, st'. split; [reflexivity|].
  assert (Hok : stack_ok (scopes_ st)).
  { apply (stack_ok_snoc [outer]); [|constructor|constructor|reflexivity].
    apply (stack_ok_snoc []); [apply stack_ok_nil| | |reflexivity].
    - repeat constructor.
    - repeat constructor. }
  destruct (expressions_only_add _ st r st' Hok E) as (_ & B & O & _).
  split; [exact O|]. apply B. reflexivity.
Defined.

(** ** Expressions whose variables are bound are dispatched without failure *)

Lemma returns_ret {A} (a : A) (Q : A -> impl -> Prop) st : Q a st -> returns (ret a) Q st.
Proof. intros H. exists a, st. split; [reflexivity|exact H]. Qed.

Lemma returns_bind {A B} (m : M A) (k : A -> M B) (Q : B -> impl -> Prop) st :
  returns m (fun a st1 => returns (k a) Q st1) st -> returns (bind m k) Q st.
Proof.
  intros (a & st1 & Em & b & st2 & Ek & HQ). exists b, st2.
  split; [unfold bind; rewrite Em; exact Ek|exact HQ].
Qed.

Lemma returns_mono {A} (m : M A) (Q Q' : A -> impl -> Prop) st :
  returns m Q st -> (forall a st', Q a st' -> Q' a st') -> returns m Q' st.
Proof. intros (a & st' & E & H) HQ. exists a, st'. split; [exact E|auto]. Qed.

(** What a returning run adds to what [wlp] tells. *)
Lemma returns_wlp {A} (m : M A) (Q Q' : A -> impl -> Prop) st :
  returns m Q st -> wlp m Q' st -> returns m (fun a st' => Q a st' /\ Q' a st') st.
Proof.
  intros (a & st' & E & H) Hw. exists a, st'. split; [exact E|].
  split; [exact H|exact (Hw a st' E)].
Qed.

Lemma usable_ext (st st' : impl) (k : leaf) :
  (exists news, heap st' = heap st ++ news) ->
  scopes_ st' = scopes_ st -> usable st k -> usable st' k.
Proof.
  intros (news & Hh) Hs (j & s & c & n & Hf & Hst & Hc & Hn & Hd).
  exists j, s, c, n. rewrite Hs, Hh.
  repeat split; auto. apply lookup_app_l_Some. exact Hn.
Qed.

(** The run of [visit_var], case by case. *)
Lemma run_visit_var
    (v : leaf) (st : impl) (below : list ssa_scope_t) (top sc : ssa_scope_t)
    (i : nat) (status : ssa_var_status_t) (cur : id) (n : node) (d : ssa_data_t) :
  scopes_ st = below ++ [top] ->
  find_scope 0 (scopes_ st) v = Some i ->
  scopes_ st !! i = Some sc ->
  OMap.find v (vars_ sc) = Some status ->
  defined_scope_idx status = i ->
  current_value status = Some cur ->
  heap st !! cur = Some n ->
  ssa_data_ n = Some d ->
  let fresh := length (heap st) in
  visit_var v st
  = if is_global_ d then
      OK (fresh,
          Impl (heap st ++ [temp_var_node ("__tmp" ++ to_string (var_def_idx_ st))
                                          (n_dtype n) cur])
               (scopes_ st) (need_flatten_ st) (var_version_idx st)
               (uint64_succ (var_def_idx_ st))
               (current_scope_ st ++ [o_define None fresh linkage_local (Some cur)])
               (stmts_to_insert_after st))
    else if (for_depth_ sc <? for_depth_ top)%Z then
      OK (S fresh,
          Impl (heap st
                ++ [Node (ssa_phi_node [cur]) (n_dtype n) None None;
                    temp_var_node
                      (name_ v ++ "_" ++ to_string (var_version_idx st))
                      (n_dtype n) fresh])
               (below
                ++ [with_vars
                      (OMap.insert v (Status (Some (S fresh))
                                             (length below) [S fresh]))
                      top])
               (need_flatten_ st) (uint64_succ (var_version_idx st))
               (uint64_succ (var_def_idx_ st))
               (current_scope_ st
                ++ [o_define None (S fresh) linkage_local (Some fresh)])
               (stmts_to_insert_after st))
    else OK (cur, st).
Proof.
  intros Hstack Hfind Hsc Hstatus Hidx Hcur Hn Hd fresh.
  assert (Hrun : visit_var v st
    = (if negb (is_global_ d) then
         def_scope <- scope_at (defined_scope_idx status) ;;
         if (for_depth_ def_scope <? for_depth_ top)%Z then
           node <- make_ssa_phi [current_value status] ;;
           phi <- add_def node ;;
           checked_as_var phi ;;;
           rename_temp_var_with_version phi v ;;;
           p <- insert_local_var v (Some phi) ;;
           write_status p (add_for_loop_phi [phi]) ;;;
           ret phi
         else match current_value status with
              | Some c => ret c
              | None => fail null_deref
              end
       else match current_value status with
            | Some c => add_def c
            | None => fail null_deref
            end) st).
  { unfold visit_var. unfold bind at 1.
    rewrite (run_get_local_var_found _ _ _ Hfind).
    unfold bind at 1. unfold read_status. simpl. rewrite Hsc, Hstatus.
    unfold bind at 1. rewrite (run_scopes_back _ _ _ Hstack).
    unfold bind at 1. rewrite Hcur. unfold ssa_data_of, bind, deref.
    rewrite Hn, Hd. reflexivity. }
  rewrite Hrun. clear Hrun. subst fresh.
  destruct st as [h scs nf vv vd cs ia]. simpl in *. subst scs.
  destruct (is_global_ d) eqn:Hg; simpl.
  - rewrite Hcur.
    unfold add_def, new_temp_def, bind, deref, get, alloc, modify, ret. simpl.
    rewrite Hn. reflexivity.
  - unfold bind at 1. unfold scope_at. simpl. rewrite Hidx, Hsc.
    destruct (for_depth_ sc <? for_depth_ top)%Z eqn:Hlt;
      [|rewrite Hcur; reflexivity].
    assert (Hne : i <> length below).
    { intros ->. rewrite lookup_snoc_top in Hsc. inversion Hsc; subst.
      apply Z.ltb_lt in Hlt. lia. }
    assert (Hnone : OMap.find v (vars_ top) = None).
    { rewrite find_scope_snoc in Hfind.
      destruct (OMap.find v (vars_ top)); [|reflexivity].
      inversion Hfind. lia. }
    unfold bind at 1. rewrite Hcur. unfold make_ssa_phi. simpl.
    unfold bind at 1. unfold deref at 1. simpl. rewrite Hn.
    unfold alloc at 1. simpl.
    unfold bind at 1.
    unfold add_def, new_temp_def, bind, deref, get, alloc, modify, ret. simpl.
    rewrite lookup_app_r by lia. rewrite Nat.sub_diag. simpl.
    unfold checked_as_var, bind, deref, ret. simpl.
    rewrite length_app. simpl. rewrite Nat.add_1_r.
    replace ((h ++ [_]) ++ [_] : list node)
      with (h ++ [Node (ssa_phi_node [cur]) (n_dtype n) None None;
                  Node (var_node ("__tmp" ++ to_string vd)) (n_dtype n) None
                       (Some (SsaData false false (Some (length h))))])
      by (rewrite <- app_assoc; reflexivity).
    assert (Hl : forall x y : node,
               (h ++ [x; y]) !! S (length h) = Some y).
    { intros x y. rewrite lookup_app_r by lia.
      replace (S (length h) - length h) with 1 by lia. reflexivity. }
    rewrite Hl. simpl.
    unfold rename_temp_var_with_version, ssa_data_of, bind, deref. simpl.
    rewrite Hl. simpl.
    unfold get, update_node, modify. simpl. rewrite Hl. simpl.
    erewrite run_insert_local_var by reflexivity. simpl.
    rewrite alter_snoc_top. unfold with_vars at 1. simpl.
    rewrite alter_insert_absent by exact Hnone.
    unfold set_scopes, set_var_version_idx, set_heap. simpl.
    rewrite insert_app_r_alt by lia.
    replace (S (length h) - length h) with 1 by lia. reflexivity.
Qed.

Lemma usable_unpack (st : impl) (k : leaf) :
  stack_ok (scopes_ st) -> usable st k ->
  exists below top sc i status cur n,
    scopes_ st = below ++ [top]
    /\ find_scope 0 (scopes_ st) k = Some i
    /\ scopes_ st !! i = Some sc
    /\ OMap.find k (vars_ sc) = Some status
    /\ defined_scope_idx status = i
    /\ current_value status = Some cur
    /\ heap st !! cur = Some n
    /\ (node_type_ k = sc_var -> ssa_data_ n <> None).
Proof.
  intros Hok (j & s & c & n & Hf & Hst & Hc & Hn & Hd).
  destruct (last (scopes_ st)) as [top|] eqn:Hlast.
  2:{ apply last_None in Hlast. rewrite Hlast in Hf. discriminate. }
  destruct (last_snoc_inv _ _ Hlast) as (below & Hstack).
  unfold status_at in Hst.
  destruct (scopes_ st !! j) as [sc|] eqn:Hsc; [|discriminate].
  exists below, top, sc, j, s, c, n.
  repeat (split; [assumption|]).
  split; [|split; [assumption|split; assumption]].
  destruct (Hok j sc Hsc) as (_ & Hidx & _).
  destruct (OMapFacts.find_in _ _ _ Hst) as (k' & _ & Hin).
  rewrite List.Forall_forall in Hidx. exact (Hidx _ Hin).
Qed.

Lemma usable_shadow (st st' : impl) (below : list ssa_scope_t) (top : ssa_scope_t)
    (v : leaf) (c : id) (n : node) (news : list node) (s0 : ssa_var_status_t) :
  scopes_ st = below ++ [top] ->
  OMap.find v (vars_ top) = None ->
  heap st' = heap st ++ news ->
  scopes_ st' = below ++ [with_vars (OMap.insert v s0) top] ->
  current_value s0 = Some c ->
  heap st' !! c = Some n -> ssa_data_ n <> None ->
  forall k, usable st k -> usable st' k.
Proof.
  intros Hstack Hnone Hh' Hs' Hc Hn Hd k
         (j & s & c1 & n1 & Hf & Hst & Hc1 & Hn1 & Hd1).
  unfold usable. rewrite Hs'.
  destruct (same_key_dec v k) as [Hsame|Hne].
  - exists (length below), s0, c, n.
    rewrite find_scope_snoc, status_at_top. simpl.
    rewrite <- (OMapFacts.find_same_key v k _ Hsame), OMapFacts.find_insert_eq, Hnone.
    repeat split; auto.
  - exists j, s, c1, n1.
    pose proof (grows_insert_top v s0 below top) as Hg.
    rewrite (grows_find_scope _ _ _ _ Hg Hne).
    destruct Hg as (_ & Hother & _). rewrite (Hother k j Hne).
    rewrite <- Hstack, Hh'. repeat split; auto.
    apply lookup_app_l_Some. exact Hn1.
Qed.

Lemma visit_var_returns (v : leaf) (st : impl) :
  stack_ok (scopes_ st) -> node_type_ v = sc_var -> usable st v ->
  returns (visit_var v)
          (fun r st' => node_at (heap st') r
                        /\ forall k, usable st k -> usable st' k) st.
Proof.
  intros Hok Hv Hu.
  destruct (usable_unpack st v Hok Hu)
    as (below & top & sc & i & status & cur & n & Hstack & Hfind & Hsc & Hstatus
        & Hidx & Hcur & Hn & Hd).
  destruct (ssa_data_ n) as [d|] eqn:Hdata; [|destruct (Hd Hv eq_refl)].
  pose proof (run_visit_var v st below top sc i status cur n d Hstack Hfind Hsc
                Hstatus Hidx Hcur Hn Hdata) as Hrun.
  cbv zeta in Hrun.
  destruct (is_global_ d).
  - eexists _, _. split; [exact Hrun|]. simpl. split.
    + eexists. apply lookup_snoc_fresh.
    + intros k. apply usable_ext; [simpl; eauto|reflexivity].
  - destruct (for_depth_ sc <? for_depth_ top)%Z eqn:Hlt.
    + eexists _, _. split; [exact Hrun|]. simpl. split.
      * eexists. rewrite lookup_app_r by lia.
        replace (S (length (heap st)) - length (heap st)) with 1 by lia.
        reflexivity.
      * assert (Hnone : OMap.find v (vars_ top) = None).
        { eapply (loop_phi_not_in_top (scopes_ st) below top sc v i status);
            eauto.
          - unfold status_at. rewrite Hsc. exact Hstatus.
          - rewrite Hidx. exact Hsc. }
        eapply (usable_shadow st _ below top v (S (length (heap st))));
          [exact Hstack|exact Hnone|reflexivity|reflexivity|reflexivity| |].
        -- simpl. rewrite lookup_app_r by lia.
           replace (S (length (heap st)) - length (heap st)) with 1 by lia.
           reflexivity.
        -- discriminate.
    + eexists _, _. split; [exact Hrun|]. split; [eexists; exact Hn|auto].
Qed.

Lemma visit_tensor_returns (v : leaf) (st : impl) :
  usable st v ->
  returns (visit_tensor v)
          (fun r st' => node_at (heap st') r
                        /\ forall k, usable st k -> usable st' k) st.
Proof.
  intros (j & s & c & n & Hf & Hst & Hc & Hn & _).
  exists c, st. split.
  - unfold visit_tensor. unfold bind at 1.
    rewrite (run_get_local_var_found _ _ _ Hf). unfold bind at 1.
    assert (Hr : read_status (j, v) st = OK (s, st)) by (apply read_status_at; exact Hst).
    rewrite Hr, Hc. reflexivity.
  - split; [eexists; exact Hn|auto].
Qed.

Lemma run_add_def (st : impl) (v : id) (n : node) :
  heap st !! v = Some n ->
  add_def v st
  = OK (length (heap st),
        set_current_scope
          (current_scope_ st
           ++ [o_define None (length (heap st)) linkage_local (Some v)])
          (set_var_def_idx (uint64_succ (var_def_idx_ st))
             (set_heap
                (heap st ++ [temp_var_node ("__tmp" ++ to_string (var_def_idx_ st))
                                           (n_dtype n) v]) st))).
Proof.
  intros Hn. unfold add_def, new_temp_def, bind, deref, get, alloc, modify, ret.
  rewrite Hn. reflexivity.
Qed.

Lemma flatten_result_returns (old : bool) (r : id) (st : impl) :
  node_at (heap st) r ->
  returns (flatten_result old r)
          (fun r' st' => node_at (heap st') r'
                         /\ forall k, usable st k -> usable st' k) st.
Proof.
  intros (n & Hn). unfold returns, flatten_result, bind, get. cbv beta iota.
  destruct (old && negb (isa (heap st) is_var_body (Some r))
            && negb (isa (heap st) is_tensor_body (Some r))).
  - eexists _, _. split; [apply (run_add_def st r n Hn)|]. simpl. split.
    + eexists. apply lookup_snoc_fresh.
    + intros k. apply usable_ext; [simpl; eauto|reflexivity].
  - exists r, st. split; [reflexivity|]. split; [exists n; exact Hn|auto].
Qed.

Lemma dispatch_returns_of (e : expr) (st : impl) :
  stack_ok (scopes_ st) ->
  returns (visit_expr e)
          (fun r st' => node_at (heap st') r
                        /\ forall k, usable st k -> usable st' k)
          (set_need_flatten true st) ->
  returns (dispatch e) (dispatched st) st.
Proof.
  intros Hok (r & st1 & E1 & Hr1 & Hu1).
  destruct (flatten_result_returns (need_flatten_ st) r st1 Hr1)
    as (r' & st2 & E2 & Hr2 & Hu2).
  assert (E : dispatch e st = OK (r', st2)).
  { rewrite dispatch_unfold. unfold bind. rewrite E1. exact E2. }
  exists r', st2. split; [exact E|].
  split; [exact (proj1 (proj2 (respects_dispatch e st r' st2 E)) Hok)|].
  split; [exact Hr2|]. intros k Hk. apply Hu2, Hu1. exact Hk.
Qed.

Lemma dispatch_vec_returns (l : list expr) :
  Forall (fun e => forall st,
            stack_ok (scopes_ st) -> Forall (usable st) (leaves e) ->
            returns (dispatch e) (dispatched st) st) l ->
  forall st,
    stack_ok (scopes_ st) -> Forall (usable st) (flat_map leaves l) ->
    returns (dispatch_vec l)
            (fun xs st' => stack_ok (scopes_ st')
                           /\ Forall (node_at (heap st')) xs
                           /\ forall k, usable st k -> usable st' k) st.
Proof.
  induction 1 as [|e l He _ IH]; intros st Hok Hall; simpl.
  - apply returns_ret. split; [exact Hok|]. split; [constructor|auto].
  - simpl in Hall. apply Forall_app in Hall as [Hhead Htail].
    apply returns_bind.
    destruct (He st Hok Hhead) as (x & st1 & Ex & Hok1 & Hx & Hu1).
    exists x, st1. split; [exact Ex|].
    apply returns_bind.
    destruct (IH st1 Hok1) as (xs & st2 & Exs & Hok2 & Hxs & Hu2).
    { eapply Forall_impl; [exact Htail|]. exact Hu1. }
    exists xs, st2. split; [exact Exs|].
    apply returns_ret. split; [exact Hok2|].
    split; [|intros k Hk; apply Hu2, Hu1, Hk].
    constructor; [|exact Hxs].
    destruct Hx as (n & Hn).
    destruct (proj1 (proj2 (proj2 (respects_dispatch_vec_all l st1 xs st2 Exs))) x n Hn)
      as (n' & Hn' & _).
    exists n'. exact Hn'.
Qed.

Lemma dispatch_returns (e : expr) :
  forall st,
    stack_ok (scopes_ st) -> Forall (usable st) (leaves e) ->
    returns (dispatch e) (dispatched st) st.
Proof.
  induction e as [l|v d|ptr idx IHptr IHidx|o d args IHargs] using expr_ind2;
    intros st Hok Hall; apply dispatch_returns_of; try exact Hok; simpl.
  - inversion Hall as [|? ? Hl _]; subst.
    assert (Hl' : usable (set_need_flatten true st) l) by exact Hl.
    destruct (node_type_ l) eqn:Ht.
    + apply (visit_var_returns l (set_need_flatten true st) Hok Ht Hl').
    + apply (visit_tensor_returns l (set_need_flatten true st) Hl').
  - eexists _, _. split; [reflexivity|]. simpl. split.
    + eexists. apply lookup_snoc_fresh.
    + intros k. apply usable_ext; [simpl; eauto|reflexivity].
  - simpl in Hall. apply Forall_app in Hall as [Hp Hidx].
    apply returns_bind.
    destruct (IHptr (set_need_flatten true st) Hok Hp)
      as (p & st1 & Ep & Hok1 & (pn & Hpn) & Hu1).
    exists p, st1. split; [exact Ep|].
    apply returns_bind.
    destruct (dispatch_vec_returns idx IHidx st1 Hok1)
      as (ids & st2 & Eids & Hok2 & Hids & Hu2).
    { eapply Forall_impl; [exact Hidx|]. exact Hu1. }
    exists ids, st2. split; [exact Eids|].
    destruct (proj1 (proj2 (proj2 (respects_dispatch_vec_all idx st1 ids st2 Eids))) p pn Hpn)
      as (pn' & Hpn' & _).
    unfold returns, bind, deref. rewrite Hpn'.
    eexists _, _. split; [reflexivity|]. simpl. split.
    + eexists. apply lookup_snoc_fresh.
    + intros k Hk. apply (usable_ext st2); [simpl; eauto|reflexivity|].
      apply Hu2, Hu1. exact Hk.
  - apply returns_bind.
    destruct (dispatch_vec_returns args IHargs (set_need_flatten true st) Hok Hall)
      as (xs & st1 & Exs & Hok1 & Hxs & Hu1).
    exists xs, st1. split; [exact Exs|].
    eexists _, _. split; [reflexivity|]. simpl. split.
    + eexists. apply lookup_snoc_fresh.
    + intros k Hk. apply (usable_ext st1); [simpl; eauto|reflexivity|].
      apply Hu1. exact Hk.
Qed.

(** X13.  An expression whose variables are bound is dispatched without
    failure.  On a well-formed stack, when every var and tensor that the
    expression reads is bound to a current value that is a node of the store
    (with SSA metadata for a var), the dispatch returns: none of the
    assertions, casts and dereferences on its way fails.  The result is a
    node of the store, the stack is still well formed, and every key that
    could be read before can still be read. *)
Theorem dispatch_of_bound_expression_returns (e : expr) (st : impl) :
  stack_ok (scopes_ st) ->
  Forall (usable st) (leaves e) ->
  exists r st',
    dispatch e st = OK (r, st')
    /\ stack_ok (scopes_ st')
    /\ (exists n, heap st' !! r = Some n)
    /\ forall k, usable st k -> usable st' k.
Proof. intros Hok Hall. exact (dispatch_returns e st Hok Hall). Qed.

Lemma dispatch_of_bound_expression_returns_witness :
  let k := Leaf sc_var "k" "s32" None in
  let A := Leaf sc_tensor "A" "f32" None in
  let outer := Scope [(k, Status (Some 0) 0 []); (A, Status (Some 1) 0 [])]
                     k_normal 0 in
  let st := Impl [Node (var_node "k") "s32" None (Some (SsaData false false None));
                  Node (tensor_node "A") "f32" None None]
                 [outer; Scope [] k_for_loop 1] false 0 0 [] [] in
  let e := e_indexing (e_leaf A) [e_compute "add" "s32" [e_leaf k; e_constant 1 "s32"]] in
  exists r st',
    dispatch e st = OK (r, st')
    /\ stack_ok (scopes_ st')
    /\ (exists n, heap st' !! r = Some n)
    /\ forall k, usable st k -> usable st' k.
Proof.
  intros k A outer st e.
  apply dispatch_of_bound_expression_returns.
  - apply (stack_ok_snoc [outer]); [|constructor|constructor|reflexivity].
    apply (stack_ok_snoc []); [apply stack_ok_nil| | |reflexivity].
    + repeat constructor.
    + repeat constructor.
  - repeat apply List.Forall_cons; try apply List.Forall_nil.
    + exists 0. eexists _, 1, _. repeat split; try reflexivity. discriminate.
    + exists 0. eexists _, 0, _. repeat split; try reflexivity. discriminate.
Defined.

(** ** What is bound inside a loop stays inside *)

Lemma hidden_all (scopes : list ssa_scope_t) (k : leaf) :
  find_scope 0 scopes k = None <-> forall j, status_at scopes j k = None.
Proof.
  rewrite find_scope_none, Forall_lookup. unfold status_at. split.
  - intros H j. destruct (scopes !! j) as [s|] eqn:E; [|reflexivity]. eauto.
  - intros H j s E. specialize (H j). rewrite E in H. exact H.
Qed.

Lemma scopes_renamed_if (b : bool) (newv : id) (v : leaf) (st : impl) :
  scopes_ (if b then renamed newv v st else st) = scopes_ st.
Proof.
  destruct b; [|reflexivity]. unfold renamed.
  destruct (heap st !! newv); reflexivity.
Qed.

Lemma visit_var_no_leak (v k : leaf) (st : impl) :
  find_scope 0 (scopes_ st) k = None ->
  wlp (visit_var v) (fun _ st' => find_scope 0 (scopes_ st') k = None) st.
Proof.
  intros Hnone. unfold visit_var.
  apply wlp_bind, wlp_get_local_var. intros i Hfind.
  assert (Hne : ~ same_key v k).
  { intros Hs. rewrite (find_scope_same_key _ _ _ _ Hs) in Hfind. congruence. }
  apply wlp_bind, wlp_read_status. intros status _.
  apply wlp_bind, wlp_scopes_back. intros below top Hstack.
  apply wlp_bind, wlp_ssa_data_of. intros c n d _ _ _.
  destruct (negb (is_global_ d)).
  - apply wlp_bind, wlp_scope_at. intros def _.
    destruct (for_depth_ def <? for_depth_ top)%Z.
    + apply wlp_bind, wlp_make_ssa_phi. intros p ps pn _ _.
      apply wlp_bind, wlp_add_def. intros pn' _.
      apply wlp_bind, wlp_checked_as_var. intros n1 _ _.
      apply wlp_bind, wlp_rename. intros n2 d2 _ _.
      apply wlp_bind, wlp_insert_local_var. intros below' top' Hstack'.
      rewrite scopes_renamed_if in Hstack'. simpl in Hstack'.
      rewrite Hstack in Hstack'. apply app_inj_tail in Hstack' as [<- <-].
      apply wlp_bind, wlp_write_status. apply wlp_ret. simpl.
      rewrite find_scope_alter_status, find_scope_snoc. simpl.
      rewrite OMapFacts.find_insert_ne by exact Hne.
      rewrite Hstack, find_scope_snoc in Hnone. exact Hnone.
    + destruct (current_value status); [apply wlp_ret; exact Hnone|apply wlp_fail].
  - destruct (current_value status) as [c'|]; [|apply wlp_fail].
    apply wlp_add_def. intros n' _. exact Hnone.
Qed.

Lemma dispatch_vec_no_leak (l : list expr) (k : leaf) :
  Forall (fun e => forall st, find_scope 0 (scopes_ st) k = None ->
            wlp (dispatch e) (fun _ st' => find_scope 0 (scopes_ st') k = None) st) l ->
  forall st, find_scope 0 (scopes_ st) k = None ->
    wlp (dispatch_vec l) (fun _ st' => find_scope 0 (scopes_ st') k = None) st.
Proof.
  induction 1 as [|e l He _ IH]; intros st Hnone; simpl.
  - apply wlp_ret. exact Hnone.
  - apply wlp_bind. eapply wlp_mono; [apply He; exact Hnone|].
    intros x st1 H1. apply wlp_bind. eapply wlp_mono; [apply IH; exact H1|].
    intros xs st2 H2. apply wlp_ret. exact H2.
Qed.

Lemma dispatch_no_leak_of (e : expr) (k : leaf) :
  (forall st, find_scope 0 (scopes_ st) k = None ->
     wlp (visit_expr e) (fun _ st' => find_scope 0 (scopes_ st') k = None) st) ->
  forall st, find_scope 0 (scopes_ st) k = None ->
    wlp (dispatch e) (fun _ st' => find_scope 0 (scopes_ st') k = None) st.
Proof.
  intros H st Hnone a st' E. rewrite dispatch_unfold in E. revert a st' E.
  change (wlp (bind (visit_expr e) (flatten_result (need_flatten_ st)))
              (fun _ st' => find_scope 0 (scopes_ st') k = None)
              (set_need_flatten true st)).
  apply wlp_bind. eapply wlp_mono; [apply H; exact Hnone|].
  intros r st1 H1. unfold flatten_result. apply wlp_bind, wlp_get.
  destruct (need_flatten_ st && negb (isa (heap st1) is_var_body (Some r))
            && negb (isa (heap st1) is_tensor_body (Some r)));
    [apply wlp_add_def; intros n _; exact H1|apply wlp_ret; exact H1].
Qed.

Lemma dispatch_no_leak (e : expr) (k : leaf) :
  forall st, find_scope 0 (scopes_ st) k = None ->
    wlp (dispatch e) (fun _ st' => find_scope 0 (scopes_ st') k = None) st.
Proof.
  induction e as [l|v d|ptr idx IHptr IHidx|o d args IHargs] using expr_ind2;
    apply dispatch_no_leak_of; intros st Hnone; simpl.
  - destruct (node_type_ l).
    + apply visit_var_no_leak; exact Hnone.
    + unfold visit_tensor.
      apply wlp_bind, wlp_get_local_var. intros i _.
      apply wlp_bind, wlp_read_status. intros s _.
      destruct (current_value s); [|apply wlp_fail].
      apply wlp_ret. exact Hnone.
  - apply wlp_alloc. exact Hnone.
  - apply wlp_bind. eapply wlp_mono; [apply IHptr; exact Hnone|].
    intros p st1 H1.
    apply wlp_bind. eapply wlp_mono; [apply (dispatch_vec_no_leak idx k IHidx); exact H1|].
    intros ids st2 H2.
    apply wlp_bind, wlp_deref. intros n _. apply wlp_alloc. exact H2.
  - apply wlp_bind.
    eapply wlp_mono; [apply (dispatch_vec_no_leak args k IHargs); exact Hnone|].
    intros xs st1 H1. apply wlp_alloc. exact H1.
Qed.

Lemma patch_phi_scopes (phi : id) (value : option id) (st : impl) :
  wlp (patch_phi phi value) (fun _ st' => scopes_ st' = scopes_ st) st.
Proof.
  unfold patch_phi. apply wlp_bind, wlp_ssa_data_of. intros p n d _ _ _.
  destruct (value_of_var d) as [def|]; [|apply wlp_fail].
  destruct value as [v|]; [|apply wlp_fail].
  apply wlp_bind, wlp_deref. intros n' _.
  destruct (n_body n'); try apply wlp_fail.
  apply wlp_update_node. reflexivity.
Qed.

Lemma for_loop_merge_entry_no_leak (kv : leaf * ssa_var_status_t) (k : leaf)
    (st : impl) :
  find_scope 0 (scopes_ st) k = None ->
  wlp (for_loop_merge_entry kv)
      (fun _ st' => find_scope 0 (scopes_ st') k = None) st.
Proof.
  intros Hnone. unfold for_loop_merge_entry.
  apply wlp_bind, wlp_get_local_var_nothrow.
  destruct (find_scope 0 (scopes_ st) (fst kv)) as [i|] eqn:Hfind; simpl;
    [|apply wlp_ret; exact Hnone].
  assert (Hne : ~ same_key (fst kv) k).
  { intros Hs. rewrite (find_scope_same_key _ _ _ _ Hs) in Hfind. congruence. }
  apply wlp_bind.
  eapply wlp_mono.
  { apply (wlp_for_each _ (fun s => scopes_ s = scopes_ st)); [|reflexivity].
    intros phi s _ Hs.
    destruct (ptr_same phi (current_value (snd kv))); [apply wlp_ret; exact Hs|].
    eapply wlp_mono; [apply patch_phi_scopes|]. intros u0 s' Hs'. simpl in Hs'. congruence. }
  intros u st1 Hs1. simpl in Hs1.
  apply wlp_bind, wlp_read_status. intros parent _.
  apply wlp_bind, wlp_make_ssa_phi. intros p0 ps n _ _.
  apply wlp_bind, wlp_add_def_after_current_stmt. intros n0 _.
  assert (Htail : forall (p : status_ptr) (st2 : impl) (cur_v : id),
    snd p = fst kv ->
    find_scope 0 (scopes_ st2) k = None ->
    wlp (write_status p (set_current_value (Some cur_v)) ;;;
         checked_as_var cur_v ;;;
         k0 <- checked_as_var_key (fst kv) ;;
         rename_temp_var_with_version cur_v k0)
        (fun _ st' => find_scope 0 (scopes_ st') k = None) st2).
  { intros p st2 cur_v Hp Hnone2.
    apply wlp_bind, wlp_write_status.
    apply wlp_bind, wlp_checked_as_var. intros n1 _ _.
    apply wlp_bind, wlp_checked_as_var_key. intros _.
    apply wlp_rename. intros n2 d _ _.
    rewrite scopes_renamed_if. simpl.
    rewrite find_scope_alter_status. exact Hnone2. }
  apply wlp_bind, wlp_get_local_var_for_update.
  - intros j _. apply Htail; [reflexivity|]. simpl. rewrite Hs1. exact Hnone.
  - intros below top Hstack Hfresh Hg. apply Htail; [reflexivity|]. simpl.
    rewrite find_scope_snoc. simpl.
    rewrite OMapFacts.find_insert_ne by exact Hne.
    simpl in Hstack. rewrite Hs1 in Hstack.
    rewrite Hstack, find_scope_snoc in Hnone. exact Hnone.
Qed.

(** After a piece that respects the stack has run on one more scope, and
    that scope is popped, what was hidden is hidden. *)
Lemma hidden_after_pop (st3 st8 : impl) (new top : ssa_scope_t)
    (below : list ssa_scope_t) (k : leaf) :
  post (set_scopes (scopes_ st3 ++ [new]) st3) st8 ->
  scopes_ st8 = below ++ [top] ->
  find_scope 0 (scopes_ st3) k = None ->
  find_scope 0 below k = None.
Proof.
  intros (S & _ & _ & B & _) Hstack Hnone. simpl in S, B.
  rewrite hidden_all in *. intros j.
  assert (Hlen : length below = length (scopes_ st3)).
  { apply map_shape_length in S. rewrite Hstack, !length_app in S. simpl in S. lia. }
  destruct (decide (j < length below)) as [Hlt|Hge];
    [|apply status_at_above; lia].
  specialize (B j k). rewrite Hstack in B. specialize (Hnone j).
  unfold status_at in *. rewrite length_app in B. simpl in B.
  rewrite !lookup_app_l in B by lia. apply B; [lia|exact Hnone].
Qed.

(** X14.  Scoping.  A statement never gives a key to a scope below the top
    of the stack it is dispatched on.  A for-loop and an [if] without else
    leak nothing: a key that no scope binds before the statement is bound by
    no scope after it, whatever its body defines or assigns (the loop
    variable, the variables defined in the body, the variables first
    assigned in the body are gone with the popped scope); nor does the
    dispatch of an expression bind a key that was not bound. *)
Theorem loop_bindings_do_not_escape :
  (forall s st r st',
     dispatch_stmt s st = OK (r, st') ->
     keeps_keys_below (scopes_ st) (scopes_ st'))
  /\ (forall a v b e s body inc kd st r st' k,
        dispatch_stmt (s_for_loop a v b e s body inc kd) st = OK (r, st') ->
        find_scope 0 (scopes_ st) k = None ->
        find_scope 0 (scopes_ st') k = None)
  /\ (forall a c t st r st' k,
        dispatch_stmt (s_if_else a c t None) st = OK (r, st') ->
        find_scope 0 (scopes_ st) k = None ->
        find_scope 0 (scopes_ st') k = None)
  /\ (forall e st r st' k,
        dispatch e st = OK (r, st') ->
        find_scope 0 (scopes_ st) k = None ->
        find_scope 0 (scopes_ st') k = None).
Proof.
  split; [|split; [|split]].
  - intros s st r st' E.
    exact (proj1 (proj2 (proj2 (proj2 (respects_dispatch_stmt s st r st' E))))).
  - intros a v b e s body inc kd st r st' k E Hnone. revert r st' E.
    change (wlp (dispatch_stmt (s_for_loop a v b e s body inc kd))
                (fun _ st' => find_scope 0 (scopes_ st') k = None) st).
    simpl.
    apply wlp_bind. eapply wlp_mono; [apply dispatch_no_leak; exact Hnone|].
    intros begin_ st1 H1.
    apply wlp_bind. eapply wlp_mono; [apply dispatch_no_leak; exact H1|].
    intros end_ st2 H2.
    apply wlp_bind. eapply wlp_mono; [apply dispatch_no_leak; exact H2|].
    intros step st3 H3.
    apply wlp_bind, wlp_push_scope_exact.
    match goal with |- wlp _ _ ?s => pose proof (post_refl s) as H end.
    acc_post H; [auto with respects|clear H; intros thevar st4 H].
    acc_post H; [auto with respects|clear H; intros p st5 H].
    acc_post H; [auto with respects|clear H; intros u st6 H].
    acc_post H; [apply respects_dispatch_stmt|clear H; intros body' st7 H].
    apply wlp_bind, wlp_pop_scope. intros below top Hstack.
    pose proof (hidden_after_pop _ _ _ _ _ k H Hstack H3) as H8.
    apply wlp_bind.
    eapply wlp_mono.
    { apply (wlp_for_each _ (fun s => find_scope 0 (scopes_ s) k = None));
        [|exact H8].
      intros kv s0 _ Hs0. apply for_loop_merge_entry_no_leak. exact Hs0. }
    intros u' st9 H9. apply wlp_ret. exact H9.
  - intros a c t st r st' k E Hnone. revert r st' E.
    change (wlp (dispatch_stmt (s_if_else a c t None))
                (fun _ st' => find_scope 0 (scopes_ st') k = None) st).
    simpl.
    apply wlp_bind. eapply wlp_mono; [apply dispatch_no_leak; exact Hnone|].
    intros cond st1 H1.
    apply wlp_bind, wlp_push_scope_exact.
    match goal with |- wlp _ _ ?s => pose proof (post_refl s) as H end.
    acc_post H; [apply respects_dispatch_stmt|clear H; intros then_block st2 H].
    apply wlp_bind, wlp_pop_scope. intros below top Hstack.
    pose proof (hidden_after_pop _ _ _ _ _ k H Hstack H1) as H3.
    apply wlp_bind.
    eapply wlp_mono.
    { apply (wlp_for_each _ (fun s => find_scope 0 (scopes_ s) k = None));
        [|exact H3].
      intros kv s0 _ Hs0. apply if_then_merge_entry_no_leak. exact Hs0. }
    intros u' st4 H4. apply wlp_ret. exact H4.
  - intros e st r st' k E Hnone. exact (dispatch_no_leak e k st Hnone r st' E).
Qed.

(** [func f(n) { for i in 0..n { define t = i; s = t } }]: after the pass
    nothing but [n] was ever visible outside the loop. *)
Lemma loop_bindings_do_not_escape_witness :
  let v := fun name => Leaf sc_var name "s32" None in
  let loop := s_for_loop None (v "i") (e_constant 0 "s32") (e_leaf (v "n"))
                (e_constant 1 "s32")
                (s_stmts None
                   [s_define None (v "t") linkage_local (Some (e_leaf (v "i")));
                    s_assign None (e_leaf (v "s")) (e_leaf (v "t"))])
                true 0 in
  exists r st',
    dispatch_stmt loop (at_function_body [v "n"]) = OK (r, st')
    /\ find_scope 0 (scopes_ st') (v "i") = None
    /\ find_scope 0 (scopes_ st') (v "t") = None
    /\ find_scope 0 (scopes_ st') (v "s") = None.
Proof.
  intros v loop.
  destruct (dispatch_stmt loop (at_function_body [v "n"])) as [[r st']|] eqn:E;
    [|vm_compute in E; discriminate E].
  exists r, st'. split; [reflexivity|].
  destruct loop_bindings_do_not_escape as (_ & Hloop & _).
  split; [|split]; (eapply Hloop; [exact E|reflexivity]).
Defined.

(** ** Operands of statements *)

Lemma var_or_tensor_le (h h' : list node) (r : id) :
  heap_le h h' -> var_or_tensor h r = true -> var_or_tensor h' r = true.
Proof.
  intros Hle. unfold var_or_tensor, isa.
  destruct (h !! r) as [n|] eqn:Hn; [|discriminate].
  destruct (Hle r n Hn) as (n' & Hn' & _ & _ & Hb & _). rewrite Hn'.
  destruct (n_body n); simpl in *; try discriminate.
  - destruct (n_body n'); try contradiction; try discriminate. reflexivity.
  - rewrite Hb. intros _. apply orb_true_r.
Qed.

Lemma dispatch_flattened (e : expr) (st : impl) :
  need_flatten_ st = true ->
  wlp (dispatch e) (fun r st' => var_or_tensor (heap st') r = true) st.
Proof.
  intros Hnf a st' E. rewrite dispatch_unfold, Hnf in E. unfold bind in E.
  destruct (visit_expr e (set_need_flatten true st)) as [[r st1]|]; [|discriminate].
  unfold flatten_result, bind, get in E. cbv beta iota in E.
  destruct (isa (heap st1) is_var_body (Some r)) eqn:Hv.
  - inversion E; subst. unfold var_or_tensor. rewrite Hv. reflexivity.
  - destruct (isa (heap st1) is_tensor_body (Some r)) eqn:Ht.
    + inversion E; subst. unfold var_or_tensor. rewrite Ht. apply orb_true_r.
    + simpl in E. revert a st' E.
      change (wlp (add_def r) (fun a st' => var_or_tensor (heap st') a = true) st1).
      apply wlp_add_def. intros n _. unfold var_or_tensor, isa. simpl.
      rewrite lookup_snoc_fresh. reflexivity.
Qed.

(** X15.  No statement is dispatched with [need_flatten_] cleared: the flag
    is set when the pass starts, every dispatch of an expression leaves it
    set, and so does every dispatch of a statement that finds it set (the
    two places that clear it do so for the one dispatch that follows).
    Hence the expressions a statement holds directly are flattened: in the
    output the bounds and the step of a for-loop and the condition of an
    [if] are vars or tensors, never constants or operations. *)
Theorem statement_operands_are_flattened :
  need_flatten_ init_impl = true
  /\ (forall e st r st',
        dispatch e st = OK (r, st') ->
        need_flatten_ st' = true
        /\ (need_flatten_ st = true -> var_or_tensor (heap st') r = true))
  /\ (forall s st r st',
        need_flatten_ st = true -> dispatch_stmt s st = OK (r, st') ->
        need_flatten_ st' = true)
  /\ (forall a v b e s body inc kd st r st',
        need_flatten_ st = true ->
        dispatch_stmt (s_for_loop a v b e s body inc kd) st = OK (r, st') ->
        exists thevar b' e' s' body',
          r = Some (o_for_loop a thevar b' e' s' body' inc kd)
          /\ var_or_tensor (heap st') b' = true
          /\ var_or_tensor (heap st') e' = true
          /\ var_or_tensor (heap st') s' = true)
  /\ (forall a c t e st r st',
        need_flatten_ st = true ->
        dispatch_stmt (s_if_else a c t e) st = OK (r, st') ->
        exists cond then_block else_block,
          r = Some (o_if_else a cond then_block else_block)
          /\ var_or_tensor (heap st') cond = true).
Proof.
  split; [reflexivity|].
  split.
  { intros e st r st' E. split; [exact (dispatch_sets_flag e st r st' E)|].
    intros Hnf. exact (dispatch_flattened e st Hnf r st' E). }
  split.
  { intros s st r st' Hnf E.
    exact (proj2 (proj2 (proj2 (proj2 (respects_dispatch_stmt s st r st' E)))) Hnf). }
  split.
  - intros a v b e s body inc kd st. intros r0 st0 Hnf. revert r0 st0.
    change (wlp (dispatch_stmt (s_for_loop a v b e s body inc kd))
                (fun r st' => exists thevar b' e' s' body',
                     r = Some (o_for_loop a thevar b' e' s' body' inc kd)
                     /\ var_or_tensor (heap st') b' = true
                     /\ var_or_tensor (heap st') e' = true
                     /\ var_or_tensor (heap st') s' = true) st).
    simpl.
    apply wlp_bind. intros b' st1 E1.
    pose proof (dispatch_flattened b st Hnf b' st1 E1) as Hb. simpl in Hb.
    pose proof (dispatch_sets_flag b st b' st1 E1) as F1. simpl in F1.
    apply wlp_bind. intros e' st2 E2.
    pose proof (dispatch_flattened e st1 F1 e' st2 E2) as He. simpl in He.
    pose proof (dispatch_sets_flag e st1 e' st2 E2) as F2. simpl in F2.
    pose proof (proj1 (proj2 (proj2 (respects_dispatch e st1 e' st2 E2)))) as L2.
    apply wlp_bind. intros s' st3 E3.
    pose proof (dispatch_flattened s st2 F2 s' st3 E3) as Hs. simpl in Hs.
    pose proof (proj1 (proj2 (proj2 (respects_dispatch s st2 s' st3 E3)))) as L3.
    assert (Hb3 : var_or_tensor (heap st3) b' = true)
      by (eapply var_or_tensor_le; [exact L3|];
          eapply var_or_tensor_le; [exact L2|exact Hb]).
    assert (He3 : var_or_tensor (heap st3) e' = true)
      by (eapply var_or_tensor_le; [exact L3|exact He]).
    apply wlp_bind, wlp_push_scope_exact.
    pose proof (post_then_push _ _ k_for_loop (post_refl st3)) as H.
    acc_post H; [auto with respects|clear H; intros thevar st4 H].
    acc_post H; [auto with respects|clear H; intros p st5 H].
    acc_post H; [auto with respects|clear H; intros u st6 H].
    acc_post H; [apply respects_dispatch_stmt|clear H; intros body' st7 H].
    apply wlp_bind, wlp_pop_scope. intros below top Hstack.
    apply (post_push_pop _ _ _ _ H) in Hstack. clear H.
    acc_post Hstack;
      [apply respects_for_each, respects_for_loop_merge_entry
      |clear Hstack; intros u' st8 H].
    apply wlp_ret. destruct H as (_ & _ & L & _).
    exists thevar, b', e', s', body'. split; [reflexivity|].
    repeat split; eapply var_or_tensor_le; eauto.
  - intros a c t e st. intros r0 st0 Hnf. revert r0 st0.
    change (wlp (dispatch_stmt (s_if_else a c t e))
                (fun r st' => exists cond then_block else_block,
                     r = Some (o_if_else a cond then_block else_block)
                     /\ var_or_tensor (heap st') cond = true) st).
    simpl.
    apply wlp_bind. intros cond st1 E1.
    pose proof (dispatch_flattened c st Hnf cond st1 E1) as Hc. simpl in Hc.
    apply wlp_bind, wlp_push_scope_exact.
    pose proof (post_then_push _ _ k_if_then (post_refl st1)) as H.
    acc_post H; [apply respects_dispatch_stmt|clear H; intros then_block st2 H].
    apply wlp_bind, wlp_pop_scope. intros below top Hstack.
    apply (post_push_pop _ _ _ _ H) in Hstack. clear H. rename Hstack into H.
    destruct e as [else_case|].
    + apply wlp_bind, wlp_push_scope_exact.
      apply (post_then_push _ _ k_if_else) in H.
      acc_post H; [apply respects_dispatch_stmt|clear H; intros else_block st3 H].
      apply wlp_bind, wlp_pop_scope. intros below' top' Hstack.
      apply (post_push_pop _ _ _ _ H) in Hstack. clear H.
      acc_post Hstack; [apply respects_if_else_merge|clear Hstack; intros u st4 H].
      apply wlp_ret. destruct H as (_ & _ & L & _).
      eexists _, _, _. split; [reflexivity|]. eapply var_or_tensor_le; eauto.
    + acc_post H;
        [apply respects_for_each, respects_if_then_merge_entry
        |clear H; intros u st3 H].
      apply wlp_ret. destruct H as (_ & _ & L & _).
      eexists _, _, _. split; [reflexivity|]. eapply var_or_tensor_le; eauto.
Qed.

(** ** A variable assigned in both arms *)

(** X16.  In the merge of an [if] with both arms, a var that both arms
    hold, with final value [tv] in the then-scope and [ev] in the
    else-scope, gets one new phi whose operands are [tv] and [ev], in this
    order, and nothing else: the value the var had before the [if] is not an
    operand.  The definition of the new temporary is queued to follow the
    [if], and the temporary is the current value of the var from then
    on.  The merge returns whenever every entry of the two scopes is a var
    with a current value in the store (and is bound outside if it is a
    global). *)
Theorem if_else_merge_both_arms
    (then_vars else_vars : omap ssa_var_status_t) (st : impl)
    (k : leaf) (s1 s2 : ssa_var_status_t) (tv ev : id) :
  scopes_ st <> [] ->
  OMap.sorted then_vars ->
  OMap.sorted else_vars ->
  Forall (arm_ok st) then_vars ->
  Forall (arm_ok st) else_vars ->
  OMap.find k then_vars = Some s1 ->
  OMap.find k else_vars = Some s2 ->
  current_value s1 = Some tv ->
  current_value s2 = Some ev ->
  exists st' node j s',
    if_else_merge then_vars else_vars st = OK (tt, st')
    /\ phi_values (heap st') node = Some [tv; ev]
    /\ length (heap st) <= node
    /\ In (o_define None (S node) linkage_local (Some node))
          (stmts_to_insert_after st')
    /\ find_scope 0 (scopes_ st') k = Some j
    /\ status_at (scopes_ st') j k = Some s'
    /\ current_value s' = Some (S node)
    /\ current_scope_ st' = current_scope_ st.
Proof.
  intros Hne Hst Hse Hthen Helse H1 H2 Htv Hev.
  destruct (if_else_merge_spec then_vars else_vars st Hne Hthen Helse)
    as (st' & Hrun & Hcs & Hent).
  assert (Hfind : OMap.find k (collect_values else_vars (collect_values then_vars []))
                  = Some [Some tv; Some ev]).
  { rewrite (collect_values_find else_vars Hse), (collect_values_find then_vars Hst).
    rewrite H1, H2. simpl. rewrite Htv, Hev. reflexivity. }
  destruct (OMapFacts.find_in _ _ _ Hfind) as (k0 & Hsame & Hin).
  destruct (Hent k0 _ Hin) as (node & ops & j & s' & E1 & E2 & E3 & E4 & E5 & E6 & E7 & _).
  simpl in E1. inversion E1; subst ops.
  exists st', node, j, s'. repeat (split; [assumption|]).
  split; [rewrite (find_scope_same_key _ _ k k0 Hsame); exact E5|].
  split; [rewrite (status_at_same_key _ _ k k0 Hsame); exact E6|].
  split; [exact E7|exact Hcs].
Qed.

Lemma if_else_merge_both_arms_witness :
  let x := Leaf sc_var "x" "s32" None in
  let local := Some (SsaData false false None) in
  let st :=
    Impl [Node (var_node "x") "s32" None local;
          temp_var_node "x_0" "s32" 0;
          temp_var_node "x_1" "s32" 0]
         [Scope [(x, Status (Some 0) 0 [])] k_normal 0]
         true 2 2 [] [] in
  exists st' node j s',
    if_else_merge [(x, Status (Some 1) 1 [])] [(x, Status (Some 2) 1 [])] st
    = OK (tt, st')
    /\ phi_values (heap st') node = Some [1; 2]
    /\ length (heap st) <= node
    /\ In (o_define None (S node) linkage_local (Some node))
          (stmts_to_insert_after st')
    /\ find_scope 0 (scopes_ st') x = Some j
    /\ status_at (scopes_ st') j x = Some s'
    /\ current_value s' = Some (S node)
    /\ current_scope_ st' = current_scope_ st.
Proof.
  intros x local st.
  apply (if_else_merge_both_arms [(x, Status (Some 1) 1 [])]
           [(x, Status (Some 2) 1 [])] st x
           (Status (Some 1) 1 []) (Status (Some 2) 1 []) 1 2).
  - discriminate.
  - constructor; constructor.
  - constructor; constructor.
  - constructor; [|constructor].
    split; [reflexivity|]. split; [discriminate|].
    exists 1, (temp_var_node "x_0" "s32" 0). split; reflexivity.
  - constructor; [|constructor].
    split; [reflexivity|]. split; [discriminate|].
    exists 2, (temp_var_node "x_1" "s32" 0). split; reflexivity.
  - reflexivity.
  - reflexivity.
  - reflexivity.
  - reflexivity.
Defined.

(** ** Definition with an initialiser *)

Lemma find_scope_top (scopes : list ssa_scope_t) (k : leaf) :
  status_at scopes (length scopes - 1) k <> None ->
  find_scope 0 scopes k = Some (length scopes - 1).
Proof.
  destruct scopes as [|top below] using rev_ind.
  - intros H. destruct H. reflexivity.
  - rewrite snoc_top_index, status_at_top, find_scope_snoc.
    destruct (OMap.find k (vars_ top)); [reflexivity|congruence].
Qed.

(** What [visit(define)] does before it looks at the initialiser, when the
    definition is not the one of a local var without initialiser. *)
Lemma run_define_prefix (v : leaf) (st : impl) (below : list ssa_scope_t)
    (top : ssa_scope_t) {B} (k : id -> M B) :
  scopes_ st = below ++ [top] ->
  (info <- insert_local_var v None ;;
   newvar <- remake v ;;
   init_ssa_data newvar ;;;
   write_status info (set_current_value (Some newvar)) ;;;
   (match classify_define v with
    | GLOBAL_VAR => set_is_global newvar
    | _ => ret tt
    end) ;;;
   k newvar) st
  = k (length (heap st))
      (set_scopes
         (below ++ [with_vars
                      (fun m => OMap.alter
                                  (set_current_value (Some (length (heap st)))) v
                                  (OMap.insert v (Status None (length below) []) m))
                      top])
         (set_heap
            (heap st
             ++ [remade v (Some (SsaData (match classify_define v with
                                          | GLOBAL_VAR => true
                                          | _ => false
                                          end) false None))]) st)).
Proof.
  intros Hstack. unfold bind at 1.
  rewrite (run_insert_local_var st below top Hstack).
  unfold bind at 1. unfold remake, alloc. simpl heap.
  unfold bind at 1.
  erewrite run_init_ssa_data by (try apply lookup_snoc_fresh; reflexivity).
  simpl heap. rewrite insert_snoc_fresh.
  unfold bind at 1.
  erewrite run_write_status_top by reflexivity.
  unfold bind at 1.
  assert (Hflag : forall s : impl,
    heap s = heap st ++ [with_ssa_data (SsaData false false None)
                           (Node (match node_type_ v with
                                  | sc_var => var_node (name_ v)
                                  | sc_tensor => tensor_node (name_ v)
                                  end) (dtype_ v) (attr_ v) None)] ->
    (match classify_define v with
     | GLOBAL_VAR => set_is_global (length (heap st))
     | _ => ret tt
     end) s
    = OK (tt, set_heap
                (heap st
                 ++ [remade v (Some (SsaData (match classify_define v with
                                              | GLOBAL_VAR => true
                                              | _ => false
                                              end) false None))]) s)).
  { intros s Hs.
    destruct (classify_define v).
    - unfold ret. f_equal. f_equal. destruct s. simpl in Hs. subst. reflexivity.
    - erewrite run_set_is_global
        by (try (rewrite Hs; apply lookup_snoc_fresh); reflexivity).
      rewrite Hs, insert_snoc_fresh. reflexivity.
    - unfold ret. f_equal. f_equal. destruct s. simpl in Hs. subst. reflexivity. }
  rewrite Hflag by reflexivity.
  f_equal.
Qed.

Lemma usable_after_define (v : leaf) (st st1 : impl) (below : list ssa_scope_t)
    (top : ssa_scope_t) (n : node) :
  scopes_ st = below ++ [top] ->
  scopes_ st1
  = below ++ [with_vars
                (fun m => OMap.alter (set_current_value (Some (length (heap st)))) v
                            (OMap.insert v (Status None (length below) []) m))
                top] ->
  heap st1 = heap st ++ [n] ->
  ssa_data_ n <> None ->
  forall l, usable st l \/ same_key v l -> usable st1 l.
Proof.
  intros Hstack Hs1 Hh1 Hd l Hl. unfold usable. rewrite Hs1, Hh1.
  destruct (same_key_dec v l) as [Hsame|Hne].
  - exists (length below).
    rewrite find_scope_snoc, status_at_top. simpl.
    rewrite <- (OMapFacts.find_same_key v l _ Hsame).
    rewrite OMapFacts.find_alter_eq, OMapFacts.find_insert_eq. simpl.
    eexists _, (length (heap st)), n.
    split; [reflexivity|]. split; [reflexivity|]. split; [reflexivity|].
    split; [apply lookup_snoc_fresh|auto].
  - destruct Hl as [(j & s & c & n1 & Hf & Hst & Hc & Hn & Hdata)|Hsame];
      [|contradiction].
    exists j, s, c, n1.
    assert (Hg : grows v (scopes_ st)
                   (below ++ [with_vars
                       (fun m => OMap.alter (set_current_value (Some (length (heap st)))) v
                                   (OMap.insert v (Status None (length below) []) m))
                       top])).
    { rewrite Hstack.
      eapply grows_trans; [apply (grows_insert_top v (Status None (length below) []))|].
      pose proof (grows_alter_status (set_current_value (Some (length (heap st)))) v
                    (length below)
                    (below ++ [with_vars (OMap.insert v (Status None (length below) []))
                                         top])) as Ha.
      rewrite alter_snoc_top in Ha. exact Ha. }
    rewrite (grows_find_scope _ _ _ _ Hg Hne).
    destruct Hg as (_ & Hother & _). rewrite (Hother l j Hne).
    repeat split; auto. apply lookup_app_l_Some. exact Hn.
Qed.

(** X17.  A definition with an initialiser, [define v = e], of a var or of
    a tensor.  On a well-formed stack that is not empty, when every key
    [e] reads is bound to a value of the store or is [v] itself, the
    statement is dispatched without failure and returns the definition of a
    new node by the dispatched initialiser.  The new node has the kind, the
    name, the dtype and the attributes of [v] (it is not renamed) and
    carries SSA metadata, flagged global exactly when [v] is a global; it is
    the current value of [v] in the top scope, and it was so already while
    [e] was dispatched, so that a use of [v] inside [e] reads the new node.
    Nothing is queued to follow the statement. *)
Theorem define_with_init
    (attr : option any_map_t) (v : leaf) (e : expr) (st : impl)
    (below : list ssa_scope_t) (top : ssa_scope_t) :
  stack_ok (scopes_ st) ->
  scopes_ st = below ++ [top] ->
  Forall (fun l => usable st l \/ same_key v l) (leaves e) ->
  let newvar := length (heap st) in
  exists init st' s,
    dispatch_stmt (s_define attr v linkage_local (Some e)) st
    = OK (Some (o_define attr newvar linkage_local (Some init)), st')
    /\ heap st' !! newvar
       = Some (remade v (Some (SsaData (is_old_var_global v) false None)))
    /\ (exists n, heap st' !! init = Some n)
    /\ find_scope 0 (scopes_ st') v = Some (length below)
    /\ status_at (scopes_ st') (length below) v = Some s
    /\ current_value s = Some newvar
    /\ stmts_to_insert_after st' = stmts_to_insert_after st
    /\ need_flatten_ st' = true.
Proof.
  intros Hok Hstack Hleaves newvar.
  set (g := match classify_define v with GLOBAL_VAR => true | _ => false end).
  assert (Hg : g = is_old_var_global v).
  { unfold g, classify_define, is_old_var_global.
    destruct (node_type_ v); [|reflexivity].
    destruct (attr_ v) as [m|]; [|reflexivity].
    destruct (has_key m module_global_offset); reflexivity. }
  set (top1 := with_vars
                 (fun m => OMap.alter (set_current_value (Some newvar)) v
                             (OMap.insert v (Status None (length below) []) m)) top).
  set (st1 := set_scopes (below ++ [top1])
                (set_heap (heap st ++ [remade v (Some (SsaData g false None))]) st)).
  pose (K := fun nv : id =>
               init <- (modify (set_need_flatten false) ;;;
                        r <- dispatch e ;; ret (Some r)) ;;
               ret (Some (o_define attr nv linkage_local init))).
  assert (Hrun : visit_define attr v linkage_local (Some e) st = K newvar st1).
  { transitivity
      ((info <- insert_local_var v None ;;
        nv <- remake v ;;
        init_ssa_data nv ;;;
        write_status info (set_current_value (Some nv)) ;;;
        (match classify_define v with
         | GLOBAL_VAR => set_is_global nv
         | _ => ret tt
         end) ;;;
        K nv) st).
    - unfold visit_define, K. destruct (classify_define v); reflexivity.
    - rewrite (run_define_prefix v st below top K Hstack). reflexivity. }
  assert (Hok1 : stack_ok (scopes_ st1)).
  { simpl. rewrite Hstack in Hok.
    pose proof (stack_ok_alter (set_current_value (Some newvar)) v (length below) _
                  (fun s => eq_refl)
                  (stack_ok_insert_top below top v None Hok)) as H.
    rewrite alter_snoc_top in H. exact H. }
  assert (Hu1 : Forall (usable (set_need_flatten false st1)) (leaves e)).
  { eapply Forall_impl; [exact Hleaves|]. intros l Hl.
    eapply (usable_after_define v st (set_need_flatten false st1) below top);
      [exact Hstack|reflexivity|reflexivity|discriminate|exact Hl]. }
  destruct (dispatch_returns e (set_need_flatten false st1) Hok1 Hu1)
    as (init & st' & E & Hok' & Hinit & _).
  pose proof (adds_dispatch e (set_need_flatten false st1) Hok1 init st' E)
    as ((news & Hh) & Hshape & Hkeep & _ & _ & Hafter).
  pose proof (dispatch_sets_flag e _ init st' E) as Hflag. simpl in Hflag.
  assert (Hst : status_at (scopes_ st') (length below) v
                = Some (set_current_value (Some newvar)
                          (match OMap.find v (vars_ top) with
                           | Some s => s
                           | None => Status None (length below) []
                           end))).
  { apply Hkeep. simpl. rewrite status_at_top. simpl.
    rewrite OMapFacts.find_alter_eq, OMapFacts.find_insert_eq. reflexivity. }
  exists init, st'. eexists.
  split.
  { change (dispatch_stmt (s_define attr v linkage_local (Some e)) st)
      with (visit_define attr v linkage_local (Some e) st).
    rewrite Hrun. unfold K.
    unfold bind at 1. unfold bind at 1. unfold modify at 1.
    unfold bind at 1. rewrite E. reflexivity. }
  split.
  { rewrite Hh. simpl. rewrite <- Hg.
    apply lookup_app_l_Some, lookup_snoc_fresh. }
  split; [exact Hinit|].
  split.
  { apply map_shape_length in Hshape. simpl in Hshape.
    rewrite length_app in Hshape. simpl in Hshape.
    replace (length below) with (length (scopes_ st') - 1) by lia.
    apply find_scope_top.
    replace (length (scopes_ st') - 1) with (length below) by lia.
    rewrite Hst. discriminate. }
  split; [exact Hst|]. split; [reflexivity|].
  split; [exact Hafter|exact Hflag].
Qed.

(** [define x = x + 1] in a scope where [x] is already bound: the [x] of
    the initialiser is the new [x]. *)
Lemma define_with_init_witness :
  let x := Leaf sc_var "x" "s32" None in
  let st := Impl [Node (var_node "x") "s32" None (Some (SsaData false false None))]
                 [Scope [(x, Status (Some 0) 0 [])] k_normal 0] true 0 0 [] [] in
  exists init st',
    dispatch_stmt (s_define None x linkage_local
                     (Some (e_compute "add" "s32" [e_leaf x; e_constant 1 "s32"]))) st
    = OK (Some (o_define None 1 linkage_local (Some init)), st')
    /\ n_body <$> heap st' !! init = Some (compute_node "add" [1; 3]).
Proof.
  intros x st.
  assert (Hok : stack_ok (scopes_ st)).
  { apply (stack_ok_snoc []); [apply stack_ok_nil| | |reflexivity];
      repeat constructor. }
  destruct (define_with_init None x
              (e_compute "add" "s32" [e_leaf x; e_constant 1 "s32"]) st []
              (Scope [(x, Status (Some 0) 0 [])] k_normal 0) Hok eq_refl)
    as (init & st' & s & Hrun & _).
  { constructor; [right; split; reflexivity|constructor]. }
  exists init, st'. split; [exact Hrun|].
  vm_compute in Hrun. inversion Hrun; subst. reflexivity.
Defined.

(** ** Assignment to an element *)

Lemma dispatch_vec_flattened (l : list expr) (st : impl) :
  need_flatten_ st = true ->
  wlp (dispatch_vec l)
      (fun xs st' => Forall (fun x => var_or_tensor (heap st') x = true) xs
                     /\ length xs = length l
                     /\ need_flatten_ st' = true) st.
Proof.
  revert st. induction l as [|e l IH]; intros st Hnf; simpl.
  - apply wlp_ret. split; [constructor|]. split; [reflexivity|exact Hnf].
  - apply wlp_bind. intros x st1 E1.
    pose proof (dispatch_flattened e st Hnf x st1 E1) as Hx. simpl in Hx.
    pose proof (dispatch_sets_flag e st x st1 E1) as F1. simpl in F1.
    apply wlp_bind. intros xs st2 E2.
    destruct (IH st1 F1 xs st2 E2) as (Hxs & Hlen & F2).
    pose proof (proj1 (proj2 (proj2 (respects_dispatch_vec_all l st1 xs st2 E2))))
      as L2.
    apply wlp_ret. split; [|split; [simpl; congruence|exact F2]].
    constructor; [eapply var_or_tensor_le; eauto|exact Hxs].
Qed.

(** An indexing dispatched with [need_flatten_] cleared comes back as an
    indexing node over flattened operands. *)
Lemma dispatch_indexing_unflattened (ptr : expr) (idx : list expr) (st : impl) :
  need_flatten_ st = false ->
  wlp (dispatch (e_indexing ptr idx))
      (fun r st' => exists p ids,
           n_body <$> heap st' !! r = Some (indexing_node p ids)
           /\ var_or_tensor (heap st') p = true
           /\ Forall (fun x => var_or_tensor (heap st') x = true) ids
           /\ length ids = length idx) st.
Proof.
  intros Hnf a st' E. rewrite dispatch_unfold, Hnf in E. revert a st' E.
  change (wlp (bind (visit_expr (e_indexing ptr idx)) (flatten_result false))
              (fun r st' => exists p ids,
                   n_body <$> heap st' !! r = Some (indexing_node p ids)
                   /\ var_or_tensor (heap st') p = true
                   /\ Forall (fun x => var_or_tensor (heap st') x = true) ids
                   /\ length ids = length idx)
              (set_need_flatten true st)).
  apply wlp_bind. simpl.
  apply wlp_bind. intros p st1 E1.
  pose proof (dispatch_flattened ptr (set_need_flatten true st) eq_refl p st1 E1)
    as Hp. simpl in Hp.
  pose proof (dispatch_sets_flag ptr _ p st1 E1) as F1. simpl in F1.
  apply wlp_bind. intros ids st2 E2.
  destruct (dispatch_vec_flattened idx st1 F1 ids st2 E2) as (Hids & Hlen & F2).
  pose proof (proj1 (proj2 (proj2 (respects_dispatch_vec_all idx st1 ids st2 E2))))
    as L2.
  apply wlp_bind, wlp_deref. intros n _. apply wlp_alloc.
  unfold flatten_result. apply wlp_bind, wlp_get. simpl andb. apply wlp_ret.
  simpl heap. exists p, ids.
  split; [rewrite lookup_snoc_fresh; reflexivity|].
  assert (L3 : heap_le (heap st2)
                 (heap st2 ++ [Node (indexing_node p ids) (n_dtype n) None None]))
    by apply heap_le_alloc.
  split; [eapply var_or_tensor_le; [exact L3|];
          eapply var_or_tensor_le; [exact L2|exact Hp]|].
  split; [|exact Hlen].
  eapply Forall_impl; [exact Hids|]. intros x Hx.
  eapply var_or_tensor_le; [exact L3|exact Hx].
Qed.

(** X18.  An assignment to an element, [ptr[idx] = value].  On a
    well-formed stack, when every key the statement reads is bound to a value
    of the store, the statement is dispatched without failure and returns an
    assignment whose target is an indexing node, not a temporary: the pointer
    and every index of that node are vars or tensors, there are as many
    indices as in the input, and the assigned value is a var or a tensor.
    No binding that existed is changed, and nothing is queued to follow the
    statement. *)
Theorem assignment_to_element
    (attr : option any_map_t) (ptr : expr) (idx : list expr) (value : expr)
    (st : impl) :
  stack_ok (scopes_ st) ->
  Forall (usable st) (leaves (e_indexing ptr idx) ++ leaves value) ->
  exists lhs rhs p ids st',
    dispatch_stmt (s_assign attr (e_indexing ptr idx) value) st
    = OK (Some (o_assign attr lhs rhs), st')
    /\ n_body <$> heap st' !! lhs = Some (indexing_node p ids)
    /\ var_or_tensor (heap st') p = true
    /\ Forall (fun x => var_or_tensor (heap st') x = true) ids
    /\ length ids = length idx
    /\ var_or_tensor (heap st') rhs = true
    /\ (forall j k s, status_at (scopes_ st) j k = Some s ->
                      status_at (scopes_ st') j k = Some s)
    /\ stmts_to_insert_after st' = stmts_to_insert_after st.
Proof.
  intros Hok Hall. apply Forall_app in Hall as [Hlhs Hrhs].
  set (st0 := set_need_flatten false st).
  destruct (dispatch_returns (e_indexing ptr idx) st0 Hok Hlhs)
    as (lhs & st1 & E1 & Hok1 & _ & Hu1).
  destruct (dispatch_indexing_unflattened ptr idx st0 eq_refl lhs st1 E1)
    as (p & ids & Hnode & Hp & Hids & Hlen).
  pose proof (dispatch_sets_flag _ st0 lhs st1 E1) as F1. simpl in F1.
  pose proof (adds_dispatch _ st0 Hok lhs st1 E1) as A1.
  destruct (dispatch_returns value st1 Hok1) as (rhs & st2 & E2 & _ & _ & _).
  { eapply Forall_impl; [exact Hrhs|]. intros l Hl. apply Hu1. exact Hl. }
  pose proof (dispatch_flattened value st1 F1 rhs st2 E2) as Hr. simpl in Hr.
  pose proof (proj1 (proj2 (proj2 (respects_dispatch value st1 rhs st2 E2)))) as L2.
  pose proof (adds_dispatch _ st1 Hok1 rhs st2 E2) as A2.
  destruct (only_adds_trans _ _ _ A1 A2) as (_ & _ & Hkeep & _ & _ & Hafter).
  exists lhs, rhs, p, ids, st2.
  split.
  { change (dispatch_stmt (s_assign attr (e_indexing ptr idx) value) st)
      with ((modify (set_need_flatten false) ;;;
             lhs <- dispatch (e_indexing ptr idx) ;;
             rhs <- dispatch value ;;
             ret (Some (o_assign attr lhs rhs))) st).
    unfold bind at 1. unfold modify at 1. fold st0.
    unfold bind at 1. rewrite E1. unfold bind at 1. rewrite E2. reflexivity. }
  split.
  { destruct (heap st1 !! lhs) as [n|] eqn:Hn; [|discriminate].
    simpl in Hnode. inversion Hnode as [Hb].
    destruct (L2 lhs n Hn) as (n' & Hn' & _ & _ & Hbody & _).
    rewrite Hn'. simpl. rewrite Hb in Hbody. simpl in Hbody. congruence. }
  split; [eapply var_or_tensor_le; eauto|].
  split.
  { eapply Forall_impl; [exact Hids|]. intros x Hx.
    eapply var_or_tensor_le; eauto. }
  split; [exact Hlen|]. split; [exact Hr|]. split; [exact Hkeep|exact Hafter].
Qed.

(** [A[i] = b + 1] *)
Lemma assignment_to_element_witness :
  let v := fun name => Leaf sc_var name "s32" None in
  let A := Leaf sc_tensor "A" "f32" None in
  let st := at_function_body [A; v "i"; v "b"] in
  exists lhs rhs st',
    dispatch_stmt (s_assign None (e_indexing (e_leaf A) [e_leaf (v "i")])
                     (e_compute "add" "s32" [e_leaf (v "b"); e_constant 1 "s32"])) st
    = OK (Some (o_assign None lhs rhs), st')
    /\ n_body <$> heap st' !! lhs = Some (indexing_node 0 [1])
    /\ var_or_tensor (heap st') rhs = true.
Proof.
  intros v A st.
  assert (Hok : stack_ok (scopes_ st)).
  { apply (stack_ok_snoc []); [apply stack_ok_nil| | |reflexivity].
    - vm_compute. repeat (constructor; [repeat constructor|]). constructor.
    - vm_compute. repeat constructor. }
  destruct (assignment_to_element None (e_leaf A) [e_leaf (v "i")]
              (e_compute "add" "s32" [e_leaf (v "b"); e_constant 1 "s32"]) st Hok)
    as (lhs & rhs & p & ids & st' & Hrun & Hn & _ & _ & _ & Hr & _).
  { repeat constructor.
    - exists 0. eexists _, 0, _. repeat split; try reflexivity. discriminate.
    - exists 0. eexists _, 1, _. repeat split; try reflexivity. discriminate.
    - exists 0. eexists _, 2, _. repeat split; try reflexivity. discriminate. }
  exists lhs, rhs, st'. split; [exact Hrun|]. split; [|exact Hr].
  vm_compute in Hrun. inversion Hrun; subst. reflexivity.
Defined.

(** ** Loop phis recorded inside an [if] reach the enclosing scope *)

Lemma same_keyb_spec (a b : leaf) : same_keyb a b = true <-> same_key a b.
Proof.
  unfold same_keyb, same_key.
  destruct (var_cmper_t a b), (var_cmper_t b a); simpl; split;
    try discriminate; try tauto; intros [H1 H2]; discriminate.
Qed.

Lemma wlp_get_local_var_for_update_local (k : leaf)
    (Q : status_ptr -> impl -> Prop) st :
  is_old_var_global k = false ->
  (forall below top,
     scopes_ st = below ++ [top] ->
     Q (length below, k)
       (set_scopes
          (below ++ [with_vars (OMap.insert k (Status None (length below) [])) top])
          st)) ->
  wlp (get_local_var_for_update k) Q st.
Proof.
  intros Hg H a st' E.
  destruct (last (scopes_ st)) as [top|] eqn:Hlast.
  - destruct (last_snoc_inv _ _ Hlast) as (below & Hstack).
    rewrite (run_get_local_var_for_update_local st below top Hstack k Hg) in E.
    inversion E; subst. apply H. exact Hstack.
  - unfold get_local_var_for_update in E. rewrite Hg in E.
    unfold bind, scopes_back in E. rewrite Hlast in E. discriminate.
Qed.

Lemma top_phis_snoc (below : list ssa_scope_t) (top : ssa_scope_t) (k : leaf) :
  top_phis (below ++ [top]) k
  = match OMap.find k (vars_ top) with Some s => for_loop_phi s | None => [] end.
Proof. unfold top_phis. rewrite last_snoc. reflexivity. Qed.

(** An insertion of an entry without loop phi changes no list. *)
Lemma top_phis_insert (below : list ssa_scope_t) (top : ssa_scope_t) (k' k : leaf)
    (v : option id) (i : nat) :
  top_phis (below ++ [with_vars (OMap.insert k' (Status v i [])) top]) k
  = top_phis (below ++ [top]) k.
Proof.
  rewrite !top_phis_snoc. simpl.
  destruct (same_key_dec k' k) as [Hs|Hne].
  - rewrite <- !(OMapFacts.find_same_key k' k _ Hs), OMapFacts.find_insert_eq.
    destruct (OMap.find k' (vars_ top)); reflexivity.
  - rewrite OMapFacts.find_insert_ne by exact Hne. reflexivity.
Qed.

(** A write through a status pointer changes the list of [k] only when it
    goes to the entry of [k] in the top scope. *)
Lemma top_phis_alter (f : ssa_var_status_t -> ssa_var_status_t)
    (scopes : list ssa_scope_t) (j : nat) (k' k : leaf) :
  top_phis (alter (with_vars (OMap.alter f k')) j scopes) k
  = match last scopes with
    | Some top =>
        match OMap.find k (vars_ top) with
        | Some s => if decide (j = length scopes - 1)
                    then if same_keyb k' k then for_loop_phi (f s)
                         else for_loop_phi s
                    else for_loop_phi s
        | None => []
        end
    | None => []
    end.
Proof.
  destruct scopes as [|top below] using rev_ind; [reflexivity|].
  rewrite last_snoc, snoc_top_index.
  destruct (decide (j = length below)) as [->|Hne].
  - rewrite alter_snoc_top, top_phis_snoc. simpl.
    destruct (same_keyb k' k) eqn:Hb.
    + apply same_keyb_spec in Hb.
      rewrite <- !(OMapFacts.find_same_key k' k _ Hb), OMapFacts.find_alter_eq.
      destruct (OMap.find k' (vars_ top)); reflexivity.
    + rewrite OMapFacts.find_alter_ne; [reflexivity|].
      intros Hs. apply same_keyb_spec in Hs. congruence.
  - assert (E : exists below',
               alter (with_vars (OMap.alter f k')) j (below ++ [top]) = below' ++ [top]).
    { destruct (decide (j < length below)).
      - eexists. apply alter_app_l. assumption.
      - exists below. rewrite alter_app_r_alt by lia.
        destruct (j - length below) eqn:Ej; [lia|reflexivity]. }
    destruct E as (below' & ->). rewrite top_phis_snoc. reflexivity.
Qed.

Lemma top_phis_set_value (v : option id) (scopes : list ssa_scope_t) (j : nat)
    (k' k : leaf) :
  top_phis (alter (with_vars (OMap.alter (set_current_value v) k')) j scopes) k
  = top_phis scopes k.
Proof.
  rewrite top_phis_alter. unfold top_phis.
  destruct (last scopes) as [top|]; [|reflexivity].
  destruct (OMap.find k (vars_ top)); [|reflexivity].
  destruct (decide (j = length scopes - 1)); [|reflexivity].
  destruct (same_keyb k' k); reflexivity.
Qed.

(** The hand-over of one entry: the lookup for update of a var that is not
    global, followed by the write of the loop phis. *)
Lemma top_phis_hand_over (below : list ssa_scope_t) (top : ssa_scope_t)
    (k' k : leaf) (phis : list id) :
  top_phis
    (alter (with_vars (OMap.alter (add_for_loop_phi phis) k')) (length below)
       (below ++ [with_vars (OMap.insert k' (Status None (length below) [])) top]))
    k
  = top_phis (below ++ [top]) k ++ (if same_keyb k' k then phis else []).
Proof.
  rewrite top_phis_alter, last_snoc, length_app. simpl length.
  replace (length below + 1 - 1) with (length below) by lia.
  destruct (decide (length below = length below)) as [_|Hne]; [|destruct Hne; reflexivity].
  pose proof (top_phis_insert below top k' k None (length below)) as Hins.
  rewrite !top_phis_snoc in *. simpl in *.
  destruct (same_keyb k' k) eqn:Hb.
  - apply same_keyb_spec in Hb.
    rewrite <- !(OMapFacts.find_same_key k' k _ Hb) in *.
    rewrite OMapFacts.find_insert_eq in *.
    destruct (OMap.find k' (vars_ top)); reflexivity.
  - rewrite app_nil_r.
    destruct (OMap.find k (OMap.insert k' (Status None (length below) []) (vars_ top)));
      exact Hins.
Qed.

Lemma collect_arm_hands_over (vars : omap ssa_var_status_t) :
  Forall (fun kv => is_old_var_global (fst kv) = false) vars ->
  forall upd st,
    wlp (collect_arm vars upd)
        (fun _ st' => forall k, top_phis (scopes_ st') k
                                = top_phis (scopes_ st) k ++ handed k vars) st.
Proof.
  induction 1 as [|kv vars Hg _ IH]; intros upd st; simpl.
  - apply wlp_ret. intros k. rewrite app_nil_r. reflexivity.
  - apply wlp_bind, wlp_get_local_var_for_update_local; [exact Hg|].
    intros below top Hstack.
    apply wlp_bind, wlp_write_status. simpl fst. simpl snd. simpl scopes_.
    eapply wlp_mono; [apply IH|]. intros m st' H k. simpl in H.
    rewrite H, top_phis_hand_over, Hstack, <- app_assoc. reflexivity.
Qed.

Lemma merge_tail_keeps_phis (new_var : id) (key : leaf) (p : status_ptr) (st : impl) :
  wlp (write_status p (set_current_value (Some new_var)) ;;;
       checked_as_var new_var ;;;
       k0 <- checked_as_var_key key ;;
       rename_temp_var_with_version new_var k0)
      (fun _ st' => forall k, top_phis (scopes_ st') k = top_phis (scopes_ st) k) st.
Proof.
  apply wlp_bind, wlp_write_status.
  apply wlp_bind, wlp_checked_as_var. intros n1 _ _.
  apply wlp_bind, wlp_checked_as_var_key. intros _.
  apply wlp_rename. intros n2 d _ _ k.
  rewrite scopes_renamed_if. simpl. apply top_phis_set_value.
Qed.

Lemma lookup_for_update_keeps_phis (key : leaf) (st : impl)
    (Q : status_ptr -> impl -> Prop) :
  (forall p st1, (forall k, top_phis (scopes_ st1) k = top_phis (scopes_ st) k) ->
                 Q p st1) ->
  wlp (get_local_var_for_update key) Q st.
Proof.
  intros H. apply wlp_get_local_var_for_update.
  - intros j _. apply H. reflexivity.
  - intros below top Hstack _ _. apply H. intros k. simpl.
    rewrite Hstack. apply top_phis_insert.
Qed.

Lemma merge_updated_var_keeps_phis (kv : leaf * list (option id)) (st : impl) :
  wlp (merge_updated_var kv)
      (fun _ st' => forall k, top_phis (scopes_ st') k = top_phis (scopes_ st) k) st.
Proof.
  unfold merge_updated_var.
  apply wlp_bind, wlp_make_ssa_phi. intros p0 ps n _ _.
  apply wlp_bind, wlp_add_def_after_current_stmt. intros n0 _.
  apply wlp_bind, lookup_for_update_keeps_phis. intros p st1 H1.
  eapply wlp_mono; [apply merge_tail_keeps_phis|].
  intros u st2 H2 k. simpl in H2. rewrite H2, H1. reflexivity.
Qed.

Lemma for_loop_merge_entry_keeps_phis (kv : leaf * ssa_var_status_t) (st : impl) :
  wlp (for_loop_merge_entry kv)
      (fun _ st' => forall k, top_phis (scopes_ st') k = top_phis (scopes_ st) k) st.
Proof.
  unfold for_loop_merge_entry.
  apply wlp_bind, wlp_get_local_var_nothrow.
  destruct (find_scope 0 (scopes_ st) (fst kv)) as [i|]; simpl;
    [|apply wlp_ret; reflexivity].
  apply wlp_bind.
  eapply wlp_mono.
  { apply (wlp_for_each _ (fun s => scopes_ s = scopes_ st)); [|reflexivity].
    intros phi s _ Hs.
    destruct (ptr_same phi (current_value (snd kv))); [apply wlp_ret; exact Hs|].
    eapply wlp_mono; [apply patch_phi_scopes|].
    intros u0 s' Hs'. simpl in Hs'. congruence. }
  intros u st1 Hs1. simpl in Hs1.
  apply wlp_bind, wlp_read_status. intros parent _.
  apply wlp_bind, wlp_make_ssa_phi. intros p0 ps n _ _.
  apply wlp_bind, wlp_add_def_after_current_stmt. intros n0 _.
  apply wlp_bind, lookup_for_update_keeps_phis. intros p st2 H2.
  eapply wlp_mono; [apply merge_tail_keeps_phis|].
  intros u' st3 H3 k. simpl in H3, H2. rewrite H3, H2, Hs1. reflexivity.
Qed.

Lemma if_then_merge_entry_hands_over (kv : leaf * ssa_var_status_t) (st : impl) :
  is_old_var_global (fst kv) = false ->
  wlp (if_then_merge_entry kv)
      (fun _ st' => forall k,
           top_phis (scopes_ st') k
           = top_phis (scopes_ st) k
             ++ (if same_keyb (fst kv) k
                 then match find_scope 0 (scopes_ st) (fst kv) with
                      | Some _ => for_loop_phi (snd kv)
                      | None => []
                      end
                 else [])) st.
Proof.
  intros Hg. unfold if_then_merge_entry.
  apply wlp_bind, wlp_get_local_var_nothrow.
  destruct (find_scope 0 (scopes_ st) (fst kv)) as [i|]; simpl.
  2:{ apply wlp_ret. intros k. destruct (same_keyb (fst kv) k);
        rewrite app_nil_r; reflexivity. }
  apply wlp_bind, wlp_get_local_var_for_update_local; [exact Hg|].
  intros below top Hstack.
  apply wlp_bind, wlp_write_status. simpl fst. simpl snd. simpl scopes_.
  apply wlp_bind, wlp_read_status. intros parent _.
  apply wlp_bind, wlp_make_ssa_phi. intros p0 ps n _ _.
  apply wlp_bind, wlp_add_def_after_current_stmt. intros n0 _.
  eapply wlp_mono; [apply merge_tail_keeps_phis|].
  intros u st2 H2 k. simpl in H2.
  rewrite H2, top_phis_hand_over, Hstack. reflexivity.
Qed.

Lemma handed_sorted (k : leaf) (vars : omap ssa_var_status_t) :
  OMap.sorted vars ->
  handed k vars
  = match OMap.find k vars with Some s => for_loop_phi s | None => [] end.
Proof.
  induction 1 as [|k1 s1 vars Hall Hs IH]; simpl; [reflexivity|].
  unfold handed in *. simpl. rewrite IH.
  destruct (same_keyb k1 k) eqn:Hb.
  - apply same_keyb_spec in Hb. destruct Hb as [H1 H2]. rewrite H1, H2.
    assert (Hnone : OMap.find k vars = None).
    { destruct (OMap.find k vars) as [s|] eqn:F; [|reflexivity].
      destruct (OMapFacts.find_in _ _ _ F) as (k2 & Hsame & Hin).
      rewrite List.Forall_forall in Hall. specialize (Hall _ Hin). simpl in Hall.
      rewrite <- (var_cmper_same_r _ _ k1 Hsame) in Hall. congruence. }
    rewrite Hnone, app_nil_r. reflexivity.
  - simpl. destruct (var_cmper_t k k1) eqn:H1.
    + destruct (OMap.find k vars) as [s|] eqn:F; [|reflexivity].
      destruct (OMapFacts.find_in _ _ _ F) as (k2 & Hsame & Hin).
      rewrite List.Forall_forall in Hall. specialize (Hall _ Hin). simpl in Hall.
      rewrite <- (var_cmper_same_r _ _ k1 Hsame) in Hall.
      rewrite (var_cmper_asym _ _ H1) in Hall. discriminate.
    + destruct (var_cmper_t k1 k) eqn:H2; [reflexivity|].
      unfold same_keyb in Hb. rewrite H1, H2 in Hb. discriminate.
Qed.

(** X19.  The loop phis that an arm of an [if] has recorded are handed to
    the enclosing scope, so that the close of the enclosing loop patches
    them; the close of a for-loop hands nothing on.  For vars that are not
    globals:
    - after the merge of a two-armed [if], the list of loop phis of every
      key in the top scope is the list of before, followed by the phis the
      then-scope and then the else-scope recorded for that key;
    - after the merge step of an [if] without else, the list of the key of
      the entry is the list of before followed by the phis of the entry,
      when an enclosing scope binds the key, and no list changes otherwise;
    - after the merge step of a for-loop every list is what it was: the
      phis of the popped loop scope are patched and dropped. *)
Theorem loop_phis_are_handed_over :
  (forall then_vars else_vars st st',
     Forall (fun kv => is_old_var_global (fst kv) = false) then_vars ->
     Forall (fun kv => is_old_var_global (fst kv) = false) else_vars ->
     if_else_merge then_vars else_vars st = OK (tt, st') ->
     forall k, top_phis (scopes_ st') k
               = top_phis (scopes_ st) k ++ handed k then_vars ++ handed k else_vars)
  /\ (forall kv st st',
        is_old_var_global (fst kv) = false ->
        if_then_merge_entry kv st = OK (tt, st') ->
        forall k, top_phis (scopes_ st') k
                  = top_phis (scopes_ st) k
                    ++ (if same_keyb (fst kv) k
                        then match find_scope 0 (scopes_ st) (fst kv) with
                             | Some _ => for_loop_phi (snd kv)
                             | None => []
                             end
                        else []))
  /\ (forall kv st st',
        for_loop_merge_entry kv st = OK (tt, st') ->
        forall k, top_phis (scopes_ st') k = top_phis (scopes_ st) k)
  /\ (forall k vars,
        OMap.sorted vars ->
        handed k vars
        = match OMap.find k vars with Some s => for_loop_phi s | None => [] end).
Proof.
  split; [|split; [|split]].
  - intros then_vars else_vars st st' Hthen Helse E k. revert E.
    unfold if_else_merge, bind.
    destruct (collect_arm then_vars [] st) as [[m1 st1]|] eqn:E1; [|discriminate].
    destruct (collect_arm else_vars m1 st1) as [[m2 st2]|] eqn:E2; [|discriminate].
    intros E3.
    pose proof (collect_arm_hands_over then_vars Hthen [] st m1 st1 E1 k) as H1.
    pose proof (collect_arm_hands_over else_vars Helse m1 st1 m2 st2 E2 k) as H2.
    simpl in H1, H2.
    assert (H3 : forall k, top_phis (scopes_ st') k = top_phis (scopes_ st2) k).
    { refine (wlp_for_each merge_updated_var
                (fun s => forall k, top_phis (scopes_ s) k = top_phis (scopes_ st2) k)
                m2 _ st2 (fun _ => eq_refl) tt st' E3).
      intros kv s _ Hs. eapply wlp_mono; [apply merge_updated_var_keeps_phis|].
      intros u s' Hs' k0. simpl in Hs'. rewrite Hs', Hs. reflexivity. }
    rewrite H3, H2, H1, <- app_assoc. reflexivity.
  - intros kv st st' Hg E. exact (if_then_merge_entry_hands_over kv st Hg tt st' E).
  - intros kv st st' E. exact (for_loop_merge_entry_keeps_phis kv st tt st' E).
  - intros k vars. apply handed_sorted.
Qed.

Lemma loop_phis_are_handed_over_witness :
  let x := Leaf sc_var "x" "s32" None in
  let local := Some (SsaData false false None) in
  let st :=
    Impl [Node (var_node "x") "s32" None local;
          Node (ssa_phi_node [0]) "s32" None None;
          temp_var_node "x_0" "s32" 1]
         [Scope [(x, Status (Some 0) 0 [])] k_normal 0; Scope [] k_for_loop 1]
         true 1 1 [] [] in
  exists st',
    if_else_merge [(x, Status (Some 2) 2 [2])] [] st = OK (tt, st')
    /\ top_phis (scopes_ st') x = [2].
Proof.
  intros x local st.
  destruct (if_else_merge [(x, Status (Some 2) 2 [2])] [] st) as [[[] st']|] eqn:E;
    [|vm_compute in E; discriminate E].
  exists st'. split; [reflexivity|].
  destruct loop_phis_are_handed_over as (H & _).
  assert (Hg : Forall (fun kv : leaf * ssa_var_status_t =>
                         is_old_var_global (fst kv) = false)
                      [(x, Status (Some 2) 2 [2])])
    by (constructor; [reflexivity|constructor]).
  rewrite (H _ _ _ _ Hg (List.Forall_nil _) E x). reflexivity.
Defined.

(** ** Closing a for-loop: where the new value is bound *)

Lemma for_loop_run (a : option any_map_t) (v : leaf) (b e s : expr)
    (body : stmt) (inc : bool) (kd : nat) (st : impl) :
  dispatch_stmt (s_for_loop a v b e s body inc kd) st
  = (x <- loop_body_run v b e s body ;;
     scope <- pop_scope ;;
     for_each for_loop_merge_entry (vars_ scope) ;;;
     match x with
     | (begin_, end_, step, thevar, body') =>
         ret (Some (o_for_loop a thevar begin_ end_ step body' inc kd))
     end) st.
Proof.
  cbn [dispatch_stmt]. unfold loop_body_run, bind.
  repeat match goal with
         | |- context [match ?m ?x with OK _ => _ | Err _ => _ end] =>
             lazymatch m with
             | for_each _ _ => fail
             | pop_scope => fail
             | _ => destruct (m x) as [[? ?]|]; try reflexivity
             end
         end.
Qed.

Lemma loop_body_run_post (v : leaf) (b e s : expr) (body : stmt) (st : impl) :
  wlp (loop_body_run v b e s body)
      (fun _ st' =>
         exists st3,
           post st st3
           /\ post (set_scopes
                      (scopes_ st3
                       ++ [Scope [] k_for_loop (pushed_depth (scopes_ st3) k_for_loop)])
                      st3) st') st.
Proof.
  unfold loop_body_run.
  pose proof (post_refl st) as H.
  acc_post H; [apply respects_dispatch|clear H; intros begin_ st1 H].
  acc_post H; [apply respects_dispatch|clear H; intros end_ st2 H].
  acc_post H; [apply respects_dispatch|clear H; intros step st3 H].
  apply wlp_bind, wlp_push_scope_exact.
  match goal with |- wlp _ _ ?x => pose proof (post_refl x) as H' end.
  acc_post H'; [auto with respects|clear H'; intros thevar st4 H'].
  acc_post H'; [auto with respects|clear H'; intros p st5 H'].
  acc_post H'; [auto with respects|clear H'; intros u st6 H'].
  acc_post H'; [apply respects_dispatch_stmt|clear H'; intros body' st7 H'].
  apply wlp_ret. exists st3. split; assumption.
Qed.

(** The scope that the close of a loop pops is the loop scope, in key order
    when the stack was well formed, and leaves the stack of before the
    loop. *)
Lemma loop_body_run_scope (v : leaf) (b e s : expr) (body : stmt)
    (st st_body : impl) x (below : list ssa_scope_t) (scope : ssa_scope_t) :
  loop_body_run v b e s body st = OK (x, st_body) ->
  scopes_ st_body = below ++ [scope] ->
  kind_ scope = k_for_loop
  /\ map shape below = map shape (scopes_ st)
  /\ (stack_ok (scopes_ st) -> stack_ok below /\ OMap.sorted (vars_ scope)).
Proof.
  intros E Hstack.
  destruct (loop_body_run_post v b e s body st x st_body E)
    as (st3 & (S3 & K3 & _) & (S7 & K7 & _)).
  simpl in S7, K7. rewrite Hstack in S7, K7.
  rewrite !map_app in S7. simpl in S7.
  apply app_inj_tail in S7 as [Hb Ht].
  split; [injection Ht; auto|].
  split; [congruence|].
  intros Hok.
  assert (Hok7 : stack_ok (below ++ [scope])).
  { apply K7, stack_ok_push, K3, Hok. }
  split; [exact (stack_ok_pop _ _ Hok7)|exact (proj1 (stack_ok_top _ _ Hok7))].
Qed.

Lemma patch_phi_keeps (phi : id) (value : option id) (st : impl) :
  wlp (patch_phi phi value)
      (fun _ st' => scopes_ st' = scopes_ st
                    /\ length (heap st') = length (heap st)) st.
Proof.
  unfold patch_phi. apply wlp_bind, wlp_ssa_data_of. intros p n d _ _ _.
  destruct (value_of_var d) as [def|]; [|apply wlp_fail].
  destruct value as [v|]; [|apply wlp_fail].
  apply wlp_bind, wlp_deref. intros n' _.
  destruct (n_body n'); try apply wlp_fail.
  apply wlp_update_node. intros n0 _. simpl.
  split; [reflexivity|apply length_insert].
Qed.

Lemma patch_loop_keeps (cv : option id) (phis : list id) (st : impl) :
  wlp (for_each (fun phi => if ptr_same phi cv then ret tt else patch_phi phi cv)
                phis)
      (fun _ st' => scopes_ st' = scopes_ st
                    /\ length (heap st') = length (heap st)) st.
Proof.
  apply (wlp_for_each _ (fun x => scopes_ x = scopes_ st
                                  /\ length (heap x) = length (heap st)));
    [|split; reflexivity].
  intros phi x _ [Hs Hl].
  destruct (ptr_same phi cv); [apply wlp_ret; split; assumption|].
  eapply wlp_mono; [apply patch_phi_keeps|].
  intros u x' [Hs' Hl']. simpl in *. split; congruence.
Qed.

(** Where the step writes: for a global, to the entry the lookup finds; for
    any other var, to the entry of the top scope, made first if the top
    scope has none. *)
Lemma for_loop_merge_entry_writes (k : leaf) (s : ssa_var_status_t)
    (st : impl) (i : nat) :
  find_scope 0 (scopes_ st) k = Some i ->
  wlp (for_loop_merge_entry (k, s))
      (fun _ st' =>
         let f := set_current_value (Some (S (length (heap st)))) in
         if is_old_var_global k
         then scopes_ st' = alter (with_vars (OMap.alter f k)) i (scopes_ st)
         else exists below top,
                scopes_ st = below ++ [top]
                /\ scopes_ st'
                   = below ++ [with_vars (OMap.alter f k)
                                 (with_vars
                                    (OMap.insert k (Status None (length below) []))
                                    top)]) st.
Proof.
  intros Hfind. unfold for_loop_merge_entry. simpl fst. simpl snd.
  apply wlp_bind, wlp_get_local_var_nothrow. rewrite Hfind. simpl.
  apply wlp_bind. eapply wlp_mono; [apply patch_loop_keeps|].
  intros u st1 [Hs1 Hl1]. simpl in Hs1, Hl1.
  apply wlp_bind, wlp_read_status. intros parent _.
  apply wlp_bind, wlp_make_ssa_phi. intros p0 ps n _ _.
  apply wlp_bind, wlp_add_def_after_current_stmt. intros n0 _.
  simpl heap. rewrite length_app. simpl length. rewrite Hl1, Nat.add_1_r.
  destruct (is_old_var_global k) eqn:Hg.
  - unfold get_local_var_for_update. rewrite Hg.
    apply wlp_bind, wlp_get_local_var. simpl scopes_. rewrite Hs1, Hfind.
    intros i' Hi'. inversion Hi'; subst i'.
    apply wlp_bind, wlp_write_status.
    apply wlp_bind, wlp_checked_as_var. intros n1 _ _.
    apply wlp_bind, wlp_checked_as_var_key. intros _.
    apply wlp_rename. intros n2 d _ _.
    rewrite scopes_renamed_if. simpl. rewrite Hs1. reflexivity.
  - apply wlp_bind, wlp_get_local_var_for_update_local; [exact Hg|].
    simpl scopes_. intros below top Hstack.
    apply wlp_bind, wlp_write_status.
    apply wlp_bind, wlp_checked_as_var. intros n1 _ _.
    apply wlp_bind, wlp_checked_as_var_key. intros _.
    apply wlp_rename. intros n2 d _ _.
    rewrite scopes_renamed_if. simpl. rewrite alter_snoc_top.
    exists below, top. split; [congruence|reflexivity].
Qed.

Lemma merged_local_entries (below : list ssa_scope_t) (top : ssa_scope_t)
    (k : leaf) (f : ssa_var_status_t -> ssa_var_status_t) :
  let scopes' :=
    below ++ [with_vars (OMap.alter f k)
                (with_vars (OMap.insert k (Status None (length below) [])) top)] in
  find_scope 0 scopes' k = Some (length below)
  /\ status_at scopes' (length below) k
     = Some (f (match status_at (below ++ [top]) (length below) k with
                | Some p => p
                | None => Status None (length below) []
                end))
  /\ forall j k', j <> length below \/ ~ same_key k k' ->
       status_at scopes' j k' = status_at (below ++ [top]) j k'.
Proof.
  intros scopes'. unfold scopes'. split; [|split].
  - rewrite find_scope_snoc. simpl.
    rewrite OMapFacts.find_alter_eq, OMapFacts.find_insert_eq. reflexivity.
  - rewrite !status_at_top. simpl.
    rewrite OMapFacts.find_alter_eq, OMapFacts.find_insert_eq. reflexivity.
  - intros j k' Hjk.
    destruct (decide (j < length below)) as [Hlt|Hge];
      [apply status_at_below; exact Hlt|].
    destruct (decide (j = length below)) as [->|Hne].
    + destruct Hjk as [Hj|Hk]; [congruence|].
      rewrite !status_at_top. simpl.
      rewrite OMapFacts.find_alter_ne, OMapFacts.find_insert_ne by exact Hk.
      reflexivity.
    + rewrite !status_at_above; [reflexivity| |]; rewrite length_app; simpl; lia.
Qed.

Lemma merged_global_entries (scopes : list ssa_scope_t) (i : nat) (k : leaf)
    (f : ssa_var_status_t -> ssa_var_status_t) :
  let scopes' := alter (with_vars (OMap.alter f k)) i scopes in
  status_at scopes' i k = option_map f (status_at scopes i k)
  /\ forall j k', j <> i \/ ~ same_key k k' ->
       status_at scopes' j k' = status_at scopes j k'.
Proof.
  intros scopes'. unfold scopes', status_at. split.
  - rewrite list_lookup_alter_eq. destruct (scopes !! i) as [sc|]; [|reflexivity].
    simpl. apply OMapFacts.find_alter_eq.
  - intros j k' Hjk. destruct (decide (j = i)) as [->|Hne].
    + destruct Hjk as [Hj|Hk]; [congruence|].
      rewrite list_lookup_alter_eq. destruct (scopes !! i) as [sc|]; [|reflexivity].
      simpl. apply OMapFacts.find_alter_ne. exact Hk.
    + rewrite list_lookup_alter_ne by congruence. reflexivity.
Qed.

(** C1.  The close of a for-loop.  A for-loop statement that returns has
    dispatched its bounds, step and body, popped the loop scope, and run the
    merge step for every entry of the popped scope, in the order of the map,
    from the state the pop has left.

    The merge step for one entry [(k, s)], when the var [k] is still visible
    (the lookup finds it in scope [i], with current value [pc]) and the final
    value in the loop is [cv]:
    - every phi node gets [cv] appended to its operands once for each
      recorded loop phi that is not [cv] itself and is defined by that node
      (a recorded phi identical to [cv] adds nothing);
    - a new phi with operands [pc; cv] is built, whether or not the variable
      changed, and its definition is queued to follow the current statement;
    - the new temporary is renamed to [<name of k>_<version>];
    - the new temporary becomes the current value of [k] in the top scope
      of the stack, the scope that encloses the loop, when [k] is not a
      global: the entry of that scope is overwritten, or made if there was
      none, and then the binding the lookup had found further down is left
      as it was; when [k] is a global, the binding the lookup had found is
      overwritten, wherever it is;
    - no other entry of any scope changes. *)
Theorem for_loop_merge_entry_spec :
  (forall a v b e s body inc kd st r st',
     dispatch_stmt (s_for_loop a v b e s body inc kd) st = OK (r, st') ->
     exists begin_ end_ step thevar body' st_body below scope,
       loop_body_run v b e s body st
       = OK ((begin_, end_, step, thevar, body'), st_body)
       /\ scopes_ st_body = below ++ [scope]
       /\ kind_ scope = k_for_loop
       /\ length below = length (scopes_ st)
       /\ for_each for_loop_merge_entry (vars_ scope) (set_scopes below st_body)
          = OK (tt, st')
       /\ r = Some (o_for_loop a thevar begin_ end_ step body' inc kd))
  /\ (forall (k : leaf) (s parent : ssa_var_status_t) (st : impl) (i : nat)
             (pc cv : id) (pn : node),
        node_type_ k = sc_var ->
        find_scope 0 (scopes_ st) k = Some i ->
        status_at (scopes_ st) i k = Some parent ->
        current_value parent = Some pc ->
        heap st !! pc = Some pn ->
        current_value s = Some cv ->
        (forall phi, In phi (for_loop_phi s) -> phi <> cv ->
           exists def vs, phi_def (heap st) phi = Some def
                          /\ phi_values (heap st) def = Some vs) ->
        let node := length (heap st) in
        let cur_v := S node in
        let top := length (scopes_ st) - 1 in
        exists st',
          for_loop_merge_entry (k, s) st = OK (tt, st')
          /\ (forall def vs, phi_values (heap st) def = Some vs ->
                phi_values (heap st') def
                = Some (vs ++ repeat cv
                                (patch_count (heap st) (for_loop_phi s) cv def)))
          /\ heap st' !! node
             = Some (Node (ssa_phi_node [pc; cv]) (n_dtype pn) None None)
          /\ heap st' !! cur_v
             = Some (temp_var_node
                       (name_ k ++ "_" ++ to_string (var_version_idx st))
                       (n_dtype pn) node)
          /\ stmts_to_insert_after st'
             = stmts_to_insert_after st
               ++ [o_define None cur_v linkage_local (Some node)]
          /\ current_scope_ st' = current_scope_ st
          /\ var_version_idx st' = uint64_succ (var_version_idx st)
          /\ (is_old_var_global k = false ->
              find_scope 0 (scopes_ st') k = Some top
              /\ status_at (scopes_ st') top k
                 = Some (match status_at (scopes_ st) top k with
                         | Some p => set_current_value (Some cur_v) p
                         | None => Status (Some cur_v) top []
                         end)
              /\ (forall j k', j <> top \/ ~ same_key k k' ->
                    status_at (scopes_ st') j k' = status_at (scopes_ st) j k')
              /\ (i < top -> status_at (scopes_ st') i k = Some parent))
          /\ (is_old_var_global k = true ->
              find_scope 0 (scopes_ st') k = Some i
              /\ status_at (scopes_ st') i k
                 = Some (set_current_value (Some cur_v) parent)
              /\ (forall j k', j <> i \/ ~ same_key k k' ->
                    status_at (scopes_ st') j k' = status_at (scopes_ st) j k'))).
Proof.
  split.
  - intros a v b e s body inc kd st r st' E.
    rewrite for_loop_run in E. unfold bind at 1 in E.
    destruct (loop_body_run v b e s body st) as [[x st_body]|] eqn:Ex;
      [|discriminate].
    destruct x as [[[[begin_ end_] step] thevar] body'].
    unfold bind at 1 in E. unfold pop_scope at 1 in E.
    destruct (last (scopes_ st_body)) as [scope|] eqn:Hlast; [|discriminate].
    destruct (last_snoc_inv _ _ Hlast) as (below & Hstack).
    rewrite Hstack, removelast_last in E.
    unfold bind in E.
    destruct (for_each for_loop_merge_entry (vars_ scope) (set_scopes below st_body))
      as [[[] st1]|] eqn:Em; [|discriminate].
    inversion E; subst st1 r.
    destruct (loop_body_run_scope _ _ _ _ _ _ _ _ _ _ Ex Hstack) as (Hk & Hsh & _).
    exists begin_, end_, step, thevar, body', st_body, below, scope.
    split; [reflexivity|]. split; [exact Hstack|]. split; [exact Hk|].
    split; [|split; [exact Em|reflexivity]].
    rewrite <- (length_map shape below), Hsh. apply length_map.
  - intros k s parent st i pc cv pn Hk Hfind Hparent Hpc Hpn Hcv Hwf node cur_v top.
    destruct (run_for_loop_merge_entry k s parent st i pc cv pn Hk Hfind
                (proj2 (read_status_at (i, k) st parent) Hparent) Hpc Hpn Hcv Hwf)
      as (st' & Hrun & Hvals & Hphi & Htmp & Hafter & Hcur & Hver & _).
    pose proof (for_loop_merge_entry_writes k s st i Hfind tt st' Hrun) as Hw.
    simpl in Hw. fold node in Hw. fold cur_v in Hw.
    exists st'. split; [exact Hrun|]. split; [exact Hvals|].
    split; [exact Hphi|]. split; [exact Htmp|]. split; [exact Hafter|].
    split; [exact Hcur|]. split; [exact Hver|].
    destruct (is_old_var_global k).
    + split; [discriminate|]. intros _. rewrite Hw.
      destruct (merged_global_entries (scopes_ st) i k
                  (set_current_value (Some cur_v))) as (Hi & Hrest).
      split; [rewrite find_scope_alter_status; exact Hfind|].
      split; [rewrite Hi, Hparent; reflexivity|exact Hrest].
    + split; [|discriminate]. intros _.
      destruct Hw as (below & topsc & Hstack & Hsc').
      assert (Htop : top = length below).
      { unfold top. rewrite Hstack. apply snoc_top_index. }
      destruct (merged_local_entries below topsc k
                  (set_current_value (Some cur_v))) as (Hf & Ht & Hrest).
      rewrite Hsc', Hstack, Htop.
      split; [exact Hf|]. split.
      { rewrite Ht. destruct (status_at (below ++ [topsc]) (length below) k);
          reflexivity. }
      split; [exact Hrest|].
      intros Hlt. rewrite Hrest by (left; lia).
      rewrite <- Hstack. exact Hparent.
Qed.

(** The loop of [func f(s) { if (c) { for ... { s = ... } } }] closes with
    the stack [function scope; then-scope]: the function scope binds [s] to
    node 0, the then-scope is empty, and the popped loop scope holds [s]
    with final value 4 and loop phi 2.  The new temporary 6 is bound in the
    then-scope; the binding of the function scope keeps node 0. *)
Lemma for_loop_merge_entry_spec_witness :
  let s_var := Leaf sc_var "s" "s32" None in
  let local := Some (SsaData false false None) in
  let st :=
    Impl [Node (var_node "s") "s32" None local;
          Node (ssa_phi_node [0]) "s32" None None;
          temp_var_node "s_0" "s32" 1;
          Node (compute_node "add" [2; 2]) "s32" None None;
          temp_var_node "s_1" "s32" 3]
         [Scope [(s_var, Status (Some 0) 0 [])] k_normal 0;
          Scope [] k_if_then 0]
         true 2 2 [] [] in
  exists st',
    for_loop_merge_entry (s_var, Status (Some 4) 2 [2]) st = OK (tt, st')
    /\ phi_values (heap st') 1 = Some [0; 4]
    /\ heap st' !! 5 = Some (Node (ssa_phi_node [0; 4]) "s32" None None)
    /\ heap st' !! 6 = Some (temp_var_node "s_2" "s32" 5)
    /\ stmts_to_insert_after st' = [o_define None 6 linkage_local (Some 5)]
    /\ status_at (scopes_ st') 1 s_var = Some (Status (Some 6) 1 [])
    /\ status_at (scopes_ st') 0 s_var = Some (Status (Some 0) 0 []).
Proof.
  intros s_var local st.
  destruct (proj2 for_loop_merge_entry_spec s_var (Status (Some 4) 2 [2])
              (Status (Some 0) 0 []) st 0 0 4
              (Node (var_node "s") "s32" None local)
              eq_refl eq_refl eq_refl eq_refl eq_refl eq_refl)
    as (st' & Hrun & Hvals & Hphi & Htmp & Hafter & _ & _ & Hlocal & _).
  { intros phi [<-|[]] _. exists 1, [0]. split; reflexivity. }
  destruct (Hlocal eq_refl) as (_ & Htop & _ & Hparent).
  exists st'. split; [exact Hrun|].
  split; [exact (Hvals 1 [0] eq_refl)|].
  split; [exact Hphi|]. split; [exact Htmp|]. split; [exact Hafter|].
  split; [exact Htop|]. apply Hparent. simpl. lia.
Defined.

(** In [func f(s, c) { if (c) { for i in 0..4 { s = s + 1 } } }] the loop
    is dispatched on the stack [function scope; then-scope].  After the
    loop the lookup of [s] yields the new temporary, bound in the
    then-scope, and the binding of the function scope, which the lookup had
    found before the loop, still has the parameter as its current value. *)
Lemma loop_merge_binds_in_the_top_scope : ~ loop_overwrites_parent.
Proof.
  intros H.
  pose (s := Leaf sc_var "s" "s32" None).
  pose (c := Leaf sc_var "c" "s32" None).
  pose (i := Leaf sc_var "i" "s32" None).
  pose (loop := s_for_loop None i (e_constant 0 "s32") (e_constant 4 "s32")
                  (e_constant 1 "s32")
                  (s_assign None (e_leaf s)
                     (e_compute "add" "s32" [e_leaf s; e_constant 1 "s32"]))
                  true 0).
  destruct (dispatch_stmt loop (in_then_branch [s; c])) as [[r st']|] eqn:E;
    [|vm_compute in E; discriminate E].
  destruct (find_scope 0 (scopes_ st') s) as [j|] eqn:F;
    [|vm_compute in E; inversion E; subst; vm_compute in F; discriminate F].
  destruct (status_at (scopes_ st') j s) as [now|] eqn:N;
    [|vm_compute in E; inversion E; subst; vm_compute in F; inversion F; subst;
      vm_compute in N; discriminate N].
  specialize (H None i _ _ _ _ true 0 (in_then_branch [s; c]) st' r s 0 j
                (Status (Some 0) 0 []) now E eq_refl eq_refl F N).
  vm_compute in E. inversion E; subst. vm_compute in F. inversion F; subst.
  vm_compute in N. inversion N; subst.
  destruct H as (parent' & Hp & Hc); [discriminate|].
  vm_compute in Hp. inversion Hp; subst. discriminate Hc.
Qed.

(** ** The order and the numbering of the merge phis *)

Lemma names_kept_refl st : names_kept st st.
Proof. intros p name H. exact H. Qed.

Lemma names_kept_trans st1 st2 st3 :
  names_kept st1 st2 -> names_kept st2 st3 -> names_kept st1 st3.
Proof. intros H1 H2 p name H. apply H2, H1, H. Qed.

Lemma names_kept_heap st st' : heap st' = heap st -> names_kept st st'.
Proof. intros E p name H. rewrite E. exact H. Qed.

Lemma names_kept_alloc st st' (n : node) :
  heap st' = heap st ++ [n] -> names_kept st st'.
Proof.
  intros E p name H. rewrite E.
  destruct (heap st !! p) as [x|] eqn:Hp; [|discriminate].
  rewrite (lookup_app_l_Some _ _ _ _ Hp). exact H.
Qed.

Lemma others_kept_refl k st : others_kept k st st.
Proof. intros k' _. reflexivity. Qed.

Lemma others_kept_trans k st1 st2 st3 :
  others_kept k st1 st2 -> others_kept k st2 st3 -> others_kept k st1 st3.
Proof. intros H1 H2 k' Hk. rewrite (H2 k' Hk). apply H1, Hk. Qed.

Lemma others_kept_scopes k st st' : scopes_ st' = scopes_ st -> others_kept k st st'.
Proof. intros E k' _. rewrite E. reflexivity. Qed.

Lemma emits_for_nil st st' :
  stmts_to_insert_after st' = stmts_to_insert_after st ->
  var_version_idx st' = var_version_idx st ->
  emits_for [] st st'.
Proof.
  intros Hq Hv. exists []. rewrite app_nil_r. repeat split; assumption.
Qed.

Lemma patch_phi_names (phi : id) (value : option id) (st : impl) :
  wlp (patch_phi phi value)
      (fun _ st' => scopes_ st' = scopes_ st
                    /\ names_kept st st'
                    /\ stmts_to_insert_after st' = stmts_to_insert_after st
                    /\ var_version_idx st' = var_version_idx st
                    /\ length (heap st') = length (heap st)) st.
Proof.
  unfold patch_phi. apply wlp_bind, wlp_ssa_data_of. intros p n d _ _ _.
  destruct (value_of_var d) as [def|]; [|apply wlp_fail].
  destruct value as [v|]; [|apply wlp_fail].
  apply wlp_bind, wlp_deref. intros n' Hn'.
  destruct (n_body n') eqn:Hb; try apply wlp_fail.
  apply wlp_update_node. intros n0 Hn0. simpl.
  split; [reflexivity|].
  split; [|split; [reflexivity|split; [reflexivity|apply length_insert]]].
  intros q name Hq. simpl.
  destruct (decide (def = q)) as [->|Hne].
  - rewrite Hn' in Hq. simpl in Hq. congruence.
  - rewrite list_lookup_insert_ne by exact Hne. exact Hq.
Qed.

Lemma patch_loop_names (cv : option id) (phis : list id) (st : impl) :
  wlp (for_each (fun phi => if ptr_same phi cv then ret tt else patch_phi phi cv)
                phis)
      (fun _ st' => scopes_ st' = scopes_ st
                    /\ names_kept st st'
                    /\ stmts_to_insert_after st' = stmts_to_insert_after st
                    /\ var_version_idx st' = var_version_idx st
                    /\ length (heap st') = length (heap st)) st.
Proof.
  apply (wlp_for_each _
           (fun x => scopes_ x = scopes_ st
                     /\ names_kept st x
                     /\ stmts_to_insert_after x = stmts_to_insert_after st
                     /\ var_version_idx x = var_version_idx st
                     /\ length (heap x) = length (heap st))).
  2:{ split; [reflexivity|]. split; [apply names_kept_refl|repeat split]. }
  intros phi x _ (Hs & Hn & Hq & Hv & Hl).
  destruct (ptr_same phi cv); [apply wlp_ret; repeat split; assumption|].
  eapply wlp_mono; [apply patch_phi_names|].
  intros u x' (Hs' & Hn' & Hq' & Hv' & Hl'). simpl in *.
  split; [congruence|]. split; [exact (names_kept_trans _ _ _ Hn Hn')|].
  repeat split; congruence.
Qed.

(** The end of every merge step: the write of the new value, the two casts
    and the renaming of the temporary. *)
Lemma merge_tail_emits (k : leaf) (p : status_ptr)
    (f : ssa_var_status_t -> ssa_var_status_t) (cur_v : id)
    (name : string) (dtype : sc_data_type_t) (phi : id) (st : impl) :
  heap st !! cur_v = Some (temp_var_node name dtype phi) ->
  wlp (write_status p f ;;;
       checked_as_var cur_v ;;;
       k0 <- checked_as_var_key k ;;
       rename_temp_var_with_version cur_v k0)
      (fun _ st' =>
         heap st'
         = <[cur_v := with_body
                        (var_node (name_ k ++ "_"
                                   ++ to_string (var_version_idx st))%string)
                        (temp_var_node name dtype phi)]> (heap st)
         /\ var_version_idx st' = uint64_succ (var_version_idx st)
         /\ stmts_to_insert_after st' = stmts_to_insert_after st
         /\ scopes_ st'
            = alter (with_vars (OMap.alter f (snd p))) (fst p) (scopes_ st)) st.
Proof.
  intros Hcur.
  apply wlp_bind, wlp_write_status.
  apply wlp_bind, wlp_checked_as_var. intros n1 _ _.
  apply wlp_bind, wlp_checked_as_var_key. intros _.
  apply wlp_rename. simpl heap. intros n2 d Hn2 Hd.
  rewrite Hcur in Hn2. inversion Hn2; subst n2. simpl in Hd. inversion Hd; subst d.
  simpl. unfold renamed. simpl. rewrite Hcur. simpl. repeat split.
Qed.

Lemma lookup_for_update_others (k : leaf) (st : impl)
    (Q : status_ptr -> impl -> Prop) :
  (forall p st1,
     snd p = k ->
     others_kept k st st1 ->
     st1 = set_scopes (scopes_ st1) st ->
     Q p st1) ->
  wlp (get_local_var_for_update k) Q st.
Proof.
  intros H. apply wlp_get_local_var_for_update.
  - intros j _. apply H; [reflexivity|apply others_kept_refl|].
    destruct st; reflexivity.
  - intros below top Hstack _ _. apply H; [reflexivity| |reflexivity].
    intros k' Hk. simpl. rewrite Hstack, !find_scope_snoc. simpl.
    rewrite OMapFacts.find_insert_ne by exact Hk. reflexivity.
Qed.

Lemma emits_for_one (k : leaf) (st st' : impl) (t phi : id) :
  stmts_to_insert_after st'
  = stmts_to_insert_after st ++ [o_define None t linkage_local (Some phi)] ->
  n_body <$> heap st' !! t
  = Some (var_node (name_ k ++ "_" ++ to_string (var_version_idx st))%string) ->
  var_version_idx st' = uint64_succ (var_version_idx st) ->
  emits_for [k] st st'.
Proof.
  intros Hq Hn Hv. exists [o_define None t linkage_local (Some phi)].
  split; [exact Hq|]. split; [|exact Hv].
  simpl. rewrite Hn. reflexivity.
Qed.

(** The phi of a merge step, its temporary, the write and the renaming. *)
Lemma new_phi_emits (k : leaf) (values : list (option id)) (st0 st : impl) :
  names_kept st0 st ->
  length (heap st0) <= length (heap st) ->
  wlp (new_phi <- make_ssa_phi values ;;
       cur_v <- add_def_after_current_stmt new_phi ;;
       p <- get_local_var_for_update k ;;
       write_status p (set_current_value (Some cur_v)) ;;;
       checked_as_var cur_v ;;;
       k0 <- checked_as_var_key k ;;
       rename_temp_var_with_version cur_v k0)
      (fun _ st' => names_kept st0 st'
                    /\ others_kept k st st'
                    /\ emits_for [k] st st') st.
Proof.
  intros Hn0 Hlen.
  apply wlp_bind, wlp_make_ssa_phi. intros p0 ps n _ _.
  apply wlp_bind, wlp_add_def_after_current_stmt. simpl heap. intros n0 _.
  set (phi_n := Node (ssa_phi_node (p0 :: ps)) (n_dtype n) None None).
  set (tmp := temp_var_node ("__tmp" ++ to_string (var_def_idx_ st))
                            (n_dtype n0) (length (heap st))).
  set (cur_v := length (heap st ++ [phi_n])).
  apply wlp_bind, lookup_for_update_others. intros p st1 Hp Ho1 Hst1.
  assert (Hh1 : heap st1 = (heap st ++ [phi_n]) ++ [tmp]) by (rewrite Hst1; reflexivity).
  assert (Hcur : heap st1 !! cur_v = Some tmp).
  { rewrite Hh1. apply lookup_snoc_fresh. }
  eapply wlp_mono; [apply (merge_tail_emits k p _ cur_v _ _ _ st1 Hcur)|].
  intros u st' (Hh & Hv & Hq & Hs). simpl in Hh, Hv, Hq, Hs.
  assert (Hv1 : var_version_idx st1 = var_version_idx st) by (rewrite Hst1; reflexivity).
  assert (Hq1 : stmts_to_insert_after st1
                = stmts_to_insert_after st
                  ++ [o_define None cur_v linkage_local (Some (length (heap st)))])
    by (rewrite Hst1; reflexivity).
  split; [|split].
  - intros q name Hq0. rewrite Hh, Hh1.
    assert (Hlt : q < length (heap st0)).
    { destruct (heap st0 !! q) eqn:E; [|discriminate].
      apply lookup_lt_Some in E. exact E. }
    rewrite list_lookup_insert_ne
      by (unfold cur_v; rewrite length_app; simpl; lia).
    rewrite <- app_assoc, lookup_app_l by lia. apply Hn0. exact Hq0.
  - intros k' Hk. rewrite Hs, find_scope_alter_status.
    rewrite (Ho1 k' Hk). reflexivity.
  - apply (emits_for_one k st st' cur_v (length (heap st))).
    + rewrite Hq, Hq1. reflexivity.
    + rewrite Hh, Hh1, Hv1.
      rewrite list_lookup_insert_eq
        by (unfold cur_v; rewrite !length_app; simpl; lia).
      reflexivity.
    + rewrite Hv, Hv1. reflexivity.
Qed.

(** ** The pass on a function never reads the top of an empty stack *)

Lemma guarded_mono {A} (n n' : nat) (m : M A) :
  n <= n' -> guarded n m -> guarded n' m.
Proof. intros Hn H st Hst. apply H. lia. Qed.

Lemma guarded_ret {A} (n : nat) (a : A) : guarded n (ret a).
Proof. intros st _. discriminate. Qed.

Lemma guarded_fail {A} (n : nat) (e : error) :
  e <> empty_back -> guarded n (@fail A e).
Proof. intros He st _ E. inversion E. contradiction. Qed.

Lemma keeps_depth_respects {A} (m : M A) : respects m -> keeps_depth m.
Proof.
  intros Hr st a st' E. destruct (Hr st a st' E) as (Hs & _).
  rewrite <- (length_map shape (scopes_ st')), Hs. apply length_map.
Qed.

Lemma keeps_depth_rename (newv : id) (k : leaf) :
  keeps_depth (rename_temp_var_with_version newv k).
Proof.
  intros st. apply wlp_rename. intros n d _ _.
  rewrite scopes_renamed_if. reflexivity.
Qed.

Lemma guarded_bind {A B} (n : nat) (m : M A) (k : A -> M B) :
  guarded n m -> keeps_depth m -> (forall a, guarded n (k a)) ->
  guarded n (bind m k).
Proof.
  intros Hm Hr Hk st Hn E. unfold bind in E.
  destruct (m st) as [[a st1]|e] eqn:Em.
  - apply (Hk a st1); [|exact E]. rewrite (Hr st a st1 Em). exact Hn.
  - inversion E; subst e. exact (Hm st Hn Em).
Qed.

Lemma guarded_push {A} (n : nat) (k : scope_kind) (m : M A) :
  guarded (S n) m -> guarded n (push_scope k ;;; m).
Proof.
  intros Hm st Hn. unfold bind, push_scope. apply Hm. simpl.
  rewrite length_app. simpl. lia.
Qed.

Lemma guarded_pop {A} (n : nat) (k : ssa_scope_t -> M A) :
  (forall scope, guarded n (k scope)) -> guarded (S n) (bind pop_scope k).
Proof.
  intros Hk st Hn. unfold bind, pop_scope.
  destruct (scopes_ st) as [|top below] eqn:Hs using rev_ind; [simpl in Hn; lia|].
  rewrite last_snoc. apply Hk. simpl. rewrite removelast_last.
  rewrite length_app in Hn. simpl in Hn. lia.
Qed.

Ltac never_reads :=
  let st := fresh "st" in
  let E := fresh "E" in
  intros st _ E;
  cbv [deref alloc update_node get modify ret fail bind read_status write_status
       get_local_var_nothrow get_local_var ssa_data_of checked_as_var
       checked_as_var_key make_ssa_phi new_temp_def add_def
       add_def_after_current_stmt init_ssa_data set_is_global set_is_param
       remake patch_phi rename_temp_var_with_version scope_at emit_stmt] in E;
  repeat first
    [ discriminate E
    | progress cbv beta iota in E
    | match type of E with
      | context [match ?x with _ => _ end] =>
          lazymatch x with
          | context [match _ with _ => _ end] => fail
          | _ => destruct x
          end
      end ].

Lemma guarded_get n : guarded n get.
Proof. never_reads. Qed.
Lemma guarded_modify n f : guarded n (modify f).
Proof. never_reads. Qed.
Lemma guarded_deref n p : guarded n (deref p).
Proof. never_reads. Qed.
Lemma guarded_alloc n x : guarded n (alloc x).
Proof. never_reads. Qed.
Lemma guarded_update_node n p f : guarded n (update_node p f).
Proof. never_reads. Qed.
Lemma guarded_scope_at n i : guarded n (scope_at i).
Proof. never_reads. Qed.
Lemma guarded_read_status n p : guarded n (read_status p).
Proof. never_reads. Qed.
Lemma guarded_write_status n p f : guarded n (write_status p f).
Proof. never_reads. Qed.
Lemma guarded_get_local_var_nothrow n k : guarded n (get_local_var_nothrow k).
Proof. never_reads. Qed.
Lemma guarded_get_local_var n k : guarded n (get_local_var k).
Proof. never_reads. Qed.
Lemma guarded_ssa_data_of n e : guarded n (ssa_data_of e).
Proof. never_reads. Qed.
Lemma guarded_checked_as_var n p : guarded n (checked_as_var p).
Proof. never_reads. Qed.
Lemma guarded_checked_as_var_key n k : guarded n (checked_as_var_key k).
Proof. never_reads. Qed.
Lemma guarded_make_ssa_phi n values : guarded n (make_ssa_phi values).
Proof. never_reads. Qed.
Lemma guarded_add_def n v : guarded n (add_def v).
Proof. never_reads. Qed.
Lemma guarded_add_def_after_current_stmt n v :
  guarded n (add_def_after_current_stmt v).
Proof. never_reads. Qed.
Lemma guarded_init_ssa_data n p : guarded n (init_ssa_data p).
Proof. never_reads. Qed.
Lemma guarded_set_is_global n p : guarded n (set_is_global p).
Proof. never_reads. Qed.
Lemma guarded_set_is_param n p : guarded n (set_is_param p).
Proof. never_reads. Qed.
Lemma guarded_remake n l : guarded n (remake l).
Proof. never_reads. Qed.
Lemma guarded_patch_phi n phi v : guarded n (patch_phi phi v).
Proof. never_reads. Qed.
Lemma guarded_rename n newv k : guarded n (rename_temp_var_with_version newv k).
Proof. never_reads. Qed.
Lemma guarded_emit_stmt n news : guarded n (emit_stmt news).
Proof. never_reads. Qed.

Lemma guarded_scopes_back n : guarded (S n) scopes_back.
Proof.
  intros st Hn. unfold scopes_back.
  destruct (scopes_ st) as [|top below] using rev_ind; [simpl in Hn; lia|].
  rewrite last_snoc. discriminate.
Qed.

Lemma guarded_insert_local_var n k v : guarded (S n) (insert_local_var k v).
Proof.
  intros st Hn. unfold insert_local_var.
  destruct (scopes_ st); [simpl in Hn; lia|discriminate].
Qed.

Lemma guarded_get_local_var_for_update n k :
  guarded (S n) (get_local_var_for_update k).
Proof.
  unfold get_local_var_for_update.
  destruct (is_old_var_global k); [apply guarded_get_local_var|].
  intros st Hn. unfold bind, scopes_back, get.
  destruct (last (scopes_ st)) as [top|] eqn:Hl.
  - destruct (OMap.find k (vars_ top)); [discriminate|].
    exact (guarded_insert_local_var n k None st Hn).
  - apply last_None in Hl. rewrite Hl in Hn. simpl in Hn. lia.
Qed.

Lemma guarded_for_each {A} (n : nat) (f : A -> M unit) (l : list A) :
  (forall a, guarded n (f a)) -> (forall a, respects (f a)) ->
  guarded n (for_each f l).
Proof.
  intros Hf Hr. induction l as [|a l IH]; simpl.
  - apply guarded_ret.
  - apply guarded_bind;
      [apply Hf|apply keeps_depth_respects, Hr|intros _; exact IH].
Qed.

Create HintDb guarded.
#[local] Hint Resolve guarded_ret guarded_get guarded_modify guarded_deref
  guarded_alloc guarded_update_node guarded_scope_at guarded_read_status
  guarded_write_status guarded_get_local_var_nothrow guarded_get_local_var
  guarded_ssa_data_of guarded_checked_as_var guarded_checked_as_var_key
  guarded_make_ssa_phi guarded_add_def guarded_add_def_after_current_stmt
  guarded_init_ssa_data guarded_set_is_global guarded_set_is_param
  guarded_remake guarded_patch_phi guarded_rename guarded_emit_stmt
  guarded_scopes_back guarded_insert_local_var guarded_get_local_var_for_update
  : guarded.

Ltac guarded_one :=
  first [ solve [auto with guarded]
        | apply guarded_fail; discriminate ].

Ltac keeps_depth_one :=
  first [ apply keeps_depth_rename
        | apply keeps_depth_respects; respects_one ].

Ltac guarded_steps :=
  first [ guarded_one
        | apply guarded_bind;
          [guarded_steps|keeps_depth_one|intros ?; guarded_steps]
        | idtac ].

Lemma guarded_visit_tensor n v : guarded n (visit_tensor v).
Proof.
  unfold visit_tensor. guarded_steps.
  destruct (current_value a0); guarded_one.
Qed.

Lemma guarded_visit_var n v : guarded (S n) (visit_var v).
Proof.
  unfold visit_var. guarded_steps.
  destruct (negb (is_global_ a2)).
  - guarded_steps.
    destruct (for_depth_ a3 <? for_depth_ a1)%Z.
    + guarded_steps.
    + destruct (current_value a0); guarded_one.
  - destruct (current_value a0); guarded_one.
Qed.

Lemma guarded_flatten_result n old r : guarded n (flatten_result old r).
Proof.
  unfold flatten_result.
  apply guarded_bind; [auto with guarded|keeps_depth_one|intros st].
  destruct (old && negb (isa (heap st) is_var_body (Some r))
            && negb (isa (heap st) is_tensor_body (Some r)));
    auto with guarded.
Qed.

Lemma guarded_dispatch_of n (e : expr) :
  guarded (S n) (visit_expr e) -> guarded (S n) (dispatch e).
Proof.
  intros H st Hn. rewrite dispatch_unfold.
  apply (guarded_bind (S n) (visit_expr e) (flatten_result (need_flatten_ st)));
    [exact H|apply keeps_depth_respects, respects_visit_expr
    |intros r; apply guarded_flatten_result|exact Hn].
Qed.

Lemma guarded_dispatch_vec n (l : list expr) :
  Forall (fun e => guarded (S n) (dispatch e)) l -> guarded (S n) (dispatch_vec l).
Proof.
  induction 1 as [|e l He _ IH]; simpl.
  - apply guarded_ret.
  - apply guarded_bind; [exact He|keeps_depth_one|intros x].
    apply guarded_bind;
      [exact IH
      |apply keeps_depth_respects, respects_dispatch_vec, Forall_forall;
       intros; apply respects_dispatch
      |intros xs].
    apply guarded_ret.
Qed.

Lemma guarded_dispatch n (e : expr) : guarded (S n) (dispatch e).
Proof.
  induction e as [l|v d|ptr idx IHptr IHidx|o d args IHargs] using expr_ind2;
    apply guarded_dispatch_of; simpl.
  - destruct (node_type_ l); [apply guarded_visit_var|apply guarded_visit_tensor].
  - apply guarded_alloc.
  - apply guarded_bind; [exact IHptr|keeps_depth_one|intros p].
    apply guarded_bind;
      [apply guarded_dispatch_vec; exact IHidx
      |apply keeps_depth_respects, respects_dispatch_vec, Forall_forall;
       intros; apply respects_dispatch
      |intros ids].
    guarded_steps.
  - apply guarded_bind;
      [apply guarded_dispatch_vec; exact IHargs
      |apply keeps_depth_respects, respects_dispatch_vec, Forall_forall;
       intros; apply respects_dispatch
      |intros xs].
    guarded_steps.
Qed.

#[local] Hint Resolve guarded_dispatch guarded_visit_var guarded_visit_tensor
  : guarded.

Lemma guarded_unflattened {B} n (e : expr) (k : id -> M B) :
  (forall r, guarded (S n) (k r)) ->
  guarded (S n) (modify (set_need_flatten false) ;;; r <- dispatch e ;; k r).
Proof.
  intros Hk st Hn. unfold bind at 1. unfold modify.
  apply (guarded_bind (S n) (dispatch e) k);
    [apply guarded_dispatch|keeps_depth_one|exact Hk|exact Hn].
Qed.

Lemma guarded_visit_define n attr var_ lk init_ :
  guarded (S n) (visit_define attr var_ lk init_).
Proof.
  unfold visit_define. destruct lk; [|apply guarded_fail; discriminate].
  apply guarded_bind; [auto with guarded|keeps_depth_one|intros info].
  destruct (classify_define var_), init_ as [e|]; guarded_steps;
    try (apply guarded_unflattened; intros r; apply guarded_ret);
    try (apply keeps_depth_respects, respects_init_some).
Qed.

Lemma guarded_visit_assign n attr var_ value_ :
  guarded (S n) (visit_assign attr var_ value_).
Proof.
  unfold visit_assign.
  destruct var_ as [[[] nm dt at_]|v d|ptr idx|o d args];
    try (apply guarded_fail; discriminate).
  - apply guarded_bind; [auto with guarded|keeps_depth_one|intros rhs].
    apply guarded_bind; [auto with guarded|keeps_depth_one|intros var_info].
    apply guarded_bind; [auto with guarded|keeps_depth_one|intros status].
    apply guarded_bind.
    { destruct (current_value status); guarded_steps. }
    { apply keeps_depth_respects. destruct (current_value status); respects_steps. }
    intros is_global. destruct (negb is_global).
    + apply guarded_bind; [auto with guarded|keeps_depth_one|intros _].
      apply guarded_bind; [auto with guarded|keeps_depth_one|intros st].
      destruct (isa (heap st) is_var_body (Some rhs)
                || isa (heap st) is_constant_body (Some rhs));
        [|apply guarded_fail; discriminate].
      apply guarded_bind; [| |intros _; apply guarded_ret];
        destruct (isa (heap st) is_var_body (Some rhs));
        try keeps_depth_one; auto with guarded.
    + destruct (current_value status); guarded_one.
  - apply guarded_unflattened. intros lhs. guarded_steps.
Qed.

Lemma guarded_for_loop_merge_entry n kv : guarded (S n) (for_loop_merge_entry kv).
Proof.
  unfold for_loop_merge_entry.
  apply guarded_bind; [auto with guarded|keeps_depth_one|intros [pv|]];
    [|apply guarded_ret].
  apply guarded_bind.
  { apply guarded_for_each; intros phi;
      destruct (ptr_same phi (current_value (snd kv))); auto with guarded respects. }
  { apply keeps_depth_respects, respects_for_each. intros phi.
    destruct (ptr_same phi (current_value (snd kv))); auto with respects. }
  intros _. guarded_steps.
Qed.

Lemma guarded_if_then_merge_entry n kv : guarded (S n) (if_then_merge_entry kv).
Proof.
  unfold if_then_merge_entry.
  apply guarded_bind; [auto with guarded|keeps_depth_one|intros [pv|]];
    [|apply guarded_ret].
  guarded_steps.
Qed.

Lemma guarded_merge_updated_var n kv : guarded (S n) (merge_updated_var kv).
Proof. unfold merge_updated_var. guarded_steps. Qed.

Lemma guarded_collect_arm n (vars : omap ssa_var_status_t) :
  forall upd, guarded (S n) (collect_arm vars upd).
Proof.
  induction vars as [|kv vars IH]; intros upd; simpl.
  - apply guarded_ret.
  - apply guarded_bind; [auto with guarded|keeps_depth_one|intros p].
    apply guarded_bind; [auto with guarded|keeps_depth_one|intros _].
    apply IH.
Qed.

Lemma guarded_if_else_merge n then_vars else_vars :
  guarded (S n) (if_else_merge then_vars else_vars).
Proof.
  unfold if_else_merge.
  apply guarded_bind;
    [apply guarded_collect_arm
    |apply keeps_depth_respects, respects_collect_arm|intros m1].
  apply guarded_bind;
    [apply guarded_collect_arm
    |apply keeps_depth_respects, respects_collect_arm|intros m2].
  apply guarded_for_each;
    [apply guarded_merge_updated_var|apply respects_merge_updated_var].
Qed.

Lemma guarded_visit_seq n (l : list stmt) :
  Forall (fun s => guarded (S n) (dispatch_stmt s)) l -> guarded (S n) (visit_seq l).
Proof.
  induction 1 as [|s l Hs _ IH]; simpl.
  - apply guarded_ret.
  - apply guarded_bind;
      [exact Hs|apply keeps_depth_respects, respects_dispatch_stmt|intros news].
    apply guarded_bind;
      [auto with guarded|apply keeps_depth_respects, respects_emit_stmt|intros _].
    exact IH.
Qed.

Lemma guarded_dispatch_stmt (s : stmt) : forall n, guarded (S n) (dispatch_stmt s).
Proof.
  induction s as [a v lk i|a v e|a v b e s body inc k IHbody|a c t e IHt IHe
                  |a seq IHseq] using stmt_ind2; intros n.
  - apply guarded_visit_define.
  - apply guarded_visit_assign.
  - cbn [dispatch_stmt].
    apply guarded_bind; [auto with guarded|keeps_depth_one|intros begin_].
    apply guarded_bind; [auto with guarded|keeps_depth_one|intros end_].
    apply guarded_bind; [auto with guarded|keeps_depth_one|intros step].
    apply guarded_push.
    apply guarded_bind; [auto with guarded|keeps_depth_one|intros thevar].
    apply guarded_bind; [auto with guarded|keeps_depth_one|intros p].
    apply guarded_bind; [auto with guarded|keeps_depth_one|intros u].
    apply guarded_bind;
      [apply IHbody|apply keeps_depth_respects, respects_dispatch_stmt
      |intros body'].
    apply guarded_pop. intros scope.
    apply guarded_bind;
      [apply guarded_for_each;
         [apply guarded_for_loop_merge_entry|apply respects_for_loop_merge_entry]
      |apply keeps_depth_respects, respects_for_each, respects_for_loop_merge_entry
      |intros _; apply guarded_ret].
  - cbn [dispatch_stmt].
    apply guarded_bind; [auto with guarded|keeps_depth_one|intros cond].
    apply guarded_push.
    apply guarded_bind;
      [apply IHt|apply keeps_depth_respects, respects_dispatch_stmt
      |intros then_block].
    apply guarded_pop. intros then_scope.
    destruct e as [else_case|].
    + apply guarded_push.
      apply guarded_bind;
        [apply (IHe else_case eq_refl)
        |apply keeps_depth_respects, respects_dispatch_stmt|intros else_block].
      apply guarded_pop. intros else_scope.
      apply guarded_bind;
        [apply guarded_if_else_merge
        |apply keeps_depth_respects, respects_if_else_merge
        |intros _; apply guarded_ret].
    + apply guarded_bind;
        [apply guarded_for_each;
           [apply guarded_if_then_merge_entry|apply respects_if_then_merge_entry]
        |apply keeps_depth_respects, respects_for_each,
           respects_if_then_merge_entry
        |intros _; apply guarded_ret].
  - change (guarded (S n)
              (outer <- get ;;
               modify (set_current_scope []) ;;;
               visit_seq seq ;;;
               inner <- get ;;
               modify (set_current_scope (current_scope_ outer)) ;;;
               ret (Some (o_stmts a (current_scope_ inner))))).
    apply guarded_bind; [auto with guarded|keeps_depth_one|intros outer].
    apply guarded_bind; [auto with guarded|keeps_depth_one|intros _].
    apply guarded_bind;
      [apply guarded_visit_seq;
       eapply Forall_impl; [exact IHseq|intros s Hs; apply Hs]
      |apply keeps_depth_respects, respects_visit_seq, Forall_forall;
       intros; apply respects_dispatch_stmt
      |intros _].
    guarded_steps.
Qed.

Lemma guarded_bind_params n (params : list leaf) : guarded (S n) (bind_params params).
Proof.
  induction params as [|p params IH]; simpl; [apply guarded_ret|].
  apply guarded_bind; [auto with guarded|keeps_depth_one|intros newp].
  apply guarded_bind; [auto with guarded|keeps_depth_one|intros _].
  apply guarded_bind; [auto with guarded|keeps_depth_one|intros _].
  apply guarded_bind; [auto with guarded|keeps_depth_one|intros _].
  apply guarded_bind;
    [exact IH|apply keeps_depth_respects, respects_bind_params|intros new_params].
  apply guarded_ret.
Qed.

Lemma guarded_dispatch_func (f : func) : guarded 0 (dispatch_func f).
Proof.
  unfold dispatch_func. apply guarded_push.
  apply guarded_bind;
    [apply guarded_bind_params|apply keeps_depth_respects, respects_bind_params
    |intros new_params].
  apply guarded_bind;
    [apply guarded_dispatch_stmt|apply keeps_depth_respects, respects_dispatch_stmt
    |intros body].
  apply guarded_pop. intros scope. apply guarded_ret.
Qed.

Lemma emits_for_from (ks : list leaf) (st0 st st' : impl) :
  stmts_to_insert_after st = stmts_to_insert_after st0 ->
  var_version_idx st = var_version_idx st0 ->
  emits_for ks st st' -> emits_for ks st0 st'.
Proof.
  intros Hq Hv (defs & H1 & H2 & H3). exists defs.
  rewrite <- Hq, <- Hv. repeat split; assumption.
Qed.

Lemma merge_names_app (ks1 ks2 : list leaf) :
  forall v, merge_names v (ks1 ++ ks2)
            = merge_names v ks1 ++ merge_names (version_after v ks1) ks2.
Proof.
  induction ks1 as [|k ks1 IH]; intros v; simpl; [reflexivity|].
  rewrite IH. reflexivity.
Qed.

Lemma version_after_app (ks1 ks2 : list leaf) :
  forall v, version_after v (ks1 ++ ks2)
            = version_after (version_after v ks1) ks2.
Proof.
  induction ks1 as [|k ks1 IH]; intros v; simpl; [reflexivity|]. apply IH.
Qed.

Lemma defined_name_kept (st st' : impl) (d : ostmt) (name : string) :
  names_kept st st' ->
  defined_name (heap st) d = Some name -> defined_name (heap st') d = Some name.
Proof.
  intros Hn. destruct d as [a v lk i| | | |]; simpl; try discriminate.
  destruct (n_body <$> heap st !! v) as [[nm| | | | |]|] eqn:E; try discriminate.
  intros H. inversion H; subst nm. rewrite (Hn v name E). reflexivity.
Qed.

Lemma defined_names_kept (st st' : impl) (defs : list ostmt) (names : list string) :
  names_kept st st' ->
  map (defined_name (heap st)) defs = map Some names ->
  map (defined_name (heap st')) defs = map Some names.
Proof.
  intros Hn. revert names. induction defs as [|d defs IH]; intros [|nm names] H;
    simpl in *; try discriminate; [reflexivity|].
  injection H as Hd Hrest.
  f_equal; [exact (defined_name_kept st st' d nm Hn Hd)|exact (IH names Hrest)].
Qed.

Lemma emits_for_app (ks1 ks2 : list leaf) (st st1 st' : impl) :
  emits_for ks1 st st1 -> names_kept st1 st' -> emits_for ks2 st1 st' ->
  emits_for (ks1 ++ ks2) st st'.
Proof.
  intros (d1 & Q1 & N1 & V1) Hn (d2 & Q2 & N2 & V2).
  exists (d1 ++ d2). split; [rewrite Q2, Q1, app_assoc; reflexivity|].
  split.
  - rewrite map_app, merge_names_app, map_app, <- V1, N2.
    rewrite (defined_names_kept st1 st' d1 _ Hn N1). reflexivity.
  - rewrite version_after_app, <- V1. exact V2.
Qed.

Lemma for_loop_merge_entry_emits (kv : leaf * ssa_var_status_t) (st : impl) :
  wlp (for_loop_merge_entry kv)
      (fun _ st' => step_emits (fst kv) (false || is_visible st (fst kv)) st st')
      st.
Proof.
  unfold for_loop_merge_entry, is_visible.
  apply wlp_bind, wlp_get_local_var_nothrow.
  destruct (find_scope 0 (scopes_ st) (fst kv)) as [i|]; simpl.
  2:{ apply wlp_ret. split; [apply names_kept_refl|].
      split; [apply others_kept_refl|apply emits_for_nil; reflexivity]. }
  apply wlp_bind. eapply wlp_mono; [apply patch_loop_names|].
  intros u st1 (Hs1 & Hn1 & Hq1 & Hv1 & Hl1). simpl in Hs1, Hn1, Hq1, Hv1, Hl1.
  apply wlp_bind, wlp_read_status. intros parent _.
  eapply wlp_mono; [apply (new_phi_emits (fst kv) _ st st1 Hn1); lia|].
  intros u' st' (Hn & Ho & He). simpl in Hn, Ho, He.
  split; [exact Hn|]. split.
  - intros k' Hk. rewrite (Ho k' Hk), Hs1. reflexivity.
  - exact (emits_for_from _ _ _ _ Hq1 Hv1 He).
Qed.

Lemma merge_updated_var_emits (kv : leaf * list (option id)) (st : impl) :
  wlp (merge_updated_var kv)
      (fun _ st' => step_emits (fst kv) (true || is_visible st (fst kv)) st st')
      st.
Proof.
  unfold merge_updated_var.
  exact (new_phi_emits (fst kv) (snd kv) st st (names_kept_refl st) (le_n _)).
Qed.

Lemma if_then_merge_entry_emits (kv : leaf * ssa_var_status_t) (st : impl) :
  wlp (if_then_merge_entry kv)
      (fun _ st' => step_emits (fst kv) (false || is_visible st (fst kv)) st st')
      st.
Proof.
  unfold if_then_merge_entry, is_visible.
  apply wlp_bind, wlp_get_local_var_nothrow.
  destruct (find_scope 0 (scopes_ st) (fst kv)) as [i|]; simpl.
  2:{ apply wlp_ret. split; [apply names_kept_refl|].
      split; [apply others_kept_refl|apply emits_for_nil; reflexivity]. }
  apply wlp_bind, lookup_for_update_others. intros p st1 Hp Ho1 Hst1.
  assert (Hh1 : heap st1 = heap st) by (rewrite Hst1; reflexivity).
  assert (Hv1 : var_version_idx st1 = var_version_idx st)
    by (rewrite Hst1; reflexivity).
  assert (Hq1 : stmts_to_insert_after st1 = stmts_to_insert_after st)
    by (rewrite Hst1; reflexivity).
  apply wlp_bind, wlp_write_status.
  apply wlp_bind, wlp_read_status. intros parent _.
  apply wlp_bind, wlp_make_ssa_phi. simpl heap. intros p0 ps n _ _.
  apply wlp_bind, wlp_add_def_after_current_stmt. simpl heap. intros n0 _.
  set (phi_n := Node (ssa_phi_node (p0 :: ps)) (n_dtype n) None None).
  set (cur_v := length (heap st1 ++ [phi_n])).
  match goal with
  | |- wlp _ _ ?x => set (st2 := x)
  end.
  assert (Hcur : exists name, heap st2 !! cur_v
                              = Some (temp_var_node name (n_dtype n0)
                                                    (length (heap st1)))).
  { eexists. unfold st2. simpl heap. apply lookup_snoc_fresh. }
  destruct Hcur as (name & Hcur).
  eapply wlp_mono; [apply (merge_tail_emits (fst kv) p _ cur_v _ _ _ st2 Hcur)|].
  intros u st' (Hh & Hv & Hq & Hs). simpl in Hh, Hv, Hq, Hs.
  unfold step_emits. split; [|split].
  - intros q nm Hq0. rewrite Hh. unfold st2. simpl heap.
    assert (Hlt : q < length (heap st)).
    { destruct (heap st !! q) eqn:E; [|discriminate].
      apply lookup_lt_Some in E. exact E. }
    rewrite list_lookup_insert_ne
      by (unfold cur_v; rewrite length_app, Hh1; simpl; lia).
    rewrite <- app_assoc, lookup_app_l by (rewrite Hh1; lia).
    rewrite Hh1. exact Hq0.
  - intros k' Hk. rewrite Hs. unfold st2. simpl scopes_.
    rewrite !find_scope_alter_status. exact (Ho1 k' Hk).
  - apply (emits_for_one (fst kv) st st' cur_v (length (heap st1))).
    + rewrite Hq. unfold st2. simpl. rewrite Hq1. reflexivity.
    + rewrite Hh. unfold st2. simpl heap. simpl var_version_idx.
      rewrite list_lookup_insert_eq
        by (unfold cur_v; rewrite !length_app; simpl; lia).
      rewrite Hv1. reflexivity.
    + rewrite Hv. unfold st2. simpl. rewrite Hv1. reflexivity.
Qed.

(** A merge over a map in key order emits for the merged keys in that
    order. *)
Lemma for_each_emits {V} (f : leaf * V -> M unit) (always : bool) :
  (forall kv st,
     wlp (f kv)
         (fun _ st' =>
            step_emits (fst kv) (always || is_visible st (fst kv)) st st') st) ->
  forall vars : omap V,
    OMap.sorted vars ->
    forall st,
      wlp (for_each f vars)
          (fun _ st' => names_kept st st'
                        /\ emits_for (merged_keys always st vars) st st') st.
Proof.
  intros Hf vars Hs. induction Hs as [|k v m Hall Hs IH]; intros st; simpl.
  - apply wlp_ret. split; [apply names_kept_refl|apply emits_for_nil; reflexivity].
  - apply wlp_bind. eapply wlp_mono; [apply Hf|].
    intros u st1 (Hn1 & Ho1 & He1). simpl fst in *.
    eapply wlp_mono; [apply IH|].
    intros u' st' (Hn2 & He2). simpl in Hn2, He2.
    split; [exact (names_kept_trans _ _ _ Hn1 Hn2)|].
    assert (Hkeys : merged_keys always st1 m = merged_keys always st m).
    { unfold merged_keys. f_equal. apply List.filter_ext_in. intros kv Hin.
      f_equal. unfold is_visible. rewrite Ho1; [reflexivity|].
      rewrite List.Forall_forall in Hall. specialize (Hall kv Hin). simpl in Hall.
      intros [H1 _]. congruence. }
    rewrite Hkeys in He2. unfold merged_keys at 1. simpl.
    destruct (always || is_visible st k); simpl.
    + exact (emits_for_app [k] _ _ _ _ He1 Hn2 He2).
    + exact (emits_for_app [] _ _ _ _ He1 Hn2 He2).
Qed.

Lemma collect_arm_frame (vars : omap ssa_var_status_t) :
  forall (upd : omap (list (option id))) (st : impl),
    wlp (collect_arm vars upd)
        (fun m st' => m = collect_values vars upd
                      /\ heap st' = heap st
                      /\ stmts_to_insert_after st' = stmts_to_insert_after st
                      /\ var_version_idx st' = var_version_idx st) st.
Proof.
  induction vars as [|kv vars IH]; intros upd st; simpl.
  - apply wlp_ret. repeat split.
  - apply wlp_bind, lookup_for_update_others. intros p st1 _ _ Hst1.
    apply wlp_bind, wlp_write_status.
    eapply wlp_mono; [apply IH|].
    intros m st' (Hm & Hh & Hq & Hv). simpl in Hh, Hq, Hv.
    split; [exact Hm|]. rewrite Hh, Hq, Hv, Hst1. repeat split.
Qed.

Lemma merged_keys_all {V} (st : impl) (m : omap V) :
  merged_keys true st m = map fst m.
Proof.
  unfold merged_keys. simpl. f_equal.
  induction m as [|kv m IH]; simpl; [reflexivity|]. rewrite IH. reflexivity.
Qed.

Lemma if_else_merge_emits (then_vars else_vars : omap ssa_var_status_t)
    (st : impl) :
  wlp (if_else_merge then_vars else_vars)
      (fun _ st' =>
         emits_for (map fst (collect_values else_vars
                               (collect_values then_vars []))) st st') st.
Proof.
  unfold if_else_merge.
  apply wlp_bind. eapply wlp_mono; [apply collect_arm_frame|].
  intros m1 st1 (-> & Hh1 & Hq1 & Hv1). simpl in Hh1, Hq1, Hv1.
  apply wlp_bind. eapply wlp_mono; [apply collect_arm_frame|].
  intros m2 st2 (-> & Hh2 & Hq2 & Hv2). simpl in Hh2, Hq2, Hv2.
  eapply wlp_mono.
  { apply (for_each_emits merge_updated_var true merge_updated_var_emits).
    apply sorted_collect_values, sorted_collect_values. constructor. }
  intros u st' (_ & He). simpl in He. rewrite merged_keys_all in He.
  apply (emits_for_from _ st st2); [congruence|congruence|exact He].
Qed.

Lemma merged_keys_in_order {V} (always : bool) (st : impl) (vars : omap V) :
  OMap.sorted vars -> in_key_order (merged_keys always st vars).
Proof.
  unfold in_key_order, merged_keys.
  induction 1 as [|k v m Hall Hs IH]; simpl; [constructor|].
  destruct (always || is_visible st k); simpl; [|exact IH].
  constructor; [|exact IH].
  rewrite List.Forall_forall in *. intros [k' []] Hin. simpl.
  apply in_map_iff in Hin as (k2 & E & Hin). inversion E; subst k2.
  apply in_map_iff in Hin as (kv & E' & Hin). subst k'.
  apply List.filter_In in Hin as [Hin _]. exact (Hall kv Hin).
Qed.

(** The close of a for-loop statement: the map of the popped scope is in
    key order, and the merge emits for its visible keys in that order. *)
Lemma for_loop_emits a v b e s body inc kd (st : impl) r st' :
  stack_ok (scopes_ st) ->
  dispatch_stmt (s_for_loop a v b e s body inc kd) st = OK (r, st') ->
  exists x st_body below scope,
    loop_body_run v b e s body st = OK (x, st_body)
    /\ scopes_ st_body = below ++ [scope]
    /\ OMap.sorted (vars_ scope)
    /\ emits_for (merged_keys false (set_scopes below st_body) (vars_ scope))
                 st_body st'.
Proof.
  intros Hok E.
  rewrite for_loop_run in E. unfold bind at 1 in E.
  destruct (loop_body_run v b e s body st) as [[x st_body]|] eqn:Ex;
    [|discriminate].
  unfold bind at 1 in E. unfold pop_scope at 1 in E.
  destruct (last (scopes_ st_body)) as [scope|] eqn:Hlast; [|discriminate].
  destruct (last_snoc_inv _ _ Hlast) as (below & Hstack).
  rewrite Hstack, removelast_last in E.
  unfold bind in E.
  destruct (for_each for_loop_merge_entry (vars_ scope) (set_scopes below st_body))
    as [[[] st1]|] eqn:Em; [|discriminate].
  destruct x as [[[[begin_ end_] step] thevar] body'].
  inversion E; subst st1 r.
  destruct (loop_body_run_scope _ _ _ _ _ _ _ _ _ _ Ex Hstack) as (_ & _ & Hs).
  destruct (Hs Hok) as (_ & Hsorted).
  exists (begin_, end_, step, thevar, body'), st_body, below, scope.
  split; [reflexivity|]. split; [exact Hstack|]. split; [exact Hsorted|].
  destruct (for_each_emits for_loop_merge_entry false for_loop_merge_entry_emits
              (vars_ scope) Hsorted _ tt st' Em) as (_ & He).
  apply (emits_for_from _ st_body (set_scopes below st_body));
    [reflexivity|reflexivity|exact He].
Qed.



